(** * SharcDelayAlpha: the stereo feedback delay line of [PluginProcessor.h]

    A shallow embedding of [SharcDelayLine] (lifecycle, parameter setters,
    the scalar and the SIMD block processors) and of the call made by
    [SharcEchoAudioProcessor::processBlock], followed by the properties
    established about them.

    Modelling conventions.
    - Samples, gains and the sample rate are exact rationals ([Q]); the
      rounding of [float] and [double] is outside the embedding.
    - [int] values are integers ([Z]); a conversion from a real value to
      [int] is defined only when the truncated value fits 32 bits.
    - The delay lines are [std::vector<float>], modelled as [list Q]; the
      caller's sample arrays live in a block memory addressed by pointers
      (block, offset), so that a call whose output pointers equal its input
      pointers (as [processBlock] makes it) is expressible.  An access
      outside an array is undefined in C++ and is the outcome
      [Undefined] here.
    - Every access to a delay line (with the value, for a store), every
      store through an output pointer and every segment of the SIMD path
      is recorded in a ghost trace.
    - A SIMD register is the list of its lanes; the vector width is a
      parameter, and the outer [while] of the SIMD path runs on fuel.
    - [SIMD::fromRawArray] and [copyToRawArray] take the address of a
      memory-aligned array.  Every array (a delay line, a block of the
      caller's memory) is taken to start at an aligned address, so that a
      register access at element offset [o] of an array is aligned
      exactly when the vector width divides [o]; an access at another
      offset is [Undefined].  A caller's array that starts elsewhere is a
      pointer at a non-zero offset into a block.
    - Not modelled: [ScopedNoDenormals], the CPU meter, the saving and
      loading of the parameter tree and the editor. *)

From Stdlib Require Import ZArith QArith Qround Lia Lqa List Bool.
From stdpp Require Import base list strings.
Import ListNotations.

Local Open Scope Z_scope.

(** ** Numeric helpers: the JUCE templates and the C++ conversions *)

Module Juce.

(** [a < b] on samples, as a boolean. *)
Definition Qltb (a b : Q) : bool := negb (Qle_bool b a).

(** [juce::jlimit (lowerLimit, upperLimit, valueToConstrain)]. *)
Definition jlimit (lowerLimit upperLimit valueToConstrain : Q) : Q :=
  if Qltb valueToConstrain lowerLimit then lowerLimit
  else if Qltb upperLimit valueToConstrain then upperLimit
  else valueToConstrain.

(** [juce::jlimit] at type [int]. *)
Definition jlimit_int (lowerLimit upperLimit valueToConstrain : Z) : Z :=
  if valueToConstrain <? lowerLimit then lowerLimit
  else if upperLimit <? valueToConstrain then upperLimit
  else valueToConstrain.

(** [juce::jmin (a, b)] at type [int]: [(b < a) ? b : a]. *)
Definition jmin_int (a b : Z) : Z := if b <? a then b else a.

(** One lane of [SIMDRegister<float>::min (a, b)]: [a < b ? a : b]. *)
Definition lane_min (a b : Q) : Q := if Qltb a b then a else b.

(** One lane of [SIMDRegister<float>::max (a, b)]: [a > b ? a : b]. *)
Definition lane_max (a b : Q) : Q := if Qltb b a then a else b.

End Juce.

Module Cxx.

Definition INT_MIN : Z := - 2 ^ 31.
Definition INT_MAX : Z := 2 ^ 31 - 1.

(** Truncation toward zero of a rational. *)
Definition Qtrunc (x : Q) : Z := Z.quot (Qnum x) (Zpos (Qden x)).

(** [static_cast<int>(x)] for a floating value [x]: the fractional part
    is discarded; the conversion is undefined when the result does not
    fit an [int]. *)
Definition static_cast_int (x : Q) : option Z :=
  let t := Qtrunc x in
  if (INT_MIN <=? t) && (t <=? INT_MAX) then Some t else None.

(** [std::vector<float>::resize (n)]: keeps the first [n] elements and
    appends zeros up to length [n]. *)
Definition resize (v : list Q) (n : nat) : list Q :=
  firstn n v ++ repeat 0%Q (n - length v)%nat.

(** [std::fill (v.begin(), v.end(), x)]. *)
Definition fill (v : list Q) (x : Q) : list Q := map (fun _ => x) v.

End Cxx.

(** ** The engine state: the data members of [SharcDelayLine] *)

Record SharcDelayLine : Type := mkSharcDelayLine {
  delayLineLeft : list Q;
  delayLineRight : list Q;
  maxDelaySamples : Z;
  delaySamples : Z;
  delayIndex : Z;
  feedback : Q;
  wetMix : Q;
  dryMix : Q;
  sRate : Q;
  prepared : bool
}.

(** The default member initialisers (a default-constructed engine). *)
Definition defaultDelayLine : SharcDelayLine :=
  {| delayLineLeft := []; delayLineRight := [];
     maxDelaySamples := 240000; delaySamples := 48000; delayIndex := 0;
     feedback := 3 # 10; wetMix := 1 # 2; dryMix := 1 # 2;
     sRate := 48000 # 1; prepared := false |}.

(** ** Lifecycle and parameter setters *)

(** [reset()]: both delay lines filled with zero, cursor to 0. *)
Definition reset (e : SharcDelayLine) : SharcDelayLine :=
  {| delayLineLeft := Cxx.fill (delayLineLeft e) 0%Q;
     delayLineRight := Cxx.fill (delayLineRight e) 0%Q;
     maxDelaySamples := maxDelaySamples e;
     delaySamples := delaySamples e;
     delayIndex := 0;
     feedback := feedback e; wetMix := wetMix e; dryMix := dryMix e;
     sRate := sRate e; prepared := prepared e |}.

(** [prepare (sRate, maxDelaySeconds)].  [None] when the conversion to
    [int] is undefined or when the size handed to [resize] is the
    conversion of a negative [int] to [size_t] (the allocation throws). *)
Definition prepare (sr maxDelaySeconds : Q) (e : SharcDelayLine)
  : option SharcDelayLine :=
  match Cxx.static_cast_int (sr * maxDelaySeconds)%Q with
  | None => None
  | Some m =>
      if m <? 0 then None
      else
        let e1 :=
          {| delayLineLeft := Cxx.resize (delayLineLeft e) (Z.to_nat m);
             delayLineRight := Cxx.resize (delayLineRight e) (Z.to_nat m);
             maxDelaySamples := m;
             delaySamples := delaySamples e;
             delayIndex := delayIndex e;
             feedback := feedback e; wetMix := wetMix e; dryMix := dryMix e;
             sRate := sr; prepared := prepared e |} in
        let e2 := reset e1 in
        Some {| delayLineLeft := delayLineLeft e2;
                delayLineRight := delayLineRight e2;
                maxDelaySamples := maxDelaySamples e2;
                delaySamples := delaySamples e2;
                delayIndex := delayIndex e2;
                feedback := feedback e2; wetMix := wetMix e2;
                dryMix := dryMix e2;
                sRate := sRate e2; prepared := true |}
  end.

(** [setDelaySeconds (seconds)].  [None] when the conversion to [int] is
    undefined. *)
Definition setDelaySeconds (seconds : Q) (e : SharcDelayLine)
  : option SharcDelayLine :=
  match Cxx.static_cast_int (seconds * sRate e)%Q with
  | None => None
  | Some d =>
      Some {| delayLineLeft := delayLineLeft e;
              delayLineRight := delayLineRight e;
              maxDelaySamples := maxDelaySamples e;
              delaySamples := Juce.jlimit_int 1 (maxDelaySamples e) d;
              delayIndex := delayIndex e;
              feedback := feedback e; wetMix := wetMix e; dryMix := dryMix e;
              sRate := sRate e; prepared := prepared e |}
  end.

Definition setFeedback (fb : Q) (e : SharcDelayLine) : SharcDelayLine :=
  {| delayLineLeft := delayLineLeft e; delayLineRight := delayLineRight e;
     maxDelaySamples := maxDelaySamples e; delaySamples := delaySamples e;
     delayIndex := delayIndex e;
     feedback := Juce.jlimit 0 (99 # 100) fb;
     wetMix := wetMix e; dryMix := dryMix e;
     sRate := sRate e; prepared := prepared e |}.

Definition setWetMix (wet : Q) (e : SharcDelayLine) : SharcDelayLine :=
  {| delayLineLeft := delayLineLeft e; delayLineRight := delayLineRight e;
     maxDelaySamples := maxDelaySamples e; delaySamples := delaySamples e;
     delayIndex := delayIndex e;
     feedback := feedback e;
     wetMix := Juce.jlimit 0 1 wet; dryMix := dryMix e;
     sRate := sRate e; prepared := prepared e |}.

Definition setDryMix (dry : Q) (e : SharcDelayLine) : SharcDelayLine :=
  {| delayLineLeft := delayLineLeft e; delayLineRight := delayLineRight e;
     maxDelaySamples := maxDelaySamples e; delaySamples := delaySamples e;
     delayIndex := delayIndex e;
     feedback := feedback e;
     wetMix := wetMix e; dryMix := Juce.jlimit 0 1 dry;
     sRate := sRate e; prepared := prepared e |}.

(** ** Caller memory, outcomes and the ghost trace *)

(** A pointer into the caller's sample arrays: an array (block) and an
    element offset.  Two pointers are equal exactly when they designate
    the same [float]. *)
Record ptr : Type := mkPtr { blk : nat; ofs : Z }.

Definition ptr_add (p : ptr) (n : Z) : ptr :=
  {| blk := blk p; ofs := ofs p + n |}.

Abbreviation memory := (list (list Q)).

Definition load (m : memory) (p : ptr) : option Q :=
  if ofs p <? 0 then None
  else match m !! blk p with
       | Some b => b !! Z.to_nat (ofs p)
       | None => None
       end.

Definition store (m : memory) (p : ptr) (x : Q) : option memory :=
  if ofs p <? 0 then None
  else match m !! blk p with
       | Some b =>
           if (Z.to_nat (ofs p) <? length b)%nat
           then Some (<[blk p := <[Z.to_nat (ofs p) := x]> b]> m)
           else None
       | None => None
       end.

(** Element access of a [std::vector<float>] through [data()]. *)
Definition vec_get (v : list Q) (i : Z) : option Q :=
  if i <? 0 then None else v !! Z.to_nat i.

Definition vec_set (v : list Q) (i : Z) (x : Q) : option (list Q) :=
  if (0 <=? i) && (i <? Z.of_nat (length v))
  then Some (<[Z.to_nat i := x]> v) else None.

Inductive channel : Type := ChLeft | ChRight.

Inductive event : Type :=
| EvSegment (samplesToEdge : Z)
| EvDelayRead (c : channel) (i : Z)
| EvDelayWrite (c : channel) (i : Z) (x : Q)
| EvOutput (c : channel) (p : ptr).

(** What a call does: it returns, or it performs an undefined operation
    (an access outside an array, a conversion out of range), or the loop
    bound given to the model is exhausted. *)
Inductive result (A : Type) : Type :=
| Ok (a : A)
| Undefined
| OutOfFuel.
Arguments Ok {A} a.
Arguments Undefined {A}.
Arguments OutOfFuel {A}.

(** What a block processor works on: the two delay lines
    ([bufferLeft], [bufferRight] in the source), the caller's arrays and
    the trace. *)
Record machine : Type := mkMachine {
  bufferLeft : list Q;
  bufferRight : list Q;
  audio : memory;
  trace : list event
}.

Definition M (A : Type) : Type := machine -> result (A * machine).

Definition ret {A} (a : A) : M A := fun s => Ok (a, s).

Definition bind {A B} (c : M A) (k : A -> M B) : M B :=
  fun s => match c s with
           | Ok (a, s') => k a s'
           | Undefined => Undefined
           | OutOfFuel => OutOfFuel
           end.

Declare Scope delay_scope.
Delimit Scope delay_scope with delay.
Notation "x <- c ;; k" := (bind c (fun x => k))
  (at level 100, c at next level, right associativity) : delay_scope.
Notation "c ;;; k" := (bind c (fun _ => k))
  (at level 100, right associativity) : delay_scope.
Local Open Scope delay_scope.

Definition line (c : channel) (s : machine) : list Q :=
  match c with ChLeft => bufferLeft s | ChRight => bufferRight s end.

Definition note (ev : event) (s : machine) : machine :=
  {| bufferLeft := bufferLeft s; bufferRight := bufferRight s;
     audio := audio s; trace := trace s ++ [ev] |}.

(** [buffer[i]] read. *)
Definition readDelay (c : channel) (i : Z) : M Q :=
  fun s => match vec_get (line c s) i with
           | Some x => Ok (x, note (EvDelayRead c i) s)
           | None => Undefined
           end.

(** [buffer[i] = x]. *)
Definition writeDelay (c : channel) (i : Z) (x : Q) : M unit :=
  fun s => match vec_set (line c s) i x with
           | Some v =>
               Ok (tt,
                   match c with
                   | ChLeft =>
                       {| bufferLeft := v; bufferRight := bufferRight s;
                          audio := audio s;
                          trace := trace s ++ [EvDelayWrite c i x] |}
                   | ChRight =>
                       {| bufferLeft := bufferLeft s; bufferRight := v;
                          audio := audio s;
                          trace := trace s ++ [EvDelayWrite c i x] |}
                   end)
           | None => Undefined
           end.

(** [*p] read. *)
Definition readAudio (p : ptr) : M Q :=
  fun s => match load (audio s) p with
           | Some x => Ok (x, s)
           | None => Undefined
           end.

(** [*p = x], through the output pointer of channel [c]. *)
Definition writeAudio (c : channel) (p : ptr) (x : Q) : M unit :=
  fun s => match store (audio s) p x with
           | Some m =>
               Ok (tt, {| bufferLeft := bufferLeft s;
                          bufferRight := bufferRight s;
                          audio := m; trace := trace s ++ [EvOutput c p] |})
           | None => Undefined
           end.

Definition noteSegment (samplesToEdge : Z) : M unit :=
  fun s => Ok (tt, note (EvSegment samplesToEdge) s).

Definition outOfFuel {A} : M A := fun _ => OutOfFuel.

Definition undefined {A} : M A := fun _ => Undefined.

(** The four sample pointers of a call. *)
Record io : Type := mkIo {
  inputLeft : ptr; inputRight : ptr; outputLeft : ptr; outputRight : ptr
}.

Definition io_add (p : io) (n : Z) : io :=
  {| inputLeft := ptr_add (inputLeft p) n;
     inputRight := ptr_add (inputRight p) n;
     outputLeft := ptr_add (outputLeft p) n;
     outputRight := ptr_add (outputRight p) n |}.

(** ** The block processors *)

Section Block.

(** The locals read from the engine at the start of a block. *)
Variables (len : Z) (fb wet dry : Q).

(** The body shared by the loop of [processBlockScalar] (at
    [inputLeft[i]] ...) and by the scalar tail of [processBlockSIMD]
    (at [*inputLeft] ...): read the delayed pair, store the two mixed
    outputs, read the inputs again for the recurrence, clip, store. *)
Definition scalarSample (p : io) (idx : Z) : M unit :=
  delayedLeft <- readDelay ChLeft idx ;;
  delayedRight <- readDelay ChRight idx ;;
  xl <- readAudio (inputLeft p) ;;
  writeAudio ChLeft (outputLeft p) (xl * dry + delayedLeft * wet)%Q ;;;
  xr <- readAudio (inputRight p) ;;
  writeAudio ChRight (outputRight p) (xr * dry + delayedRight * wet)%Q ;;;
  xl' <- readAudio (inputLeft p) ;;
  xr' <- readAudio (inputRight p) ;;
  let newLeft := (xl' + fb * delayedLeft)%Q in
  let newRight := (xr' + fb * delayedRight)%Q in
  writeDelay ChLeft idx (Juce.jlimit (-1) 1 newLeft) ;;;
  writeDelay ChRight idx (Juce.jlimit (-1) 1 newRight).

(** [if (++idx >= len) idx = 0]. *)
Definition advance (idx : Z) : Z :=
  if idx + 1 >=? len then 0 else idx + 1.

(** [for (int i = ...; i < numSamples; ++i)], [n] iterations left. *)
Fixpoint scalarLoop (n : nat) (p : io) (i idx : Z) : M Z :=
  match n with
  | O => ret idx
  | S n' =>
      scalarSample (io_add p i) idx ;;;
      scalarLoop n' p (i + 1) (advance idx)
  end.

(** *** The SIMD path *)

Variable simdWidth : Z.

Definition lanes : list Z := map Z.of_nat (seq 0 (Z.to_nat simdWidth)).

Fixpoint mapM {A B} (f : A -> M B) (l : list A) : M (list B) :=
  match l with
  | [] => ret []
  | a :: l' => b <- f a ;; bs <- mapM f l' ;; ret (b :: bs)
  end.

Fixpoint forM {A} (f : A -> M unit) (l : list A) : M unit :=
  match l with
  | [] => ret tt
  | a :: l' => f a ;;; forM f l'
  end.

(** [SIMD (x)]: all lanes equal. *)
Definition splat (x : Q) : list Q := repeat x (Z.to_nat simdWidth).

Definition vadd : list Q -> list Q -> list Q := zip_with Qplus.
Definition vmul : list Q -> list Q -> list Q := zip_with Qmult.
Definition vmin : list Q -> list Q -> list Q := zip_with Juce.lane_min.
Definition vmax : list Q -> list Q -> list Q := zip_with Juce.lane_max.

(** [SIMD::isSIMDAligned], on the element offset of an address in its
    array: the offset is a multiple of the vector width. *)
Definition isSIMDAligned (offset : Z) : bool := offset mod simdWidth =? 0.

(** [SIMD::fromRawArray (buffer + offset)]: an aligned load of
    [simdWidth] consecutive elements. *)
Definition fromRawDelay (c : channel) (offset : Z) : M (list Q) :=
  if isSIMDAligned offset
  then mapM (fun k => readDelay c (offset + k)) lanes
  else undefined.

(** [SIMD::fromRawArray (p)]. *)
Definition fromRawArray (p : ptr) : M (list Q) :=
  if isSIMDAligned (ofs p)
  then mapM (fun k => readAudio (ptr_add p k)) lanes
  else undefined.

(** [v.copyToRawArray (buffer + offset)]: an aligned store. *)
Definition copyToRawDelay (c : channel) (offset : Z) (v : list Q) : M unit :=
  if isSIMDAligned offset
  then forM (fun kx => writeDelay c (offset + fst kx) (snd kx)) (zip lanes v)
  else undefined.

(** [v.copyToRawArray (p)]. *)
Definition copyToRawArray (c : channel) (p : ptr) (v : list Q) : M unit :=
  if isSIMDAligned (ofs p)
  then forM (fun kx => writeAudio c (ptr_add p (fst kx)) (snd kx))
         (zip lanes v)
  else undefined.

(** The body of the SIMD main loop at [offset]. *)
Definition simdChunk (p : io) (offset : Z) : M unit :=
  let dryVec := splat dry in
  let wetVec := splat wet in
  let fbVec := splat fb in
  let clipMin := splat (-1) in
  let clipMax := splat 1 in
  delayedLeftVec <- fromRawDelay ChLeft offset ;;
  delayedRightVec <- fromRawDelay ChRight offset ;;
  inputLeftVec <- fromRawArray (inputLeft p) ;;
  inputRightVec <- fromRawArray (inputRight p) ;;
  let outL := vadd (vmul inputLeftVec dryVec) (vmul delayedLeftVec wetVec) in
  let outR := vadd (vmul inputRightVec dryVec) (vmul delayedRightVec wetVec) in
  copyToRawArray ChLeft (outputLeft p) outL ;;;
  copyToRawArray ChRight (outputRight p) outR ;;;
  let newL := vadd inputLeftVec (vmul delayedLeftVec fbVec) in
  let newR := vadd inputRightVec (vmul delayedRightVec fbVec) in
  let newL := vmax clipMin (vmin clipMax newL) in
  let newR := vmax clipMin (vmin clipMax newR) in
  copyToRawDelay ChLeft offset newL ;;;
  copyToRawDelay ChRight offset newR.

(** [for (int chunk = ...; chunk < simdChunks; ++chunk)]; the pointers
    advance by [simdWidth] after each chunk. *)
Fixpoint simdLoop (n : nat) (p : io) (chunk idx : Z) : M io :=
  match n with
  | O => ret p
  | S n' =>
      simdChunk p (idx + chunk * simdWidth) ;;;
      simdLoop n' (io_add p simdWidth) (chunk + 1) idx
  end.

(** [for (int i = ...; i < scalarTail; ++i)]; pointers and [idx]
    advance by one. *)
Fixpoint tailLoop (n : nat) (p : io) (idx : Z) : M (io * Z) :=
  match n with
  | O => ret (p, idx)
  | S n' =>
      scalarSample p idx ;;;
      tailLoop n' (io_add p 1) (idx + 1)
  end.

(** [while (samplesRemaining > 0)], at most [fuel] iterations. *)
Fixpoint simdWhile (fuel : nat) (p : io) (samplesRemaining idx : Z) : M Z :=
  if samplesRemaining >? 0 then
    match fuel with
    | O => outOfFuel
    | S fuel' =>
        let samplesToEdge := Juce.jmin_int samplesRemaining (len - idx) in
        let simdChunks := Z.quot samplesToEdge simdWidth in
        let scalarTail := Z.rem samplesToEdge simdWidth in
        noteSegment samplesToEdge ;;;
        p1 <- simdLoop (Z.to_nat simdChunks) p 0 idx ;;
        let idx1 := idx + simdChunks * simdWidth in
        pi <- tailLoop (Z.to_nat scalarTail) p1 idx1 ;;
        let samplesRemaining' := samplesRemaining - samplesToEdge in
        let idx2 := if snd pi >=? len then 0 else snd pi in
        simdWhile fuel' (fst pi) samplesRemaining' idx2
    end
  else ret idx.

End Block.

(** What a call leaves behind: the engine, the caller's arrays and the
    trace of the call. *)
Record outcome : Type := mkOutcome {
  engine : SharcDelayLine;
  arrays : memory;
  events : list event
}.

Definition enter (e : SharcDelayLine) (m : memory) : machine :=
  {| bufferLeft := delayLineLeft e; bufferRight := delayLineRight e;
     audio := m; trace := [] |}.

(** [delayIndex = idx] on the engine whose vectors the block mutated. *)
Definition leave (e : SharcDelayLine) (r : result (Z * machine))
  : result outcome :=
  match r with
  | Ok (idx, s) =>
      Ok {| engine :=
              {| delayLineLeft := bufferLeft s;
                 delayLineRight := bufferRight s;
                 maxDelaySamples := maxDelaySamples e;
                 delaySamples := delaySamples e;
                 delayIndex := idx;
                 feedback := feedback e; wetMix := wetMix e;
                 dryMix := dryMix e;
                 sRate := sRate e; prepared := prepared e |};
            arrays := audio s;
            events := trace s |}
  | Undefined => Undefined
  | OutOfFuel => OutOfFuel
  end.

Definition processBlockScalar (e : SharcDelayLine) (p : io) (numSamples : Z)
  (m : memory) : result outcome :=
  if negb (prepared e) then Ok {| engine := e; arrays := m; events := [] |}
  else
    leave e
      (scalarLoop (delaySamples e) (feedback e) (wetMix e) (dryMix e)
         (Z.to_nat numSamples) p 0 (delayIndex e) (enter e m)).

Definition processBlockSIMD (simdWidth : Z) (fuel : nat)
  (e : SharcDelayLine) (p : io) (numSamples : Z) (m : memory)
  : result outcome :=
  if negb (prepared e) then Ok {| engine := e; arrays := m; events := [] |}
  else
    leave e
      (simdWhile (delaySamples e) (feedback e) (wetMix e) (dryMix e)
         simdWidth fuel p numSamples (delayIndex e) (enter e m)).

(** ** The audio callback of the plugin *)

(** The raw parameter values read at the start of a block; the two flags
    are the results of the comparisons with [0.5f]. *)
Record parameters : Type := mkParameters {
  par_delay : Q;
  par_feedback : Q;
  par_wet : Q;
  par_dry : Q;
  par_bypass : bool;
  par_simd : bool
}.

(** [buffer.getNumSamples()] of a stereo [AudioBuffer] whose channel [c]
    is block [c]. *)
Definition getNumSamples (buffer : memory) : Z :=
  match buffer !! 0%nat with
  | Some b => Z.of_nat (length b)
  | None => 0
  end.

(** [buffer.getReadPointer (c)] and [buffer.getWritePointer (c)] are the
    same address: the block is processed in place. *)
Definition inPlace : io :=
  {| inputLeft := mkPtr 0 0; inputRight := mkPtr 1 0;
     outputLeft := mkPtr 0 0; outputRight := mkPtr 1 0 |}.

(** [SharcEchoAudioProcessor::processBlock], without the CPU meter. *)
Definition processBlock (simdWidth : Z) (fuel : nat) (par : parameters)
  (delayLine : SharcDelayLine) (buffer : memory) : result outcome :=
  let numSamples := getNumSamples buffer in
  if par_bypass par
  then Ok {| engine := delayLine; arrays := buffer; events := [] |}
  else
    match setDelaySeconds (par_delay par) delayLine with
    | None => Undefined
    | Some d1 =>
        let d2 := setFeedback (par_feedback par) d1 in
        let d3 := setWetMix (par_wet par) d2 in
        let d4 := setDryMix (par_dry par) d3 in
        if par_simd par
        then processBlockSIMD simdWidth fuel d4 inPlace numSamples buffer
        else processBlockScalar d4 inPlace numSamples buffer
    end.

(** ** The specification's wording of the delay conversion *)

(** [round (x)] of C: to the nearest integer, halves away from zero. *)
Definition round_nearest (x : Q) : Z :=
  if Qle_bool 0 x then Qfloor (x + (1 # 2)) else Qceiling (x - (1 # 2)).

(** The delay length the specification announces for
    [setDelaySeconds (seconds)]. *)
Definition announcedDelaySamples (seconds : Q) (e : SharcDelayLine) : Z :=
  Juce.jlimit_int 1 (maxDelaySamples e) (round_nearest (seconds * sRate e)).

(** The engine after [prepare (44100.0, 0.01f)]. *)
Definition engine44100 : SharcDelayLine :=
  {| delayLineLeft := repeat 0%Q 441; delayLineRight := repeat 0%Q 441;
     maxDelaySamples := 441; delaySamples := 48000; delayIndex := 0;
     feedback := 3 # 10; wetMix := 1 # 2; dryMix := 1 # 2;
     sRate := 44100 # 1; prepared := true |}.


(** ** Consecutive calls *)

(** A call followed by another one on what the first left; the traces are
    concatenated. *)
Definition andThen (r : result outcome) (k : outcome -> result outcome)
  : result outcome :=
  match r with
  | Ok o =>
      match k o with
      | Ok o' =>
          Ok {| engine := engine o'; arrays := arrays o';
                events := events o ++ events o' |}
      | Undefined => Undefined
      | OutOfFuel => OutOfFuel
      end
  | Undefined => Undefined
  | OutOfFuel => OutOfFuel
  end.

(** Consecutive [processBlockScalar] calls of [ns] samples each, every
    call starting where the previous one stopped in the caller's
    arrays. *)
Fixpoint processBlocksScalar (e : SharcDelayLine) (p : io) (ns : list Z)
  (m : memory) : result outcome :=
  match ns with
  | [] => Ok {| engine := e; arrays := m; events := [] |}
  | n :: ns' =>
      andThen (processBlockScalar e p n m)
        (fun o => processBlocksScalar (engine o) (io_add p n) ns' (arrays o))
  end.

Definition total (ns : list Z) : Z := fold_right Z.add 0 ns.

(** *** The trace is write-only *)

Definition prepend (t : list event) (s : machine) : machine :=
  {| bufferLeft := bufferLeft s; bufferRight := bufferRight s;
     audio := audio s; trace := t ++ trace s |}.

Definition shift {A} (t : list event) (r : result (A * machine))
  : result (A * machine) :=
  match r with
  | Ok (a, s) => Ok (a, prepend t s)
  | Undefined => Undefined
  | OutOfFuel => OutOfFuel
  end.

(** A computation that never looks at the trace. *)
Definition uniform {A} (c : M A) : Prop :=
  forall t s, c (prepend t s) = shift t (c s).

Definition untraced (s : machine) : machine :=
  {| bufferLeft := bufferLeft s; bufferRight := bufferRight s;
     audio := audio s; trace := [] |}.


(** ** Clipped delay lines and engine histories *)

Definition in_unit (x : Q) : Prop := (-1 <= x /\ x <= 1)%Q.

(** Every element of both delay lines lies in [-1, 1]. *)
Definition clipped (e : SharcDelayLine) : Prop :=
  Forall in_unit (delayLineLeft e) /\ Forall in_unit (delayLineRight e).

(** Every value a trace records as stored into a delay line lies in
    [-1, 1]. *)
Definition stores_clipped (evs : list event) : Prop :=
  forall c i x, In (EvDelayWrite c i x) evs -> in_unit x.

(** The engines a client can obtain: construction, then any sequence of
    [prepare], [reset], setter and block-processing calls that return. *)
Inductive reachable : SharcDelayLine -> Prop :=
| reach_new : reachable defaultDelayLine
| reach_prepare sr maxDelaySeconds e e' :
    reachable e -> prepare sr maxDelaySeconds e = Some e' -> reachable e'
| reach_reset e : reachable e -> reachable (reset e)
| reach_setDelaySeconds seconds e e' :
    reachable e -> setDelaySeconds seconds e = Some e' -> reachable e'
| reach_setFeedback x e : reachable e -> reachable (setFeedback x e)
| reach_setWetMix x e : reachable e -> reachable (setWetMix x e)
| reach_setDryMix x e : reachable e -> reachable (setDryMix x e)
| reach_scalar e p n m o :
    reachable e -> processBlockScalar e p n m = Ok o -> reachable (engine o)
| reach_simd simdWidth fuel e p n m o :
    reachable e -> processBlockSIMD simdWidth fuel e p n m = Ok o ->
    reachable (engine o).

(** The invariant carried by the machine: clipped lines, clipped stores. *)
Definition mclipped (s : machine) : Prop :=
  Forall in_unit (bufferLeft s) /\ Forall in_unit (bufferRight s)
  /\ stores_clipped (trace s).

(** A computation that keeps an invariant [Inv] of the machine whenever
    it returns. *)
Definition preserves (Inv : machine -> Prop) {A} (c : M A) : Prop :=
  forall s a s', Inv s -> c s = Ok (a, s') -> Inv s'.

(** Both delay lines have [L] elements. *)
Definition sized (L : nat) (s : machine) : Prop :=
  length (bufferLeft s) = L /\ length (bufferRight s) = L.

(** The delay lines of a prepared engine have [maxDelaySamples]
    elements. *)
Definition well_sized (e : SharcDelayLine) : Prop :=
  prepared e = true ->
  length (delayLineLeft e) = Z.to_nat (maxDelaySamples e)
  /\ length (delayLineRight e) = Z.to_nat (maxDelaySamples e).

(** ** Reading a trace; well-formed calls *)

(** [a, a+1, ..., a+n-1]. *)
Definition zrange (a : Z) (n : nat) : list Z :=
  map (fun k => a + Z.of_nat k) (seq 0 n).

Definition channel_eqb (c c' : channel) : bool :=
  match c, c' with
  | ChLeft, ChLeft | ChRight, ChRight => true
  | _, _ => false
  end.

(** The [samplesToEdge] of the segments of a trace, in order. *)
Definition segmentsOf (evs : list event) : list Z :=
  flat_map (fun ev => match ev with EvSegment k => [k] | _ => [] end) evs.

(** The delay-line indices a trace accesses, in order. *)
Definition delayIndices (evs : list event) : list Z :=
  flat_map (fun ev => match ev with
                      | EvDelayRead _ i => [i]
                      | EvDelayWrite _ i _ => [i]
                      | _ => []
                      end) evs.

(** The addresses stored to through the output pointer of channel [c],
    in order. *)
Definition outputsOf (c : channel) (evs : list event) : list ptr :=
  flat_map (fun ev => match ev with
                      | EvOutput c' p => if channel_eqb c c' then [p] else []
                      | _ => []
                      end) evs.

(** What the properties of the SIMD path say of one event, for the loop
    length [len]. *)
Definition event_within (len : Z) (ev : event) : Prop :=
  match ev with
  | EvSegment k => 0 < k
  | EvDelayRead _ i => 0 <= i < len
  | EvDelayWrite _ i _ => 0 <= i < len
  | EvOutput _ _ => True
  end.

(** [p] points to at least [n] elements of an array of a memory whose
    arrays have the lengths [shp]. *)
Definition fits (shp : list nat) (p : ptr) (n : Z) : Prop :=
  0 <= ofs p
  /\ exists l, shp !! blk p = Some l /\ ofs p + n <= Z.of_nat l.

Definition valid (m : memory) (p : ptr) (n : Z) : Prop :=
  fits (map length m) p n.

(** The four pointers of a call each designate [n] elements. *)
Definition fits_io (shp : list nat) (p : io) (n : Z) : Prop :=
  fits shp (inputLeft p) n /\ fits shp (inputRight p) n
  /\ fits shp (outputLeft p) n /\ fits shp (outputRight p) n.

Definition valid_io (m : memory) (p : io) (n : Z) : Prop :=
  fits_io (map length m) p n.

(** The delay lines have [L] elements each and the caller's arrays the
    lengths [shp]. *)
Definition wf (L : nat) (shp : list nat) (s : machine) : Prop :=
  length (bufferLeft s) = L /\ length (bufferRight s) = L
  /\ map length (audio s) = shp.

(** Total correctness on well-formed machines: the computation returns,
    keeps the machine well formed, and its result and the events it
    appends to the trace satisfy [post]. *)
Definition okay (L : nat) (shp : list nat) {A} (c : M A)
  (post : A -> list event -> Prop) : Prop :=
  forall s, wf L shp s ->
    exists a s' evs,
      c s = Ok (a, s') /\ trace s' = trace s ++ evs /\ wf L shp s'
      /\ post a evs.

(** The entry condition of [processBlockSIMD]: a prepared engine whose
    cursor is inside the loop, whose loop is inside the delay lines, and
    whose delay lines have [maxDelaySamples] elements. *)
Definition simd_entry (e : SharcDelayLine) : Prop :=
  prepared e = true
  /\ 0 <= delayIndex e < delaySamples e
  /\ delaySamples e <= maxDelaySamples e
  /\ length (delayLineLeft e) = Z.to_nat (maxDelaySamples e)
  /\ length (delayLineRight e) = Z.to_nat (maxDelaySamples e).

(** The four pointers of a call are at offsets a register access
    accepts. *)
Definition io_aligned (simdWidth : Z) (p : io) : Prop :=
  ofs (inputLeft p) mod simdWidth = 0
  /\ ofs (inputRight p) mod simdWidth = 0
  /\ ofs (outputLeft p) mod simdWidth = 0
  /\ ofs (outputRight p) mod simdWidth = 0.

(** A block of [n] samples, entered with the cursor at [idx], makes no
    misaligned register access: it is shorter than a register, so that
    no register is loaded at all, or the cursor, the loop length and the
    offsets of the four pointers are multiples of the vector width, so
    that every segment starts on one. *)
Definition aligned_block (simdWidth len idx : Z) (p : io) (n : Z) : Prop :=
  n < simdWidth
  \/ (idx mod simdWidth = 0 /\ len mod simdWidth = 0
      /\ io_aligned simdWidth p).

(** The part of it a caller can break: the engine is prepared and its
    cursor is inside the loop, the loop inside the allocation. *)
Definition entry_condition (e : SharcDelayLine) : Prop :=
  prepared e = true
  /\ 0 <= delayIndex e < delaySamples e
  /\ delaySamples e <= maxDelaySamples e.

(** What is asked of the events of a stretch of a block: every event is
    within the loop length, and the stores through the two output
    pointers went to [outsL] and [outsR], in this order. *)
Definition block_post (len : Z) (outsL outsR : list ptr) (evs : list event)
  : Prop :=
  Forall (event_within len) evs
  /\ outputsOf ChLeft evs = outsL
  /\ outputsOf ChRight evs = outsR.

(** ** Concrete engines and calls *)

(** Input and output arrays apart: blocks 0 and 1 hold the inputs, blocks
    2 and 3 receive the outputs. *)
Definition apart : io :=
  {| inputLeft := mkPtr 0 0; inputRight := mkPtr 1 0;
     outputLeft := mkPtr 2 0; outputRight := mkPtr 3 0 |}.

Definition engine_of (r : result outcome) : SharcDelayLine :=
  match r with Ok o => engine o | _ => defaultDelayLine end.

Definition engine_or_default (r : option SharcDelayLine) : SharcDelayLine :=
  match r with Some e => e | None => defaultDelayLine end.

(** [prepare (8.0, 1.0f)] then [setDelaySeconds (1.0f)]: eight samples of
    delay line, all in the loop. *)
Definition engine8 : SharcDelayLine :=
  Eval vm_compute in
    engine_or_default
      (setDelaySeconds 1 (engine_or_default (prepare 8 1 defaultDelayLine))).

(** Three samples of ones through the scalar path of [engine8]: the
    cursor stands at 3. *)
Definition ones3 : memory :=
  [[1; 1; 1]%Q; [1; 1; 1]%Q; [0; 0; 0]%Q; [0; 0; 0]%Q].

(** Eight samples of ones to process, eight elements to receive them. *)
Definition ones8 : memory :=
  [repeat 1%Q 8; repeat 1%Q 8; repeat 0%Q 8; repeat 0%Q 8].

Definition engine8_at3 : SharcDelayLine :=
  Eval vm_compute in engine_of (processBlockScalar engine8 apart 3 ones3).

(** [setDelaySeconds (0.25f)] on it: the loop shrinks to two samples,
    below the cursor. *)
Definition engine8_shrunk : SharcDelayLine :=
  Eval vm_compute in engine_or_default (setDelaySeconds (1 # 4) engine8_at3).

(** Four samples of silence in every array. *)
Definition silence4 : memory :=
  [[0; 0; 0; 0]%Q; [0; 0; 0; 0]%Q; [0; 0; 0; 0]%Q; [0; 0; 0; 0]%Q].

(** ** The per-sample recurrence as the specification words it *)

(** One channel of a block: for each input sample [x], with [delayed]
    the element under the cursor, the output is [x * dry + delayed * wet],
    the element becomes [clamp (x + fb * delayed, -1, 1)], and the cursor
    advances, wrapping to 0 at [len].  Returns the outputs, the delay
    line and the cursor; [None] when the cursor leaves the delay line. *)
Fixpoint recurrence (len : Z) (fb wet dry : Q) (input buffer : list Q)
  (idx : Z) : option (list Q * list Q * Z) :=
  match input with
  | [] => Some ([], buffer, idx)
  | x :: input' =>
      match vec_get buffer idx with
      | None => None
      | Some delayed =>
          match vec_set buffer idx
                  (Juce.jlimit (-1) 1 (x + fb * delayed)%Q) with
          | None => None
          | Some buffer' =>
              match recurrence len fb wet dry input' buffer'
                      (advance len idx) with
              | Some (outs, b, i) =>
                  Some ((x * dry + delayed * wet)%Q :: outs, b, i)
              | None => None
              end
          end
      end
  end.

(** The engine after [prepareToPlay (8.0, ...)], which calls
    [prepare (8.0, 5.0f)]. *)
Definition plugin8 : SharcDelayLine :=
  Eval vm_compute in engine_or_default (prepare 8 5 defaultDelayLine).

(** The default parameter values but a one-second delay, scalar path. *)
Definition par_scalar : parameters :=
  {| par_delay := 1; par_feedback := 3 # 10; par_wet := 1 # 2;
     par_dry := 1 # 2; par_bypass := false; par_simd := false |}.

(** A quarter of a second of delay (two samples at 8 Hz), feedback 1/2,
    wet and dry at 1, scalar path. *)
Definition par_echo : parameters :=
  {| par_delay := 1 # 4; par_feedback := 1 # 2; par_wet := 1;
     par_dry := 1; par_bypass := false; par_simd := false |}.

(** The engine [processBlock] hands to the block processor under
    [par_echo]. *)
Definition echo8 : SharcDelayLine :=
  Eval vm_compute in
    setDryMix 1
      (setWetMix 1
         (setFeedback (1 # 2)
            (engine_or_default (setDelaySeconds (1 # 4) plugin8)))).

(** A unit impulse on the left channel followed by six samples of
    silence. *)
Definition impulse7 : list Q := [1; 0; 0; 0; 0; 0; 0]%Q.
Definition silence7 : list Q := [0; 0; 0; 0; 0; 0; 0]%Q.

(** The left channel of the caller's memory, in lowest terms. *)
Definition samples (blk : nat) (m : memory) : list Q :=
  match m !! blk with Some b => map Qred b | None => [] end.

(** ** Calls whose output arrays are apart from the input arrays *)

(** The [n] elements a pointer designates, as the memory has them. *)
Definition loads (m : memory) (p : ptr) (n : nat) : list (option Q) :=
  map (fun k => load m (ptr_add p k)) (zrange 0 n).

(** No output pointer shares its array with an input pointer or with
    the other output pointer. *)
Definition outputs_apart (p : io) : Prop :=
  blk (outputLeft p) <> blk (inputLeft p)
  /\ blk (outputLeft p) <> blk (inputRight p)
  /\ blk (outputRight p) <> blk (inputLeft p)
  /\ blk (outputRight p) <> blk (inputRight p)
  /\ blk (outputLeft p) <> blk (outputRight p).

(** ** The echoes of an impulse *)

(** [f ^ k]. *)
Fixpoint qpow (f : Q) (k : nat) : Q :=
  match k with
  | O => 1
  | S k' => f * qpow f k'
  end.

(** An impulse of amplitude [a] followed by [n] samples of silence. *)
Definition impulse (a : Q) (n : nat) : list Q := a :: repeat 0%Q n.

(** A delay line of [L] elements that holds (a value equal to) [v] in
    its first element and zero elsewhere. *)
Definition echo_state (L : nat) (v : Q) (buf : list Q) : Prop :=
  length buf = L
  /\ forall (j : nat) x, buf !! j = Some x ->
       (x == (if (j =? 0)%nat then v else 0))%Q.

(** ** The effect of a stretch of samples that does not wrap *)

(** Two machines that differ at most in their traces. *)
Definition same_state (s1 s2 : machine) : Prop :=
  bufferLeft s1 = bufferLeft s2 /\ bufferRight s1 = bufferRight s2
  /\ audio s1 = audio s2.

(** [q] is one of the [n] elements from [p] on. *)
Definition in_span (p : ptr) (n : Z) (q : ptr) : Prop :=
  blk q = blk p /\ ofs p <= ofs q < ofs p + n.

(** [s'] is [s] after the [n] samples at [p] have gone through the
    recurrence at the cursors [idx, ..., idx + n - 1], each sample
    reading the inputs and the delay lines as [s] has them: outputs and
    delay-line elements are as announced, and nothing else changed. *)
Definition segment_effect (fb wet dry : Q) (p : io) (idx : Z) (n : nat)
  (s s' : machine) : Prop :=
  length (bufferLeft s') = length (bufferLeft s)
  /\ length (bufferRight s') = length (bufferRight s)
  /\ map length (audio s') = map length (audio s)
  /\ (forall k : nat, (k < n)%nat ->
        exists xl xr dl dr,
          load (audio s) (ptr_add (inputLeft p) (Z.of_nat k)) = Some xl
          /\ load (audio s) (ptr_add (inputRight p) (Z.of_nat k)) = Some xr
          /\ vec_get (bufferLeft s) (idx + Z.of_nat k) = Some dl
          /\ vec_get (bufferRight s) (idx + Z.of_nat k) = Some dr
          /\ vec_get (bufferLeft s') (idx + Z.of_nat k)
             = Some (Juce.jlimit (-1) 1 (xl + fb * dl)%Q)
          /\ vec_get (bufferRight s') (idx + Z.of_nat k)
             = Some (Juce.jlimit (-1) 1 (xr + fb * dr)%Q)
          /\ load (audio s') (ptr_add (outputLeft p) (Z.of_nat k))
             = Some (xl * dry + dl * wet)%Q
          /\ load (audio s') (ptr_add (outputRight p) (Z.of_nat k))
             = Some (xr * dry + dr * wet)%Q)
  /\ (forall j : Z, ~ idx <= j < idx + Z.of_nat n ->
        vec_get (bufferLeft s') j = vec_get (bufferLeft s) j)
  /\ (forall j : Z, ~ idx <= j < idx + Z.of_nat n ->
        vec_get (bufferRight s') j = vec_get (bufferRight s) j)
  /\ (forall q, ~ in_span (outputLeft p) (Z.of_nat n) q ->
        ~ in_span (outputRight p) (Z.of_nat n) q ->
        load (audio s') q = load (audio s) q).

(** ** The plugin around the engine *)

(** [juce::NormalisableRange<float> (rangeStart, rangeEnd, intervalValue,
    skewFactor)]; the three-argument constructor leaves the skew at 1. *)
Record NormalisableRange : Type := mkNormalisableRange {
  rangeStart : Q;
  rangeEnd : Q;
  intervalValue : Q;
  skewFactor : Q
}.

(** The two kinds of parameter [createParameterLayout] declares, with the
    constructor arguments it gives. *)
Inductive RangedAudioParameter : Type :=
| AudioParameterFloat (parameterID : string) (versionHint : Z)
    (parameterName : string) (range : NormalisableRange) (defaultValue : Q)
    (label : string)
| AudioParameterBool (parameterID : string) (versionHint : Z)
    (parameterName : string) (defaultValue : bool).

(** [SharcEchoAudioProcessor::createParameterLayout]. *)
Definition createParameterLayout : list RangedAudioParameter :=
  [ AudioParameterFloat "delay" 1 "Delay Time"
      (mkNormalisableRange (1 # 1000) 5 (1 # 1000) (3 # 10)) 1 "s";
    AudioParameterFloat "feedback" 1 "Feedback"
      (mkNormalisableRange 0 (99 # 100) (1 # 100) 1) (3 # 10) EmptyString;
    AudioParameterFloat "wet" 1 "Wet Mix"
      (mkNormalisableRange 0 1 (1 # 100) 1) (1 # 2) EmptyString;
    AudioParameterFloat "dry" 1 "Dry Mix"
      (mkNormalisableRange 0 1 (1 # 100) 1) (1 # 2) EmptyString;
    AudioParameterBool "bypass" 1 "Bypass" false;
    AudioParameterBool "simd" 1 "Use SIMD" false ].

(** The range declared for the float parameter [parameterID]. *)
Definition rangeOf (parameterID : string) : option NormalisableRange :=
  match
    find (fun q => match q with
                   | AudioParameterFloat i _ _ _ _ _ => String.eqb i parameterID
                   | AudioParameterBool _ _ _ _ => false
                   end) createParameterLayout
  with
  | Some (AudioParameterFloat _ _ _ r _ _) => Some r
  | _ => None
  end.

(** [x] is a value the parameter [parameterID] can take. *)
Definition in_range (parameterID : string) (x : Q) : Prop :=
  match rangeOf parameterID with
  | Some r => (rangeStart r <= x /\ x <= rangeEnd r)%Q
  | None => False
  end.

(** The raw values [processBlock] reads are values of the declared
    parameters. *)
Definition within_layout (par : parameters) : Prop :=
  in_range "delay" (par_delay par)
  /\ in_range "feedback" (par_feedback par)
  /\ in_range "wet" (par_wet par)
  /\ in_range "dry" (par_dry par).

(** [SharcEchoAudioProcessor::prepareToPlay (sampleRate, samplesPerBlock)]:
    the engine is prepared for five seconds of delay.  What else it sets
    ([currentSampleRate], the smoother) feeds the CPU meter only. *)
Definition prepareToPlay (sampleRate : Q) (delayLine : SharcDelayLine)
  : option SharcDelayLine :=
  prepare sampleRate 5 delayLine.

(** What a host does with a processor. *)
Inductive hostCall : Type :=
| PrepareToPlay (sampleRate : Q)
| ProcessBlock (par : parameters) (buffer : memory).

(** A run of calls on the processor's engine; the buffers come back in
    the order of the [processBlock] calls. *)
Fixpoint host (simdWidth : Z) (fuel : nat) (calls : list hostCall)
  (delayLine : SharcDelayLine) : result (SharcDelayLine * list memory) :=
  match calls with
  | [] => Ok (delayLine, [])
  | PrepareToPlay sampleRate :: calls' =>
      match prepareToPlay sampleRate delayLine with
      | Some d => host simdWidth fuel calls' d
      | None => Undefined
      end
  | ProcessBlock par buffer :: calls' =>
      match processBlock simdWidth fuel par delayLine buffer with
      | Ok o =>
          match host simdWidth fuel calls' (engine o) with
          | Ok (d, outs) => Ok (d, arrays o :: outs)
          | Undefined => Undefined
          | OutOfFuel => OutOfFuel
          end
      | Undefined => Undefined
      | OutOfFuel => OutOfFuel
      end
  end.

(** The buffers a run hands to [processBlock], in order. *)
Definition buffersOf (calls : list hostCall) : list memory :=
  flat_map (fun c => match c with
                     | PrepareToPlay _ => []
                     | ProcessBlock _ buffer => [buffer]
                     end) calls.

(** A stereo [AudioBuffer]: two channels of one length. *)
Definition stereo (buffer : memory) : Prop :=
  exists l r, buffer = [l; r] /\ length l = length r.

(** What a host keeps to: a sample rate of at least 1 Hz whose five
    seconds fit an [int], a delay inside its declared range, stereo
    buffers. *)
Definition admissible (call : hostCall) : Prop :=
  match call with
  | PrepareToPlay sampleRate =>
      (1 <= sampleRate)%Q /\ Cxx.Qtrunc (sampleRate * 5) <= Cxx.INT_MAX
  | ProcessBlock par buffer =>
      in_range "delay" (par_delay par) /\ stereo buffer
  end.

Definition simd_off (call : hostCall) : Prop :=
  match call with
  | PrepareToPlay _ => True
  | ProcessBlock par _ => par_simd par = false
  end.

(** The longer of two delays. *)
Definition longest (a b : Q) : Q := if Qle_bool a b then b else a.

(** What keeps the cursor inside the loop and every register access
    aligned, from a sample rate [sr] and a cursor that is a multiple of
    the vector width: no callback comes with a delay shorter than [lo] or
    than the delay of an earlier callback since the last [prepareToPlay]
    (bypassed callbacks read no parameter); the length of its buffer is a
    multiple of the vector width; so is the loop length
    [setDelaySeconds] gives its delay under the capacity [prepareToPlay]
    gives at the sample rate; and the loop bound given to the SIMD path
    covers its buffer. *)
Fixpoint simd_guarded (simdWidth : Z) (fuel : nat) (sr lo : Q)
  (calls : list hostCall) : Prop :=
  match calls with
  | [] => True
  | PrepareToPlay sampleRate :: calls' =>
      simd_guarded simdWidth fuel sampleRate 0 calls'
  | ProcessBlock par buffer :: calls' =>
      if par_bypass par then simd_guarded simdWidth fuel sr lo calls'
      else
        (lo <= par_delay par)%Q
        /\ getNumSamples buffer mod simdWidth = 0
        /\ Juce.jlimit_int 1 (Cxx.Qtrunc (sr * 5))
             (Cxx.Qtrunc (par_delay par * sr)) mod simdWidth = 0
        /\ (par_simd par = true ->
            (Z.to_nat (getNumSamples buffer) <= fuel)%nat)
        /\ simd_guarded simdWidth fuel sr (par_delay par) calls'
  end.

(** The loop length [setDelaySeconds (seconds)] gives on [e]. *)
Definition loopLength (e : SharcDelayLine) (seconds : Q) : Z :=
  Juce.jlimit_int 1 (maxDelaySamples e) (Cxx.Qtrunc (seconds * sRate e)).

(** What every engine of a run satisfies: its capacity is five seconds at
    its sample rate, at least one sample; once prepared its delay lines
    have that capacity and its cursor is inside the loop of a delay of
    [lo] seconds. *)
Definition hosted (lo : Q) (e : SharcDelayLine) : Prop :=
  (0 <= lo)%Q
  /\ (0 <= sRate e)%Q
  /\ maxDelaySamples e = Cxx.Qtrunc (sRate e * 5)
  /\ 1 <= maxDelaySamples e <= Cxx.INT_MAX
  /\ (prepared e = true ->
        length (delayLineLeft e) = Z.to_nat (maxDelaySamples e)
        /\ length (delayLineRight e) = Z.to_nat (maxDelaySamples e)
        /\ 0 <= delayIndex e < loopLength e lo).

(** ** The gains of an engine *)

(** The three gains are inside the limits of their setters. *)
Definition gains_in_range (e : SharcDelayLine) : Prop :=
  (0 <= feedback e /\ feedback e <= 99 # 100)%Q
  /\ (0 <= wetMix e /\ wetMix e <= 1)%Q
  /\ (0 <= dryMix e /\ dryMix e <= 1)%Q.

(** ** Predicates every sample satisfies *)

(** Every element of the delay lines and of the caller's arrays
    satisfies [P]. *)
Definition all_samples (P : Q -> Prop) (s : machine) : Prop :=
  Forall P (bufferLeft s) /\ Forall P (bufferRight s)
  /\ Forall (Forall P) (audio s).

(** A computation that keeps [Inv] and whose result satisfies [R],
    whenever it returns. *)
Definition yields (Inv : machine -> Prop) {A} (R : A -> Prop) (c : M A)
  : Prop :=
  forall s a s', Inv s -> c s = Ok (a, s') -> Inv s' /\ R a.

Definition silent (x : Q) : Prop := (x == 0)%Q.

(** ** The scalar path in place *)

(** The output pointers are the input pointers, the two channels in
    different arrays: what [processBlock] passes. *)
Definition in_place (p : io) : Prop :=
  outputLeft p = inputLeft p /\ outputRight p = inputRight p
  /\ blk (inputLeft p) <> blk (inputRight p).

(** One channel of the scalar loop run in place: the value read back for
    the recurrence is the output just stored, so the element becomes
    [clamp (out + fb * delayed, -1, 1)] with
    [out = x * dry + delayed * wet]. *)
Fixpoint recurrenceInPlace (len : Z) (fb wet dry : Q) (input buffer : list Q)
  (idx : Z) : option (list Q * list Q * Z) :=
  match input with
  | [] => Some ([], buffer, idx)
  | x :: input' =>
      match vec_get buffer idx with
      | None => None
      | Some delayed =>
          let out := (x * dry + delayed * wet)%Q in
          match vec_set buffer idx
                  (Juce.jlimit (-1) 1 (out + fb * delayed)%Q) with
          | None => None
          | Some buffer' =>
              match recurrenceInPlace len fb wet dry input' buffer'
                      (advance len idx) with
              | Some (outs, b, i) => Some (out :: outs, b, i)
              | None => None
              end
          end
      end
  end.

(** ** Concrete runs *)

(** The SIMD path with a quarter of a second and with one second of
    delay. *)
Definition simd_quarter : parameters :=
  {| par_delay := 1 # 4; par_feedback := 1 # 2; par_wet := 1;
     par_dry := 1; par_bypass := false; par_simd := true |}.

Definition simd_second : parameters :=
  {| par_delay := 1; par_feedback := 1 # 2; par_wet := 1;
     par_dry := 1; par_bypass := false; par_simd := true |}.

(** The SIMD switch off: a callback before [prepareToPlay]; then, at
    8 Hz, three samples with one second of delay and one sample with a
    quarter of a second, which finds the cursor (3) beyond its loop of two
    samples. *)
Definition run_scalar : list hostCall :=
  [ ProcessBlock par_scalar [[1; 1]%Q; [1; 1]%Q];
    PrepareToPlay 8;
    ProcessBlock par_scalar [[1; 1; 1]%Q; [1; 1; 1]%Q];
    ProcessBlock par_echo [[1]%Q; [1]%Q] ].

Definition simd_half : parameters :=
  {| par_delay := 1 # 2; par_feedback := 1 # 2; par_wet := 1;
     par_dry := 1; par_bypass := false; par_simd := true |}.

(** At 8 Hz, delays that never shorten and whose loops (4 and 8 samples)
    are multiples of four, buffers of four, eight and twelve samples:
    half a second on the SIMD path, then one second on the scalar and on
    the SIMD path. *)
Definition run_simd : list hostCall :=
  [ PrepareToPlay 8;
    ProcessBlock simd_half [repeat 1%Q 8; repeat 1%Q 8];
    ProcessBlock par_scalar [repeat 1%Q 4; repeat 1%Q 4];
    ProcessBlock simd_second [repeat 1%Q 12; repeat 1%Q 12] ].

(** At 8 Hz with one second of delay on the SIMD path: three samples,
    then four. *)
Definition run_odd : list hostCall :=
  [ PrepareToPlay 8;
    ProcessBlock simd_second [[1; 1; 1]%Q; [1; 1; 1]%Q];
    ProcessBlock simd_second [repeat 1%Q 4; repeat 1%Q 4] ].

(** At 8 Hz, the delay shortened between two callbacks on the SIMD path:
    three samples with one second of delay, then one sample with a
    quarter of a second. *)
Definition run_shrink : list hostCall :=
  [ PrepareToPlay 8;
    ProcessBlock simd_second [[1; 1; 1]%Q; [1; 1; 1]%Q];
    ProcessBlock simd_quarter [[1]%Q; [1]%Q] ].

(** The engine of [prepare (8.0, 5.0f)] with a loop of two samples,
    feedback and wet gain at 1/4, dry gain at 1. *)
Definition echo_half : SharcDelayLine :=
  Eval vm_compute in
    setDryMix 1
      (setWetMix (1 # 4)
         (setFeedback (1 # 4)
            (engine_or_default (setDelaySeconds (1 # 4) plugin8)))).

(** [prepare (8.0, 1.0f)] on a new engine, no [setDelaySeconds] after
    it: eight samples of delay line under the default loop of 48000. *)
Definition engine8_fresh : SharcDelayLine :=
  Eval vm_compute in engine_or_default (prepare 8 1 defaultDelayLine).

(** Nine samples of silence in every array. *)
Definition silence9 : memory := repeat (repeat 0%Q 9) 4.

(** ** The same samples in buffers of different sizes *)

(** The default parameter values but a one-second delay, SIMD path. *)
Definition simd_default : parameters :=
  {| par_delay := 1; par_feedback := 3 # 10; par_wet := 1 # 2;
     par_dry := 1 # 2; par_bypass := false; par_simd := true |}.

Definition ones (n : nat) : memory := [repeat 1%Q n; repeat 1%Q n].

(** Twelve samples of ones at 8 Hz in one buffer, and in six buffers of
    two. *)
Definition run_whole (par : parameters) : list hostCall :=
  [ PrepareToPlay 8; ProcessBlock par (ones 12) ].

Definition run_pieces (par : parameters) : list hostCall :=
  PrepareToPlay 8 :: repeat (ProcessBlock par (ones 2)) 6.

(** The left channel of the buffers a run returned, end to end, in
    lowest terms. *)
Definition leftOf (r : result (SharcDelayLine * list memory)) : list Q :=
  match r with
  | Ok (_, outs) => flat_map (samples 0) outs
  | _ => []
  end.

(** [prepare (44100.0, 0.00001f)] on a new engine: less than one sample
    of capacity. *)
Definition engine_empty : SharcDelayLine :=
  Eval vm_compute in
    engine_or_default (prepare 44100 (1 # 100000) defaultDelayLine).

(** [y] lies within [-B, B]. *)
Definition within (B : Q) (y : Q) : Prop := (- B <= y /\ y <= B)%Q.
(** * Properties *)

(** ** Lifecycle *)

Lemma fill_repeat (v : list Q) (x : Q) :
  Cxx.fill v x = repeat x (length v).
Proof.
  unfold Cxx.fill. induction v as [|a v IH]; simpl; [reflexivity|].
  now rewrite IH.
Qed.

Lemma resize_length (v : list Q) (n : nat) : length (Cxx.resize v n) = n.
Proof.
  unfold Cxx.resize.
  rewrite length_app, length_take, repeat_length. lia.
Qed.

Lemma Qtrunc_floor (x : Q) : (0 <= x)%Q -> Cxx.Qtrunc x = Qfloor x.
Proof.
  destruct x as [n d]. unfold Qle, Cxx.Qtrunc, Qfloor. simpl.
  intros H. apply Z.quot_div_nonneg; lia.
Qed.

(** C9.  [reset()] leaves every element of both delay lines at zero (the
    lengths are kept) and the cursor at 0; the feedback, the two mix
    gains, [delaySamples], [maxDelaySamples], the sample rate and the
    prepared flag are those of the engine before the call. *)
Theorem reset_zeroes_and_keeps_parameters (e : SharcDelayLine) :
  delayLineLeft (reset e) = repeat 0%Q (length (delayLineLeft e))
  /\ delayLineRight (reset e) = repeat 0%Q (length (delayLineRight e))
  /\ delayIndex (reset e) = 0
  /\ feedback (reset e) = feedback e
  /\ wetMix (reset e) = wetMix e
  /\ dryMix (reset e) = dryMix e
  /\ delaySamples (reset e) = delaySamples e
  /\ maxDelaySamples (reset e) = maxDelaySamples e
  /\ sRate (reset e) = sRate e
  /\ prepared (reset e) = prepared e.
Proof.
  unfold reset; simpl. rewrite !fill_repeat. repeat split.
Qed.

(** C8.  For a non-negative product [sRate * maxDelaySeconds] whose
    integer part fits an [int], [prepare] returns, with
    [maxDelaySamples] the floor of the product, both delay lines exactly
    that long and zero everywhere, the cursor at 0 and the engine marked
    prepared. *)
Theorem prepare_allocates_zeroed_lines (sr maxDelaySeconds : Q)
  (e : SharcDelayLine) :
  (0 <= sr * maxDelaySeconds)%Q ->
  Qfloor (sr * maxDelaySeconds) <= Cxx.INT_MAX ->
  exists e',
    prepare sr maxDelaySeconds e = Some e'
    /\ maxDelaySamples e' = Qfloor (sr * maxDelaySeconds)
    /\ length (delayLineLeft e') = Z.to_nat (maxDelaySamples e')
    /\ length (delayLineRight e') = Z.to_nat (maxDelaySamples e')
    /\ delayLineLeft e' = repeat 0%Q (Z.to_nat (maxDelaySamples e'))
    /\ delayLineRight e' = repeat 0%Q (Z.to_nat (maxDelaySamples e'))
    /\ delayIndex e' = 0
    /\ prepared e' = true.
Proof.
  intros Hpos Hmax.
  assert (Hfl : 0 <= Qfloor (sr * maxDelaySeconds)).
  { change 0 with (Qfloor 0). now apply Qfloor_resp_le. }
  unfold prepare, Cxx.static_cast_int.
  rewrite (Qtrunc_floor _ Hpos).
  set (m := Qfloor (sr * maxDelaySeconds)) in *.
  assert (Hlo : (Cxx.INT_MIN <=? m) = true).
  { apply Z.leb_le. unfold Cxx.INT_MIN. lia. }
  assert (Hhi : (m <=? Cxx.INT_MAX) = true) by now apply Z.leb_le.
  rewrite Hlo, Hhi. simpl andb. cbv iota.
  assert (Hneg : (m <? 0) = false) by (apply Z.ltb_ge; lia).
  rewrite Hneg.
  eexists; split; [reflexivity|]. simpl.
  rewrite !fill_repeat, !resize_length, !repeat_length.
  repeat split.
Qed.

Lemma prepare_allocates_zeroed_lines_witness :
  exists e',
    prepare (44100 # 1) (5 # 1) defaultDelayLine = Some e'
    /\ maxDelaySamples e' = Qfloor ((44100 # 1) * (5 # 1))
    /\ length (delayLineLeft e') = Z.to_nat (maxDelaySamples e')
    /\ length (delayLineRight e') = Z.to_nat (maxDelaySamples e')
    /\ delayLineLeft e' = repeat 0%Q (Z.to_nat (maxDelaySamples e'))
    /\ delayLineRight e' = repeat 0%Q (Z.to_nat (maxDelaySamples e'))
    /\ delayIndex e' = 0
    /\ prepared e' = true.
Proof.
  apply (prepare_allocates_zeroed_lines (44100 # 1) (5 # 1) defaultDelayLine).
  - vm_compute. discriminate.
  - vm_compute. discriminate.
Defined.

(** C5.  On an engine that was never prepared, both block processors
    return at once: the engine, the caller's arrays (outputs included)
    are those given, and nothing was accessed. *)
Theorem unprepared_block_is_noop (simdWidth : Z) (fuel : nat)
  (e : SharcDelayLine) (p : io) (numSamples : Z) (m : memory) :
  prepared e = false ->
  processBlockScalar e p numSamples m
    = Ok {| engine := e; arrays := m; events := [] |}
  /\ processBlockSIMD simdWidth fuel e p numSamples m
    = Ok {| engine := e; arrays := m; events := [] |}.
Proof.
  intros H. unfold processBlockScalar, processBlockSIMD.
  rewrite H. split; reflexivity.
Qed.

Lemma unprepared_block_is_noop_witness :
  processBlockScalar defaultDelayLine inPlace 3 [[1; 1; 1]%Q; [1; 1; 1]%Q]
    = Ok {| engine := defaultDelayLine;
            arrays := [[1; 1; 1]%Q; [1; 1; 1]%Q]; events := [] |}
  /\ processBlockSIMD 4 0 defaultDelayLine inPlace 3
       [[1; 1; 1]%Q; [1; 1; 1]%Q]
    = Ok {| engine := defaultDelayLine;
            arrays := [[1; 1; 1]%Q; [1; 1; 1]%Q]; events := [] |}.
Proof.
  apply (unprepared_block_is_noop 4 0 defaultDelayLine inPlace 3).
  reflexivity.
Defined.

(** ** The delay conversion *)

Lemma jlimit_int_range (lo hi v : Z) :
  lo <= hi -> lo <= Juce.jlimit_int lo hi v <= hi.
Proof.
  intros H. unfold Juce.jlimit_int.
  destruct (Z.ltb_spec v lo); [lia|].
  destruct (Z.ltb_spec hi v); lia.
Qed.

(** C4, as the code has it.  When the integer part of
    [seconds * sRate] fits an [int], [setDelaySeconds] returns with
    [delaySamples] the product truncated toward zero (not rounded) and
    passed through [jlimit (1, maxDelaySamples, .)], hence within
    [1 .. maxDelaySamples] as soon as [maxDelaySamples] is at least 1;
    no other member changes. *)
Theorem setDelaySeconds_truncates (seconds : Q) (e : SharcDelayLine) :
  Cxx.INT_MIN <= Cxx.Qtrunc (seconds * sRate e) <= Cxx.INT_MAX ->
  exists e',
    setDelaySeconds seconds e = Some e'
    /\ delaySamples e'
       = Juce.jlimit_int 1 (maxDelaySamples e)
           (Cxx.Qtrunc (seconds * sRate e))
    /\ (1 <= maxDelaySamples e -> 1 <= delaySamples e' <= maxDelaySamples e)
    /\ delayLineLeft e' = delayLineLeft e
    /\ delayLineRight e' = delayLineRight e
    /\ maxDelaySamples e' = maxDelaySamples e
    /\ delayIndex e' = delayIndex e
    /\ feedback e' = feedback e /\ wetMix e' = wetMix e
    /\ dryMix e' = dryMix e
    /\ sRate e' = sRate e /\ prepared e' = prepared e.
Proof.
  intros [Hlo Hhi]. unfold setDelaySeconds, Cxx.static_cast_int.
  apply Z.leb_le in Hlo. apply Z.leb_le in Hhi. rewrite Hlo, Hhi.
  simpl andb. cbv iota.
  eexists; split; [reflexivity|]. simpl.
  repeat split; try reflexivity; now apply jlimit_int_range.
Qed.

Lemma setDelaySeconds_truncates_witness :
  exists e',
    setDelaySeconds (7 # 1000) defaultDelayLine = Some e'
    /\ delaySamples e'
       = Juce.jlimit_int 1 (maxDelaySamples defaultDelayLine)
           (Cxx.Qtrunc ((7 # 1000) * sRate defaultDelayLine))
    /\ (1 <= maxDelaySamples defaultDelayLine ->
        1 <= delaySamples e' <= maxDelaySamples defaultDelayLine)
    /\ delayLineLeft e' = delayLineLeft defaultDelayLine
    /\ delayLineRight e' = delayLineRight defaultDelayLine
    /\ maxDelaySamples e' = maxDelaySamples defaultDelayLine
    /\ delayIndex e' = delayIndex defaultDelayLine
    /\ feedback e' = feedback defaultDelayLine
    /\ wetMix e' = wetMix defaultDelayLine
    /\ dryMix e' = dryMix defaultDelayLine
    /\ sRate e' = sRate defaultDelayLine
    /\ prepared e' = prepared defaultDelayLine.
Proof.
  apply (setDelaySeconds_truncates (7 # 1000) defaultDelayLine).
  vm_compute. split; discriminate.
Defined.

(** C4, as announced: at 44100 Hz a delay of 7 ms is 308.7 samples; the
    engine keeps 308, the announced rounding gives 309. *)
Lemma setDelaySeconds_does_not_round :
  prepare (44100 # 1) (1 # 100) defaultDelayLine = Some engine44100
  /\ option_map delaySamples (setDelaySeconds (7 # 1000) engine44100)
     = Some 308
  /\ announcedDelaySamples (7 # 1000) engine44100 = 309
  /\ option_map delaySamples (setDelaySeconds (7 # 1000) engine44100)
     <> Some (announcedDelaySamples (7 # 1000) engine44100).
Proof.
  split; [vm_compute; reflexivity|].
  split; [vm_compute; reflexivity|].
  split; [vm_compute; reflexivity|].
  vm_compute. discriminate.
Qed.

Lemma uniform_from_empty {A} (c : M A) (s : machine) :
  uniform c -> c s = shift (trace s) (c (untraced s)).
Proof.
  intros U. rewrite <- U. f_equal.
  unfold prepend, untraced. simpl. rewrite app_nil_r. now destruct s.
Qed.

Lemma uniform_ret {A} (a : A) : uniform (ret a).
Proof. intros t s. reflexivity. Qed.

Lemma uniform_bind {A B} (c : M A) (k : A -> M B) :
  uniform c -> (forall a, uniform (k a)) -> uniform (bind c k).
Proof.
  intros Hc Hk t s. unfold bind. rewrite Hc.
  destruct (c s) as [[a s']| |]; simpl; [apply Hk|reflexivity|reflexivity].
Qed.

Lemma uniform_readDelay c i : uniform (readDelay c i).
Proof.
  intros t s. unfold readDelay.
  replace (line c (prepend t s)) with (line c s) by now destruct c.
  destruct (vec_get (line c s) i); [|reflexivity].
  simpl. unfold prepend, note. simpl. now rewrite List.app_assoc.
Qed.

Lemma uniform_writeDelay c i x : uniform (writeDelay c i x).
Proof.
  intros t s. unfold writeDelay.
  replace (line c (prepend t s)) with (line c s) by now destruct c.
  destruct (vec_set (line c s) i x); [|reflexivity].
  destruct c; simpl; unfold prepend; simpl; now rewrite List.app_assoc.
Qed.

Lemma uniform_readAudio p : uniform (readAudio p).
Proof.
  intros t s. unfold readAudio. simpl.
  destruct (load (audio s) p); reflexivity.
Qed.

Lemma uniform_writeAudio c p x : uniform (writeAudio c p x).
Proof.
  intros t s. unfold writeAudio. simpl.
  destruct (store (audio s) p x); [|reflexivity].
  simpl. unfold prepend. simpl. now rewrite List.app_assoc.
Qed.

Lemma uniform_noteSegment k : uniform (noteSegment k).
Proof.
  intros t s. unfold noteSegment, note, shift, prepend. cbn [trace].
  now rewrite List.app_assoc.
Qed.

Lemma uniform_outOfFuel {A} : uniform (@outOfFuel A).
Proof. intros t s. reflexivity. Qed.

Create HintDb uniform.
#[local] Hint Resolve uniform_ret uniform_readDelay uniform_writeDelay
  uniform_readAudio uniform_writeAudio uniform_noteSegment
  uniform_outOfFuel : uniform.

Ltac uniform_step :=
  repeat first
    [ apply uniform_bind; [|intros ?]
    | solve [auto with uniform] ].

Lemma uniform_scalarSample fb wet dry p idx :
  uniform (scalarSample fb wet dry p idx).
Proof. unfold scalarSample. uniform_step. Qed.
#[local] Hint Resolve uniform_scalarSample : uniform.

Lemma uniform_scalarLoop len fb wet dry n p i idx :
  uniform (scalarLoop len fb wet dry n p i idx).
Proof.
  revert i idx. induction n as [|n IH]; intros i idx; simpl.
  - apply uniform_ret.
  - apply uniform_bind; [auto with uniform|]. intros _. apply IH.
Qed.

(** *** Splitting the loop of the scalar path *)

Lemma io_add_add (p : io) (a b : Z) : io_add (io_add p a) b = io_add p (a + b).
Proof.
  unfold io_add, ptr_add. simpl. now rewrite !Z.add_assoc.
Qed.

Lemma scalarLoop_base len fb wet dry n p k i idx :
  scalarLoop len fb wet dry n (io_add p k) i idx
  = scalarLoop len fb wet dry n p (k + i) idx.
Proof.
  revert i idx. induction n as [|n IH]; intros i idx; simpl; [reflexivity|].
  rewrite io_add_add, IH. now rewrite Z.add_assoc.
Qed.

Lemma scalarLoop_app len fb wet dry n1 n2 p i idx s :
  scalarLoop len fb wet dry (n1 + n2) p i idx s
  = bind (scalarLoop len fb wet dry n1 p i idx)
      (fun idx' => scalarLoop len fb wet dry n2 p (i + Z.of_nat n1) idx') s.
Proof.
  revert i idx s. induction n1 as [|n1 IH]; intros i idx s.
  - simpl. unfold bind, ret. now rewrite Z.add_0_r.
  - change (S n1 + n2)%nat with (S (n1 + n2)). cbn [scalarLoop]. unfold bind.
    destruct (scalarSample fb wet dry (io_add p i) idx s) as [[u s1]| |];
      [|reflexivity|reflexivity].
    rewrite IH. unfold bind.
    replace (i + 1 + Z.of_nat n1) with (i + Z.of_nat (S n1)) by lia.
    reflexivity.
Qed.

Lemma engine_eta (e : SharcDelayLine) :
  {| delayLineLeft := delayLineLeft e; delayLineRight := delayLineRight e;
     maxDelaySamples := maxDelaySamples e; delaySamples := delaySamples e;
     delayIndex := delayIndex e;
     feedback := feedback e; wetMix := wetMix e; dryMix := dryMix e;
     sRate := sRate e; prepared := prepared e |} = e.
Proof. now destruct e. Qed.

Lemma processBlockScalar_zero e p m :
  processBlockScalar e p 0 m = Ok {| engine := e; arrays := m; events := [] |}.
Proof.
  unfold processBlockScalar. destruct (prepared e); simpl; [|reflexivity].
  now rewrite engine_eta.
Qed.

Lemma processBlockScalar_split e p n1 n2 m :
  0 <= n1 -> 0 <= n2 ->
  processBlockScalar e p (n1 + n2) m
  = andThen (processBlockScalar e p n1 m)
      (fun o => processBlockScalar (engine o) (io_add p n1) n2 (arrays o)).
Proof.
  intros H1 H2. unfold processBlockScalar.
  destruct (prepared e) eqn:Hp; simpl.
  2:{ rewrite Hp. reflexivity. }
  rewrite Z2Nat.inj_add by assumption.
  rewrite scalarLoop_app. unfold bind.
  destruct (scalarLoop _ _ _ _ (Z.to_nat n1) p 0 (delayIndex e) (enter e m))
    as [[idx1 s1]| |] eqn:E1; simpl; [|reflexivity|reflexivity].
  rewrite Hp. simpl.
  rewrite scalarLoop_base, Z.add_0_r, Z.add_0_l, Z2Nat.id by assumption.
  rewrite (uniform_from_empty _ s1)
    by apply uniform_scalarLoop.
  change (enter _ (audio s1)) with (untraced s1).
  destruct (scalarLoop _ _ _ _ (Z.to_nat n2) p n1 idx1 (untraced s1))
    as [[idx2 s2]| |]; simpl; try reflexivity.
  now rewrite Hp.
Qed.

(** C6.  Any split of a block into consecutive non-negative chunk sizes,
    processed by as many [processBlockScalar] calls, gives the outcome of
    the single call on the whole block: the same engine (delay lines and
    cursor), the same caller arrays (hence outputs), the same accesses in
    the same order, or the same failure. *)
Theorem scalar_chunking (e : SharcDelayLine) (p : io) (ns : list Z)
  (m : memory) :
  Forall (fun n => 0 <= n) ns ->
  processBlocksScalar e p ns m = processBlockScalar e p (total ns) m.
Proof.
  intros H. revert e p m.
  induction H as [|n ns Hn Hns IH]; intros e p m; simpl.
  - now rewrite processBlockScalar_zero.
  - assert (Ht : 0 <= total ns).
    { clear -Hns. induction Hns; simpl; lia. }
    rewrite processBlockScalar_split by assumption.
    destruct (processBlockScalar e p n m) as [o| |]; simpl;
      [|reflexivity|reflexivity].
    now rewrite IH.
Qed.

(** ** Invariants of the block processors *)

Lemma Qltb_true (a b : Q) : Juce.Qltb a b = true <-> (a < b)%Q.
Proof.
  unfold Juce.Qltb. rewrite negb_true_iff.
  destruct (Qle_bool b a) eqn:E.
  - apply Qle_bool_iff in E. split; [discriminate|]. intros H.
    exfalso. now apply (Qlt_not_le a b).
  - split; [intros _|reflexivity]. apply Qnot_le_lt. intros H.
    apply Qle_bool_iff in H. congruence.
Qed.

Lemma Qltb_false (a b : Q) : Juce.Qltb a b = false <-> (b <= a)%Q.
Proof.
  unfold Juce.Qltb. rewrite negb_false_iff. apply Qle_bool_iff.
Qed.

(** *** Any invariant the primitives keep is kept by the loops *)

Section Invariant.

Variable Inv : machine -> Prop.
(** What is known of every value stored into a delay line. *)
Variable Stored : Q -> Prop.

Hypothesis Inv_readDelay : forall c i, preserves Inv (readDelay c i).
Hypothesis Inv_writeDelay :
  forall c i x, Stored x -> preserves Inv (writeDelay c i x).
Hypothesis Inv_readAudio : forall p, preserves Inv (readAudio p).
Hypothesis Inv_writeAudio : forall c p x, preserves Inv (writeAudio c p x).
Hypothesis Inv_noteSegment : forall k, preserves Inv (noteSegment k).
Hypothesis Stored_jlimit : forall x, Stored (Juce.jlimit (-1) 1 x).
Hypothesis Stored_lane :
  forall x, Stored (Juce.lane_max (-1) (Juce.lane_min 1 x)).

Lemma preserves_ret {A} (a : A) : preserves Inv (ret a).
Proof. intros s b s' H E. inversion E; subst. exact H. Qed.

Lemma preserves_bind {A B} (c : M A) (k : A -> M B) :
  preserves Inv c -> (forall a, preserves Inv (k a)) ->
  preserves Inv (bind c k).
Proof.
  intros Hc Hk s b s' H E. unfold bind in E.
  destruct (c s) as [[a s1]| |] eqn:E1; try discriminate.
  eapply Hk; [|exact E]. eapply Hc; eauto.
Qed.

Lemma preserves_outOfFuel {A} : preserves Inv (@outOfFuel A).
Proof. intros s a s' _ E. discriminate. Qed.

Lemma preserves_undefined {A} : preserves Inv (@undefined A).
Proof. intros s a s' _ E. discriminate. Qed.

Lemma preserves_mapM {A B} (f : A -> M B) (l : list A) :
  (forall a, preserves Inv (f a)) -> preserves Inv (mapM f l).
Proof.
  intros Hf. induction l as [|a l IH]; simpl.
  - apply preserves_ret.
  - apply preserves_bind; [apply Hf|]. intros b.
    apply preserves_bind; [exact IH|]. intros bs. apply preserves_ret.
Qed.

Lemma preserves_forM {A} (f : A -> M unit) (l : list A) :
  Forall (fun a => preserves Inv (f a)) l -> preserves Inv (forM f l).
Proof.
  induction 1 as [|a l Ha Hl IH]; simpl.
  - apply preserves_ret.
  - apply preserves_bind; [exact Ha|]. intros _. exact IH.
Qed.

(** The lanes of a register clipped by [jmax (clipMin, jmin (clipMax, v))]. *)
Lemma clip_register_stored (w : Z) (v : list Q) :
  Forall Stored (vmax (splat w (-1)) (vmin (splat w 1) v)).
Proof.
  unfold vmax, vmin, splat. generalize (Z.to_nat w) as n.
  intros n. revert v. induction n as [|n IH]; intros v; simpl.
  - constructor.
  - destruct v as [|x v]; simpl; [constructor|].
    constructor; [apply Stored_lane|apply IH].
Qed.

Lemma preserves_copyToRawDelay w c offset v :
  Forall Stored v -> preserves Inv (copyToRawDelay w c offset v).
Proof.
  intros Hv. unfold copyToRawDelay.
  destruct (isSIMDAligned w offset); [|apply preserves_undefined].
  apply preserves_forM.
  generalize (lanes w) as ks. intros ks. revert ks.
  induction Hv as [|x v Hx Hv IH]; intros [|k ks]; simpl; constructor.
  - now apply Inv_writeDelay.
  - apply IH.
Qed.

Lemma preserves_copyToRawArray w c p v :
  preserves Inv (copyToRawArray w c p v).
Proof.
  unfold copyToRawArray.
  destruct (isSIMDAligned w (ofs p)); [|apply preserves_undefined].
  apply preserves_forM.
  apply List.Forall_forall. intros kx _. apply Inv_writeAudio.
Qed.

Lemma preserves_fromRawDelay w c offset :
  preserves Inv (fromRawDelay w c offset).
Proof.
  unfold fromRawDelay.
  destruct (isSIMDAligned w offset); [|apply preserves_undefined].
  apply preserves_mapM; intros ?; apply Inv_readDelay.
Qed.

Lemma preserves_fromRawArray w p : preserves Inv (fromRawArray w p).
Proof.
  unfold fromRawArray.
  destruct (isSIMDAligned w (ofs p)); [|apply preserves_undefined].
  apply preserves_mapM; intros ?; apply Inv_readAudio.
Qed.

Lemma preserves_scalarSample fb wet dry p idx :
  preserves Inv (scalarSample fb wet dry p idx).
Proof.
  unfold scalarSample.
  apply preserves_bind; [apply Inv_readDelay|intros dl].
  apply preserves_bind; [apply Inv_readDelay|intros dr].
  apply preserves_bind; [apply Inv_readAudio|intros xl].
  apply preserves_bind; [apply Inv_writeAudio|intros _].
  apply preserves_bind; [apply Inv_readAudio|intros xr].
  apply preserves_bind; [apply Inv_writeAudio|intros _].
  apply preserves_bind; [apply Inv_readAudio|intros xl'].
  apply preserves_bind; [apply Inv_readAudio|intros xr'].
  apply preserves_bind; [|intros _];
    apply Inv_writeDelay; apply Stored_jlimit.
Qed.

Lemma preserves_scalarLoop len fb wet dry n p i idx :
  preserves Inv (scalarLoop len fb wet dry n p i idx).
Proof.
  revert i idx. induction n as [|n IH]; intros i idx; simpl.
  - apply preserves_ret.
  - apply preserves_bind; [apply preserves_scalarSample|intros _; apply IH].
Qed.

Lemma preserves_simdChunk fb wet dry w p offset :
  preserves Inv (simdChunk fb wet dry w p offset).
Proof.
  unfold simdChunk.
  apply preserves_bind; [apply preserves_fromRawDelay|intros dl].
  apply preserves_bind; [apply preserves_fromRawDelay|intros dr].
  apply preserves_bind; [apply preserves_fromRawArray|intros xl].
  apply preserves_bind; [apply preserves_fromRawArray|intros xr].
  apply preserves_bind; [apply preserves_copyToRawArray|intros _].
  apply preserves_bind; [apply preserves_copyToRawArray|intros _].
  apply preserves_bind; [|intros _];
    apply preserves_copyToRawDelay; apply clip_register_stored.
Qed.

Lemma preserves_simdLoop fb wet dry w n p chunk idx :
  preserves Inv (simdLoop fb wet dry w n p chunk idx).
Proof.
  revert p chunk. induction n as [|n IH]; intros p chunk; simpl.
  - apply preserves_ret.
  - apply preserves_bind; [apply preserves_simdChunk|intros _; apply IH].
Qed.

Lemma preserves_tailLoop fb wet dry n p idx :
  preserves Inv (tailLoop fb wet dry n p idx).
Proof.
  revert p idx. induction n as [|n IH]; intros p idx; simpl.
  - apply preserves_ret.
  - apply preserves_bind; [apply preserves_scalarSample|intros _; apply IH].
Qed.

Lemma preserves_simdWhile len fb wet dry w fuel p rem idx :
  preserves Inv (simdWhile len fb wet dry w fuel p rem idx).
Proof.
  revert p rem idx. induction fuel as [|fuel IH]; intros p rem idx; simpl;
    destruct (rem >? 0); try apply preserves_ret; try apply preserves_outOfFuel.
  apply preserves_bind; [apply Inv_noteSegment|intros _].
  apply preserves_bind; [apply preserves_simdLoop|intros p1].
  apply preserves_bind; [apply preserves_tailLoop|intros pi]. apply IH.
Qed.

End Invariant.

(** *** The delay lines keep their lengths *)

Lemma sized_readDelay L c i : preserves (sized L) (readDelay c i).
Proof.
  intros s a s' H E. unfold readDelay in E.
  destruct (vec_get (line c s) i); inversion E; subst. exact H.
Qed.

Lemma sized_writeDelay L c i x : preserves (sized L) (writeDelay c i x).
Proof.
  intros s a s' [HL HR] E. unfold writeDelay, vec_set in E.
  destruct ((0 <=? i) && (i <? Z.of_nat (length (line c s)))); [|discriminate].
  destruct c; inversion E; subst; split; simpl; rewrite ?length_insert; auto.
Qed.

Lemma sized_readAudio L p : preserves (sized L) (readAudio p).
Proof.
  intros s a s' H E. unfold readAudio in E.
  destruct (load (audio s) p); inversion E; subst. exact H.
Qed.

Lemma sized_writeAudio L c p x : preserves (sized L) (writeAudio c p x).
Proof.
  intros s a s' H E. unfold writeAudio in E.
  destruct (store (audio s) p x); inversion E; subst. exact H.
Qed.

Lemma sized_noteSegment L k : preserves (sized L) (noteSegment k).
Proof. intros s a s' H E. inversion E; subst. exact H. Qed.

Lemma leave_sized (c : M Z) (e : SharcDelayLine) (m : memory) (o : outcome) :
  preserves (sized (length (delayLineLeft e))) c ->
  length (delayLineRight e) = length (delayLineLeft e) ->
  leave e (c (enter e m)) = Ok o ->
  length (delayLineLeft (engine o)) = length (delayLineLeft e)
  /\ length (delayLineRight (engine o)) = length (delayLineRight e)
  /\ maxDelaySamples (engine o) = maxDelaySamples e
  /\ prepared (engine o) = prepared e.
Proof.
  intros Hc Hlen E.
  destruct (c (enter e m)) as [[idx s]| |] eqn:Ec; simpl in E; try discriminate.
  inversion E; subst; simpl.
  assert (H0 : sized (length (delayLineLeft e)) (enter e m))
    by (split; [reflexivity | exact Hlen]).
  destruct (Hc _ _ _ H0 Ec) as [HL HR].
  rewrite HL, HR, Hlen. auto.
Qed.

Lemma block_keeps_size (simdWidth : Z) (fuel : nat) (e : SharcDelayLine)
  (p : io) (n : Z) (m : memory) (o : outcome) :
  well_sized e ->
  processBlockScalar e p n m = Ok o
  \/ processBlockSIMD simdWidth fuel e p n m = Ok o ->
  well_sized (engine o).
Proof.
  intros He [E|E]; unfold processBlockScalar, processBlockSIMD in E;
    destruct (prepared e) eqn:Hp; simpl in E;
    try (inversion E; subst; simpl; intros Hp'; congruence).
  - destruct (He Hp) as [HL HR].
    eapply leave_sized in E.
    + destruct E as (E1 & E2 & E3 & E4). intros _. rewrite E1, E2, E3. auto.
    + apply (preserves_scalarLoop _ (fun _ => True));
        auto using sized_readDelay, sized_writeDelay, sized_readAudio,
        sized_writeAudio, sized_noteSegment.
    + congruence.
  - destruct (He Hp) as [HL HR].
    eapply leave_sized in E.
    + destruct E as (E1 & E2 & E3 & E4). intros _. rewrite E1, E2, E3. auto.
    + apply (preserves_simdWhile _ (fun _ => True));
        auto using sized_readDelay, sized_writeDelay, sized_readAudio,
        sized_writeAudio, sized_noteSegment.
    + congruence.
Qed.

(** Every engine a client can have obtained is well sized. *)
Lemma reachable_well_sized (e : SharcDelayLine) : reachable e -> well_sized e.
Proof.
  induction 1 as [|sr mds e e' _ IH Hp|e _ IH|sec e e' _ IH Hs|x e _ IH
                  |x e _ IH|x e _ IH|e p n m o _ IH Hr
                  |w fuel e p n m o _ IH Hr].
  - intros H. discriminate.
  - unfold prepare in Hp.
    destruct (Cxx.static_cast_int (sr * mds)) as [k|]; [|discriminate].
    destruct (k <? 0); [discriminate|]. inversion Hp; subst.
    intros _. simpl. rewrite !fill_repeat, !repeat_length, !resize_length.
    auto.
  - intros Hp. destruct (IH Hp) as [HL HR]. unfold reset, Cxx.fill. simpl.
    rewrite !length_map. auto.
  - unfold setDelaySeconds in Hs.
    destruct (Cxx.static_cast_int (sec * sRate e)); [|discriminate].
    inversion Hs; subst. exact IH.
  - exact IH.
  - exact IH.
  - exact IH.
  - eapply (block_keeps_size 1 0); [exact IH|left; exact Hr].
  - eapply block_keeps_size; [exact IH|right; exact Hr].
Qed.

(** *** The clip invariant *)

Lemma jlimit_in_unit (x : Q) : in_unit (Juce.jlimit (-1) 1 x).
Proof.
  unfold Juce.jlimit, in_unit.
  destruct (Juce.Qltb x (-1)) eqn:E1; [split; lra|].
  destruct (Juce.Qltb 1 x) eqn:E2; [split; lra|].
  apply Qltb_false in E1, E2. split; lra.
Qed.

Lemma lane_clip_in_unit (x : Q) :
  in_unit (Juce.lane_max (-1) (Juce.lane_min 1 x)).
Proof.
  unfold Juce.lane_max, Juce.lane_min, in_unit.
  destruct (Juce.Qltb 1 x) eqn:E1.
  - assert (E : Juce.Qltb 1 (-1) = false) by reflexivity.
    rewrite E. split; lra.
  - apply Qltb_false in E1.
    destruct (Juce.Qltb x (-1)) eqn:E2; [split; lra|].
    apply Qltb_false in E2. split; lra.
Qed.

Lemma stores_clipped_snoc (t : list event) (ev : event) :
  stores_clipped t ->
  (forall c i x, ev = EvDelayWrite c i x -> in_unit x) ->
  stores_clipped (t ++ [ev]).
Proof.
  intros Ht Hev c i x Hin. apply in_app_or in Hin.
  destruct Hin as [Hin|[Hin|[]]]; [eapply Ht; eauto|eapply Hev; eauto].
Qed.

Lemma clipped_readDelay c i : preserves mclipped (readDelay c i).
Proof.
  intros s a s' (HL & HR & HT) E. unfold readDelay in E.
  destruct (vec_get (line c s) i); inversion E; subst.
  split; [|split]; simpl; auto.
  apply stores_clipped_snoc; [exact HT|discriminate].
Qed.

Lemma clipped_writeDelay c i x :
  in_unit x -> preserves mclipped (writeDelay c i x).
Proof.
  intros Hx s a s' (HL & HR & HT) E. unfold writeDelay, vec_set in E.
  destruct ((0 <=? i) && (i <? Z.of_nat (length (line c s)))); [|discriminate].
  assert (HTx : stores_clipped (trace s ++ [EvDelayWrite c i x])).
  { apply stores_clipped_snoc; [exact HT|].
    intros c' i' x' Heq. inversion Heq; subst. exact Hx. }
  destruct c; inversion E; subst; simpl in *; (split; [|split]); simpl; auto;
    now apply Forall_insert.
Qed.

Lemma clipped_readAudio p : preserves mclipped (readAudio p).
Proof.
  intros s a s' H E. unfold readAudio in E.
  destruct (load (audio s) p); inversion E; subst. exact H.
Qed.

Lemma clipped_writeAudio c p x : preserves mclipped (writeAudio c p x).
Proof.
  intros s a s' (HL & HR & HT) E. unfold writeAudio in E.
  destruct (store (audio s) p x); inversion E; subst.
  split; [|split]; simpl; auto.
  apply stores_clipped_snoc; [exact HT|discriminate].
Qed.

Lemma clipped_noteSegment k : preserves mclipped (noteSegment k).
Proof.
  intros s a s' (HL & HR & HT) E. unfold noteSegment in E.
  inversion E; subst. split; [|split]; simpl; auto.
  apply stores_clipped_snoc; [exact HT|discriminate].
Qed.

Lemma leave_clipped (c : M Z) (e : SharcDelayLine) (m : memory) (o : outcome) :
  preserves mclipped c -> clipped e -> leave e (c (enter e m)) = Ok o ->
  stores_clipped (events o) /\ clipped (engine o).
Proof.
  intros Hc [HL HR] E.
  destruct (c (enter e m)) as [[idx s]| |] eqn:Ec; simpl in E; try discriminate.
  inversion E; subst; simpl.
  assert (H0 : mclipped (enter e m)).
  { split; [exact HL|split; [exact HR|]]. intros c' i x []. }
  destruct (Hc _ _ _ H0 Ec) as (HL' & HR' & HT').
  split; [exact HT'|split; assumption].
Qed.

Lemma block_keeps_clipped (simdWidth : Z) (fuel : nat) (e : SharcDelayLine)
  (p : io) (n : Z) (m : memory) (o : outcome) :
  clipped e ->
  processBlockScalar e p n m = Ok o
  \/ processBlockSIMD simdWidth fuel e p n m = Ok o ->
  stores_clipped (events o) /\ clipped (engine o).
Proof.
  intros He [E|E]; unfold processBlockScalar, processBlockSIMD in E;
    destruct (prepared e); simpl in E.
  - eapply leave_clipped; [|exact He|exact E].
    apply (preserves_scalarLoop _ in_unit);
      auto using clipped_readDelay, clipped_writeDelay, clipped_readAudio,
        clipped_writeAudio, clipped_noteSegment, jlimit_in_unit.
  - inversion E; subst; simpl. split; [intros c i x []|exact He].
  - eapply leave_clipped; [|exact He|exact E].
    apply (preserves_simdWhile _ in_unit);
      auto using clipped_readDelay, clipped_writeDelay, clipped_readAudio,
        clipped_writeAudio, clipped_noteSegment, jlimit_in_unit,
        lane_clip_in_unit.
  - inversion E; subst; simpl. split; [intros c i x []|exact He].
Qed.

Lemma Forall_in_unit_zeros (n : nat) : Forall in_unit (repeat 0%Q n).
Proof.
  induction n; simpl; constructor; [|assumption]. unfold in_unit. split; lra.
Qed.

Lemma reachable_clipped (e : SharcDelayLine) : reachable e -> clipped e.
Proof.
  induction 1 as [|sr mds e e' _ IH Hp|e _ IH|sec e e' _ IH Hs|x e _ IH
                  |x e _ IH|x e _ IH|e p n m o _ IH Hr
                  |w fuel e p n m o _ IH Hr].
  - split; constructor.
  - unfold prepare in Hp.
    destruct (Cxx.static_cast_int (sr * mds)) as [k|]; [|discriminate].
    destruct (k <? 0); [discriminate|]. inversion Hp; subst.
    unfold clipped; simpl. rewrite !fill_repeat.
    split; apply Forall_in_unit_zeros.
  - unfold clipped, reset; simpl. rewrite !fill_repeat.
    split; apply Forall_in_unit_zeros.
  - unfold setDelaySeconds in Hs.
    destruct (Cxx.static_cast_int (sec * sRate e)); [|discriminate].
    inversion Hs; subst. exact IH.
  - exact IH.
  - exact IH.
  - exact IH.
  - eapply (block_keeps_clipped 1 0); [exact IH|left; exact Hr].
  - eapply block_keeps_clipped; [exact IH|right; exact Hr].
Qed.

(** C3.  On every engine a client can have obtained (construction,
    [prepare], [reset], setters and returned block calls in any order, with
    any inputs and any parameter values) both delay lines hold only
    values in [-1, 1]; and a call of either block processor on it that
    returns has stored only values in [-1, 1] into the delay lines and
    leaves them within [-1, 1]. *)
Theorem stored_values_stay_clipped (e : SharcDelayLine) :
  reachable e ->
  clipped e
  /\ forall simdWidth fuel p n m o,
       processBlockScalar e p n m = Ok o
       \/ processBlockSIMD simdWidth fuel e p n m = Ok o ->
       stores_clipped (events o) /\ clipped (engine o).
Proof.
  intros H. pose proof (reachable_clipped e H) as Hc.
  split; [exact Hc|]. intros w fuel p n m o Hr.
  eapply block_keeps_clipped; eauto.
Qed.

(** ** Total correctness of the SIMD path under its entry condition,
    on aligned register accesses *)

Section Okay.

Variables (L : nat) (shp : list nat).

Lemma okay_ret {A} (a : A) : okay L shp (ret a) (fun b evs => b = a /\ evs = []).
Proof.
  intros s Hs. exists a, s, []. rewrite app_nil_r. auto.
Qed.

Lemma okay_bind {A B} (c : M A) (k : A -> M B) post1 post2 :
  okay L shp c post1 ->
  (forall a evs1, post1 a evs1 ->
     okay L shp (k a) (fun b evs2 => post2 b (evs1 ++ evs2))) ->
  okay L shp (bind c k) post2.
Proof.
  intros Hc Hk s Hs.
  destruct (Hc s Hs) as (a & s1 & evs1 & E1 & T1 & W1 & P1).
  destruct (Hk a evs1 P1 s1 W1) as (b & s2 & evs2 & E2 & T2 & W2 & P2).
  exists b, s2, (evs1 ++ evs2). unfold bind. rewrite E1.
  split; [exact E2|]. split; [|split; assumption].
  now rewrite T2, T1, <- List.app_assoc.
Qed.

Lemma okay_weaken {A} (c : M A) (post1 post2 : A -> list event -> Prop) :
  okay L shp c post1 ->
  (forall a evs, post1 a evs -> post2 a evs) ->
  okay L shp c post2.
Proof.
  intros Hc Himp s Hs.
  destruct (Hc s Hs) as (a & s1 & evs1 & E1 & T1 & W1 & P1).
  exists a, s1, evs1. auto.
Qed.

Lemma okay_readDelay c i :
  0 <= i < Z.of_nat L ->
  okay L shp (readDelay c i) (fun _ evs => evs = [EvDelayRead c i]).
Proof.
  intros Hi s (HL & HR & HA). unfold readDelay, vec_get.
  destruct (Z.ltb_spec i 0); [lia|].
  assert (Hlen : (Z.to_nat i < length (line c s))%nat)
    by (destruct c; simpl; lia).
  destruct (lookup_lt_is_Some_2 _ _ Hlen) as [x Hx]. rewrite Hx.
  exists x, (note (EvDelayRead c i) s), [EvDelayRead c i].
  repeat split; assumption.
Qed.

Lemma okay_writeDelay c i x :
  0 <= i < Z.of_nat L ->
  okay L shp (writeDelay c i x) (fun _ evs => evs = [EvDelayWrite c i x]).
Proof.
  intros Hi s (HL & HR & HA). unfold writeDelay, vec_set.
  assert (Hlen : length (line c s) = L) by (destruct c; simpl; lia).
  rewrite Hlen.
  destruct (Z.leb_spec 0 i); [|lia].
  destruct (Z.ltb_spec i (Z.of_nat L)); [|lia]. simpl.
  destruct c; eexists tt, _, _; (split; [reflexivity|]); simpl;
    (split; [reflexivity|]); (split; [|reflexivity]);
    unfold wf; simpl; rewrite ?length_insert; auto.
Qed.

Lemma fits_load (m : memory) (p : ptr) (n : Z) :
  0 < n -> fits (map length m) p n -> exists x, load m p = Some x.
Proof.
  intros Hn (Ho & l & Hl & Hle). unfold load.
  destruct (Z.ltb_spec (ofs p) 0); [lia|].
  rewrite list_lookup_fmap in Hl.
  destruct (m !! blk p) as [b|]; simpl in Hl; [|discriminate].
  inversion Hl; subst.
  apply lookup_lt_is_Some_2. lia.
Qed.

Lemma fits_store (m : memory) (p : ptr) (n : Z) (x : Q) :
  0 < n -> fits (map length m) p n ->
  exists m', store m p x = Some m' /\ map length m' = map length m.
Proof.
  intros Hn (Ho & l & Hl & Hle). unfold store.
  destruct (Z.ltb_spec (ofs p) 0); [lia|].
  rewrite list_lookup_fmap in Hl.
  destruct (m !! blk p) as [b|] eqn:Hb; simpl in Hl; [|discriminate].
  inversion Hl; subst.
  destruct (Nat.ltb_spec (Z.to_nat (ofs p)) (length b)); [|lia].
  eexists; split; [reflexivity|].
  rewrite list_fmap_insert, length_insert.
  apply list_insert_id. rewrite list_lookup_fmap, Hb. reflexivity.
Qed.

Lemma okay_readAudio p :
  fits shp p 1 -> okay L shp (readAudio p) (fun _ evs => evs = []).
Proof.
  intros Hp s (HL & HR & HA). unfold readAudio.
  rewrite <- HA in Hp.
  destruct (fits_load _ _ 1 ltac:(lia) Hp) as [x Hx]. rewrite Hx.
  exists x, s, []. rewrite app_nil_r. repeat split; assumption.
Qed.

Lemma okay_writeAudio c p x :
  fits shp p 1 ->
  okay L shp (writeAudio c p x) (fun _ evs => evs = [EvOutput c p]).
Proof.
  intros Hp s (HL & HR & HA). unfold writeAudio.
  rewrite <- HA in Hp.
  destruct (fits_store _ _ 1 x ltac:(lia) Hp) as (m' & Hm & Hshape).
  rewrite Hm. eexists tt, _, _. split; [reflexivity|]. simpl.
  split; [reflexivity|]. split; [|reflexivity].
  unfold wf; simpl. rewrite Hshape. auto.
Qed.

Lemma okay_noteSegment k :
  okay L shp (noteSegment k) (fun _ evs => evs = [EvSegment k]).
Proof.
  intros s Hs. exists tt, (note (EvSegment k) s), [EvSegment k].
  repeat split; apply Hs.
Qed.

End Okay.

(** *** Ranges, pointers and traces *)

Lemma map_seq_shift {A} (f : nat -> A) (b m s : nat) :
  map f (seq (b + s) m) = map (fun k => f (b + k)%nat) (seq s m).
Proof.
  revert s. induction m as [|m IH]; intros s; simpl; [reflexivity|].
  f_equal. rewrite <- Nat.add_succ_r. apply IH.
Qed.

Lemma zrange_app (a : Z) (n1 n2 : nat) :
  zrange a (n1 + n2) = zrange a n1 ++ zrange (a + Z.of_nat n1) n2.
Proof.
  unfold zrange. rewrite seq_app, map_app. f_equal.
  rewrite (Nat.add_comm 0 n1), <- (Nat.add_0_r (n1 + 0)), Nat.add_0_r.
  rewrite map_seq_shift. apply map_ext. intros k. lia.
Qed.

Lemma zrange_S (a : Z) (n : nat) : zrange a (S n) = a :: zrange (a + 1) n.
Proof.
  change (S n) with (1 + n)%nat. rewrite zrange_app. simpl.
  now rewrite Z.add_0_r.
Qed.

Lemma lanes_zrange (w : Z) : lanes w = zrange 0 (Z.to_nat w).
Proof. reflexivity. Qed.

Lemma zrange_bound (a : Z) (n : nat) :
  Forall (fun k => a <= k < a + Z.of_nat n) (zrange a n).
Proof.
  unfold zrange. apply List.Forall_forall. intros k Hk.
  apply in_map_iff in Hk. destruct Hk as (j & <- & Hj).
  apply in_seq in Hj. lia.
Qed.

Lemma zrange_length (a : Z) (n : nat) : length (zrange a n) = n.
Proof. unfold zrange. now rewrite length_map, length_seq. Qed.

Lemma ptr_add_0 (p : ptr) : ptr_add p 0 = p.
Proof. destruct p. unfold ptr_add. simpl. now rewrite Z.add_0_r. Qed.

Lemma ptr_add_add (p : ptr) (a b : Z) :
  ptr_add (ptr_add p a) b = ptr_add p (a + b).
Proof. unfold ptr_add. simpl. now rewrite Z.add_assoc. Qed.

Lemma map_ptr_add_zrange (p : ptr) (a b : Z) (n : nat) :
  map (ptr_add (ptr_add p a)) (zrange b n) = map (ptr_add p) (zrange (a + b) n).
Proof.
  unfold zrange. rewrite !map_map. apply map_ext. intros k.
  rewrite ptr_add_add. f_equal. lia.
Qed.

Lemma io_add_0 (p : io) : io_add p 0 = p.
Proof.
  destruct p as [[] [] [] []]. unfold io_add, ptr_add. simpl.
  now rewrite !Z.add_0_r.
Qed.

Lemma fits_sub (shp : list nat) (p : ptr) (n k j : Z) :
  fits shp p n -> 0 <= k -> k + j <= n -> fits shp (ptr_add p k) j.
Proof.
  intros (Ho & l & Hl & Hle) Hk Hj. split; simpl; [lia|].
  exists l. split; [exact Hl|lia].
Qed.

Lemma block_post_app len a b a' b' e1 e2 :
  block_post len a b e1 -> block_post len a' b' e2 ->
  block_post len (a ++ a') (b ++ b') (e1 ++ e2).
Proof.
  intros (F1 & L1 & R1) (F2 & L2 & R2). unfold block_post, outputsOf in *.
  rewrite !flat_map_app, L1, L2, R1, R2.
  split; [|split; reflexivity]. apply Forall_app. now split.
Qed.

Lemma block_post_nil len : block_post len [] [] [].
Proof. split; [constructor|split; reflexivity]. Qed.

(** *** Pointers and lanes *)

Lemma fits_io_sub (shp : list nat) (p : io) (n k j : Z) :
  fits_io shp p n -> 0 <= k -> k + j <= n -> fits_io shp (io_add p k) j.
Proof.
  intros (H1 & H2 & H3 & H4) Hk Hj.
  repeat split; simpl; try lia;
    first [ destruct H1 as (_ & l & Hl & Hle); exists l; split; [exact Hl|lia]
          | destruct H2 as (_ & l & Hl & Hle); exists l; split; [exact Hl|lia]
          | destruct H3 as (_ & l & Hl & Hle); exists l; split; [exact Hl|lia]
          | destruct H4 as (_ & l & Hl & Hle); exists l; split; [exact Hl|lia]
          | destruct H1; lia | destruct H2; lia | destruct H3; lia
          | destruct H4; lia ].
Qed.

Lemma lanes_length (simdWidth : Z) :
  length (lanes simdWidth) = Z.to_nat simdWidth.
Proof. rewrite lanes_zrange. apply zrange_length. Qed.

Lemma lanes_bound (simdWidth : Z) :
  Forall (fun k => 0 <= k < simdWidth) (lanes simdWidth).
Proof.
  rewrite lanes_zrange.
  eapply Forall_impl; [apply (zrange_bound 0 (Z.to_nat simdWidth))|].
  intros k Hk. simpl in Hk. lia.
Qed.

Lemma Forall_zip_lanes (simdWidth : Z) (P : Z -> Prop) (v : list Q) :
  Forall P (lanes simdWidth) ->
  Forall (fun kx : Z * Q => P (fst kx)) (zip (lanes simdWidth) v).
Proof.
  generalize (lanes simdWidth) as ks. intros ks H. revert v.
  induction H as [|k ks Hk Hks IH]; intros [|x v]; simpl; constructor; auto.
Qed.

Lemma map_fst_zip_lanes (simdWidth : Z) {B} (f : Z -> B) (v : list Q) :
  length v = Z.to_nat simdWidth ->
  map (fun kx : Z * Q => f (fst kx)) (zip (lanes simdWidth) v)
  = map f (lanes simdWidth).
Proof.
  rewrite <- lanes_length. generalize (lanes simdWidth) as ks.
  intros ks. revert v. induction ks as [|k ks IH]; intros [|x v] Hv;
    simpl in *; try discriminate; [reflexivity|].
  f_equal. apply IH. lia.
Qed.

Lemma zip_with_length {A B C} (f : A -> B -> C) (l : list A) (k : list B) (n : nat) :
  length l = n -> length k = n -> length (zip_with f l k) = n.
Proof.
  revert l k. induction n as [|n IH]; intros [|a l] [|b k] Hl Hk;
    simpl in *; try discriminate; [reflexivity|].
  f_equal. apply IH; lia.
Qed.

Lemma splat_length (simdWidth : Z) (x : Q) :
  length (splat simdWidth x) = Z.to_nat simdWidth.
Proof. apply repeat_length. Qed.

(** *** Aligned register accesses *)

Lemma isSIMDAligned_true (simdWidth offset : Z) :
  offset mod simdWidth = 0 -> isSIMDAligned simdWidth offset = true.
Proof. intros H. unfold isSIMDAligned. rewrite H. reflexivity. Qed.

Lemma io_aligned_add (simdWidth : Z) (p : io) (n : Z) :
  0 < simdWidth ->
  n mod simdWidth = 0 -> io_aligned simdWidth p ->
  io_aligned simdWidth (io_add p n).
Proof.
  intros HW Hn (A & B & C & D). unfold io_aligned, io_add, ptr_add. simpl.
  rewrite !(Z.add_mod (ofs _) n) by lia. rewrite Hn, A, B, C, D. simpl.
  rewrite Z.mod_0_l by lia. auto.
Qed.

(** *** The loops *)

Section Safety.

Variables (L : nat) (shp : list nat).
Variables (len : Z) (fb wet dry : Q) (simdWidth : Z).
Hypothesis len_le_L : len <= Z.of_nat L.
Hypothesis simdWidth_pos : 0 < simdWidth.

Lemma okay_scalarSample (p : io) (idx : Z) :
  0 <= idx < len -> fits_io shp p 1 ->
  okay L shp (scalarSample fb wet dry p idx)
    (fun _ evs => block_post len [outputLeft p] [outputRight p] evs).
Proof.
  intros Hidx (HiL & HiR & HoL & HoR). unfold scalarSample.
  eapply okay_bind; [apply okay_readDelay; lia|intros dl ? ->].
  eapply okay_bind; [apply okay_readDelay; lia|intros dr ? ->].
  eapply okay_bind; [apply okay_readAudio; exact HiL|intros xl ? ->].
  eapply okay_bind; [apply okay_writeAudio; exact HoL|intros ? ? ->].
  eapply okay_bind; [apply okay_readAudio; exact HiR|intros xr ? ->].
  eapply okay_bind; [apply okay_writeAudio; exact HoR|intros ? ? ->].
  eapply okay_bind; [apply okay_readAudio; exact HiL|intros xl' ? ->].
  eapply okay_bind; [apply okay_readAudio; exact HiR|intros xr' ? ->].
  eapply okay_bind; [apply okay_writeDelay; lia|intros ? ? ->].
  eapply okay_weaken; [apply okay_writeDelay; lia|intros ? ? ->].
  simpl. split; [|split; reflexivity].
  repeat constructor; simpl; lia.
Qed.

Lemma okay_tailLoop (n : nat) (p : io) (idx : Z) :
  0 <= idx -> idx + Z.of_nat n <= len -> fits_io shp p (Z.of_nat n) ->
  okay L shp (tailLoop fb wet dry n p idx)
    (fun r evs =>
       r = (io_add p (Z.of_nat n), idx + Z.of_nat n)
       /\ block_post len
            (map (ptr_add (outputLeft p)) (zrange 0 n))
            (map (ptr_add (outputRight p)) (zrange 0 n)) evs).
Proof.
  revert p idx. induction n as [|n IH]; intros p idx Hidx Hend Hp.
  - simpl. eapply okay_weaken; [apply okay_ret|]. intros r evs [-> ->].
    split; [|apply block_post_nil].
    f_equal; [|lia]. destruct p as [[] [] [] []]. unfold io_add, ptr_add.
    simpl. now rewrite !Z.add_0_r.
  - cbn [tailLoop].
    eapply okay_bind.
    { apply okay_scalarSample; [lia|].
      rewrite <- (io_add_0 p). eapply fits_io_sub; [exact Hp|lia|lia]. }
    intros u evs1 H1. cbv beta in H1.
    eapply okay_weaken.
    { apply IH; [lia|lia|]. eapply fits_io_sub; [exact Hp|lia|lia]. }
    intros r evs2 [-> H2]. split.
    + rewrite io_add_add. f_equal; [f_equal|]; lia.
    + rewrite !zrange_S. cbn [map]. rewrite !ptr_add_0.
      simpl in H2. rewrite !map_ptr_add_zrange in H2.
      apply (block_post_app len [_] [_] _ _ _ _ H1 H2).
Qed.


(** *** Registers *)

Lemma okay_mapM_readDelay c offset (ks : list Z) :
  Forall (fun k => 0 <= offset + k < Z.of_nat L) ks ->
  okay L shp (mapM (fun k => readDelay c (offset + k)) ks)
    (fun v evs =>
       length v = length ks
       /\ evs = map (fun k => EvDelayRead c (offset + k)) ks).
Proof.
  induction 1 as [|k ks Hk Hks IH]; cbn [mapM].
  - eapply okay_weaken; [apply okay_ret|]. now intros v evs [-> ->].
  - eapply okay_bind; [apply okay_readDelay; exact Hk|intros x ? ->].
    eapply okay_bind; [exact IH|intros v evs1 [Hv ->]].
    eapply okay_weaken; [apply okay_ret|]. intros w evs [-> ->].
    simpl. rewrite app_nil_r. split; [now rewrite Hv|reflexivity].
Qed.

Lemma okay_mapM_readAudio p (ks : list Z) :
  Forall (fun k => fits shp (ptr_add p k) 1) ks ->
  okay L shp (mapM (fun k => readAudio (ptr_add p k)) ks)
    (fun v evs => length v = length ks /\ evs = []).
Proof.
  induction 1 as [|k ks Hk Hks IH]; cbn [mapM].
  - eapply okay_weaken; [apply okay_ret|]. now intros v evs [-> ->].
  - eapply okay_bind; [apply okay_readAudio; exact Hk|intros x ? ->].
    eapply okay_bind; [exact IH|intros v evs1 [Hv ->]].
    eapply okay_weaken; [apply okay_ret|]. intros w evs [-> ->].
    simpl. split; [now rewrite Hv|reflexivity].
Qed.

Lemma okay_forM_writeDelay c offset (kxs : list (Z * Q)) :
  Forall (fun kx => 0 <= offset + fst kx < Z.of_nat L) kxs ->
  okay L shp (forM (fun kx => writeDelay c (offset + fst kx) (snd kx)) kxs)
    (fun _ evs =>
       evs = map (fun kx => EvDelayWrite c (offset + fst kx) (snd kx)) kxs).
Proof.
  induction 1 as [|kx kxs Hk Hks IH]; cbn [forM].
  - eapply okay_weaken; [apply okay_ret|]. now intros v evs [-> ->].
  - eapply okay_bind; [apply okay_writeDelay; exact Hk|intros x ? ->].
    eapply okay_weaken; [exact IH|]. now intros u evs ->.
Qed.

Lemma okay_forM_writeAudio c p (kxs : list (Z * Q)) :
  Forall (fun kx => fits shp (ptr_add p (fst kx)) 1) kxs ->
  okay L shp (forM (fun kx => writeAudio c (ptr_add p (fst kx)) (snd kx)) kxs)
    (fun _ evs => evs = map (fun kx => EvOutput c (ptr_add p (fst kx))) kxs).
Proof.
  induction 1 as [|kx kxs Hk Hks IH]; cbn [forM].
  - eapply okay_weaken; [apply okay_ret|]. now intros v evs [-> ->].
  - eapply okay_bind; [apply okay_writeAudio; exact Hk|intros x ? ->].
    eapply okay_weaken; [exact IH|]. now intros u evs ->.
Qed.

Lemma okay_fromRawDelay c offset :
  offset mod simdWidth = 0 ->
  0 <= offset -> offset + simdWidth <= Z.of_nat L ->
  okay L shp (fromRawDelay simdWidth c offset)
    (fun v evs =>
       length v = Z.to_nat simdWidth
       /\ evs = map (fun k => EvDelayRead c (offset + k)) (lanes simdWidth)).
Proof.
  intros Ha H0 H1. unfold fromRawDelay. rewrite (isSIMDAligned_true _ _ Ha).
  eapply okay_weaken.
  - apply okay_mapM_readDelay.
    eapply Forall_impl; [apply lanes_bound|]. intros k Hk. cbv beta in Hk |- *. lia.
  - intros v evs [Hv ->]. now rewrite Hv, lanes_length.
Qed.

Lemma okay_fromRawArray p :
  ofs p mod simdWidth = 0 -> fits shp p simdWidth ->
  okay L shp (fromRawArray simdWidth p)
    (fun v evs => length v = Z.to_nat simdWidth /\ evs = []).
Proof.
  intros Ha Hp. unfold fromRawArray. rewrite (isSIMDAligned_true _ _ Ha).
  eapply okay_weaken.
  - apply okay_mapM_readAudio.
    eapply Forall_impl; [apply lanes_bound|]. intros k Hk. cbv beta in Hk |- *.
    eapply fits_sub; [exact Hp|lia|lia].
  - intros v evs [Hv ->]. now rewrite Hv, lanes_length.
Qed.

Lemma okay_copyToRawArray c p v :
  ofs p mod simdWidth = 0 ->
  length v = Z.to_nat simdWidth -> fits shp p simdWidth ->
  okay L shp (copyToRawArray simdWidth c p v)
    (fun _ evs => evs = map (fun k => EvOutput c (ptr_add p k)) (lanes simdWidth)).
Proof.
  intros Ha Hv Hp. unfold copyToRawArray. rewrite (isSIMDAligned_true _ _ Ha).
  eapply okay_weaken.
  - apply okay_forM_writeAudio.
    apply (Forall_zip_lanes simdWidth (fun k => fits shp (ptr_add p k) 1)).
    eapply Forall_impl; [apply lanes_bound|]. intros k Hk. cbv beta in Hk |- *.
    eapply fits_sub; [exact Hp|lia|lia].
  - intros u evs ->.
    apply (map_fst_zip_lanes simdWidth (fun k => EvOutput c (ptr_add p k)) v Hv).
Qed.

Lemma okay_copyToRawDelay c offset v :
  offset mod simdWidth = 0 ->
  0 <= offset -> offset + simdWidth <= len ->
  okay L shp (copyToRawDelay simdWidth c offset v)
    (fun _ evs => block_post len [] [] evs).
Proof.
  intros Ha H0 H1. unfold copyToRawDelay. rewrite (isSIMDAligned_true _ _ Ha).
  eapply okay_weaken.
  - apply okay_forM_writeDelay.
    apply (Forall_zip_lanes simdWidth (fun k => 0 <= offset + k < Z.of_nat L)).
    eapply Forall_impl; [apply lanes_bound|]. intros k Hk. cbv beta in Hk |- *. lia.
  - intros u evs ->.
    pose proof (Forall_zip_lanes simdWidth (fun k => 0 <= offset + k < len) v) as HF.
    assert (HB : Forall (fun k => 0 <= offset + k < len) (lanes simdWidth)).
    { eapply Forall_impl; [apply lanes_bound|]. intros k Hk. cbv beta in Hk |- *. lia. }
    specialize (HF HB). clear HB.
    induction HF as [|kx kxs Hk Hks IH]; simpl; [apply block_post_nil|].
    apply (block_post_app len [] [] [] [] [_] _); [|exact IH].
    split; [|split; reflexivity]. constructor; [exact Hk|constructor].
Qed.

(** *** The SIMD chunk, the chunk loop and the outer loop *)

Lemma block_post_app_eq a b a' b' e1 e2 A B :
  block_post len a b e1 -> block_post len a' b' e2 ->
  a ++ a' = A -> b ++ b' = B ->
  block_post len A B (e1 ++ e2).
Proof. intros H1 H2 <- <-. now apply block_post_app. Qed.

Lemma block_post_reads c offset (ks : list Z) :
  Forall (fun k => 0 <= offset + k < len) ks ->
  block_post len [] [] (map (fun k => EvDelayRead c (offset + k)) ks).
Proof.
  induction 1 as [|k ks Hk Hks IH]; simpl; [apply block_post_nil|].
  apply (block_post_app len [] [] [] [] [_] _); [|exact IH].
  split; [|split; reflexivity]. constructor; [exact Hk|constructor].
Qed.

Lemma block_post_outputs_left p (ks : list Z) :
  block_post len (map (ptr_add p) ks) []
    (map (fun k => EvOutput ChLeft (ptr_add p k)) ks).
Proof.
  induction ks as [|k ks IH]; simpl; [apply block_post_nil|].
  apply (block_post_app len [_] [] _ [] [_] _); [|exact IH].
  split; [|split; reflexivity]. constructor; [exact I|constructor].
Qed.

Lemma block_post_outputs_right p (ks : list Z) :
  block_post len [] (map (ptr_add p) ks)
    (map (fun k => EvOutput ChRight (ptr_add p k)) ks).
Proof.
  induction ks as [|k ks IH]; simpl; [apply block_post_nil|].
  apply (block_post_app len [] [_] [] _ [_] _); [|exact IH].
  split; [|split; reflexivity]. constructor; [exact I|constructor].
Qed.

Lemma okay_simdChunk (p : io) (offset : Z) :
  offset mod simdWidth = 0 -> io_aligned simdWidth p ->
  0 <= offset -> offset + simdWidth <= len -> fits_io shp p simdWidth ->
  okay L shp (simdChunk fb wet dry simdWidth p offset)
    (fun _ evs =>
       block_post len
         (map (ptr_add (outputLeft p)) (lanes simdWidth))
         (map (ptr_add (outputRight p)) (lanes simdWidth)) evs).
Proof.
  intros Ha (AiL & AiR & AoL & AoR) H0 H1 (HiL & HiR & HoL & HoR).
  unfold simdChunk. cbv zeta.
  assert (HB : Forall (fun k => 0 <= offset + k < len) (lanes simdWidth)).
  { eapply Forall_impl; [apply lanes_bound|].
    intros k Hk. cbv beta in Hk |- *. lia. }
  eapply okay_bind;
    [apply okay_fromRawDelay; [exact Ha|lia|lia]|intros dl ? [Hdl ->]].
  eapply okay_bind;
    [apply okay_fromRawDelay; [exact Ha|lia|lia]|intros dr ? [Hdr ->]].
  eapply okay_bind;
    [apply okay_fromRawArray; [exact AiL|exact HiL]|intros xl ? [Hxl ->]].
  eapply okay_bind;
    [apply okay_fromRawArray; [exact AiR|exact HiR]|intros xr ? [Hxr ->]].
  eapply okay_bind.
  { apply okay_copyToRawArray; [exact AoL| |exact HoL].
    repeat apply zip_with_length; auto using splat_length. }
  intros ? ? ->.
  eapply okay_bind.
  { apply okay_copyToRawArray; [exact AoR| |exact HoR].
    repeat apply zip_with_length; auto using splat_length. }
  intros ? ? ->.
  eapply okay_bind;
    [apply okay_copyToRawDelay; [exact Ha|lia|lia]|intros ? evsL HL].
  eapply okay_weaken;
    [apply okay_copyToRawDelay; [exact Ha|lia|lia]|intros ? evsR HR].
  cbv beta in HL, HR. rewrite !app_nil_l.
  eapply block_post_app_eq; [apply block_post_reads; exact HB| | |].
  2:{ simpl. reflexivity. }
  2:{ simpl. reflexivity. }
  eapply block_post_app_eq; [apply block_post_reads; exact HB| | |].
  2:{ simpl. reflexivity. }
  2:{ simpl. reflexivity. }
  eapply block_post_app_eq; [apply block_post_outputs_left| | |].
  2:{ apply app_nil_r. }
  2:{ simpl. reflexivity. }
  eapply block_post_app_eq; [apply block_post_outputs_right| | |].
  2:{ simpl. reflexivity. }
  2:{ apply app_nil_r. }
  apply (block_post_app len [] [] [] [] _ _ HL HR).
Qed.

Lemma okay_simdLoop (n : nat) (p : io) (chunk idx : Z) :
  n = 0%nat \/ (idx mod simdWidth = 0 /\ io_aligned simdWidth p) ->
  0 <= idx + chunk * simdWidth ->
  idx + (chunk + Z.of_nat n) * simdWidth <= len ->
  fits_io shp p (Z.of_nat n * simdWidth) ->
  okay L shp (simdLoop fb wet dry simdWidth n p chunk idx)
    (fun r evs =>
       r = io_add p (Z.of_nat n * simdWidth)
       /\ block_post len
            (map (ptr_add (outputLeft p)) (zrange 0 (n * Z.to_nat simdWidth)))
            (map (ptr_add (outputRight p)) (zrange 0 (n * Z.to_nat simdWidth)))
            evs).
Proof.
  revert p chunk. induction n as [|n IH]; intros p chunk Hal H0 H1 Hp.
  - simpl. eapply okay_weaken; [apply okay_ret|]. intros r evs [-> ->].
    split; [now rewrite io_add_0|apply block_post_nil].
  - cbn [simdLoop].
    destruct Hal as [Hal|[Hidx Hpa]]; [discriminate Hal|].
    eapply okay_bind.
    { apply okay_simdChunk; [|exact Hpa|lia|nia|].
      - rewrite Z.mod_add by lia. exact Hidx.
      - rewrite <- (io_add_0 p). eapply fits_io_sub; [exact Hp|lia|nia]. }
    intros u evs1 HC. cbv beta in HC.
    eapply okay_weaken.
    { apply IH; [|nia|nia|].
      - right. split; [exact Hidx|].
        apply io_aligned_add; [lia|apply Z.mod_same; lia|exact Hpa].
      - eapply fits_io_sub; [exact Hp|lia|nia]. }
    intros r evs2 [-> HR]. split.
    + rewrite io_add_add. f_equal. lia.
    + change (S n * Z.to_nat simdWidth)%nat
        with (Z.to_nat simdWidth + n * Z.to_nat simdWidth)%nat.
      rewrite !zrange_app, !map_app.
      simpl in HR. rewrite !map_ptr_add_zrange in HR.
      rewrite Z2Nat.id, Z.add_0_l by lia.
      rewrite Z.add_0_r in HR. rewrite <- lanes_zrange.
      now apply block_post_app.
Qed.

Lemma okay_simdWhile (fuel : nat) (p : io) (rem idx : Z) :
  aligned_block simdWidth len idx p rem ->
  0 <= idx < len -> 0 <= rem -> fits_io shp p rem ->
  (Z.to_nat rem <= fuel)%nat ->
  okay L shp (simdWhile len fb wet dry simdWidth fuel p rem idx)
    (fun r evs =>
       0 <= r < len
       /\ block_post len
            (map (ptr_add (outputLeft p)) (zrange 0 (Z.to_nat rem)))
            (map (ptr_add (outputRight p)) (zrange 0 (Z.to_nat rem)))
            evs).
Proof.
  revert p rem idx.
  induction fuel as [|fuel IH]; intros p rem idx Hal Hidx Hrem Hp Hfuel.
  - assert (rem = 0) as -> by lia. simpl.
    eapply okay_weaken; [apply okay_ret|]. intros r evs [-> ->].
    split; [exact Hidx|apply block_post_nil].
  - cbn [simdWhile]. destruct (Z.gtb_spec rem 0) as [Hpos|Hz].
    2:{ assert (rem = 0) as -> by lia. simpl.
        eapply okay_weaken; [apply okay_ret|]. intros r evs [-> ->].
        split; [exact Hidx|apply block_post_nil]. }
    cbv zeta.
    set (ste := Juce.jmin_int rem (len - idx)).
    assert (Hste : 1 <= ste /\ ste <= rem /\ ste <= len - idx).
    { unfold ste, Juce.jmin_int. destruct (Z.ltb_spec (len - idx) rem); lia. }
    assert (Hcase : ste = rem \/ ste = len - idx).
    { unfold ste, Juce.jmin_int. destruct (Z.ltb_spec (len - idx) rem); lia. }
    pose proof (Z.quot_rem' ste simdWidth) as Hqr.
    assert (Hq : 0 <= Z.quot ste simdWidth) by (apply Z.quot_pos; lia).
    assert (Hr : 0 <= Z.rem ste simdWidth < simdWidth)
      by (apply Z.rem_bound_pos; lia).
    set (q := Z.quot ste simdWidth) in *.
    set (t := Z.rem ste simdWidth) in *.
    eapply okay_bind; [apply okay_noteSegment|intros ? ? ->].
    eapply okay_bind.
    { apply (okay_simdLoop (Z.to_nat q) p 0 idx); [|lia|nia|].
      - destruct Hal as [Hshort|(Ai & _ & Ap)]; [left|right; auto].
        assert (q = 0) by (subst q; apply Z.quot_small; lia). lia.
      - rewrite <- (io_add_0 p). eapply fits_io_sub; [exact Hp|lia|nia]. }
    intros p1 evs1 [-> H1].
    eapply okay_bind.
    { apply (okay_tailLoop (Z.to_nat t)); [nia|nia|].
      eapply fits_io_sub; [exact Hp|nia|nia]. }
    intros pi evs2 [-> H2]. cbn [fst snd].
    rewrite io_add_add.
    replace (Z.of_nat (Z.to_nat q) * simdWidth + Z.of_nat (Z.to_nat t))
      with ste by nia.
    replace (idx + q * simdWidth + Z.of_nat (Z.to_nat t))
      with (idx + ste) by nia.
    eapply okay_weaken.
    { apply IH with (rem := rem - ste).
      - destruct Hal as [Hshort|(Ai & Al & Ap)]; [left; lia|].
        destruct (Z.geb_spec (idx + ste) len) as [Hedge|Hin];
          [right|left; lia].
        assert (Este : ste = len - idx) by lia.
        assert (Hmod : ste mod simdWidth = 0).
        { rewrite Este, Zminus_mod, Al, Ai. simpl. apply Z.mod_0_l; lia. }
        split; [apply Z.mod_0_l; lia|].
        split; [exact Al|]. apply io_aligned_add; assumption.
      - destruct (Z.geb_spec (idx + ste) len); lia.
      - lia.
      - eapply fits_io_sub; [exact Hp|lia|lia].
      - lia. }
    intros r evs3 [Hr3 H3]. split; [exact Hr3|].
    replace (Z.to_nat rem)
      with (Z.to_nat q * Z.to_nat simdWidth
            + (Z.to_nat t + Z.to_nat (rem - ste)))%nat by nia.
    rewrite !zrange_app, !map_app.
    simpl in H2, H3. rewrite !map_ptr_add_zrange in H2, H3.
    rewrite !Z.add_0_r in H2, H3. rewrite !Z.add_0_l.
    replace (Z.of_nat (Z.to_nat q * Z.to_nat simdWidth)
             + Z.of_nat (Z.to_nat t)) with ste by nia.
    replace (Z.of_nat (Z.to_nat q * Z.to_nat simdWidth))
      with (Z.of_nat (Z.to_nat q) * simdWidth) by nia.
    apply (block_post_app len [] [] _ _ [_] _).
    { split; [|split; reflexivity]. constructor; [simpl; lia|constructor]. }
    apply block_post_app; [exact H1|].
    apply block_post_app; [exact H2|exact H3].
Qed.

End Safety.

(** *** The SIMD path at its entry *)

Lemma Forall_segmentsOf len (evs : list event) :
  Forall (event_within len) evs -> Forall (fun k => 0 < k) (segmentsOf evs).
Proof.
  induction 1 as [|ev evs Hev _ IH]; simpl; [constructor|].
  destruct ev; simpl; auto.
Qed.

Lemma Forall_delayIndices len (evs : list event) :
  Forall (event_within len) evs ->
  Forall (fun i => 0 <= i < len) (delayIndices evs).
Proof.
  induction 1 as [|ev evs Hev _ IH]; simpl; [constructor|].
  destruct ev; simpl; auto.
Qed.

Lemma simd_block_under_entry (simdWidth : Z) (fuel : nat)
  (e : SharcDelayLine) (p : io) (numSamples : Z) (m : memory) :
  0 < simdWidth -> simd_entry e ->
  aligned_block simdWidth (delaySamples e) (delayIndex e) p numSamples ->
  0 <= numSamples ->
  valid_io m p numSamples -> (Z.to_nat numSamples <= fuel)%nat ->
  exists o,
    processBlockSIMD simdWidth fuel e p numSamples m = Ok o
    /\ Forall (fun k => 0 < k) (segmentsOf (events o))
    /\ Forall (fun i => 0 <= i < delaySamples e) (delayIndices (events o))
    /\ outputsOf ChLeft (events o)
       = map (ptr_add (outputLeft p)) (zrange 0 (Z.to_nat numSamples))
    /\ outputsOf ChRight (events o)
       = map (ptr_add (outputRight p)) (zrange 0 (Z.to_nat numSamples))
    /\ delaySamples (engine o) = delaySamples e
    /\ 0 <= delayIndex (engine o) < delaySamples (engine o).
Proof.
  intros HW (Hprep & Hidx & Hmax & HlenL & HlenR) Hal Hn Hp Hfuel.
  unfold processBlockSIMD. rewrite Hprep. simpl negb. cbv iota.
  assert (Hwf : wf (Z.to_nat (maxDelaySamples e)) (map length m) (enter e m)).
  { split; [exact HlenL|split; [exact HlenR|reflexivity]]. }
  destruct (okay_simdWhile (Z.to_nat (maxDelaySamples e)) (map length m)
              (delaySamples e) (feedback e) (wetMix e) (dryMix e) simdWidth
              ltac:(lia) HW fuel p numSamples (delayIndex e)
              Hal Hidx Hn Hp Hfuel (enter e m) Hwf)
    as (r & s' & evs & Erun & Etrace & _ & Hr & Hall & HoL & HoR).
  rewrite Erun. simpl. eexists; split; [reflexivity|]. simpl.
  simpl in Etrace. rewrite Etrace.
  split; [eapply Forall_segmentsOf; exact Hall|].
  split; [eapply Forall_delayIndices; exact Hall|].
  auto.
Qed.

(** On an engine a client can have obtained, the sizes of the delay
    lines come for free. *)
Lemma reachable_simd_entry (e : SharcDelayLine) :
  reachable e -> entry_condition e -> simd_entry e.
Proof.
  intros Hr (Hp & Hidx & Hmax).
  destruct (reachable_well_sized e Hr Hp) as [HL HR].
  unfold simd_entry. auto.
Qed.

Lemma reachable_engine8 : reachable engine8.
Proof.
  apply (reach_setDelaySeconds 1
           (engine_or_default (prepare 8 1 defaultDelayLine))).
  - apply (reach_prepare 8 1 defaultDelayLine); [constructor|].
    vm_compute. reflexivity.
  - vm_compute. reflexivity.
Qed.

Lemma reachable_engine8_at3 : reachable engine8_at3.
Proof.
  assert (H : exists o, processBlockScalar engine8 apart 3 ones3 = Ok o
                        /\ engine o = engine8_at3).
  { eexists. split; [vm_compute; reflexivity|reflexivity]. }
  destruct H as (o & Ho & <-).
  apply (reach_scalar engine8 apart 3 ones3 o); [|exact Ho].
  exact reachable_engine8.
Qed.




(** ** Calls on which the block processors leave the announced behaviour *)

(** C1.  [processBlock] calls [processBlockScalar] with each output
    pointer equal to the input pointer of its channel.  On one sample of
    value 1 (feedback 0.3, wet and dry 0.5, an empty delay line) the
    output is 0.5, as announced, but the element stored under the cursor
    is 0.5 = clamp (output + 0.3 * 0): the second read of [inputLeft[i]]
    sees the output just written.  The announced recurrence stores
    1 = clamp (input + 0.3 * 0). *)
Theorem scalar_in_place_feeds_back_the_output :
  exists o stored announced rest i,
    processBlock 4 0 par_scalar plugin8 [[1]%Q; [1]%Q] = Ok o
    /\ samples 0 (arrays o) = [1 # 2]
    /\ delayLineLeft (engine o) !! 0%nat = Some stored
    /\ (stored == 1 # 2)%Q
    /\ recurrence 8 (3 # 10) (1 # 2) (1 # 2) [1]%Q (delayLineLeft plugin8) 0
       = Some ([(1 * (1 # 2) + 0 * (1 # 2))%Q], announced :: rest, i)
    /\ (announced == 1)%Q
    /\ ~ (stored == announced)%Q.
Proof.
  eexists _, _, _, _, _.
  split; [vm_compute; reflexivity|].
  split; [vm_compute; reflexivity|].
  split; [vm_compute; reflexivity|].
  split; [reflexivity|].
  split; [vm_compute; reflexivity|].
  split; [reflexivity|].
  intros H. vm_compute in H. discriminate.
Qed.

(** C2.  Two calls on which the two paths part.
    (a) In place, as [processBlock] calls them, cursor inside the loop,
    one full register of ones: the outputs agree, but the scalar path
    leaves 1/2 in the delay line where the SIMD path leaves 1.
    (b) Arrays apart, after [setDelaySeconds] has shrunk the loop below
    the cursor ([engine8_shrunk]), one sample of silence: the scalar path
    returns with output 0 and one store per output pointer; the SIMD
    path reads past the end of one-sample arrays, and on longer arrays
    returns with first output 1/2 and two stores per output pointer. *)
Theorem scalar_and_simd_paths_part :
  (exists o1 o2,
      simd_entry engine8
      /\ processBlockScalar engine8 inPlace 4
           [[1; 1; 1; 1]%Q; [1; 1; 1; 1]%Q] = Ok o1
      /\ processBlockSIMD 4 4 engine8 inPlace 4
           [[1; 1; 1; 1]%Q; [1; 1; 1; 1]%Q] = Ok o2
      /\ samples 0 (arrays o1) = samples 0 (arrays o2)
      /\ map Qred (delayLineLeft (engine o1))
         = [1 # 2; 1 # 2; 1 # 2; 1 # 2; 0; 0; 0; 0]%Q
      /\ map Qred (delayLineLeft (engine o2)) = [1; 1; 1; 1; 0; 0; 0; 0]%Q)
  /\ (exists o1 o2 o3,
         reachable engine8_shrunk
         /\ processBlockScalar engine8_shrunk apart 1
              [[0]%Q; [0]%Q; [0]%Q; [0]%Q] = Ok o1
         /\ samples 2 (arrays o1) = [0]%Q
         /\ outputsOf ChLeft (events o1) = [mkPtr 2 0]
         /\ (forall fuel,
               processBlockSIMD 4 (S (S fuel)) engine8_shrunk apart 1
                 [[0]%Q; [0]%Q; [0]%Q; [0]%Q] = Undefined)
         /\ processBlockScalar engine8_shrunk apart 1 silence4 = Ok o2
         /\ processBlockSIMD 4 2 engine8_shrunk apart 1 silence4 = Ok o3
         /\ samples 2 (arrays o2) = [0; 0; 0; 0]%Q
         /\ samples 2 (arrays o3) = [1 # 2; 1 # 2; 0; 0]%Q
         /\ outputsOf ChLeft (events o3) = [mkPtr 2 0; mkPtr 2 1]).
Proof.
  split.
  - eexists _, _.
    split; [unfold simd_entry; vm_compute; intuition discriminate|].
    split; [vm_compute; reflexivity|].
    split; [vm_compute; reflexivity|].
    repeat split; vm_compute; reflexivity.
  - eexists _, _, _.
    split.
    { apply (reach_setDelaySeconds (1 # 4) engine8_at3);
        [apply reachable_engine8_at3|vm_compute; reflexivity]. }
    split; [vm_compute; reflexivity|].
    split; [vm_compute; reflexivity|].
    split; [vm_compute; reflexivity|].
    split; [intros fuel; vm_compute; reflexivity|].
    split; [vm_compute; reflexivity|].
    split; [vm_compute; reflexivity|].
    repeat split; vm_compute; reflexivity.
Qed.

(** C7.  A unit impulse followed by silence through [processBlock]
    (scalar path, in place; delay of 2 samples, feedback 1/2, wet and dry
    at 1), from a freshly prepared engine.  The buffer returned holds
    1 at every sample 0, 2, 4, 6: the echo does not decay.  The same
    engine on arrays apart gives the echoes 1, 1/2, 1/4 at samples
    2, 4, 6, as does the announced recurrence. *)
Theorem in_place_echo_does_not_decay :
  exists o o',
    processBlock 4 0 par_echo plugin8 [impulse7; silence7] = Ok o
    /\ samples 0 (arrays o) = [1; 0; 1; 0; 1; 0; 1]%Q
    /\ processBlockScalar echo8 apart 7
         [impulse7; silence7; silence7; silence7] = Ok o'
    /\ samples 2 (arrays o') = [1; 0; 1; 0; 1 # 2; 0; 1 # 4]%Q
    /\ option_map (fun r => map Qred (fst (fst r)))
         (recurrence 2 (1 # 2) 1 1 impulse7 (delayLineLeft echo8) 0)
       = Some [1; 0; 1; 0; 1 # 2; 0; 1 # 4]%Q.
Proof.
  eexists _, _.
  split; [vm_compute; reflexivity|].
  split; [vm_compute; reflexivity|].
  split; [vm_compute; reflexivity|].
  split; vm_compute; reflexivity.
Qed.

(** ** The scalar path on arrays apart: the announced recurrence *)

Lemma store_inv (m m' : memory) (p : ptr) (x : Q) :
  store m p x = Some m' ->
  0 <= ofs p
  /\ exists b, m !! blk p = Some b
               /\ (Z.to_nat (ofs p) < length b)%nat
               /\ m' = <[blk p := <[Z.to_nat (ofs p) := x]> b]> m.
Proof.
  unfold store. destruct (Z.ltb_spec (ofs p) 0); [discriminate|].
  destruct (m !! blk p) as [b|] eqn:Hb; [|discriminate].
  destruct (Nat.ltb_spec (Z.to_nat (ofs p)) (length b)); [|discriminate].
  intros E. inversion E; subst. split; [lia|]. exists b. auto.
Qed.

Lemma store_shape (m m' : memory) (p : ptr) (x : Q) :
  store m p x = Some m' -> map length m' = map length m.
Proof.
  intros H. apply store_inv in H. destruct H as (_ & b & Hb & Hlt & ->).
  rewrite list_fmap_insert, length_insert.
  apply list_insert_id. rewrite list_lookup_fmap, Hb. reflexivity.
Qed.

Lemma lookup_store_other (m m' : memory) (p : ptr) (x : Q) (j : nat) :
  store m p x = Some m' -> j <> blk p -> m' !! j = m !! j.
Proof.
  intros H Hj. apply store_inv in H. destruct H as (_ & b & Hb & Hlt & ->).
  apply list_lookup_insert_ne. congruence.
Qed.

Lemma load_store_eq (m m' : memory) (p : ptr) (x : Q) :
  store m p x = Some m' -> load m' p = Some x.
Proof.
  intros H. apply store_inv in H. destruct H as (Ho & b & Hb & Hlt & ->).
  unfold load. destruct (Z.ltb_spec (ofs p) 0); [lia|].
  rewrite list_lookup_insert_eq by (eapply lookup_lt_Some; exact Hb).
  now apply list_lookup_insert_eq.
Qed.

Lemma load_store_other_block (m m' : memory) (p q : ptr) (x : Q) :
  store m p x = Some m' -> blk q <> blk p -> load m' q = load m q.
Proof.
  intros H Hq. unfold load.
  now rewrite (lookup_store_other _ _ _ _ _ H Hq).
Qed.

Lemma load_store_other_ofs (m m' : memory) (p q : ptr) (x : Q) :
  store m p x = Some m' -> blk q = blk p -> ofs q <> ofs p ->
  load m' q = load m q.
Proof.
  intros H Hb Ho. apply store_inv in H.
  destruct H as (Hp & b & Hlk & Hlt & ->).
  unfold load. destruct (Z.ltb_spec (ofs q) 0); [reflexivity|].
  rewrite Hb, Hlk.
  rewrite list_lookup_insert_eq by (eapply lookup_lt_Some; exact Hlk).
  apply list_lookup_insert_ne. lia.
Qed.

Lemma vec_set_inv (v v' : list Q) (i : Z) (x : Q) :
  vec_set v i x = Some v' ->
  0 <= i < Z.of_nat (length v) /\ v' = <[Z.to_nat i := x]> v.
Proof.
  unfold vec_set. destruct (Z.leb_spec 0 i); simpl; [|discriminate].
  destruct (Z.ltb_spec i (Z.of_nat (length v))); [|discriminate].
  intros E. inversion E. split; [lia|reflexivity].
Qed.

Lemma vec_get_Some (v : list Q) (i : Z) :
  0 <= i < Z.of_nat (length v) -> exists x, vec_get v i = Some x.
Proof.
  intros H. unfold vec_get. destruct (Z.ltb_spec i 0); [lia|].
  apply lookup_lt_is_Some_2. lia.
Qed.

Lemma vec_set_Some (v : list Q) (i : Z) (x : Q) :
  0 <= i < Z.of_nat (length v) ->
  vec_set v i x = Some (<[Z.to_nat i := x]> v).
Proof.
  intros H. unfold vec_set.
  destruct (Z.leb_spec 0 i); [|lia].
  destruct (Z.ltb_spec i (Z.of_nat (length v))); [|lia]. reflexivity.
Qed.

Section Refinement.

Variables (len : Z) (fb wet dry : Q).

(** One sample on arrays apart: what is stored where. *)
Lemma scalarSample_apart (p : io) (idx : Z) (s : machine)
  (xl xr dl dr : Q) :
  outputs_apart p ->
  load (audio s) (inputLeft p) = Some xl ->
  load (audio s) (inputRight p) = Some xr ->
  vec_get (bufferLeft s) idx = Some dl ->
  vec_get (bufferRight s) idx = Some dr ->
  0 <= idx < Z.of_nat (length (bufferLeft s)) ->
  0 <= idx < Z.of_nat (length (bufferRight s)) ->
  fits (map length (audio s)) (outputLeft p) 1 ->
  fits (map length (audio s)) (outputRight p) 1 ->
  exists s' m1,
    scalarSample fb wet dry p idx s = Ok (tt, s')
    /\ store (audio s) (outputLeft p) (xl * dry + dl * wet)%Q = Some m1
    /\ store m1 (outputRight p) (xr * dry + dr * wet)%Q = Some (audio s')
    /\ bufferLeft s'
       = <[Z.to_nat idx := Juce.jlimit (-1) 1 (xl + fb * dl)%Q]> (bufferLeft s)
    /\ bufferRight s'
       = <[Z.to_nat idx := Juce.jlimit (-1) 1 (xr + fb * dr)%Q]> (bufferRight s).
Proof.
  intros (A1 & A2 & A3 & A4 & A5) HxL HxR HdL HdR HiL HiR HoL HoR.
  destruct (fits_store _ _ 1 (xl * dry + dl * wet)%Q ltac:(lia) HoL)
    as (m1 & Hm1 & Hs1).
  rewrite <- Hs1 in HoR.
  destruct (fits_store _ _ 1 (xr * dry + dr * wet)%Q ltac:(lia) HoR)
    as (m2 & Hm2 & Hs2).
  assert (HxR1 : load m1 (inputRight p) = Some xr).
  { rewrite (load_store_other_block _ _ _ _ _ Hm1); [exact HxR|congruence]. }
  assert (HxL2 : load m2 (inputLeft p) = Some xl).
  { rewrite (load_store_other_block _ _ _ _ _ Hm2) by congruence.
    rewrite (load_store_other_block _ _ _ _ _ Hm1) by congruence.
    exact HxL. }
  assert (HxR2 : load m2 (inputRight p) = Some xr).
  { rewrite (load_store_other_block _ _ _ _ _ Hm2) by congruence.
    exact HxR1. }
  unfold scalarSample, bind, readDelay, readAudio, writeAudio, writeDelay, note.
  cbn [line bufferLeft bufferRight audio trace]. rewrite HdL.
  cbn [line bufferLeft bufferRight audio trace]. rewrite HdR.
  cbn [line bufferLeft bufferRight audio trace]. rewrite HxL.
  cbn [line bufferLeft bufferRight audio trace]. rewrite Hm1.
  cbn [line bufferLeft bufferRight audio trace]. rewrite HxR1.
  cbn [line bufferLeft bufferRight audio trace]. rewrite Hm2.
  cbn [line bufferLeft bufferRight audio trace]. rewrite HxL2.
  cbn [line bufferLeft bufferRight audio trace]. rewrite HxR2.
  cbn [line bufferLeft bufferRight audio trace].
  rewrite (vec_set_Some _ _ _ HiL).
  cbn [line bufferLeft bufferRight audio trace].
  rewrite (vec_set_Some _ _ _ HiR).
  eexists _, m1. split; [reflexivity|]. cbn [bufferLeft bufferRight audio].
  auto.
Qed.

Lemma advance_range (L idx : Z) :
  0 <= idx < L -> len <= L -> 0 <= advance len idx < L.
Proof.
  intros H1 H2. unfold advance. destruct (Z.geb_spec (idx + 1) len); lia.
Qed.

(** What the loop of the scalar path leaves, from any machine and any
    position [i] in the caller's arrays. *)
Lemma scalarLoop_refines (p : io) (L : Z) :
  outputs_apart p -> len <= L ->
  forall (inL inR : list Q) (i idx : Z) (s : machine),
    length inL = length inR ->
    (forall (k : nat) x, inL !! k = Some x ->
       load (audio s) (ptr_add (inputLeft p) (i + Z.of_nat k)) = Some x) ->
    (forall (k : nat) x, inR !! k = Some x ->
       load (audio s) (ptr_add (inputRight p) (i + Z.of_nat k)) = Some x) ->
    0 <= i ->
    fits (map length (audio s)) (outputLeft p) (i + Z.of_nat (length inL)) ->
    fits (map length (audio s)) (outputRight p) (i + Z.of_nat (length inL)) ->
    Z.of_nat (length (bufferLeft s)) = L ->
    Z.of_nat (length (bufferRight s)) = L ->
    0 <= idx < L ->
    exists s' outsL outsR bL bR j,
      recurrence len fb wet dry inL (bufferLeft s) idx = Some (outsL, bL, j)
      /\ recurrence len fb wet dry inR (bufferRight s) idx
         = Some (outsR, bR, j)
      /\ scalarLoop len fb wet dry (length inL) p i idx s = Ok (j, s')
      /\ bufferLeft s' = bL /\ bufferRight s' = bR
      /\ length outsL = length inL /\ length outsR = length inL
      /\ map length (audio s') = map length (audio s)
      /\ (forall (k : nat) x, outsL !! k = Some x ->
            load (audio s') (ptr_add (outputLeft p) (i + Z.of_nat k)) = Some x)
      /\ (forall (k : nat) x, outsR !! k = Some x ->
            load (audio s') (ptr_add (outputRight p) (i + Z.of_nat k)) = Some x)
      /\ (forall b, b <> blk (outputLeft p) -> b <> blk (outputRight p) ->
            audio s' !! b = audio s !! b)
      /\ (forall q, blk q = blk (outputLeft p) ->
            ofs q < ofs (outputLeft p) + i ->
            load (audio s') q = load (audio s) q)
      /\ (forall q, blk q = blk (outputRight p) ->
            ofs q < ofs (outputRight p) + i ->
            load (audio s') q = load (audio s) q).
Proof.
  intros Hap HlenL.
  pose proof Hap as (A1 & A2 & A3 & A4 & A5).
  induction inL as [|x inL IH]; intros [|y inR] i idx s Hlen HinL HinR Hi
    HoL HoR HbL HbR Hidx; try discriminate.
  - exists s, [], [], (bufferLeft s), (bufferRight s), idx. simpl.
    repeat split; auto; intros k v Hk; discriminate.
  - simpl in Hlen. injection Hlen as Hlen.
    pose proof (HinL 0%nat x eq_refl) as Hx.
    pose proof (HinR 0%nat y eq_refl) as Hy.
    rewrite Z.add_0_r in Hx, Hy.
    destruct (vec_get_Some (bufferLeft s) idx ltac:(lia)) as [dl Hdl].
    destruct (vec_get_Some (bufferRight s) idx ltac:(lia)) as [dr Hdr].
    assert (HoL1 : fits (map length (audio s)) (outputLeft (io_add p i)) 1).
    { simpl length in HoL. eapply fits_sub; [exact HoL|lia|lia]. }
    assert (HoR1 : fits (map length (audio s)) (outputRight (io_add p i)) 1).
    { simpl length in HoR. eapply fits_sub; [exact HoR|lia|lia]. }
    destruct (scalarSample_apart (io_add p i) idx s x y dl dr Hap Hx Hy
                Hdl Hdr ltac:(lia) ltac:(lia) HoL1 HoR1)
      as (s1 & m1 & Erun & Hm1 & Hm2 & Hb1L & Hb1R).
    assert (Hshape : map length (audio s1) = map length (audio s)).
    { rewrite (store_shape _ _ _ _ Hm2). apply (store_shape _ _ _ _ Hm1). }
    assert (Hframe1 : forall q, blk q <> blk (outputLeft p) ->
                                blk q <> blk (outputRight p) ->
                                load (audio s1) q = load (audio s) q).
    { intros q Hq1 Hq2.
      rewrite (load_store_other_block _ _ _ _ _ Hm2) by exact Hq2.
      apply (load_store_other_block _ _ _ _ _ Hm1). exact Hq1. }
    destruct (IH inR (i + 1) (advance len idx) s1) as
      (s' & outsL & outsR & bL & bR & j & RL & RR & Eloop & EbL & EbR
       & HlL & HlR & Hsh & HoutL & HoutR & Hother & HfrL & HfrR).
    { exact Hlen. }
    { intros k v Hk. rewrite Hframe1 by (simpl; congruence).
      replace (i + 1 + Z.of_nat k) with (i + Z.of_nat (S k)) by lia.
      apply HinL. exact Hk. }
    { intros k v Hk. rewrite Hframe1 by (simpl; congruence).
      replace (i + 1 + Z.of_nat k) with (i + Z.of_nat (S k)) by lia.
      apply HinR. exact Hk. }
    { lia. }
    { rewrite Hshape. simpl length in HoL.
      replace (i + 1 + Z.of_nat (length inL))
        with (i + Z.of_nat (S (length inL))) by lia. exact HoL. }
    { rewrite Hshape. simpl length in HoR.
      replace (i + 1 + Z.of_nat (length inL))
        with (i + Z.of_nat (S (length inL))) by lia. exact HoR. }
    { rewrite Hb1L, length_insert. exact HbL. }
    { rewrite Hb1R, length_insert. exact HbR. }
    { apply advance_range; assumption. }
    exists s', ((x * dry + dl * wet)%Q :: outsL),
      ((y * dry + dr * wet)%Q :: outsR), bL, bR, j.
    split.
    { cbn [recurrence].
      rewrite Hdl, (vec_set_Some (bufferLeft s) idx _ ltac:(lia)).
      rewrite <- Hb1L, RL. reflexivity. }
    split.
    { cbn [recurrence].
      rewrite Hdr, (vec_set_Some (bufferRight s) idx _ ltac:(lia)).
      rewrite <- Hb1R, RR. reflexivity. }
    split.
    { cbn [length scalarLoop]. unfold bind. rewrite Erun. exact Eloop. }
    split; [exact EbL|]. split; [exact EbR|].
    split; [simpl; congruence|]. split; [simpl; congruence|].
    split; [congruence|].
    split.
    { intros [|k] v Hk.
      - simpl in Hk. injection Hk as <-. rewrite Z.add_0_r.
        rewrite HfrL by (simpl; lia).
        rewrite (load_store_other_block _ _ _ _ _ Hm2) by (simpl; congruence).
        apply (load_store_eq _ _ _ _ Hm1).
      - replace (i + Z.of_nat (S k)) with (i + 1 + Z.of_nat k) by lia.
        apply HoutL. exact Hk. }
    split.
    { intros [|k] v Hk.
      - simpl in Hk. injection Hk as <-. rewrite Z.add_0_r.
        rewrite HfrR by (simpl; lia).
        apply (load_store_eq _ _ _ _ Hm2).
      - replace (i + Z.of_nat (S k)) with (i + 1 + Z.of_nat k) by lia.
        apply HoutR. exact Hk. }
    split.
    { intros b Hb1 Hb2. rewrite Hother by assumption.
      rewrite (lookup_store_other _ _ _ _ _ Hm2) by exact Hb2.
      apply (lookup_store_other _ _ _ _ _ Hm1). exact Hb1. }
    split.
    { intros q Hq1 Hq2. rewrite HfrL by (try assumption; lia).
      rewrite (load_store_other_block _ _ _ _ _ Hm2) by (simpl; congruence).
      apply (load_store_other_ofs _ _ _ _ _ Hm1); simpl; [exact Hq1|lia]. }
    { intros q Hq1 Hq2. rewrite HfrR by (try assumption; lia).
      rewrite (load_store_other_ofs _ _ _ _ _ Hm2)
        by (simpl; first [exact Hq1|lia]).
      apply (load_store_other_block _ _ _ _ _ Hm1). simpl. congruence. }
Qed.

End Refinement.

Lemma zrange_lookup (a : Z) (n k : nat) :
  (k < n)%nat -> zrange a n !! k = Some (a + Z.of_nat k).
Proof.
  intros H. unfold zrange. rewrite list_lookup_fmap.
  rewrite lookup_seq_lt by exact H. reflexivity.
Qed.

Lemma loads_intro (m : memory) (p : ptr) (n : nat) (l : list Q) :
  length l = n ->
  (forall (k : nat) x, l !! k = Some x ->
     load m (ptr_add p (Z.of_nat k)) = Some x) ->
  loads m p n = map Some l.
Proof.
  intros Hlen H. apply list_eq. intros k. unfold loads.
  rewrite !list_lookup_fmap.
  destruct (Nat.lt_ge_cases k n) as [Hk|Hk].
  - rewrite zrange_lookup by exact Hk. simpl.
    destruct (lookup_lt_is_Some_2 l k ltac:(lia)) as [x Hx].
    rewrite Hx. simpl. rewrite Z.add_0_l. f_equal. apply H. exact Hx.
  - rewrite (lookup_ge_None_2 (zrange 0 n)) by (rewrite zrange_length; lia).
    rewrite (lookup_ge_None_2 l) by lia. reflexivity.
Qed.

Lemma loads_elim (m : memory) (p : ptr) (n : nat) (l : list Q) :
  loads m p n = map Some l ->
  length l = n
  /\ forall (k : nat) x, l !! k = Some x ->
       load m (ptr_add p (Z.of_nat k)) = Some x.
Proof.
  intros H.
  assert (Hlen : length l = n).
  { apply (f_equal length) in H. unfold loads in H.
    rewrite !length_map, zrange_length in H. congruence. }
  split; [exact Hlen|]. intros k x Hk.
  apply (f_equal (fun v => v !! k)) in H. unfold loads in H.
  rewrite !list_lookup_fmap, Hk in H.
  rewrite zrange_lookup in H by (apply lookup_lt_Some in Hk; lia).
  simpl in H. rewrite Z.add_0_l in H. congruence.
Qed.

(** The scalar block on arrays apart, in terms of [recurrence]. *)
Lemma processBlockScalar_recurrence (e : SharcDelayLine) (p : io)
  (m : memory) (inL inR : list Q) :
  prepared e = true ->
  outputs_apart p ->
  loads m (inputLeft p) (length inL) = map Some inL ->
  loads m (inputRight p) (length inL) = map Some inR ->
  valid m (outputLeft p) (Z.of_nat (length inL)) ->
  valid m (outputRight p) (Z.of_nat (length inL)) ->
  length (delayLineRight e) = length (delayLineLeft e) ->
  0 <= delayIndex e < Z.of_nat (length (delayLineLeft e)) ->
  delaySamples e <= Z.of_nat (length (delayLineLeft e)) ->
  exists o outsL outsR bL bR j,
    recurrence (delaySamples e) (feedback e) (wetMix e) (dryMix e)
      inL (delayLineLeft e) (delayIndex e) = Some (outsL, bL, j)
    /\ recurrence (delaySamples e) (feedback e) (wetMix e) (dryMix e)
         inR (delayLineRight e) (delayIndex e) = Some (outsR, bR, j)
    /\ processBlockScalar e p (Z.of_nat (length inL)) m = Ok o
    /\ delayLineLeft (engine o) = bL
    /\ delayLineRight (engine o) = bR
    /\ delayIndex (engine o) = j
    /\ loads (arrays o) (outputLeft p) (length inL) = map Some outsL
    /\ loads (arrays o) (outputRight p) (length inL) = map Some outsR
    /\ (forall b, b <> blk (outputLeft p) -> b <> blk (outputRight p) ->
          arrays o !! b = m !! b).
Proof.
  intros Hprep Hap HinL HinR HoL HoR Hlen Hidx Hloop.
  apply loads_elim in HinL, HinR.
  destruct HinL as [_ HinL]. destruct HinR as [HlenR HinR].
  destruct (scalarLoop_refines (delaySamples e) (feedback e) (wetMix e)
              (dryMix e) p (Z.of_nat (length (delayLineLeft e))) Hap Hloop
              inL inR 0 (delayIndex e) (enter e m))
    as (s' & outsL & outsR & bL & bR & j & RL & RR & Eloop & EbL & EbR
        & HlL & HlR & Hsh & HoutL & HoutR & Hother & _ & _);
    simpl; auto; try lia.
  exists {| engine :=
              {| delayLineLeft := bufferLeft s';
                 delayLineRight := bufferRight s';
                 maxDelaySamples := maxDelaySamples e;
                 delaySamples := delaySamples e;
                 delayIndex := j;
                 feedback := feedback e; wetMix := wetMix e;
                 dryMix := dryMix e;
                 sRate := sRate e; prepared := prepared e |};
            arrays := audio s'; events := trace s' |},
    outsL, outsR, bL, bR, j.
  split; [exact RL|]. split; [exact RR|].
  split.
  { unfold processBlockScalar.
    replace (negb (prepared e)) with false by now rewrite Hprep.
    rewrite Nat2Z.id, Eloop. reflexivity. }
  simpl. split; [exact EbL|]. split; [exact EbR|]. split; [reflexivity|].
  split; [apply loads_intro; [exact HlL|intros k x Hk; apply (HoutL k x Hk)]|].
  split; [apply loads_intro; [exact HlR|intros k x Hk; apply (HoutR k x Hk)]|].
  exact Hother.
Qed.

(** On a prepared engine whose cursor is inside the delay lines, called
    with output arrays apart from the input arrays, [processBlockScalar]
    computes the announced recurrence on each channel: the outputs, the
    delay lines and the cursor are those of [recurrence], and no array
    but the two output arrays changes. *)
Theorem scalar_refines_recurrence (e : SharcDelayLine) (p : io)
  (m : memory) (inL inR : list Q) :
  prepared e = true ->
  outputs_apart p ->
  loads m (inputLeft p) (length inL) = map Some inL ->
  loads m (inputRight p) (length inL) = map Some inR ->
  valid m (outputLeft p) (Z.of_nat (length inL)) ->
  valid m (outputRight p) (Z.of_nat (length inL)) ->
  length (delayLineRight e) = length (delayLineLeft e) ->
  0 <= delayIndex e < Z.of_nat (length (delayLineLeft e)) ->
  delaySamples e <= Z.of_nat (length (delayLineLeft e)) ->
  exists o outsL outsR bL bR j,
    recurrence (delaySamples e) (feedback e) (wetMix e) (dryMix e)
      inL (delayLineLeft e) (delayIndex e) = Some (outsL, bL, j)
    /\ recurrence (delaySamples e) (feedback e) (wetMix e) (dryMix e)
         inR (delayLineRight e) (delayIndex e) = Some (outsR, bR, j)
    /\ processBlockScalar e p (Z.of_nat (length inL)) m = Ok o
    /\ delayLineLeft (engine o) = bL
    /\ delayLineRight (engine o) = bR
    /\ delayIndex (engine o) = j
    /\ loads (arrays o) (outputLeft p) (length inL) = map Some outsL
    /\ loads (arrays o) (outputRight p) (length inL) = map Some outsR
    /\ (forall b, b <> blk (outputLeft p) -> b <> blk (outputRight p) ->
          arrays o !! b = m !! b).
Proof. exact (processBlockScalar_recurrence e p m inL inR). Qed.

Lemma scalar_refines_recurrence_witness :
  exists o outsL outsR bL bR j,
    recurrence (delaySamples engine8) (feedback engine8) (wetMix engine8)
      (dryMix engine8) [1; 1; 1]%Q (delayLineLeft engine8)
      (delayIndex engine8) = Some (outsL, bL, j)
    /\ recurrence (delaySamples engine8) (feedback engine8) (wetMix engine8)
         (dryMix engine8) [1; 1; 1]%Q (delayLineRight engine8)
         (delayIndex engine8) = Some (outsR, bR, j)
    /\ processBlockScalar engine8 apart (Z.of_nat (length [1; 1; 1]%Q)) ones3
       = Ok o
    /\ delayLineLeft (engine o) = bL
    /\ delayLineRight (engine o) = bR
    /\ delayIndex (engine o) = j
    /\ loads (arrays o) (outputLeft apart) (length [1; 1; 1]%Q)
       = map Some outsL
    /\ loads (arrays o) (outputRight apart) (length [1; 1; 1]%Q)
       = map Some outsR
    /\ (forall b, b <> blk (outputLeft apart) ->
          b <> blk (outputRight apart) -> arrays o !! b = ones3 !! b).
Proof.
  apply (scalar_refines_recurrence engine8 apart ones3 [1; 1; 1]%Q
           [1; 1; 1]%Q).
  - reflexivity.
  - unfold outputs_apart. simpl. lia.
  - reflexivity.
  - reflexivity.
  - unfold valid, fits. simpl. split; [lia|]. eexists. split; [reflexivity|].
    simpl. lia.
  - unfold valid, fits. simpl. split; [lia|]. eexists. split; [reflexivity|].
    simpl. lia.
  - reflexivity.
  - simpl. lia.
  - simpl. lia.
Defined.

(** ** The echoes of an impulse under the announced recurrence *)

Lemma recurrence_app len fb wet dry (xs ys buf : list Q) (idx : Z) :
  recurrence len fb wet dry (xs ++ ys) buf idx
  = match recurrence len fb wet dry xs buf idx with
    | Some (o1, b1, i1) =>
        match recurrence len fb wet dry ys b1 i1 with
        | Some (o2, b2, i2) => Some (o1 ++ o2, b2, i2)
        | None => None
        end
    | None => None
    end.
Proof.
  revert buf idx. induction xs as [|x xs IH]; intros buf idx; simpl.
  - destruct (recurrence len fb wet dry ys buf idx) as [[[o b] i]|];
      reflexivity.
  - destruct (vec_get buf idx) as [d|]; [|reflexivity].
    destruct (vec_set buf idx _) as [b'|]; [|reflexivity].
    rewrite IH.
    destruct (recurrence len fb wet dry xs b' (advance len idx))
      as [[[o1 b1] i1]|]; [|reflexivity].
    destruct (recurrence len fb wet dry ys b1 i1) as [[[o2 b2] i2]|];
      reflexivity.
Qed.

Lemma jlimit_id (u : Q) :
  (-1 <= u)%Q -> (u <= 1)%Q -> Juce.jlimit (-1) 1 u = u.
Proof.
  intros H1 H2. unfold Juce.jlimit.
  destruct (Juce.Qltb u (-1)) eqn:E1.
  - apply Qltb_true in E1. lra.
  - destruct (Juce.Qltb 1 u) eqn:E2; [|reflexivity].
    apply Qltb_true in E2. lra.
Qed.

Lemma lookup_repeat_Some (x y : Q) (n j : nat) :
  repeat x n !! j = Some y -> y = x.
Proof.
  revert j. induction n as [|n IH]; intros [|j] H; simpl in H;
    try discriminate; [congruence|eauto].
Qed.

Section Echo.

Variables (D : Z) (L : nat) (f wet dry : Q).
Hypothesis D_pos : 1 <= D.
Hypothesis D_le_L : D <= Z.of_nat L.
Hypothesis f_range : (0 <= f /\ f <= 1)%Q.

(** A sample [x] at cursor 0 of a line in an echo state, when the value
    to store needs no clipping: the echo becomes [x + f * v]. *)
Lemma echo_sample_first (x v : Q) (buf : list Q) :
  echo_state L v buf ->
  (-1 <= x + f * v)%Q -> (x + f * v <= 1)%Q ->
  exists d b',
    vec_get buf 0 = Some d
    /\ (d == v)%Q
    /\ vec_set buf 0 (Juce.jlimit (-1) 1 (x + f * d)%Q) = Some b'
    /\ echo_state L (x + f * v)%Q b'.
Proof.
  intros [Hlen Hbuf] Hlo Hhi.
  destruct (vec_get_Some buf 0 ltac:(lia)) as [d Hd].
  assert (Hdv : (d == v)%Q) by (apply (Hbuf 0%nat); exact Hd).
  exists d, (<[Z.to_nat 0 := Juce.jlimit (-1) 1 (x + f * d)%Q]> buf).
  split; [exact Hd|]. split; [exact Hdv|].
  split; [apply vec_set_Some; lia|].
  rewrite jlimit_id by (rewrite Hdv; assumption).
  split; [now rewrite length_insert|].
  intros j y Hj. destruct j as [|j].
  - rewrite list_lookup_insert_eq in Hj by (simpl; lia). injection Hj as <-.
    simpl. now rewrite Hdv.
  - rewrite list_lookup_insert_ne in Hj by (simpl; lia).
    apply (Hbuf _ _ Hj).
Qed.

(** A silent sample at a cursor other than 0: the echo state is kept. *)
Lemma echo_sample_other (v : Q) (buf : list Q) (r : Z) :
  echo_state L v buf -> 0 < r < D ->
  exists d b',
    vec_get buf r = Some d
    /\ (d == 0)%Q
    /\ vec_set buf r (Juce.jlimit (-1) 1 (0 + f * d)%Q) = Some b'
    /\ echo_state L v b'.
Proof.
  intros [Hlen Hbuf] Hr.
  destruct (vec_get_Some buf r ltac:(lia)) as [d Hd].
  assert (Hd0 : (d == 0)%Q).
  { unfold vec_get in Hd. destruct (Z.ltb_spec r 0); [lia|].
    rewrite (Hbuf _ _ Hd).
    destruct (Nat.eqb_spec (Z.to_nat r) 0); [lia|reflexivity]. }
  exists d, (<[Z.to_nat r := Juce.jlimit (-1) 1 (0 + f * d)%Q]> buf).
  split; [exact Hd|]. split; [exact Hd0|].
  split; [apply vec_set_Some; lia|].
  rewrite jlimit_id by (rewrite Hd0; lra).
  split; [now rewrite length_insert|].
  intros j y Hj.
  destruct (Nat.eq_dec j (Z.to_nat r)) as [->|Hne].
  - rewrite list_lookup_insert_eq in Hj by lia. injection Hj as <-.
    destruct (Nat.eqb_spec (Z.to_nat r) 0); [lia|]. rewrite Hd0. ring.
  - rewrite list_lookup_insert_ne in Hj by congruence.
    apply (Hbuf _ _ Hj).
Qed.

Lemma echo_state_eq (v w : Q) (buf : list Q) :
  (v == w)%Q -> echo_state L v buf -> echo_state L w buf.
Proof.
  intros Hvw [Hlen Hbuf]. split; [exact Hlen|]. intros j x Hj.
  rewrite (Hbuf _ _ Hj). destruct (j =? 0)%nat; [exact Hvw|reflexivity].
Qed.

(** Silence from a cursor other than 0 up to the end of the loop: silent
    outputs, the echo state kept, the cursor at [r + n] or wrapped. *)
Lemma silence_rest (n : nat) (r : Z) (v : Q) (buf : list Q) :
  echo_state L v buf -> 0 < r < D -> r + Z.of_nat n <= D ->
  exists outs b',
    recurrence D f wet dry (repeat 0%Q n) buf r
    = Some (outs, b', if r + Z.of_nat n <? D then r + Z.of_nat n else 0)
    /\ echo_state L v b'
    /\ length outs = n.
Proof.
  revert r buf. induction n as [|n IH]; intros r buf Hst Hr Hend.
  - exists [], buf. simpl. rewrite Z.add_0_r.
    destruct (Z.ltb_spec r D); [auto|lia].
  - destruct (echo_sample_other v buf r Hst Hr)
      as (d & b1 & Hget & Hd0 & Hset & Hst1).
    cbn [repeat recurrence]. rewrite Hget, Hset.
    unfold advance.
    destruct (Z.geb_spec (r + 1) D) as [Hwrap|Hnow].
    + assert (n = 0%nat) as -> by lia. simpl.
      exists [(0 * dry + d * wet)%Q], b1.
      change (Z.of_nat 1) with 1.
      destruct (Z.ltb_spec (r + 1) D); [lia|]. auto.
    + destruct (IH (r + 1) b1 Hst1 ltac:(lia) ltac:(lia))
        as (outs & b' & Hrec & Hst' & Hlen).
      rewrite Hrec. exists ((0 * dry + d * wet)%Q :: outs), b'.
      split; [|split; [exact Hst'|simpl; congruence]].
      replace (r + 1 + Z.of_nat n) with (r + Z.of_nat (S n)) by lia.
      reflexivity.
Qed.

(** One period from cursor 0: a sample [x] then silence up to the end of
    the loop.  The first output mixes [x] and the echo; the echo becomes
    [x + f * v]; the cursor is back at 0. *)
Lemma period (x v : Q) (buf : list Q) :
  echo_state L v buf ->
  (-1 <= x + f * v)%Q -> (x + f * v <= 1)%Q ->
  exists o0 outs b',
    recurrence D f wet dry (x :: repeat 0%Q (Z.to_nat D - 1)) buf 0
    = Some (o0 :: outs, b', 0)
    /\ (o0 == x * dry + v * wet)%Q
    /\ echo_state L (x + f * v)%Q b'
    /\ length outs = (Z.to_nat D - 1)%nat.
Proof.
  intros Hst Hlo Hhi.
  destruct (echo_sample_first x v buf Hst Hlo Hhi)
    as (d & b1 & Hget & Hdv & Hset & Hst1).
  cbn [recurrence]. rewrite Hget, Hset. unfold advance.
  destruct (Z.geb_spec (0 + 1) D) as [Hwrap|Hnow].
  - assert (D = 1) as HD by lia.
    replace (Z.to_nat D - 1)%nat with 0%nat by lia. simpl.
    exists (x * dry + d * wet)%Q, [], b1.
    split; [reflexivity|]. split; [now rewrite Hdv|]. auto.
  - destruct (silence_rest (Z.to_nat D - 1) (0 + 1) (x + f * v)%Q b1 Hst1
                ltac:(lia) ltac:(lia))
      as (outs & b' & Hrec & Hst' & Hlen).
    rewrite Hrec.
    destruct (Z.ltb_spec (0 + 1 + Z.of_nat (Z.to_nat D - 1)) D); [lia|].
    exists (x * dry + d * wet)%Q, outs, b'.
    split; [reflexivity|]. split; [now rewrite Hdv|]. auto.
Qed.

Lemma qpow_range (k : nat) : (0 <= qpow f k /\ qpow f k <= 1)%Q.
Proof.
  destruct f_range as [Hf0 Hf1].
  induction k as [|k [IH0 IH1]]; simpl; [split; lra|].
  split; nra.
Qed.

Lemma zeros_echo_state : echo_state L 0 (repeat 0%Q L).
Proof.
  split; [apply repeat_length|]. intros j x Hj.
  apply lookup_repeat_Some in Hj. subst x.
  destruct (j =? 0)%nat; reflexivity.
Qed.

Variable a : Q.
Hypothesis a_range : (0 < a /\ a <= 1)%Q.

(** [k] whole periods after an impulse on a zeroed line: the line holds
    the echo [a * f ^ (k - 1)] and the cursor is at 0. *)
Lemma periods (k : nat) :
  exists outs b',
    recurrence D f wet dry (impulse a (S k * Z.to_nat D - 1))
      (repeat 0%Q L) 0 = Some (outs, b', 0)
    /\ echo_state L (a * qpow f k)%Q b'
    /\ length outs = (S k * Z.to_nat D)%nat.
Proof.
  destruct f_range as [Hf0 Hf1]. destruct a_range as [Ha0 Ha1].
  induction k as [|k IH].
  - destruct (period a 0 (repeat 0%Q L) zeros_echo_state
                ltac:(lra) ltac:(lra))
      as (o0 & outs & b' & Hrec & _ & Hst & Hlen).
    unfold impulse.
    replace (1 * Z.to_nat D - 1)%nat with (Z.to_nat D - 1)%nat by lia.
    rewrite Hrec. exists (o0 :: outs), b'.
    split; [reflexivity|]. split; [|simpl; lia].
    eapply echo_state_eq; [|exact Hst]. simpl. ring.
  - destruct IH as (outs & b1 & Hrec & Hst & Hlen).
    pose proof (qpow_range k) as [Hq0 Hq1].
    assert (Hw : (0 <= a * qpow f k /\ a * qpow f k <= 1)%Q) by (split; nra).
    destruct Hw as [Hw0 Hw1].
    assert (Hlo : (-1 <= 0 + f * (a * qpow f k))%Q).
    { generalize dependent (a * qpow f k)%Q. intros w. intros. nra. }
    assert (Hhi : (0 + f * (a * qpow f k) <= 1)%Q).
    { generalize dependent (a * qpow f k)%Q. intros w. intros. nra. }
    destruct (period 0 (a * qpow f k)%Q b1 Hst Hlo Hhi)
      as (o0 & outs2 & b' & Hrec2 & _ & Hst2 & Hlen2).
    unfold impulse in *.
    replace (S (S k) * Z.to_nat D - 1)%nat
      with ((S k * Z.to_nat D - 1) + S (Z.to_nat D - 1))%nat by lia.
    rewrite repeat_app, app_comm_cons, recurrence_app, Hrec.
    cbn [repeat]. rewrite Hrec2.
    exists (outs ++ o0 :: outs2), b'.
    split; [reflexivity|]. split.
    + eapply echo_state_eq; [|exact Hst2]. simpl. ring.
    + rewrite length_app. simpl. lia.
Qed.

Lemma recurrence_total len fb wt dr (xs buf : list Q) (idx : Z) :
  0 <= idx < Z.of_nat (length buf) -> len <= Z.of_nat (length buf) ->
  exists r, recurrence len fb wt dr xs buf idx = Some r.
Proof.
  revert buf idx. induction xs as [|x xs IH]; intros buf idx Hidx Hlen.
  - eexists. reflexivity.
  - cbn [recurrence].
    destruct (vec_get_Some buf idx Hidx) as [d Hd]. rewrite Hd.
    rewrite (vec_set_Some buf idx _ Hidx).
    destruct (IH (<[Z.to_nat idx := Juce.jlimit (-1) 1 (x + fb * d)%Q]> buf)
                (advance len idx)) as [[[o b] i] Hr].
    + rewrite length_insert. apply advance_range; assumption.
    + now rewrite length_insert.
    + rewrite Hr. eexists. reflexivity.
Qed.

(** The output at sample [k * D], [k >= 1], of an impulse followed by
    silence on a zeroed line: [a * f ^ (k - 1) * wet]. *)
Lemma impulse_echo (k n : nat) :
  exists outs b j y,
    recurrence D f wet dry (impulse a (S k * Z.to_nat D + n))
      (repeat 0%Q L) 0 = Some (outs, b, j)
    /\ outs !! (S k * Z.to_nat D)%nat = Some y
    /\ (y == a * qpow f k * wet)%Q.
Proof.
  destruct (periods k) as (outs1 & b1 & Hrec1 & [Hlen1 Hst1] & Hl1).
  unfold impulse in *.
  replace (S k * Z.to_nat D + n)%nat
    with ((S k * Z.to_nat D - 1) + S n)%nat by lia.
  rewrite repeat_app, app_comm_cons, recurrence_app, Hrec1.
  cbn [repeat recurrence].
  destruct (vec_get_Some b1 0 ltac:(lia)) as [d Hd]. rewrite Hd.
  rewrite (vec_set_Some b1 0 _ ltac:(lia)).
  destruct (recurrence_total D f wet dry (repeat 0%Q n)
              (<[Z.to_nat 0 := Juce.jlimit (-1) 1 (0 + f * d)%Q]> b1)
              (advance D 0)) as [[[o2 b2] j] Hr2].
  { rewrite length_insert. apply advance_range; lia. }
  { rewrite length_insert. lia. }
  rewrite Hr2.
  exists (outs1 ++ (0 * dry + d * wet)%Q :: o2), b2, j, (0 * dry + d * wet)%Q.
  split; [reflexivity|]. split.
  - rewrite lookup_app_r by lia.
    replace (S k * Z.to_nat D - length outs1)%nat with 0%nat by lia.
    reflexivity.
  - rewrite (Hst1 0%nat d Hd). simpl. ring.
Qed.

End Echo.

(** *** Decay *)

Lemma qpow_nonneg (f : Q) (k : nat) : (0 <= f)%Q -> (0 <= qpow f k)%Q.
Proof.
  intros Hf. induction k as [|k IH]; simpl; [lra|].
  now apply Qmult_le_0_compat.
Qed.

Lemma qpow_bernoulli (f : Q) (k : nat) :
  (0 <= f)%Q -> (f <= 1)%Q ->
  (qpow f k * (1 + inject_Z (Z.of_nat k) * (1 - f)) <= 1)%Q.
Proof.
  intros Hf0 Hf1. induction k as [|k IH].
  - cbn [qpow]. change (inject_Z (Z.of_nat 0)) with 0%Q.
    apply Qle_lteq. right. ring.
  - rewrite Nat2Z.inj_succ. unfold Z.succ. rewrite inject_Z_plus.
    change (inject_Z 1) with 1%Q. cbn [qpow].
    pose proof (qpow_nonneg f k Hf0) as Hq.
    assert (Hk : (0 <= inject_Z (Z.of_nat k))%Q).
    { change 0%Q with (inject_Z 0). rewrite <- Zle_Qle. lia. }
    generalize dependent (inject_Z (Z.of_nat k)). intros c IH Hc.
    generalize dependent (qpow f k). intros q IH Hq.
    assert (Hsq : (0 <= (c + 1) * ((1 - f) * (1 - f)))%Q).
    { apply Qmult_le_0_compat; [lra|apply Qmult_le_0_compat; lra]. }
    assert (Hid : (1 + c * (1 - f) - f * (1 + (c + 1) * (1 - f))
                   == (c + 1) * ((1 - f) * (1 - f)))%Q) by ring.
    assert (Hstep : (f * (1 + (c + 1) * (1 - f)) <= 1 + c * (1 - f))%Q) by lra.
    assert (Hmul : (q * (f * (1 + (c + 1) * (1 - f)))
                    <= q * (1 + c * (1 - f)))%Q).
    { rewrite (Qmult_comm q (f * _)), (Qmult_comm q (1 + _)).
      apply Qmult_le_compat_r; assumption. }
    assert (Hre : (f * q * (1 + (c + 1) * (1 - f))
                   == q * (f * (1 + (c + 1) * (1 - f))))%Q) by ring.
    rewrite Hre. lra.
Qed.

(** The powers of a feedback below 1 fall below any positive bound. *)
Lemma qpow_small (f eps : Q) :
  (0 <= f)%Q -> (f < 1)%Q -> (0 < eps)%Q ->
  exists K : nat, forall k : nat, (K <= k)%nat -> (qpow f k < eps)%Q.
Proof.
  intros Hf0 Hf1 Heps.
  set (h := (1 - f)%Q). assert (Hh : (0 < h)%Q) by (unfold h; lra).
  set (x := (1 / (h * eps))%Q).
  assert (Hx : (x * (h * eps) == 1)%Q).
  { unfold x. field. split; lra. }
  exists (Z.to_nat (Qceiling x)). intros k Hk.
  assert (Hkx : (x <= inject_Z (Z.of_nat k))%Q).
  { eapply Qle_trans; [apply Qle_ceiling|]. rewrite <- Zle_Qle. lia. }
  pose proof (qpow_bernoulli f k Hf0 ltac:(lra)) as Hb.
  pose proof (qpow_nonneg f k Hf0) as Hq.
  fold h in Hb.
  generalize dependent (inject_Z (Z.of_nat k)). intros c Hc Hb.
  generalize dependent (qpow f k). intros q Hb Hq.
  assert (Hpos : (0 < h * eps)%Q) by nra.
  assert (H1 : (1 <= c * (h * eps))%Q).
  { rewrite <- Hx. apply Qmult_le_compat_r; lra. }
  destruct (Qlt_le_dec q eps) as [Hlt|Hge]; [exact Hlt|].
  exfalso.
  assert (H2 : (eps * (1 + c * h) <= q * (1 + c * h))%Q).
  { apply Qmult_le_compat_r; [exact Hge|]. nra. }
  nra.
Qed.

(** *** The echoes as the scalar path computes them on arrays apart *)

Lemma scalar_echo (e : SharcDelayLine) (p : io)
  (m : memory) (a : Q) (inR : list Q) (k n : nat) :
  prepared e = true ->
  outputs_apart p ->
  delayLineLeft e = repeat 0%Q (length (delayLineLeft e)) ->
  length (delayLineRight e) = length (delayLineLeft e) ->
  delayIndex e = 0 ->
  1 <= delaySamples e <= Z.of_nat (length (delayLineLeft e)) ->
  (0 <= feedback e)%Q -> (feedback e <= 1)%Q ->
  (0 < a)%Q -> (a <= 1)%Q ->
  let D := Z.to_nat (delaySamples e) in
  let N := S (S k * D + n) in
  loads m (inputLeft p) N = map Some (impulse a (S k * D + n)) ->
  loads m (inputRight p) N = map Some inR ->
  valid m (outputLeft p) (Z.of_nat N) ->
  valid m (outputRight p) (Z.of_nat N) ->
  exists o y,
    processBlockScalar e p (Z.of_nat N) m = Ok o
    /\ load (arrays o) (ptr_add (outputLeft p) (Z.of_nat (S k * D))) = Some y
    /\ (y == a * qpow (feedback e) k * wetMix e)%Q.
Proof.
  intros Hprep Hap Hzero Hlen Hidx HD Hf0 Hf1 Ha0 Ha1 D N HinL HinR HoL HoR.
  assert (HN : N = length (impulse a (S k * D + n))).
  { unfold impulse. simpl. now rewrite repeat_length. }
  rewrite HN in HinL, HinR, HoL, HoR.
  destruct (processBlockScalar_recurrence e p m _ inR Hprep Hap HinL HinR HoL HoR
              Hlen ltac:(lia) ltac:(lia))
    as (o & outsL & outsR & bL & bR & j & RL & _ & Erun & _ & _ & _
        & HloadL & _).
  destruct (impulse_echo (delaySamples e) (length (delayLineLeft e))
              (feedback e) (wetMix e) (dryMix e) ltac:(lia) ltac:(lia)
              (conj Hf0 Hf1) a (conj Ha0 Ha1) k n)
    as (outs & b & j' & y & Hrec & Hy & Hval).
  fold D in Hrec, Hy. rewrite Hzero, Hidx in RL. rewrite Hrec in RL.
  injection RL as <- <- <-.
  exists o, y. rewrite HN. split; [exact Erun|]. split; [|exact Hval].
  apply loads_elim in HloadL. destruct HloadL as [_ HloadL].
  apply HloadL. exact Hy.
Qed.

(** From a reset engine (both delay lines zero, cursor 0) with a loop of
    [D >= 1] samples and a feedback in [0, 1], called with output arrays
    apart from the input arrays on an impulse of amplitude [a] in (0, 1]
    followed by silence on the left channel, the left output at sample
    [(k + 1) * D] is [a * f ^ k * wet]: the wet component at the
    [(k+1)]-th echo is proportional to [f ^ (k + 1)]. *)
Theorem scalar_echo_on_arrays_apart (e : SharcDelayLine) (p : io)
  (m : memory) (a : Q) (inR : list Q) (k n : nat) :
  prepared e = true ->
  outputs_apart p ->
  delayLineLeft e = repeat 0%Q (length (delayLineLeft e)) ->
  length (delayLineRight e) = length (delayLineLeft e) ->
  delayIndex e = 0 ->
  1 <= delaySamples e <= Z.of_nat (length (delayLineLeft e)) ->
  (0 <= feedback e)%Q -> (feedback e <= 1)%Q ->
  (0 < a)%Q -> (a <= 1)%Q ->
  let D := Z.to_nat (delaySamples e) in
  let N := S (S k * D + n) in
  loads m (inputLeft p) N = map Some (impulse a (S k * D + n)) ->
  loads m (inputRight p) N = map Some inR ->
  valid m (outputLeft p) (Z.of_nat N) ->
  valid m (outputRight p) (Z.of_nat N) ->
  exists o y,
    processBlockScalar e p (Z.of_nat N) m = Ok o
    /\ load (arrays o) (ptr_add (outputLeft p) (Z.of_nat (S k * D))) = Some y
    /\ (y == a * qpow (feedback e) k * wetMix e)%Q.
Proof.
  exact (scalar_echo e p m a inR k n).
Qed.

Lemma scalar_echo_on_arrays_apart_witness :
  exists o y,
    processBlockScalar echo8 apart
      (Z.of_nat (S (S 1 * Z.to_nat (delaySamples echo8) + 2)))
      [impulse7; silence7; silence7; silence7] = Ok o
    /\ load (arrays o)
         (ptr_add (outputLeft apart)
            (Z.of_nat (S 1 * Z.to_nat (delaySamples echo8)))) = Some y
    /\ (y == 1 * qpow (feedback echo8) 1 * wetMix echo8)%Q.
Proof.
  apply (scalar_echo_on_arrays_apart echo8 apart
           [impulse7; silence7; silence7; silence7] 1 silence7 1 2).
  - reflexivity.
  - unfold outputs_apart. simpl. lia.
  - reflexivity.
  - reflexivity.
  - reflexivity.
  - simpl. lia.
  - discriminate.
  - discriminate.
  - reflexivity.
  - discriminate.
  - reflexivity.
  - reflexivity.
  - unfold valid, fits. simpl. split; [lia|]. eexists. split; [reflexivity|].
    simpl. lia.
  - unfold valid, fits. simpl. split; [lia|]. eexists. split; [reflexivity|].
    simpl. lia.
Defined.

(** *** The echoes die away *)

(** From a reset engine (both delay lines zero, cursor 0) with a loop of
    [D >= 1] samples, a feedback in [0, 1) and a wet gain in [0, 1], as
    the setters leave them, called with output arrays apart from the
    input arrays on an impulse of amplitude [a] in (0, 1] followed by
    silence on the left channel: for every positive bound there is a
    number of loops after which every echo [processBlockScalar] stores in
    the left output, at the samples [(k + 1) * D], is below the bound (and
    not negative), whatever the block length. *)
Theorem echoes_fall_below_any_bound (e : SharcDelayLine) (a eps : Q) :
  prepared e = true ->
  delayLineLeft e = repeat 0%Q (length (delayLineLeft e)) ->
  length (delayLineRight e) = length (delayLineLeft e) ->
  delayIndex e = 0 ->
  1 <= delaySamples e <= Z.of_nat (length (delayLineLeft e)) ->
  (0 <= feedback e)%Q -> (feedback e < 1)%Q ->
  (0 <= wetMix e)%Q -> (wetMix e <= 1)%Q ->
  (0 < a)%Q -> (a <= 1)%Q -> (0 < eps)%Q ->
  exists K : nat,
    forall (k n : nat) (p : io) (m : memory) (inR : list Q),
      (K <= k)%nat ->
      outputs_apart p ->
      let D := Z.to_nat (delaySamples e) in
      let N := S (S k * D + n) in
      loads m (inputLeft p) N = map Some (impulse a (S k * D + n)) ->
      loads m (inputRight p) N = map Some inR ->
      valid m (outputLeft p) (Z.of_nat N) ->
      valid m (outputRight p) (Z.of_nat N) ->
      exists o y,
        processBlockScalar e p (Z.of_nat N) m = Ok o
        /\ load (arrays o) (ptr_add (outputLeft p) (Z.of_nat (S k * D)))
           = Some y
        /\ (0 <= y /\ y < eps)%Q.
Proof.
  intros Hprep Hzero Hlen Hidx HD Hf0 Hf1 Hw0 Hw1 Ha0 Ha1 Heps.
  destruct (qpow_small (feedback e) eps Hf0 Hf1 Heps) as [K HK].
  exists K. intros k n p m inR Hk Hap D N HinL HinR HoL HoR.
  destruct (scalar_echo e p m a inR k n Hprep Hap Hzero Hlen Hidx HD Hf0
              ltac:(lra) Ha0 Ha1 HinL HinR HoL HoR)
    as (o & y & Erun & Hload & Hy).
  exists o, y. split; [exact Erun|]. split; [exact Hload|].
  specialize (HK k Hk).
  pose proof (qpow_nonneg (feedback e) k Hf0) as Hq.
  remember (qpow (feedback e) k) as q eqn:Eq. clear Eq.
  assert (Haq : (0 <= a * q /\ a * q <= q)%Q) by (split; nra).
  destruct Haq as [Hw Hwq].
  remember (a * q)%Q as w eqn:Ew. clear Ew.
  assert (Hww : (0 <= w * wetMix e /\ w * wetMix e <= w)%Q) by (split; nra).
  split; lra.
Qed.

Lemma echoes_fall_below_any_bound_witness :
  exists K : nat,
    forall (k n : nat) (p : io) (m : memory) (inR : list Q),
      (K <= k)%nat ->
      outputs_apart p ->
      let D := Z.to_nat (delaySamples echo8) in
      let N := S (S k * D + n) in
      loads m (inputLeft p) N = map Some (impulse 1 (S k * D + n)) ->
      loads m (inputRight p) N = map Some inR ->
      valid m (outputLeft p) (Z.of_nat N) ->
      valid m (outputRight p) (Z.of_nat N) ->
      exists o y,
        processBlockScalar echo8 p (Z.of_nat N) m = Ok o
        /\ load (arrays o) (ptr_add (outputLeft p) (Z.of_nat (S k * D)))
           = Some y
        /\ (0 <= y /\ y < 1 # 1000)%Q.
Proof.
  apply (echoes_fall_below_any_bound echo8 1 (1 # 1000)).
  - reflexivity.
  - reflexivity.
  - reflexivity.
  - reflexivity.
  - simpl. lia.
  - discriminate.
  - reflexivity.
  - discriminate.
  - discriminate.
  - reflexivity.
  - discriminate.
  - reflexivity.
Defined.

(** ** The two paths on arrays apart and a cursor inside the loop *)

(** *** Extensionality *)

Lemma vec_get_ext (l1 l2 : list Q) :
  (forall j : Z, vec_get l1 j = vec_get l2 j) -> l1 = l2.
Proof.
  intros H. apply list_eq. intros k.
  specialize (H (Z.of_nat k)). unfold vec_get in H.
  destruct (Z.ltb_spec (Z.of_nat k) 0); [lia|].
  now rewrite Nat2Z.id in H.
Qed.

Lemma memory_ext (m1 m2 : memory) :
  map length m1 = map length m2 ->
  (forall q, load m1 q = load m2 q) -> m1 = m2.
Proof.
  intros Hshape Hload. apply list_eq. intros b.
  assert (Hb : map length m1 !! b = map length m2 !! b) by now rewrite Hshape.
  rewrite !list_lookup_fmap in Hb.
  destruct (m1 !! b) as [b1|] eqn:E1, (m2 !! b) as [b2|] eqn:E2;
    simpl in Hb; try discriminate; [|reflexivity].
  f_equal. apply list_eq. intros k.
  specialize (Hload (mkPtr b (Z.of_nat k))). unfold load in Hload.
  simpl in Hload. destruct (Z.ltb_spec (Z.of_nat k) 0); [lia|].
  now rewrite E1, E2, Nat2Z.id in Hload.
Qed.

Lemma classic_in_span (p : ptr) (n : Z) (q : ptr) :
  in_span p n q \/ ~ in_span p n q.
Proof.
  unfold in_span.
  destruct (Nat.eq_dec (blk q) (blk p)) as [Hb|Hb]; [|right; tauto].
  destruct (Z_le_dec (ofs p) (ofs q)) as [H1|H1]; [|right; lia].
  destruct (Z_lt_dec (ofs q) (ofs p + n)) as [H2|H2]; [left|right]; lia.
Qed.

Lemma same_state_refl s : same_state s s.
Proof. repeat split. Qed.

Lemma same_state_trans s1 s2 s3 :
  same_state s1 s2 -> same_state s2 s3 -> same_state s1 s3.
Proof.
  intros (A1 & A2 & A3) (B1 & B2 & B3). repeat split; congruence.
Qed.

Lemma same_state_sym s1 s2 : same_state s1 s2 -> same_state s2 s1.
Proof. intros (A1 & A2 & A3). repeat split; congruence. Qed.

Lemma vec_get_set_eq (v v' : list Q) (i : Z) (x : Q) :
  vec_set v i x = Some v' -> vec_get v' i = Some x.
Proof.
  intros H. apply vec_set_inv in H. destruct H as [Hi ->].
  unfold vec_get. destruct (Z.ltb_spec i 0); [lia|].
  apply list_lookup_insert_eq. lia.
Qed.

Lemma vec_get_set_ne (v v' : list Q) (i j : Z) (x : Q) :
  vec_set v i x = Some v' -> j <> i -> vec_get v' j = vec_get v j.
Proof.
  intros H Hne. apply vec_set_inv in H. destruct H as [Hi ->].
  unfold vec_get. destruct (Z.ltb_spec j 0); [reflexivity|].
  apply list_lookup_insert_ne. lia.
Qed.

(** *** Registers: what is read and what is stored *)

Lemma mapM_readDelay_effect c offset (ks : list Z) (s : machine) :
  Forall (fun k => 0 <= offset + k < Z.of_nat (length (line c s))) ks ->
  exists v s',
    mapM (fun k => readDelay c (offset + k)) ks s = Ok (v, s')
    /\ same_state s s'
    /\ Forall2 (fun k x => vec_get (line c s) (offset + k) = Some x) ks v.
Proof.
  revert s. induction ks as [|k ks IH]; intros s H.
  - exists [], s. repeat split. constructor.
  - inversion H as [|? ? Hk Hks]; subst.
    destruct (vec_get_Some _ _ Hk) as [x Hx].
    assert (Hline : line c (note (EvDelayRead c (offset + k)) s) = line c s)
      by now destruct c.
    destruct (IH (note (EvDelayRead c (offset + k)) s)) as (v & s' & E & S & F).
    { now rewrite Hline. }
    exists (x :: v), s'. cbn [mapM]. unfold bind at 1, readDelay at 1.
    rewrite Hx. unfold bind at 1. rewrite E. split; [reflexivity|].
    split.
    + eapply same_state_trans; [|exact S]. repeat split.
    + constructor; [exact Hx|]. now rewrite Hline in F.
Qed.

Lemma mapM_readAudio_effect p (ks : list Z) (s : machine) :
  Forall (fun k => fits (map length (audio s)) (ptr_add p k) 1) ks ->
  exists v,
    mapM (fun k => readAudio (ptr_add p k)) ks s = Ok (v, s)
    /\ Forall2 (fun k x => load (audio s) (ptr_add p k) = Some x) ks v.
Proof.
  induction ks as [|k ks IH]; intros H.
  - exists []. split; [reflexivity|constructor].
  - inversion H as [|? ? Hk Hks]; subst.
    destruct (fits_load _ _ 1 ltac:(lia) Hk) as [x Hx].
    destruct (IH Hks) as (v & E & F).
    exists (x :: v). cbn [mapM]. unfold bind at 1, readAudio at 1.
    rewrite Hx. unfold bind at 1. rewrite E. split; [reflexivity|].
    constructor; assumption.
Qed.

Lemma forM_writeAudio_effect c p (ks : list Z) (v : list Q) (s : machine) :
  Forall (fun k => fits (map length (audio s)) (ptr_add p k) 1) ks ->
  NoDup ks -> length v = length ks ->
  exists s',
    forM (fun kx => writeAudio c (ptr_add p (fst kx)) (snd kx)) (zip ks v) s
    = Ok (tt, s')
    /\ bufferLeft s' = bufferLeft s /\ bufferRight s' = bufferRight s
    /\ map length (audio s') = map length (audio s)
    /\ Forall2 (fun k x => load (audio s') (ptr_add p k) = Some x) ks v
    /\ (forall q, (forall k, In k ks -> q <> ptr_add p k) ->
          load (audio s') q = load (audio s) q).
Proof.
  revert v s. induction ks as [|k ks IH]; intros v s H Hnd Hlen.
  - destruct v; [|discriminate]. exists s. simpl.
    repeat split; auto; constructor.
  - destruct v as [|x v]; [discriminate|]. simpl in Hlen.
    inversion H as [|? ? Hk Hks]; subst.
    inversion Hnd as [|? ? Hnotin Hnd']; subst.
    destruct (fits_store _ _ 1 x ltac:(lia) Hk) as (m1 & Hm1 & Hs1).
    set (s1 := {| bufferLeft := bufferLeft s; bufferRight := bufferRight s;
                  audio := m1;
                  trace := trace s ++ [EvOutput c (ptr_add p k)] |}).
    destruct (IH v s1) as (s' & E & HbL & HbR & Hsh & Hloads & Hframe).
    { simpl. now rewrite Hs1. }
    { exact Hnd'. }
    { lia. }
    exists s'. cbn [zip zip_with forM fst snd]. unfold bind at 1, writeAudio at 1.
    rewrite Hm1. fold s1. rewrite E.
    split; [reflexivity|]. split; [exact HbL|]. split; [exact HbR|].
    split; [now rewrite Hsh|]. split.
    + constructor; [|exact Hloads].
      rewrite Hframe.
      * apply (load_store_eq _ _ _ _ Hm1).
      * intros k' Hin Heq. apply Hnotin.
        unfold ptr_add in Heq. injection Heq as Heq.
        assert (k' = k) by lia. subst. now apply list_elem_of_In.
    + intros q Hq. rewrite Hframe.
      * simpl. destruct (Nat.eq_dec (blk q) (blk (ptr_add p k))) as [Hb|Hb].
        -- apply (load_store_other_ofs _ _ _ _ _ Hm1); [exact Hb|].
           intros Ho. apply (Hq k); [now left|].
           destruct q as [qb qo]. unfold ptr_add in *. simpl in *.
           congruence.
        -- apply (load_store_other_block _ _ _ _ _ Hm1). exact Hb.
      * intros k' Hin. apply Hq. now right.
Qed.

Lemma forM_writeDelay_effect c offset (ks : list Z) (v : list Q)
  (s : machine) :
  Forall (fun k => 0 <= offset + k < Z.of_nat (length (line c s))) ks ->
  NoDup ks -> length v = length ks ->
  exists s',
    forM (fun kx => writeDelay c (offset + fst kx) (snd kx)) (zip ks v) s
    = Ok (tt, s')
    /\ audio s' = audio s
    /\ match c with
       | ChLeft => bufferRight s' = bufferRight s
       | ChRight => bufferLeft s' = bufferLeft s
       end
    /\ length (line c s') = length (line c s)
    /\ Forall2 (fun k x => vec_get (line c s') (offset + k) = Some x) ks v
    /\ (forall j, (forall k, In k ks -> j <> offset + k) ->
          vec_get (line c s') j = vec_get (line c s) j).
Proof.
  revert v s. induction ks as [|k ks IH]; intros v s H Hnd Hlen.
  - destruct v; [|discriminate]. exists s. simpl.
    repeat split; auto; try (destruct c; reflexivity); constructor.
  - destruct v as [|x v]; [discriminate|]. simpl in Hlen.
    inversion H as [|? ? Hk Hks]; subst.
    inversion Hnd as [|? ? Hnotin Hnd']; subst.
    pose proof (vec_set_Some (line c s) (offset + k) x Hk) as Hset.
    set (l1 := <[Z.to_nat (offset + k) := x]> (line c s)) in *.
    set (s1 := match c with
               | ChLeft =>
                   {| bufferLeft := l1; bufferRight := bufferRight s;
                      audio := audio s;
                      trace := trace s ++ [EvDelayWrite c (offset + k) x] |}
               | ChRight =>
                   {| bufferLeft := bufferLeft s; bufferRight := l1;
                      audio := audio s;
                      trace := trace s ++ [EvDelayWrite c (offset + k) x] |}
               end).
    assert (Hl1 : line c s1 = l1) by (unfold s1; destruct c; reflexivity).
    assert (Ha1 : audio s1 = audio s) by (unfold s1; destruct c; reflexivity).
    assert (Ho1 : match c with
                  | ChLeft => bufferRight s1 = bufferRight s
                  | ChRight => bufferLeft s1 = bufferLeft s
                  end) by (unfold s1; destruct c; reflexivity).
    assert (Hlen1 : length l1 = length (line c s))
      by (unfold l1; apply length_insert).
    destruct (IH v s1) as (s' & E & Ha & Ho & Hl & Hgets & Hframe).
    { rewrite Hl1, Hlen1. exact Hks. }
    { exact Hnd'. }
    { lia. }
    exists s'. cbn [zip zip_with forM fst snd].
    unfold bind at 1, writeDelay at 1. rewrite Hset. fold s1. rewrite E.
    split; [reflexivity|]. split; [congruence|].
    split; [destruct c; congruence|].
    split; [rewrite Hl, Hl1; exact Hlen1|]. split.
    + constructor; [|exact Hgets].
      rewrite Hframe.
      * rewrite Hl1. apply (vec_get_set_eq _ _ _ _ Hset).
      * intros k' Hin Heq. apply Hnotin.
        assert (k' = k) by lia. subst. now apply list_elem_of_In.
    + intros j Hj. rewrite Hframe.
      * rewrite Hl1. apply (vec_get_set_ne _ _ _ _ _ Hset).
        apply Hj. now left.
      * intros k' Hin. apply Hj. now right.
Qed.

(** *** One lane of the SIMD arithmetic is the scalar arithmetic *)

Lemma Qmult_comm_eq (x y : Q) : (x * y)%Q = (y * x)%Q.
Proof.
  unfold Qmult. f_equal; [apply Z.mul_comm|apply Pos.mul_comm].
Qed.

Lemma lane_clip_jlimit (v : Q) :
  Juce.lane_max (-1) (Juce.lane_min 1 v) = Juce.jlimit (-1) 1 v.
Proof.
  unfold Juce.lane_max, Juce.lane_min, Juce.jlimit.
  destruct (Juce.Qltb 1 v) eqn:E1.
  - assert (E : Juce.Qltb 1 (-1) = false) by reflexivity. rewrite E.
    destruct (Juce.Qltb v (-1)) eqn:E2; [|reflexivity].
    apply Qltb_true in E1, E2. lra.
  - destruct (Juce.Qltb v (-1)); reflexivity.
Qed.

Lemma zip_with_lookup {A B C} (g : A -> B -> C) (l1 : list A) (l2 : list B)
  (i : nat) (x : A) (y : B) :
  l1 !! i = Some x -> l2 !! i = Some y ->
  zip_with g l1 l2 !! i = Some (g x y).
Proof.
  revert l2 i. induction l1 as [|a l1 IH]; intros [|b l2] [|i] H1 H2;
    simpl in *; try discriminate.
  - congruence.
  - now apply IH.
Qed.

Lemma splat_lookup (w : Z) (x : Q) (i : nat) :
  (i < Z.to_nat w)%nat -> splat w x !! i = Some x.
Proof.
  unfold splat. generalize (Z.to_nat w) as n. intros n. revert i.
  induction n as [|n IH]; intros [|i] H; simpl; try lia; [reflexivity|].
  apply IH. lia.
Qed.

Lemma lanes_lookup (w : Z) (i : nat) :
  (i < Z.to_nat w)%nat -> lanes w !! i = Some (Z.of_nat i).
Proof.
  intros H. rewrite lanes_zrange, zrange_lookup by exact H. reflexivity.
Qed.

Lemma lanes_NoDup (w : Z) : NoDup (lanes w).
Proof.
  unfold lanes. apply NoDup_fmap_2; [intros a b; lia|apply NoDup_seq].
Qed.

Lemma lanes_In (w k : Z) : In k (lanes w) -> 0 <= k < w.
Proof.
  intros H. rewrite lanes_zrange in H.
  pose proof (zrange_bound 0 (Z.to_nat w)) as HB.
  rewrite List.Forall_forall in HB. specialize (HB k H). lia.
Qed.

(** *** The SIMD chunk has the effect of [simdWidth] samples *)

Section Paths.

Variables (len : Z) (fb wet dry : Q) (simdWidth : Z).
Hypothesis simdWidth_pos : 0 < simdWidth.

Lemma bind_Ok {A B} (c : M A) (k : A -> M B) (s : machine) (r : B * machine) :
  bind c k s = Ok r -> exists a s1, c s = Ok (a, s1) /\ k a s1 = Ok r.
Proof.
  unfold bind. destruct (c s) as [[a s1]| |]; [eauto|discriminate..].
Qed.

Lemma isSIMDAligned_mod (offset : Z) :
  isSIMDAligned simdWidth offset = true -> offset mod simdWidth = 0.
Proof. unfold isSIMDAligned. apply Z.eqb_eq. Qed.

(** A chunk that returns made aligned accesses only. *)
Lemma simdChunk_Ok_aligned (p : io) (offset : Z) (s : machine)
  (r : unit * machine) :
  simdChunk fb wet dry simdWidth p offset s = Ok r ->
  offset mod simdWidth = 0 /\ io_aligned simdWidth p.
Proof.
  unfold simdChunk. cbv zeta. intros H.
  apply bind_Ok in H. destruct H as (dl & sA & EA & H).
  apply bind_Ok in H. destruct H as (dr & sB & EB & H).
  apply bind_Ok in H. destruct H as (xl & sC & EC & H).
  apply bind_Ok in H. destruct H as (xr & sD & ED & H).
  apply bind_Ok in H. destruct H as (u1 & sE & EE & H).
  apply bind_Ok in H. destruct H as (u2 & sF & EF & H).
  unfold fromRawDelay in EA. unfold fromRawArray in EC, ED.
  unfold copyToRawArray in EE, EF.
  destruct (isSIMDAligned simdWidth offset) eqn:A0; [|discriminate EA].
  destruct (isSIMDAligned simdWidth (ofs (inputLeft p))) eqn:A1;
    [|discriminate EC].
  destruct (isSIMDAligned simdWidth (ofs (inputRight p))) eqn:A2;
    [|discriminate ED].
  destruct (isSIMDAligned simdWidth (ofs (outputLeft p))) eqn:A3;
    [|discriminate EE].
  destruct (isSIMDAligned simdWidth (ofs (outputRight p))) eqn:A4;
    [|discriminate EF].
  unfold io_aligned. repeat split; apply isSIMDAligned_mod; assumption.
Qed.

Lemma simdLoop_Ok_aligned (n : nat) (p : io) (chunk idx : Z) (s : machine)
  (r : io * machine) :
  simdLoop fb wet dry simdWidth (S n) p chunk idx s = Ok r ->
  idx mod simdWidth = 0 /\ io_aligned simdWidth p.
Proof.
  cbn [simdLoop]. intros H.
  apply bind_Ok in H. destruct H as (u & s1 & E & _).
  apply simdChunk_Ok_aligned in E. destruct E as [E1 E2].
  rewrite Z.mod_add in E1 by lia. auto.
Qed.

Lemma simdChunk_effect (p : io) (offset : Z) (s : machine) :
  offset mod simdWidth = 0 -> io_aligned simdWidth p ->
  outputs_apart p -> 0 <= offset ->
  offset + simdWidth <= Z.of_nat (length (bufferLeft s)) ->
  offset + simdWidth <= Z.of_nat (length (bufferRight s)) ->
  fits_io (map length (audio s)) p simdWidth ->
  exists s',
    simdChunk fb wet dry simdWidth p offset s = Ok (tt, s')
    /\ segment_effect fb wet dry p offset (Z.to_nat simdWidth) s s'.
Proof.
  intros Ha (AiL & AiR & AoL & AoR).
  intros (A1 & A2 & A3 & A4 & A5) Hoff HLl HLr (HiL & HiR & HoL & HoR).
  set (W := Z.to_nat simdWidth).
  assert (Hlanes_len : length (lanes simdWidth) = W)
    by (rewrite lanes_zrange; apply zrange_length).
  assert (HB : forall (P : Z -> Prop),
             (forall k, 0 <= k < simdWidth -> P k) ->
             Forall P (lanes simdWidth)).
  { intros P HP. apply List.Forall_forall. intros k Hk.
    apply HP. now apply lanes_In. }
  (* the four loads *)
  destruct (mapM_readDelay_effect ChLeft offset (lanes simdWidth) s)
    as (dl & sA & EA & SA & Fdl).
  { apply HB. intros k Hk. simpl. lia. }
  destruct SA as (SA1 & SA2 & SA3).
  destruct (mapM_readDelay_effect ChRight offset (lanes simdWidth) sA)
    as (dr & sB & EB & SB & Fdr).
  { apply HB. intros k Hk. simpl. rewrite <- SA2. lia. }
  destruct SB as (SB1 & SB2 & SB3).
  simpl line in Fdl, Fdr. rewrite <- SA2 in Fdr.
  destruct (mapM_readAudio_effect (inputLeft p) (lanes simdWidth) sB)
    as (xl & EC & Fxl).
  { apply HB. intros k Hk. rewrite <- SB3, <- SA3.
    eapply fits_sub; [exact HiL|lia|lia]. }
  destruct (mapM_readAudio_effect (inputRight p) (lanes simdWidth) sB)
    as (xr & ED & Fxr).
  { apply HB. intros k Hk. rewrite <- SB3, <- SA3.
    eapply fits_sub; [exact HiR|lia|lia]. }
  rewrite <- SB3, <- SA3 in Fxl, Fxr.
  pose proof (Forall2_length _ _ _ Fdl) as Ldl.
  pose proof (Forall2_length _ _ _ Fdr) as Ldr.
  pose proof (Forall2_length _ _ _ Fxl) as Lxl.
  pose proof (Forall2_length _ _ _ Fxr) as Lxr.
  rewrite Hlanes_len in Ldl, Ldr, Lxl, Lxr.
  (* the registers *)
  set (outL := vadd (vmul xl (splat simdWidth dry))
                 (vmul dl (splat simdWidth wet))).
  set (outR := vadd (vmul xr (splat simdWidth dry))
                 (vmul dr (splat simdWidth wet))).
  set (newL := vmax (splat simdWidth (-1))
                 (vmin (splat simdWidth 1)
                    (vadd xl (vmul dl (splat simdWidth fb))))).
  set (newR := vmax (splat simdWidth (-1))
                 (vmin (splat simdWidth 1)
                    (vadd xr (vmul dr (splat simdWidth fb))))).
  assert (Hsplat : forall x, length (splat simdWidth x) = W)
    by (intros x; apply repeat_length).
  assert (LoutL : length outL = W).
  { unfold outL, vadd, vmul. repeat apply zip_with_length; auto. }
  assert (LoutR : length outR = W).
  { unfold outR, vadd, vmul. repeat apply zip_with_length; auto. }
  assert (LnewL : length newL = W).
  { unfold newL, vmax, vmin, vadd, vmul. repeat apply zip_with_length; auto. }
  assert (LnewR : length newR = W).
  { unfold newR, vmax, vmin, vadd, vmul. repeat apply zip_with_length; auto. }
  (* the four stores *)
  destruct (forM_writeAudio_effect ChLeft (outputLeft p) (lanes simdWidth)
              outL sB) as (sC & EE & C1 & C2 & C3 & FoutL & CF).
  { apply HB. intros k Hk. rewrite <- SB3, <- SA3.
    eapply fits_sub; [exact HoL|lia|lia]. }
  { apply lanes_NoDup. }
  { congruence. }
  destruct (forM_writeAudio_effect ChRight (outputRight p) (lanes simdWidth)
              outR sC) as (sD & EF & D1 & D2 & D3 & FoutR & DF).
  { apply HB. intros k Hk. rewrite C3, <- SB3, <- SA3.
    eapply fits_sub; [exact HoR|lia|lia]. }
  { apply lanes_NoDup. }
  { congruence. }
  destruct (forM_writeDelay_effect ChLeft offset (lanes simdWidth) newL sD)
    as (sE & EG & E1 & E2 & E3 & FnewL & EFr).
  { apply HB. intros k Hk. simpl. rewrite D1, C1, <- SB1, <- SA1. lia. }
  { apply lanes_NoDup. }
  { congruence. }
  destruct (forM_writeDelay_effect ChRight offset (lanes simdWidth) newR sE)
    as (sF & EH & F1 & F2 & F3 & FnewR & FFr).
  { apply HB. intros k Hk. simpl. rewrite E2, D2, C2, <- SB2, <- SA2. lia. }
  { apply lanes_NoDup. }
  { congruence. }
  simpl line in *.
  exists sF. split.
  { unfold simdChunk. cbv zeta.
    unfold fromRawDelay, fromRawArray, copyToRawArray, copyToRawDelay.
    rewrite (isSIMDAligned_true _ _ Ha), (isSIMDAligned_true _ _ AiL),
      (isSIMDAligned_true _ _ AiR), (isSIMDAligned_true _ _ AoL),
      (isSIMDAligned_true _ _ AoR).
    unfold bind at 1. rewrite EA. unfold bind at 1. rewrite EB.
    unfold bind at 1. rewrite EC. unfold bind at 1. rewrite ED.
    unfold bind at 1. fold outL. rewrite EE.
    unfold bind at 1. fold outR. rewrite EF.
    unfold bind at 1. fold newL. rewrite EG. fold newR. exact EH. }
  (* the effect *)
  assert (HbufL0 : bufferLeft sD = bufferLeft s) by congruence.
  assert (HbufR0 : bufferRight sD = bufferRight s) by congruence.
  unfold segment_effect.
  split; [congruence|]. split; [congruence|].
  split; [rewrite F1, E1, D3, C3, <- SB3, <- SA3; reflexivity|].
  split.
  { intros k Hk. fold W in Hk.
    pose proof (lanes_lookup simdWidth k Hk) as Hlane.
    destruct (Forall2_lookup_l _ _ _ _ _ Fxl Hlane) as (xlk & Hxl & Pxl).
    destruct (Forall2_lookup_l _ _ _ _ _ Fxr Hlane) as (xrk & Hxr & Pxr).
    destruct (Forall2_lookup_l _ _ _ _ _ Fdl Hlane) as (dlk & Hdl & Pdl).
    destruct (Forall2_lookup_l _ _ _ _ _ Fdr Hlane) as (drk & Hdr & Pdr).
    exists xlk, xrk, dlk, drk.
    split; [exact Pxl|]. split; [exact Pxr|].
    split; [exact Pdl|]. split; [exact Pdr|].
    assert (HoLk : outL !! k = Some (xlk * dry + dlk * wet)%Q).
    { unfold outL, vadd, vmul.
      repeat (apply zip_with_lookup || apply splat_lookup); auto. }
    assert (HoRk : outR !! k = Some (xrk * dry + drk * wet)%Q).
    { unfold outR, vadd, vmul.
      repeat (apply zip_with_lookup || apply splat_lookup); auto. }
    assert (HnLk : newL !! k
                   = Some (Juce.jlimit (-1) 1 (xlk + fb * dlk)%Q)).
    { rewrite <- lane_clip_jlimit, (Qmult_comm_eq fb dlk).
      unfold newL, vmax, vmin, vadd, vmul.
      repeat (apply zip_with_lookup || apply splat_lookup); auto. }
    assert (HnRk : newR !! k
                   = Some (Juce.jlimit (-1) 1 (xrk + fb * drk)%Q)).
    { rewrite <- lane_clip_jlimit, (Qmult_comm_eq fb drk).
      unfold newR, vmax, vmin, vadd, vmul.
      repeat (apply zip_with_lookup || apply splat_lookup); auto. }
    split.
    { rewrite F2.
      destruct (Forall2_lookup_l _ _ _ _ _ FnewL Hlane) as (y & Hy & Py).
      rewrite HnLk in Hy. injection Hy as <-. exact Py. }
    split.
    { destruct (Forall2_lookup_l _ _ _ _ _ FnewR Hlane) as (y & Hy & Py).
      rewrite HnRk in Hy. injection Hy as <-. exact Py. }
    split.
    { rewrite F1, E1, DF.
      - destruct (Forall2_lookup_l _ _ _ _ _ FoutL Hlane) as (y & Hy & Py).
        rewrite HoLk in Hy. injection Hy as <-. exact Py.
      - intros k' _ Heq. apply A5. unfold ptr_add in Heq. congruence. }
    { rewrite F1, E1.
      destruct (Forall2_lookup_l _ _ _ _ _ FoutR Hlane) as (y & Hy & Py).
      rewrite HoRk in Hy. injection Hy as <-. exact Py. } }
  split.
  { intros j Hj. rewrite F2, EFr, HbufL0; [reflexivity|].
    intros k Hk Heq. apply lanes_In in Hk. apply Hj. fold W. unfold W. lia. }
  split.
  { intros j Hj. rewrite FFr, E2, HbufR0; [reflexivity|].
    intros k Hk Heq. apply lanes_In in Hk. apply Hj. fold W. unfold W. lia. }
  { intros q HqL HqR. rewrite F1, E1, DF, CF, <- SB3, <- SA3; [reflexivity| |].
    - intros k Hk Heq. apply lanes_In in Hk. apply HqL. subst q.
      unfold in_span, ptr_add. simpl. fold W. unfold W. lia.
    - intros k Hk Heq. apply lanes_In in Hk. apply HqR. subst q.
      unfold in_span, ptr_add. simpl. fold W. unfold W. lia. }
Qed.

(** *** Stretches compose; a stretch determines the machine *)

Lemma segment_effect_nil (p : io) (idx : Z) (s s' : machine) :
  same_state s s' -> segment_effect fb wet dry p idx 0 s s'.
Proof.
  intros (H1 & H2 & H3). unfold segment_effect. rewrite H1, H2, H3.
  repeat split; auto. intros k Hk. lia.
Qed.

Lemma segment_effect_same (p : io) (idx : Z) (n : nat) (s0 s s' s1 : machine) :
  same_state s0 s -> same_state s' s1 ->
  segment_effect fb wet dry p idx n s s' ->
  segment_effect fb wet dry p idx n s0 s1.
Proof.
  intros (H1 & H2 & H3) (G1 & G2 & G3). unfold segment_effect.
  now rewrite H1, H2, H3, G1, G2, G3.
Qed.

Lemma segment_effect_unique (p : io) (idx : Z) (n : nat) (s s1 s2 : machine) :
  segment_effect fb wet dry p idx n s s1 ->
  segment_effect fb wet dry p idx n s s2 ->
  same_state s1 s2.
Proof.
  intros (L1 & R1 & Sh1 & V1 & FL1 & FR1 & FA1)
         (L2 & R2 & Sh2 & V2 & FL2 & FR2 & FA2).
  assert (Hin : forall j, idx <= j < idx + Z.of_nat n ->
                  exists k : nat, (k < n)%nat /\ j = idx + Z.of_nat k).
  { intros j Hj. exists (Z.to_nat (j - idx)). lia. }
  split; [|split].
  - apply vec_get_ext. intros j.
    destruct (Z_le_dec idx j) as [H1|H1];
      [destruct (Z_lt_dec j (idx + Z.of_nat n)) as [H2|H2]|].
    + destruct (Hin j (conj H1 H2)) as (k & Hk & ->).
      destruct (V1 k Hk) as (xl & xr & dl & dr & a1 & a2 & a3 & a4 & a5 & _).
      destruct (V2 k Hk) as (xl' & xr' & dl' & dr' & b1 & b2 & b3 & b4 & b5 & _).
      rewrite a5, b5. congruence.
    + rewrite FL1, FL2 by lia. reflexivity.
    + rewrite FL1, FL2 by lia. reflexivity.
  - apply vec_get_ext. intros j.
    destruct (Z_le_dec idx j) as [H1|H1];
      [destruct (Z_lt_dec j (idx + Z.of_nat n)) as [H2|H2]|].
    + destruct (Hin j (conj H1 H2)) as (k & Hk & ->).
      destruct (V1 k Hk)
        as (xl & xr & dl & dr & a1 & a2 & a3 & a4 & _ & a6 & _).
      destruct (V2 k Hk)
        as (xl' & xr' & dl' & dr' & b1 & b2 & b3 & b4 & _ & b6 & _).
      rewrite a6, b6. congruence.
    + rewrite FR1, FR2 by lia. reflexivity.
    + rewrite FR1, FR2 by lia. reflexivity.
  - apply memory_ext; [congruence|]. intros q.
    assert (Hspan : forall r, in_span r (Z.of_nat n) q ->
                      exists k : nat, (k < n)%nat /\ q = ptr_add r (Z.of_nat k)).
    { intros r (Hb & Ho). exists (Z.to_nat (ofs q - ofs r)). split; [lia|].
      destruct q as [qb qo]. unfold ptr_add. simpl in *. f_equal; [exact Hb|lia]. }
    destruct (classic_in_span (outputRight p) (Z.of_nat n) q) as [HR|HR].
    + destruct (Hspan _ HR) as (k & Hk & ->).
      destruct (V1 k Hk)
        as (xl & xr & dl & dr & a1 & a2 & a3 & a4 & _ & _ & _ & a8).
      destruct (V2 k Hk)
        as (xl' & xr' & dl' & dr' & b1 & b2 & b3 & b4 & _ & _ & _ & b8).
      rewrite a8, b8. congruence.
    + destruct (classic_in_span (outputLeft p) (Z.of_nat n) q) as [HL|HL].
      * destruct (Hspan _ HL) as (k & Hk & ->).
        destruct (V1 k Hk)
          as (xl & xr & dl & dr & a1 & a2 & a3 & a4 & _ & _ & a7 & _).
        destruct (V2 k Hk)
          as (xl' & xr' & dl' & dr' & b1 & b2 & b3 & b4 & _ & _ & b7 & _).
        rewrite a7, b7. congruence.
      * rewrite FA1, FA2 by assumption. reflexivity.
Qed.

Lemma segment_effect_app (p : io) (idx : Z) (n1 n2 : nat)
  (s s1 s2 : machine) :
  outputs_apart p ->
  segment_effect fb wet dry p idx n1 s s1 ->
  segment_effect fb wet dry (io_add p (Z.of_nat n1)) (idx + Z.of_nat n1) n2
    s1 s2 ->
  segment_effect fb wet dry p idx (n1 + n2) s s2.
Proof.
  intros (A1 & A2 & A3 & A4 & A5)
         (L1 & R1 & Sh1 & V1 & FL1 & FR1 & FA1)
         (L2 & R2 & Sh2 & V2 & FL2 & FR2 & FA2).
  simpl in V2, FA2.
  unfold segment_effect.
  split; [congruence|]. split; [congruence|]. split; [congruence|].
  split.
  { intros k Hk. destruct (Nat.lt_ge_cases k n1) as [Hlt|Hge].
    - destruct (V1 k Hlt)
        as (xl & xr & dl & dr & a1 & a2 & a3 & a4 & a5 & a6 & a7 & a8).
      exists xl, xr, dl, dr.
      split; [exact a1|]. split; [exact a2|].
      split; [exact a3|]. split; [exact a4|].
      split; [rewrite FL2 by lia; exact a5|].
      split; [rewrite FR2 by lia; exact a6|].
      split.
      + rewrite FA2; [exact a7| |]; unfold in_span, ptr_add; simpl.
        * lia.
        * intros [Hb _]. apply A5. exact Hb.
      + rewrite FA2; [exact a8| |]; unfold in_span, ptr_add; simpl.
        * intros [Hb _]. apply A5. symmetry. exact Hb.
        * lia.
    - destruct (V2 (k - n1)%nat ltac:(lia))
        as (xl & xr & dl & dr & a1 & a2 & a3 & a4 & a5 & a6 & a7 & a8).
      rewrite ptr_add_add in a1, a2, a7, a8.
      replace (Z.of_nat n1 + Z.of_nat (k - n1)) with (Z.of_nat k)
        in a1, a2, a7, a8 by lia.
      replace (idx + Z.of_nat n1 + Z.of_nat (k - n1)) with (idx + Z.of_nat k)
        in a3, a4, a5, a6 by lia.
      exists xl, xr, dl, dr.
      split.
      { rewrite <- FA1; [exact a1| |]; unfold in_span, ptr_add; simpl;
          intros [Hb _]; congruence. }
      split.
      { rewrite <- FA1; [exact a2| |]; unfold in_span, ptr_add; simpl;
          intros [Hb _]; congruence. }
      split; [rewrite <- FL1 by lia; exact a3|].
      split; [rewrite <- FR1 by lia; exact a4|].
      auto. }
  split.
  { intros j Hj. rewrite FL2, FL1 by lia. reflexivity. }
  split.
  { intros j Hj. rewrite FR2, FR1 by lia. reflexivity. }
  { intros q HqL HqR. rewrite FA2, FA1; [reflexivity| | | |].
    - intros (Hb & Ho). apply HqL. split; [exact Hb|lia].
    - intros (Hb & Ho). apply HqR. split; [exact Hb|lia].
    - intros (Hb & Ho). apply HqL. unfold ptr_add in *. simpl in *.
      split; [exact Hb|lia].
    - intros (Hb & Ho). apply HqR. unfold ptr_add in *. simpl in *.
      split; [exact Hb|lia]. }
Qed.

(** *** The scalar tail, the chunk loop and a whole stretch *)

Lemma scalarSample_effect (p : io) (idx : Z) (s : machine) :
  outputs_apart p -> 0 <= idx ->
  idx < Z.of_nat (length (bufferLeft s)) ->
  idx < Z.of_nat (length (bufferRight s)) ->
  fits_io (map length (audio s)) p 1 ->
  exists s',
    scalarSample fb wet dry p idx s = Ok (tt, s')
    /\ segment_effect fb wet dry p idx 1 s s'.
Proof.
  intros Hap Hidx HL HR (HiL & HiR & HoL & HoR).
  pose proof Hap as (A1 & A2 & A3 & A4 & A5).
  destruct (fits_load _ _ 1 ltac:(lia) HiL) as [xl Hxl].
  destruct (fits_load _ _ 1 ltac:(lia) HiR) as [xr Hxr].
  destruct (vec_get_Some (bufferLeft s) idx ltac:(lia)) as [dl Hdl].
  destruct (vec_get_Some (bufferRight s) idx ltac:(lia)) as [dr Hdr].
  destruct (scalarSample_apart fb wet dry p idx s xl xr dl dr Hap Hxl Hxr
              Hdl Hdr ltac:(lia) ltac:(lia) HoL HoR)
    as (s' & m1 & Erun & Hm1 & Hm2 & HbL & HbR).
  exists s'. split; [exact Erun|].
  pose proof (vec_set_Some (bufferLeft s) idx
                (Juce.jlimit (-1) 1 (xl + fb * dl)%Q) ltac:(lia)) as HsetL.
  pose proof (vec_set_Some (bufferRight s) idx
                (Juce.jlimit (-1) 1 (xr + fb * dr)%Q) ltac:(lia)) as HsetR.
  rewrite <- HbL in HsetL. rewrite <- HbR in HsetR.
  unfold segment_effect.
  split; [rewrite HbL; apply length_insert|].
  split; [rewrite HbR; apply length_insert|].
  split.
  { rewrite (store_shape _ _ _ _ Hm2). apply (store_shape _ _ _ _ Hm1). }
  split.
  { intros k Hk. assert (k = 0%nat) as -> by lia.
    change (Z.of_nat 0) with 0. rewrite !ptr_add_0, Z.add_0_r.
    exists xl, xr, dl, dr.
    split; [exact Hxl|]. split; [exact Hxr|].
    split; [exact Hdl|]. split; [exact Hdr|].
    split; [apply (vec_get_set_eq _ _ _ _ HsetL)|].
    split; [apply (vec_get_set_eq _ _ _ _ HsetR)|].
    split.
    - rewrite (load_store_other_block _ _ _ _ _ Hm2) by congruence.
      apply (load_store_eq _ _ _ _ Hm1).
    - apply (load_store_eq _ _ _ _ Hm2). }
  split.
  { intros j Hj. apply (vec_get_set_ne _ _ _ _ _ HsetL). lia. }
  split.
  { intros j Hj. apply (vec_get_set_ne _ _ _ _ _ HsetR). lia. }
  { intros q HqL HqR.
    assert (Hne : forall r, ~ in_span r (Z.of_nat 1) q -> blk q = blk r ->
                            ofs q <> ofs r).
    { intros r Hr Hb Ho. apply Hr. split; [exact Hb|lia]. }
    transitivity (load m1 q).
    - destruct (Nat.eq_dec (blk q) (blk (outputRight p))) as [Hb|Hb].
      + apply (load_store_other_ofs _ _ _ _ _ Hm2); [exact Hb|].
        now apply Hne.
      + apply (load_store_other_block _ _ _ _ _ Hm2). exact Hb.
    - destruct (Nat.eq_dec (blk q) (blk (outputLeft p))) as [Hb|Hb].
      + apply (load_store_other_ofs _ _ _ _ _ Hm1); [exact Hb|].
        now apply Hne.
      + apply (load_store_other_block _ _ _ _ _ Hm1). exact Hb. }
Qed.

Lemma segment_effect_shape (p : io) (idx : Z) (n : nat) (s s' : machine) :
  segment_effect fb wet dry p idx n s s' ->
  length (bufferLeft s') = length (bufferLeft s)
  /\ length (bufferRight s') = length (bufferRight s)
  /\ map length (audio s') = map length (audio s).
Proof. intros (H1 & H2 & H3 & _). auto. Qed.

Lemma tailLoop_effect (n : nat) (p : io) (idx : Z) (s : machine) :
  outputs_apart p -> 0 <= idx ->
  idx + Z.of_nat n <= Z.of_nat (length (bufferLeft s)) ->
  idx + Z.of_nat n <= Z.of_nat (length (bufferRight s)) ->
  fits_io (map length (audio s)) p (Z.of_nat n) ->
  exists s',
    tailLoop fb wet dry n p idx s
    = Ok ((io_add p (Z.of_nat n), idx + Z.of_nat n), s')
    /\ segment_effect fb wet dry p idx n s s'.
Proof.
  revert p idx s. induction n as [|n IH]; intros p idx s Hap Hidx HL HR Hp.
  - exists s. simpl. rewrite io_add_0, Z.add_0_r.
    split; [reflexivity|]. apply segment_effect_nil. repeat split.
  - destruct (scalarSample_effect p idx s Hap Hidx ltac:(lia) ltac:(lia))
      as (s1 & E1 & Eff1).
    { rewrite <- (io_add_0 p). eapply fits_io_sub; [exact Hp|lia|lia]. }
    destruct (segment_effect_shape _ _ _ _ _ Eff1) as (L1 & R1 & Sh1).
    destruct (IH (io_add p 1) (idx + 1) s1) as (s' & E2 & Eff2).
    { exact Hap. }
    { lia. }
    { rewrite L1. lia. }
    { rewrite R1. lia. }
    { rewrite Sh1. eapply fits_io_sub; [exact Hp|lia|lia]. }
    exists s'. split.
    + cbn [tailLoop]. unfold bind. rewrite E1, E2.
      rewrite io_add_add.
      replace (Z.of_nat (S n)) with (1 + Z.of_nat n) by lia.
      now rewrite Z.add_assoc.
    + change (S n) with (1 + n)%nat.
      eapply segment_effect_app; [exact Hap|exact Eff1|exact Eff2].
Qed.

Lemma simdLoop_effect (n : nat) (p : io) (chunk idx : Z) (s : machine) :
  n = 0%nat \/ (idx mod simdWidth = 0 /\ io_aligned simdWidth p) ->
  outputs_apart p -> 0 <= idx + chunk * simdWidth ->
  idx + (chunk + Z.of_nat n) * simdWidth <= Z.of_nat (length (bufferLeft s)) ->
  idx + (chunk + Z.of_nat n) * simdWidth <= Z.of_nat (length (bufferRight s)) ->
  fits_io (map length (audio s)) p (Z.of_nat n * simdWidth) ->
  exists s',
    simdLoop fb wet dry simdWidth n p chunk idx s
    = Ok (io_add p (Z.of_nat n * simdWidth), s')
    /\ segment_effect fb wet dry p (idx + chunk * simdWidth)
         (n * Z.to_nat simdWidth) s s'.
Proof.
  revert p chunk s.
  induction n as [|n IH]; intros p chunk s Hal Hap Hidx HL HR Hp.
  - exists s. simpl. rewrite io_add_0.
    split; [reflexivity|]. apply segment_effect_nil. repeat split.
  - destruct Hal as [Hal|[Hai Hpa]]; [discriminate Hal|].
    assert (Hao : (idx + chunk * simdWidth) mod simdWidth = 0)
      by (rewrite Z.mod_add by lia; exact Hai).
    destruct (simdChunk_effect p (idx + chunk * simdWidth) s Hao Hpa Hap
                Hidx ltac:(nia) ltac:(nia)) as (s1 & E1 & Eff1).
    { rewrite <- (io_add_0 p). eapply fits_io_sub; [exact Hp|lia|nia]. }
    destruct (segment_effect_shape _ _ _ _ _ Eff1) as (L1 & R1 & Sh1).
    destruct (IH (io_add p simdWidth) (chunk + 1) s1) as (s' & E2 & Eff2).
    { right. split; [exact Hai|].
      apply io_aligned_add; [lia| |exact Hpa].
      apply Z.mod_same. lia. }
    { exact Hap. }
    { nia. }
    { rewrite L1. nia. }
    { rewrite R1. nia. }
    { rewrite Sh1. eapply fits_io_sub; [exact Hp|lia|nia]. }
    exists s'. split.
    + cbn [simdLoop]. unfold bind. rewrite E1, E2.
      rewrite io_add_add.
      replace (Z.of_nat (S n) * simdWidth)
        with (simdWidth + Z.of_nat n * simdWidth) by lia.
      reflexivity.
    + change (S n * Z.to_nat simdWidth)%nat
        with (Z.to_nat simdWidth + n * Z.to_nat simdWidth)%nat.
      eapply segment_effect_app; [exact Hap|exact Eff1|].
      rewrite Z2Nat.id by lia.
      replace (idx + chunk * simdWidth + simdWidth)
        with (idx + (chunk + 1) * simdWidth) by lia.
      exact Eff2.
Qed.

(** The loop of the scalar path over a stretch that ends at or before
    the end of the loop is the scalar tail, with the wrap at the end. *)
Lemma scalarLoop_linear (n : nat) (p : io) (i idx : Z) (s : machine) :
  0 <= idx < len -> idx + Z.of_nat n <= len ->
  scalarLoop len fb wet dry n p i idx s
  = match tailLoop fb wet dry n (io_add p i) idx s with
    | Ok (_, s') =>
        Ok (if idx + Z.of_nat n >=? len then 0 else idx + Z.of_nat n, s')
    | Undefined => Undefined
    | OutOfFuel => OutOfFuel
    end.
Proof.
  revert i idx s. induction n as [|n IH]; intros i idx s Hidx Hend.
  - simpl. rewrite Z.add_0_r. destruct (Z.geb_spec idx len); [lia|reflexivity].
  - cbn [scalarLoop tailLoop]. unfold bind.
    destruct (scalarSample fb wet dry (io_add p i) idx s) as [[u s1]| |];
      [|reflexivity|reflexivity].
    unfold advance. destruct (Z.geb_spec (idx + 1) len) as [Hwrap|Hnow].
    + assert (n = 0%nat) as -> by lia. cbn [scalarLoop tailLoop]. unfold ret.
      change (Z.of_nat 1) with 1.
      destruct (Z.geb_spec (idx + 1) len); [reflexivity|lia].
    + rewrite IH by lia. rewrite io_add_add.
      replace (idx + 1 + Z.of_nat n) with (idx + Z.of_nat (S n)) by lia.
      reflexivity.
Qed.

(** *** The outer loop of the SIMD path against the scalar loop *)

(** Whenever the outer loop of the SIMD path returns, the loop of the
    scalar path returns the same cursor and the same state. *)
Lemma paths_agree_loop (fuel : nat) :
  forall (p : io) (i rem idx : Z) (s1 s2 : machine) (j : Z) (s1' : machine),
    outputs_apart p -> same_state s1 s2 ->
    0 <= idx < len ->
    len <= Z.of_nat (length (bufferLeft s1)) ->
    len <= Z.of_nat (length (bufferRight s1)) ->
    0 <= i -> 0 <= rem ->
    fits_io (map length (audio s1)) p (i + rem) ->
    simdWhile len fb wet dry simdWidth fuel (io_add p i) rem idx s1
    = Ok (j, s1') ->
    exists s2',
      scalarLoop len fb wet dry (Z.to_nat rem) p i idx s2 = Ok (j, s2')
      /\ same_state s1' s2'.
Proof.
  induction fuel as [|fuel IH];
    intros p i rem idx s1 s2 j s1' Hap Hsame Hidx HL HR Hi Hrem Hp HOk.
  - simpl in HOk. destruct (Z.gtb_spec rem 0) as [Hpos|Hz];
      [discriminate HOk|].
    assert (rem = 0) as -> by lia. injection HOk as <- <-.
    exists s2. simpl. auto.
  - cbn [simdWhile] in HOk. destruct (Z.gtb_spec rem 0) as [Hpos|Hz].
    2:{ assert (rem = 0) as -> by lia. injection HOk as <- <-.
        exists s2. simpl. auto. }
    cbv zeta in HOk.
    set (ste := Juce.jmin_int rem (len - idx)) in *.
    assert (Hste : 1 <= ste /\ ste <= rem /\ ste <= len - idx).
    { unfold ste, Juce.jmin_int. destruct (Z.ltb_spec (len - idx) rem); lia. }
    pose proof (Z.quot_rem' ste simdWidth) as Hqr.
    assert (Hq : 0 <= Z.quot ste simdWidth) by (apply Z.quot_pos; lia).
    assert (Hr : 0 <= Z.rem ste simdWidth < simdWidth)
      by (apply Z.rem_bound_pos; lia).
    set (q := Z.quot ste simdWidth) in *.
    set (t := Z.rem ste simdWidth) in *.
    set (nq := (Z.to_nat q * Z.to_nat simdWidth)%nat).
    set (nt := Z.to_nat t).
    assert (Hnq : Z.of_nat nq = q * simdWidth) by (unfold nq; nia).
    assert (Hnt : Z.of_nat nt = t) by (unfold nt; lia).
    assert (Hsum : Z.of_nat (nq + nt) = ste) by lia.
    (* the SIMD side: the segment returned, so its chunks were aligned *)
    set (s1a := note (EvSegment ste) s1).
    assert (Hs1a : same_state s1 s1a) by (repeat split).
    apply bind_Ok in HOk. destruct HOk as (u & s1a' & Ea & HOk).
    unfold noteSegment in Ea. injection Ea as _ <-. fold s1a in HOk.
    apply bind_Ok in HOk. destruct HOk as (p1 & s1b' & Eloop & HOk).
    assert (Hal : Z.to_nat q = 0%nat
                  \/ (idx mod simdWidth = 0
                      /\ io_aligned simdWidth (io_add p i))).
    { destruct (Z.to_nat q) as [|n0]; [left; reflexivity|right].
      eapply simdLoop_Ok_aligned. exact Eloop. }
    destruct (simdLoop_effect (Z.to_nat q) (io_add p i) 0 idx s1a Hal)
      as (s1b & Eb & Effb); try exact Hap; simpl length; try nia.
    { simpl audio. eapply fits_io_sub; [exact Hp|lia|nia]. }
    rewrite Eb in Eloop. injection Eloop as <- <-.
    rewrite Z.mul_0_l, Z.add_0_r in Effb. fold nq in Effb.
    destruct (segment_effect_shape _ _ _ _ _ Effb) as (Lb & Rb & Shb).
    simpl in Lb, Rb, Shb.
    destruct (tailLoop_effect nt (io_add (io_add p i) (Z.of_nat nq))
                (idx + Z.of_nat nq) s1b)
      as (s1c & Ec & Effc); try exact Hap; try lia.
    { rewrite Shb, io_add_add. eapply fits_io_sub; [exact Hp|lia|lia]. }
    pose proof (segment_effect_app (io_add p i) idx nq nt s1a s1b s1c Hap
                  Effb Effc) as Eff1.
    destruct (segment_effect_shape _ _ _ _ _ Eff1) as (L1 & R1 & Sh1).
    simpl in L1, R1, Sh1.
    (* the scalar side *)
    destruct (tailLoop_effect (nq + nt) (io_add p i) idx s2)
      as (s2c & E2 & Eff2); try exact Hap; try lia.
    { destruct Hsame as (<- & _ & _). lia. }
    { destruct Hsame as (_ & <- & _). lia. }
    { destruct Hsame as (_ & _ & <-).
      eapply fits_io_sub; [exact Hp|lia|lia]. }
    assert (Hsame_c : same_state s1c s2c).
    { eapply segment_effect_unique; [|exact Eff2].
      eapply segment_effect_same; [| |exact Eff1].
      - eapply same_state_trans; [apply same_state_sym; exact Hsame|exact Hs1a].
      - apply same_state_refl. }
    (* the rest of the block *)
    set (idx2 := if idx + ste >=? len then 0 else idx + ste).
    assert (Hidx2 : 0 <= idx2 < len).
    { unfold idx2. destruct (Z.geb_spec (idx + ste) len); lia. }
    apply bind_Ok in HOk. destruct HOk as (pi & s1c' & Etail & HOk).
    replace (Z.of_nat (Z.to_nat q) * simdWidth) with (Z.of_nat nq)
      in Etail by lia.
    replace (idx + q * simdWidth) with (idx + Z.of_nat nq) in Etail by lia.
    fold nt in Etail. rewrite Ec in Etail. injection Etail as <- <-.
    cbn [fst snd] in HOk. rewrite !io_add_add in HOk.
    replace (i + (Z.of_nat nq + Z.of_nat nt)) with (i + ste) in HOk by lia.
    replace (idx + Z.of_nat nq + Z.of_nat nt) with (idx + ste) in HOk by lia.
    fold idx2 in HOk.
    destruct (IH p (i + ste) (rem - ste) idx2 s1c s2c j s1')
      as (s2' & Escalar & Hfinal); try assumption; try lia.
    { rewrite Sh1. replace (i + ste + (rem - ste)) with (i + rem) by lia.
      exact Hp. }
    exists s2'. split; [|exact Hfinal].
    replace (Z.to_nat rem) with ((nq + nt) + Z.to_nat (rem - ste))%nat
      by lia.
    rewrite scalarLoop_app. unfold bind.
    rewrite scalarLoop_linear by lia. rewrite E2, Hsum.
    fold idx2. exact Escalar.
Qed.

End Paths.

(** Whenever the SIMD path returns on arrays apart, the scalar path
    returns the same engine and arrays. *)
Lemma paths_agree (simdWidth : Z) (fuel : nat)
  (e : SharcDelayLine) (p : io) (numSamples : Z) (m : memory)
  (o2 : outcome) :
  0 < simdWidth -> simd_entry e -> outputs_apart p ->
  0 <= numSamples -> valid_io m p numSamples ->
  processBlockSIMD simdWidth fuel e p numSamples m = Ok o2 ->
  exists o1,
    processBlockScalar e p numSamples m = Ok o1
    /\ engine o1 = engine o2
    /\ arrays o1 = arrays o2.
Proof.
  intros HW (Hprep & Hidx & Hmax & HlenL & HlenR) Hap Hn Hp HOk.
  unfold processBlockSIMD in HOk. rewrite Hprep in HOk.
  simpl negb in HOk. cbv iota in HOk.
  destruct (simdWhile _ _ _ _ _ _ _ _ _ _) as [[j s1']| |] eqn:Esimd;
    try discriminate HOk.
  simpl in HOk. injection HOk as <-.
  rewrite <- (io_add_0 p) in Esimd.
  destruct (paths_agree_loop (delaySamples e) (feedback e) (wetMix e)
              (dryMix e) simdWidth HW fuel p 0 numSamples (delayIndex e)
              (enter e m) (enter e m) j s1')
    as (s2' & Escalar & (H1 & H2 & H3));
    try assumption; simpl; try lia.
  { repeat split. }
  unfold processBlockScalar.
  rewrite Hprep. simpl negb. cbv iota. rewrite Escalar. simpl.
  eexists. split; [reflexivity|].
  simpl. rewrite H1, H2, H3, ?Hprep. split; reflexivity.
Qed.

(** On a prepared engine whose cursor is inside the loop, called with
    output arrays apart from the input arrays, on caller arrays of at
    least [numSamples] elements, for every vector width of at least 1,
    whatever the block length and the loop length are relative to it:
    whenever [processBlockSIMD] returns, [processBlockScalar] returns the
    same engine (delay lines and cursor) and the same caller arrays; and
    when no register access of the block is misaligned (the block is
    shorter than a register, or the vector width divides the cursor, the
    loop length and the offsets of the four pointers), both return. *)
Theorem paths_agree_on_arrays_apart (simdWidth : Z) (fuel : nat)
  (e : SharcDelayLine) (p : io) (numSamples : Z) (m : memory) :
  0 < simdWidth -> simd_entry e -> outputs_apart p ->
  0 <= numSamples -> valid_io m p numSamples ->
  (forall o2,
      processBlockSIMD simdWidth fuel e p numSamples m = Ok o2 ->
      exists o1,
        processBlockScalar e p numSamples m = Ok o1
        /\ engine o1 = engine o2
        /\ arrays o1 = arrays o2)
  /\ (aligned_block simdWidth (delaySamples e) (delayIndex e) p numSamples ->
      (Z.to_nat numSamples <= fuel)%nat ->
      exists o1 o2,
        processBlockScalar e p numSamples m = Ok o1
        /\ processBlockSIMD simdWidth fuel e p numSamples m = Ok o2
        /\ engine o1 = engine o2
        /\ arrays o1 = arrays o2).
Proof.
  intros HW He Hap Hn Hp. split.
  - intros o2 HOk. now apply (paths_agree simdWidth fuel e p numSamples m o2).
  - intros Hal Hfuel.
    destruct (simd_block_under_entry simdWidth fuel e p numSamples m HW He
                Hal Hn Hp Hfuel) as (o2 & HOk & _).
    destruct (paths_agree simdWidth fuel e p numSamples m o2 HW He Hap Hn Hp
                HOk) as (o1 & E1 & H1 & H2).
    exists o1, o2. auto.
Qed.

Lemma paths_agree_on_arrays_apart_witness :
  exists o1 o2,
    processBlockScalar engine8 apart 8 ones8 = Ok o1
    /\ processBlockSIMD 4 8 engine8 apart 8 ones8 = Ok o2
    /\ engine o1 = engine o2
    /\ arrays o1 = arrays o2.
Proof.
  apply (proj2 (paths_agree_on_arrays_apart 4 8%nat engine8 apart 8 ones8
                  ltac:(lia)
                  ltac:(unfold simd_entry; vm_compute; intuition discriminate)
                  ltac:(unfold outputs_apart; simpl; lia)
                  ltac:(lia)
                  ltac:(unfold valid_io, fits_io, fits; simpl;
                        repeat split; try lia;
                        eexists; (split; [reflexivity|]); simpl; lia))).
  - right. vm_compute. intuition reflexivity.
  - simpl. lia.
Defined.

(** ** Instances *)

Lemma stored_values_stay_clipped_witness :
  clipped engine8_at3
  /\ forall simdWidth fuel p n m o,
       processBlockScalar engine8_at3 p n m = Ok o
       \/ processBlockSIMD simdWidth fuel engine8_at3 p n m = Ok o ->
       stores_clipped (events o) /\ clipped (engine o).
Proof.
  apply (stored_values_stay_clipped engine8_at3).
  exact reachable_engine8_at3.
Defined.

Lemma scalar_chunking_witness :
  processBlocksScalar engine8 apart [1; 0; 2] ones3
  = processBlockScalar engine8 apart (total [1; 0; 2]) ones3.
Proof.
  apply (scalar_chunking engine8 apart [1; 0; 2] ones3).
  repeat constructor; lia.
Defined.

(** ** What a block call leaves alone; the gains *)

Lemma block_keeps_parameters (simdWidth : Z) (fuel : nat)
  (e : SharcDelayLine) (p : io) (n : Z) (m : memory) (o : outcome) :
  processBlockScalar e p n m = Ok o
  \/ processBlockSIMD simdWidth fuel e p n m = Ok o ->
  maxDelaySamples (engine o) = maxDelaySamples e
  /\ delaySamples (engine o) = delaySamples e
  /\ feedback (engine o) = feedback e
  /\ wetMix (engine o) = wetMix e
  /\ dryMix (engine o) = dryMix e
  /\ sRate (engine o) = sRate e
  /\ prepared (engine o) = prepared e.
Proof.
  intros [E|E]; unfold processBlockScalar, processBlockSIMD in E;
    destruct (prepared e) eqn:Hp; simpl in E;
    try (inversion E; subst; simpl; rewrite ?Hp; tauto);
    match type of E with
    | leave _ ?r = _ => destruct r as [[idx s]| |]
    end; simpl in E; inversion E; subst; simpl; rewrite ?Hp; tauto.
Qed.

Lemma jlimit_range (lo hi x : Q) :
  (lo <= hi)%Q -> (lo <= Juce.jlimit lo hi x /\ Juce.jlimit lo hi x <= hi)%Q.
Proof.
  intros H. unfold Juce.jlimit.
  destruct (Juce.Qltb x lo) eqn:E1; [split; lra|].
  destruct (Juce.Qltb hi x) eqn:E2; [split; lra|].
  apply Qltb_false in E1, E2. split; lra.
Qed.

Lemma jlimit_inside (lo hi x : Q) :
  (lo <= x)%Q -> (x <= hi)%Q -> Juce.jlimit lo hi x = x.
Proof.
  intros H1 H2. unfold Juce.jlimit.
  destruct (Juce.Qltb x lo) eqn:E1.
  { apply Qltb_true in E1. lra. }
  destruct (Juce.Qltb hi x) eqn:E2; [|reflexivity].
  apply Qltb_true in E2. lra.
Qed.

Lemma reachable_gains (e : SharcDelayLine) : reachable e -> gains_in_range e.
Proof.
  induction 1 as [|sr mds e e' _ IH Hp|e _ IH|sec e e' _ IH Hs|x e _ IH
                  |x e _ IH|x e _ IH|e p n m o _ IH Hr
                  |w fuel e p n m o _ IH Hr].
  - unfold gains_in_range. simpl. repeat split; lra.
  - unfold prepare in Hp.
    destruct (Cxx.static_cast_int (sr * mds)) as [k|]; [|discriminate].
    destruct (k <? 0); [discriminate|]. inversion Hp; subst. exact IH.
  - exact IH.
  - unfold setDelaySeconds in Hs.
    destruct (Cxx.static_cast_int (sec * sRate e)); [|discriminate].
    inversion Hs; subst. exact IH.
  - destruct IH as (_ & Hw & Hd). split; [|split; assumption].
    apply jlimit_range. lra.
  - destruct IH as (Hf & _ & Hd). split; [exact Hf|split; [|exact Hd]].
    apply jlimit_range. lra.
  - destruct IH as (Hf & Hw & _). split; [exact Hf|split; [exact Hw|]].
    apply jlimit_range. lra.
  - destruct (block_keeps_parameters 1 0 e p n m o (or_introl Hr))
      as (_ & _ & Ef & Ew & Ed & _).
    unfold gains_in_range. rewrite Ef, Ew, Ed. exact IH.
  - destruct (block_keeps_parameters w fuel e p n m o (or_intror Hr))
      as (_ & _ & Ef & Ew & Ed & _).
    unfold gains_in_range. rewrite Ef, Ew, Ed. exact IH.
Qed.

(** On every engine a client can have obtained (construction, [prepare],
    [reset], the setters with any arguments, block calls that return, in
    any order) the feedback lies in [0, 0.99] and the wet and dry gains
    in [0, 1]; a setter called with a value inside its limits stores that
    value, and nothing but its own gain changes. *)
Theorem gains_stay_in_range (e : SharcDelayLine) :
  reachable e ->
  gains_in_range e
  /\ (forall x, (0 <= x)%Q -> (x <= 99 # 100)%Q ->
        feedback (setFeedback x e) = x)
  /\ (forall x, (0 <= x)%Q -> (x <= 1)%Q -> wetMix (setWetMix x e) = x)
  /\ (forall x, (0 <= x)%Q -> (x <= 1)%Q -> dryMix (setDryMix x e) = x)
  /\ (forall x, setFeedback (feedback e) (setFeedback x e) = e)
  /\ (forall x, setWetMix (wetMix e) (setWetMix x e) = e)
  /\ (forall x, setDryMix (dryMix e) (setDryMix x e) = e).
Proof.
  intros Hr. pose proof (reachable_gains e Hr) as ((F1 & F2) & (W1 & W2) & D1 & D2).
  split; [repeat split; assumption|].
  split; [intros x H1 H2; simpl; now apply jlimit_inside|].
  split; [intros x H1 H2; simpl; now apply jlimit_inside|].
  split; [intros x H1 H2; simpl; now apply jlimit_inside|].
  split; [|split]; intros x; destruct e; unfold setFeedback, setWetMix,
    setDryMix; simpl in *; f_equal; now apply jlimit_inside.
Qed.

Lemma gains_stay_in_range_witness :
  gains_in_range engine8_at3
  /\ (forall x, (0 <= x)%Q -> (x <= 99 # 100)%Q ->
        feedback (setFeedback x engine8_at3) = x)
  /\ (forall x, (0 <= x)%Q -> (x <= 1)%Q ->
        wetMix (setWetMix x engine8_at3) = x)
  /\ (forall x, (0 <= x)%Q -> (x <= 1)%Q ->
        dryMix (setDryMix x engine8_at3) = x)
  /\ (forall x, setFeedback (feedback engine8_at3)
                  (setFeedback x engine8_at3) = engine8_at3)
  /\ (forall x, setWetMix (wetMix engine8_at3)
                  (setWetMix x engine8_at3) = engine8_at3)
  /\ (forall x, setDryMix (dryMix engine8_at3)
                  (setDryMix x engine8_at3) = engine8_at3).
Proof.
  apply (gains_stay_in_range engine8_at3). exact reachable_engine8_at3.
Defined.

(** ** The scalar path returns, whatever the cursor *)

Section ScalarSafety.

Variables (L : nat) (shp : list nat) (len : Z) (fb wet dry : Q).
Hypothesis len_le_L : len <= Z.of_nat L.

(** The loop of the scalar path from a cursor anywhere in the delay
    lines: every access stays in the delay lines, the cursor it returns
    too, and after one sample at least the cursor is inside the loop. *)
Lemma okay_scalarLoop (n : nat) (p : io) (i idx : Z) :
  0 <= idx < Z.of_nat L -> 0 <= i -> fits_io shp p (i + Z.of_nat n) ->
  okay L shp (scalarLoop len fb wet dry n p i idx)
    (fun j evs =>
       0 <= j < Z.of_nat L
       /\ (n = 0%nat -> j = idx)
       /\ ((0 < n)%nat \/ idx < len -> j < Z.max 1 len)
       /\ block_post (Z.of_nat L)
            (map (ptr_add (outputLeft p)) (zrange i n))
            (map (ptr_add (outputRight p)) (zrange i n)) evs).
Proof.
  revert i idx. induction n as [|n IH]; intros i idx Hidx Hi Hp.
  - simpl. eapply okay_weaken; [apply okay_ret|]. intros r evs [-> ->].
    split; [exact Hidx|]. split; [reflexivity|].
    split; [lia|apply block_post_nil].
  - cbn [scalarLoop].
    eapply okay_bind.
    { apply (okay_scalarSample L shp (Z.of_nat L) fb wet dry (Z.le_refl _)
               (io_add p i) idx Hidx).
      eapply fits_io_sub; [exact Hp|lia|lia]. }
    intros u evs1 H1. cbv beta in H1.
    pose proof (advance_range len (Z.of_nat L) idx Hidx len_le_L) as Hadv.
    eapply okay_weaken.
    { apply (IH (i + 1) (advance len idx) Hadv); [lia|].
      replace (i + 1 + Z.of_nat n) with (i + Z.of_nat (S n)) by lia.
      exact Hp. }
    intros j evs2 (Hj & Hz & Hin & H2). cbv beta.
    split; [exact Hj|]. split; [discriminate|].
    split.
    { intros _. destruct n as [|n'].
      - rewrite (Hz eq_refl). unfold advance.
        destruct (Z.geb_spec (idx + 1) len); lia.
      - apply Hin. left. lia. }
    rewrite zrange_S. cbn [map].
    apply (block_post_app (Z.of_nat L) [_] [_] _ _ _ _ H1 H2).
Qed.

End ScalarSafety.

Lemma scalar_block_total (e : SharcDelayLine) (p : io) (n : Z) (m : memory) :
  prepared e = true ->
  length (delayLineLeft e) = Z.to_nat (maxDelaySamples e) ->
  length (delayLineRight e) = Z.to_nat (maxDelaySamples e) ->
  0 <= delayIndex e < maxDelaySamples e ->
  delaySamples e <= maxDelaySamples e ->
  0 <= n -> valid_io m p n ->
  exists o,
    processBlockScalar e p n m = Ok o
    /\ Forall (fun i => 0 <= i < maxDelaySamples e) (delayIndices (events o))
    /\ outputsOf ChLeft (events o)
       = map (ptr_add (outputLeft p)) (zrange 0 (Z.to_nat n))
    /\ outputsOf ChRight (events o)
       = map (ptr_add (outputRight p)) (zrange 0 (Z.to_nat n))
    /\ map length (arrays o) = map length m
    /\ 0 <= delayIndex (engine o) < maxDelaySamples e
    /\ (n = 0 -> delayIndex (engine o) = delayIndex e)
    /\ (1 <= n \/ delayIndex e < delaySamples e ->
        delayIndex (engine o) < Z.max 1 (delaySamples e)).
Proof.
  intros Hprep HlenL HlenR Hidx Hmax Hn Hp.
  unfold processBlockScalar. rewrite Hprep. simpl negb. cbv iota.
  assert (Hwf : wf (Z.to_nat (maxDelaySamples e)) (map length m) (enter e m)).
  { split; [exact HlenL|split; [exact HlenR|reflexivity]]. }
  destruct (okay_scalarLoop (Z.to_nat (maxDelaySamples e)) (map length m)
              (delaySamples e) (feedback e) (wetMix e) (dryMix e)
              ltac:(lia) (Z.to_nat n) p 0 (delayIndex e)
              ltac:(lia) ltac:(lia)
              ltac:(rewrite Z.add_0_l, Z2Nat.id by lia; exact Hp)
              (enter e m) Hwf)
    as (j & s' & evs & Erun & Etrace & (_ & _ & Hshape) & Hj & Hz & Hin
        & Hall & HoL & HoR).
  rewrite Erun. simpl. eexists; split; [reflexivity|]. simpl.
  simpl in Etrace. rewrite Etrace.
  split.
  { rewrite <- (Z2Nat.id (maxDelaySamples e)) by lia.
    eapply Forall_delayIndices. exact Hall. }
  split; [exact HoL|]. split; [exact HoR|]. split; [exact Hshape|].
  split; [lia|]. split.
  { intros ->. apply Hz. reflexivity. }
  intros [H|H]; apply Hin; [left|right]; lia.
Qed.

(** On a prepared engine obtained by any sequence of calls, whose cursor
    is inside the delay lines ([0 <= delayIndex < maxDelaySamples]) and
    whose loop is at most the capacity, [processBlockScalar] returns for
    every block length and every caller arrays of at least [numSamples]
    elements, in place or not, even when the cursor is beyond the loop:
    every delay-line index it accesses is inside the delay lines, it
    stores through each output pointer once at each offset
    [0 .. numSamples-1], the arrays keep their lengths, and after a
    non-empty block the cursor is inside the loop. *)
Theorem scalar_block_returns (e : SharcDelayLine) (p : io) (numSamples : Z)
  (m : memory) :
  reachable e -> prepared e = true ->
  0 <= delayIndex e < maxDelaySamples e ->
  delaySamples e <= maxDelaySamples e ->
  0 <= numSamples -> valid_io m p numSamples ->
  exists o,
    processBlockScalar e p numSamples m = Ok o
    /\ Forall (fun i => 0 <= i < maxDelaySamples e) (delayIndices (events o))
    /\ outputsOf ChLeft (events o)
       = map (ptr_add (outputLeft p)) (zrange 0 (Z.to_nat numSamples))
    /\ outputsOf ChRight (events o)
       = map (ptr_add (outputRight p)) (zrange 0 (Z.to_nat numSamples))
    /\ map length (arrays o) = map length m
    /\ 0 <= delayIndex (engine o) < maxDelaySamples e
    /\ (numSamples = 0 -> delayIndex (engine o) = delayIndex e)
    /\ (1 <= numSamples \/ delayIndex e < delaySamples e ->
        delayIndex (engine o) < Z.max 1 (delaySamples e)).
Proof.
  intros Hr Hprep Hidx Hmax Hn Hp.
  destruct (reachable_well_sized e Hr Hprep) as [HL HR].
  now apply scalar_block_total.
Qed.

Lemma reachable_engine8_shrunk : reachable engine8_shrunk.
Proof.
  apply (reach_setDelaySeconds (1 # 4) engine8_at3);
    [apply reachable_engine8_at3|vm_compute; reflexivity].
Qed.

Lemma scalar_block_returns_witness :
  exists o,
    processBlockScalar engine8_shrunk inPlace 3 ones3 = Ok o
    /\ Forall (fun i => 0 <= i < maxDelaySamples engine8_shrunk)
         (delayIndices (events o))
    /\ outputsOf ChLeft (events o)
       = map (ptr_add (outputLeft inPlace)) (zrange 0 (Z.to_nat 3))
    /\ outputsOf ChRight (events o)
       = map (ptr_add (outputRight inPlace)) (zrange 0 (Z.to_nat 3))
    /\ map length (arrays o) = map length ones3
    /\ 0 <= delayIndex (engine o) < maxDelaySamples engine8_shrunk
    /\ (3 = 0 -> delayIndex (engine o) = delayIndex engine8_shrunk)
    /\ (1 <= 3 \/ delayIndex engine8_shrunk < delaySamples engine8_shrunk ->
        delayIndex (engine o) < Z.max 1 (delaySamples engine8_shrunk)).
Proof.
  apply (scalar_block_returns engine8_shrunk inPlace 3 ones3).
  - exact reachable_engine8_shrunk.
  - reflexivity.
  - vm_compute. intuition discriminate.
  - vm_compute. discriminate.
  - lia.
  - unfold valid_io, fits_io, fits. simpl.
    repeat split; try lia; eexists; (split; [reflexivity|]); simpl; lia.
Defined.

(** ** Where a block leaves the cursor *)

Section Cursor.

Variables (len : Z) (fb wet dry : Q).

Lemma scalarLoop_cursor (n : nat) :
  forall (p : io) (i idx : Z) (s : machine) (j : Z) (s' : machine),
    0 <= idx < len ->
    scalarLoop len fb wet dry n p i idx s = Ok (j, s') ->
    j = (idx + Z.of_nat n) mod len.
Proof.
  induction n as [|n IH]; intros p i idx s j s' Hidx H.
  - simpl in H. injection H as <- _.
    rewrite Z.add_0_r. symmetry. apply Z.mod_small. exact Hidx.
  - cbn [scalarLoop] in H.
    apply bind_Ok in H. destruct H as (u & s1 & _ & H).
    unfold advance in H.
    destruct (Z.geb_spec (idx + 1) len) as [Hedge|Hin].
    + apply IH in H; [|lia]. rewrite H.
      replace (idx + Z.of_nat (S n)) with (0 + Z.of_nat n + 1 * len) by lia.
      rewrite Z.mod_add by lia. reflexivity.
    + apply IH in H; [|lia]. rewrite H. f_equal. lia.
Qed.

Lemma tailLoop_cursor (n : nat) :
  forall (p : io) (idx : Z) (s : machine) (r : io * Z) (s' : machine),
    tailLoop fb wet dry n p idx s = Ok (r, s') ->
    snd r = idx + Z.of_nat n.
Proof.
  induction n as [|n IH]; intros p idx s r s' H.
  - simpl in H. injection H as <- _. simpl. lia.
  - cbn [tailLoop] in H.
    apply bind_Ok in H. destruct H as (u & s1 & _ & H).
    apply IH in H. lia.
Qed.

Variable simdWidth : Z.
Hypothesis simdWidth_pos : 0 < simdWidth.

Lemma simdWhile_cursor (fuel : nat) :
  forall (p : io) (rem idx : Z) (s : machine) (j : Z) (s' : machine),
    0 <= idx < len -> 0 <= rem ->
    simdWhile len fb wet dry simdWidth fuel p rem idx s = Ok (j, s') ->
    j = (idx + rem) mod len.
Proof.
  induction fuel as [|fuel IH]; intros p rem idx s j s' Hidx Hrem H.
  - simpl in H. destruct (Z.gtb_spec rem 0); [discriminate H|].
    injection H as <- _. assert (rem = 0) as -> by lia.
    rewrite Z.add_0_r. symmetry. apply Z.mod_small. exact Hidx.
  - cbn [simdWhile] in H. destruct (Z.gtb_spec rem 0) as [Hpos|Hz].
    2:{ injection H as <- _. assert (rem = 0) as -> by lia.
        rewrite Z.add_0_r. symmetry. apply Z.mod_small. exact Hidx. }
    cbv zeta in H.
    set (ste := Juce.jmin_int rem (len - idx)) in *.
    assert (Hste : 1 <= ste /\ ste <= rem /\ ste <= len - idx).
    { unfold ste, Juce.jmin_int. destruct (Z.ltb_spec (len - idx) rem); lia. }
    pose proof (Z.quot_rem' ste simdWidth) as Hqr.
    assert (Hq : 0 <= Z.quot ste simdWidth) by (apply Z.quot_pos; lia).
    assert (Hr : 0 <= Z.rem ste simdWidth < simdWidth)
      by (apply Z.rem_bound_pos; lia).
    apply bind_Ok in H. destruct H as (u & s1 & _ & H).
    apply bind_Ok in H. destruct H as (p1 & s2 & _ & H).
    apply bind_Ok in H. destruct H as (pi & s3 & Etail & H).
    apply tailLoop_cursor in Etail. rewrite Etail in H.
    replace (idx + Z.quot ste simdWidth * simdWidth
             + Z.of_nat (Z.to_nat (Z.rem ste simdWidth)))
      with (idx + ste) in H by lia.
    destruct (Z.geb_spec (idx + ste) len) as [Hedge|Hin].
    + apply IH in H; [|lia|lia]. rewrite H.
      replace (idx + rem) with (0 + (rem - ste) + 1 * len) by lia.
      rewrite Z.mod_add by lia. reflexivity.
    + apply IH in H; [|lia|lia]. rewrite H. f_equal. lia.
Qed.

End Cursor.

Lemma scalar_block_cursor (e : SharcDelayLine) (p : io) (numSamples : Z)
  (m : memory) (o : outcome) :
  prepared e = true ->
  0 <= delayIndex e < delaySamples e -> 0 <= numSamples ->
  processBlockScalar e p numSamples m = Ok o ->
  delayIndex (engine o) = (delayIndex e + numSamples) mod delaySamples e.
Proof.
  intros Hprep Hidx Hn H.
  unfold processBlockScalar in H. rewrite Hprep in H.
  simpl negb in H. cbv iota in H.
  destruct (scalarLoop _ _ _ _ _ _ _ _ _) as [[j s']| |] eqn:E;
    try discriminate H.
  simpl in H. injection H as <-. simpl.
  apply scalarLoop_cursor in E; [|exact Hidx].
  rewrite E, Z2Nat.id by lia. reflexivity.
Qed.

Lemma simd_block_cursor (simdWidth : Z) (fuel : nat) (e : SharcDelayLine)
  (p : io) (numSamples : Z) (m : memory) (o : outcome) :
  0 < simdWidth -> prepared e = true ->
  0 <= delayIndex e < delaySamples e -> 0 <= numSamples ->
  processBlockSIMD simdWidth fuel e p numSamples m = Ok o ->
  delayIndex (engine o) = (delayIndex e + numSamples) mod delaySamples e.
Proof.
  intros HW Hprep Hidx Hn H.
  unfold processBlockSIMD in H. rewrite Hprep in H.
  simpl negb in H. cbv iota in H.
  destruct (simdWhile _ _ _ _ _ _ _ _ _ _) as [[j s']| |] eqn:E;
    try discriminate H.
  simpl in H. injection H as <-. simpl.
  apply simdWhile_cursor in E; [exact E|exact HW|exact Hidx|exact Hn].
Qed.

(** Whenever a block processor returns, on either path, from a cursor
    inside the loop, it leaves the cursor [numSamples] further round the
    loop: at [(delayIndex + numSamples) mod delaySamples]. *)
Theorem cursor_advances_round_the_loop (simdWidth : Z) (fuel : nat)
  (e : SharcDelayLine) (p : io) (numSamples : Z) (m : memory) (o : outcome) :
  0 < simdWidth -> prepared e = true ->
  0 <= delayIndex e < delaySamples e -> 0 <= numSamples ->
  processBlockScalar e p numSamples m = Ok o
  \/ processBlockSIMD simdWidth fuel e p numSamples m = Ok o ->
  delayIndex (engine o) = (delayIndex e + numSamples) mod delaySamples e.
Proof.
  intros HW Hprep Hidx Hn [H|H].
  - now apply (scalar_block_cursor e p numSamples m o).
  - now apply (simd_block_cursor simdWidth fuel e p numSamples m o).
Qed.

Lemma cursor_advances_round_the_loop_witness :
  exists o,
    processBlockScalar engine8_at3 inPlace 8 ones8 = Ok o
    /\ delayIndex (engine o)
       = (delayIndex engine8_at3 + 8) mod delaySamples engine8_at3.
Proof.
  eexists. split; [vm_compute; reflexivity|].
  apply (cursor_advances_round_the_loop 4 8%nat engine8_at3 inPlace 8
           ones8).
  - lia.
  - reflexivity.
  - vm_compute. intuition discriminate.
  - lia.
  - left. vm_compute. reflexivity.
Defined.

(** ** Runs of host calls *)

Lemma in_range_delay (x : Q) :
  in_range "delay" x -> (1 # 1000 <= x /\ x <= 5)%Q.
Proof. intros H. exact H. Qed.

Lemma static_cast_int_Some (x : Q) :
  Cxx.INT_MIN <= Cxx.Qtrunc x <= Cxx.INT_MAX ->
  Cxx.static_cast_int x = Some (Cxx.Qtrunc x).
Proof.
  intros [H1 H2]. unfold Cxx.static_cast_int.
  destruct (Z.leb_spec Cxx.INT_MIN (Cxx.Qtrunc x)); [|lia].
  destruct (Z.leb_spec (Cxx.Qtrunc x) Cxx.INT_MAX); [reflexivity|lia].
Qed.

Lemma Qtrunc_mono (x y : Q) :
  (0 <= x)%Q -> (x <= y)%Q -> Cxx.Qtrunc x <= Cxx.Qtrunc y.
Proof.
  intros H0 H. rewrite !Qtrunc_floor by lra. now apply Qfloor_resp_le.
Qed.

Lemma Qtrunc_nonneg (x : Q) : (0 <= x)%Q -> 0 <= Cxx.Qtrunc x.
Proof.
  intros H. rewrite Qtrunc_floor by exact H. exact (Qfloor_resp_le 0 x H).
Qed.

Lemma Qtrunc_zero_mult (x : Q) : Cxx.Qtrunc (0 * x) = 0.
Proof. destruct x. reflexivity. Qed.

Lemma jlimit_int_mono (hi a b : Z) :
  1 <= hi -> a <= b -> Juce.jlimit_int 1 hi a <= Juce.jlimit_int 1 hi b.
Proof.
  intros H Hab. unfold Juce.jlimit_int.
  destruct (Z.ltb_spec a 1), (Z.ltb_spec b 1); try lia;
    destruct (Z.ltb_spec hi a); destruct (Z.ltb_spec hi b); lia.
Qed.

Lemma loopLength_range (e : SharcDelayLine) (a : Q) :
  1 <= maxDelaySamples e -> 1 <= loopLength e a <= maxDelaySamples e.
Proof. intros H. now apply jlimit_int_range. Qed.

Lemma loopLength_mono (e : SharcDelayLine) (a b : Q) :
  (0 <= sRate e)%Q -> 1 <= maxDelaySamples e ->
  (0 <= a)%Q -> (a <= b)%Q -> loopLength e a <= loopLength e b.
Proof.
  intros Hs Hm Ha Hab. unfold loopLength.
  apply jlimit_int_mono; [exact Hm|].
  apply Qtrunc_mono.
  - now apply Qmult_le_0_compat.
  - now apply Qmult_le_compat_r.
Qed.

Lemma longest_cases (a b : Q) :
  ((a <= b)%Q /\ longest a b = b) \/ ((b <= a)%Q /\ longest a b = a).
Proof.
  unfold longest. destruct (Qle_bool a b) eqn:E.
  - left. split; [now apply Qle_bool_iff|reflexivity].
  - right. split; [|reflexivity].
    destruct (Qlt_le_dec b a) as [H|H]; [lra|].
    apply Qle_bool_iff in H. congruence.
Qed.

Lemma stereo_valid (buffer : memory) :
  stereo buffer ->
  0 <= getNumSamples buffer
  /\ valid_io buffer inPlace (getNumSamples buffer).
Proof.
  intros (l & r & -> & Hlen). unfold getNumSamples. simpl.
  split; [lia|].
  unfold valid_io, fits_io, fits. simpl.
  repeat split; try lia; eexists; (split; [reflexivity|]); lia.
Qed.

Lemma setDelaySeconds_Some (seconds : Q) (e : SharcDelayLine) :
  Cxx.INT_MIN <= Cxx.Qtrunc (seconds * sRate e) <= Cxx.INT_MAX ->
  setDelaySeconds seconds e
  = Some {| delayLineLeft := delayLineLeft e;
            delayLineRight := delayLineRight e;
            maxDelaySamples := maxDelaySamples e;
            delaySamples := loopLength e seconds;
            delayIndex := delayIndex e;
            feedback := feedback e; wetMix := wetMix e; dryMix := dryMix e;
            sRate := sRate e; prepared := prepared e |}.
Proof.
  intros H. unfold setDelaySeconds. now rewrite static_cast_int_Some.
Qed.

(** A delay inside its declared range converts on an engine of a run. *)
Lemma hosted_delay_converts (lo : Q) (e : SharcDelayLine) (d : Q) :
  hosted lo e -> (0 <= d)%Q -> (d <= 5)%Q ->
  Cxx.INT_MIN <= Cxx.Qtrunc (d * sRate e) <= Cxx.INT_MAX.
Proof.
  intros (_ & Hs & Hcap & Hm & _) H0 H5.
  assert (0 <= Cxx.Qtrunc (d * sRate e)).
  { apply Qtrunc_nonneg. now apply Qmult_le_0_compat. }
  assert (Cxx.Qtrunc (d * sRate e) <= Cxx.Qtrunc (sRate e * 5)).
  { apply Qtrunc_mono; [now apply Qmult_le_0_compat|].
    rewrite (Qmult_comm (sRate e) 5). now apply Qmult_le_compat_r. }
  unfold Cxx.INT_MIN, Cxx.INT_MAX in *. lia.
Qed.

Lemma simd_block_total (simdWidth : Z) (fuel : nat) (e : SharcDelayLine)
  (p : io) (n : Z) (m : memory) :
  0 < simdWidth -> simd_entry e ->
  aligned_block simdWidth (delaySamples e) (delayIndex e) p n ->
  0 <= n -> valid_io m p n ->
  (Z.to_nat n <= fuel)%nat ->
  exists o,
    processBlockSIMD simdWidth fuel e p n m = Ok o
    /\ map length (arrays o) = map length m
    /\ 0 <= delayIndex (engine o) < delaySamples e.
Proof.
  intros HW (Hprep & Hidx & Hmax & HlenL & HlenR) Hal Hn Hp Hfuel.
  unfold processBlockSIMD. rewrite Hprep. simpl negb. cbv iota.
  assert (Hwf : wf (Z.to_nat (maxDelaySamples e)) (map length m) (enter e m)).
  { split; [exact HlenL|split; [exact HlenR|reflexivity]]. }
  destruct (okay_simdWhile (Z.to_nat (maxDelaySamples e)) (map length m)
              (delaySamples e) (feedback e) (wetMix e) (dryMix e) simdWidth
              ltac:(lia) HW fuel p n (delayIndex e)
              Hal Hidx Hn Hp Hfuel (enter e m) Hwf)
    as (r & s' & evs & Erun & _ & (_ & _ & Hshape) & Hr & _).
  rewrite Erun. simpl. eexists; split; [reflexivity|]. simpl. auto.
Qed.

Lemma prepareToPlay_hosted (sampleRate : Q) (e : SharcDelayLine) :
  admissible (PrepareToPlay sampleRate) ->
  exists d, prepareToPlay sampleRate e = Some d /\ hosted 0 d.
Proof.
  intros [Hsr Hfit].
  assert (H5 : 5 <= Cxx.Qtrunc (sampleRate * 5)).
  { change 5 with (Cxx.Qtrunc 5) at 1. apply Qtrunc_mono; lra. }
  unfold prepareToPlay, prepare.
  rewrite static_cast_int_Some by (unfold Cxx.INT_MIN; lia).
  destruct (Z.ltb_spec (Cxx.Qtrunc (sampleRate * 5)) 0); [lia|].
  eexists. split; [reflexivity|].
  unfold hosted, loopLength. simpl.
  split; [lra|]. split; [lra|]. split; [reflexivity|]. split; [lia|].
  intros _. rewrite !fill_repeat, !repeat_length, !resize_length.
  split; [reflexivity|]. split; [reflexivity|].
  rewrite Qtrunc_zero_mult. unfold Juce.jlimit_int. simpl. lia.
Qed.

(** One callback on an engine of a run. *)
Lemma processBlock_hosted (simdWidth : Z) (fuel : nat) (lo : Q)
  (par : parameters) (e : SharcDelayLine) (buffer : memory) :
  hosted lo e ->
  admissible (ProcessBlock par buffer) ->
  par_bypass par = false ->
  (par_simd par = true ->
     0 < simdWidth /\ (lo <= par_delay par)%Q
     /\ aligned_block simdWidth (loopLength e (par_delay par))
          (delayIndex e) inPlace (getNumSamples buffer)
     /\ (Z.to_nat (getNumSamples buffer) <= fuel)%nat) ->
  exists o,
    processBlock simdWidth fuel par e buffer = Ok o
    /\ map length (arrays o) = map length buffer
    /\ hosted (longest lo (par_delay par)) (engine o)
    /\ sRate (engine o) = sRate e
    /\ (prepared e = false -> delayIndex (engine o) = delayIndex e)
    /\ (prepared e = true -> 0 < simdWidth -> (lo <= par_delay par)%Q ->
        delayIndex (engine o)
        = (delayIndex e + getNumSamples buffer)
          mod loopLength e (par_delay par)).
Proof.
  intros Hh [Hd Hst] Hby Hsimd.
  apply in_range_delay in Hd. destruct Hd as [Hd0 Hd5].
  pose proof (hosted_delay_converts lo e (par_delay par) Hh ltac:(lra) Hd5)
    as Hconv.
  destruct Hh as (Hlo & Hs & Hcap & Hm & Hprep).
  destruct (stereo_valid buffer Hst) as [Hn Hvalid].
  unfold processBlock. rewrite Hby.
  rewrite (setDelaySeconds_Some _ _ Hconv).
  set (d4 := setDryMix _ _).
  assert (Hl0 : (0 <= longest lo (par_delay par))%Q).
  { destruct (longest_cases lo (par_delay par)) as [[_ ->]|[_ ->]]; lra. }
  pose proof (loopLength_range e (par_delay par) ltac:(lia)) as Hlen.
  destruct (prepared e) eqn:Hp.
  2:{ (* not prepared: both processors return at once *)
      exists {| engine := d4; arrays := buffer; events := [] |}.
      split.
      { unfold processBlockSIMD, processBlockScalar.
        replace (negb (prepared d4)) with true
          by (subst d4; simpl; rewrite ?Hp; reflexivity).
        now destruct (par_simd par). }
      split; [reflexivity|].
      split.
      { subst d4. unfold hosted, loopLength. simpl.
        repeat (split; [assumption|]).
        intros H; rewrite ?Hp in H; discriminate H. }
      subst d4. simpl. split; [reflexivity|]. split; [reflexivity|].
      discriminate. }
  destruct (Hprep eq_refl) as (HL & HR & Hidx).
  assert (Hfin : forall o : outcome,
            (processBlockScalar d4 inPlace (getNumSamples buffer) buffer = Ok o
             \/ processBlockSIMD simdWidth fuel d4 inPlace
                  (getNumSamples buffer) buffer = Ok o) ->
            0 <= delayIndex (engine o)
              < loopLength e (longest lo (par_delay par)) ->
            hosted (longest lo (par_delay par)) (engine o)).
  { intros o Ho Hj.
    destruct (block_keeps_parameters simdWidth fuel d4 inPlace _ _ o Ho)
      as (Emax & _ & _ & _ & _ & Esr & Epr).
    assert (Hws : well_sized d4).
    { intros _. subst d4. simpl. auto. }
    pose proof (block_keeps_size simdWidth fuel d4 inPlace _ _ o Hws Ho)
      as Hsz.
    subst d4. simpl in Emax, Esr, Epr.
    unfold hosted, loopLength. rewrite Emax, Esr.
    split; [exact Hl0|]. split; [exact Hs|]. split; [exact Hcap|].
    split; [exact Hm|]. intros Hpo.
    destruct (Hsz Hpo) as [HL' HR']. rewrite Emax in HL', HR'.
    split; [exact HL'|]. split; [exact HR'|]. exact Hj. }
  destruct (par_simd par) eqn:Hsw.
  - (* the SIMD path: the cursor is inside the new loop *)
    destruct (Hsimd eq_refl) as (HW & Hlod & Hal & Hfuel).
    pose proof (loopLength_mono e lo (par_delay par) Hs ltac:(lia) Hlo Hlod)
      as Hmono.
    assert (Hentry : simd_entry d4).
    { subst d4. unfold simd_entry. simpl.
      split; [first [reflexivity|exact Hp]|].
      split; [lia|]. split; [lia|]. auto. }
    destruct (simd_block_total simdWidth fuel d4 inPlace _ buffer HW Hentry
                ltac:(subst d4; exact Hal) Hn Hvalid Hfuel)
      as (o & Eo & Hshape & Hj).
    exists o. split; [exact Eo|]. split; [exact Hshape|].
    split.
    { apply Hfin; [right; exact Eo|].
      destruct (longest_cases lo (par_delay par)) as [[_ ->]|[Hle ->]].
      + subst d4. simpl in Hj. exact Hj.
      + subst d4. simpl in Hj.
        pose proof (loopLength_mono e (par_delay par) lo Hs ltac:(lia)
                      ltac:(lra) Hle). lia. }
    split.
    { destruct (block_keeps_parameters simdWidth fuel d4 inPlace _ _ o
                  (or_intror Eo)) as (_ & _ & _ & _ & _ & Esr & _).
      subst d4. exact Esr. }
    split; [discriminate|]. intros _ _ _.
    apply (simd_block_cursor simdWidth fuel d4 inPlace _ buffer o HW
             ltac:(subst d4; simpl; first [reflexivity|exact Hp])
             ltac:(subst d4; simpl; lia) Hn Eo).
  - (* the scalar path: the cursor is inside the delay lines *)
    pose proof (loopLength_range e lo ltac:(lia)) as Hlolen.
    destruct (scalar_block_total d4 inPlace (getNumSamples buffer) buffer)
      as (o & Eo & _ & _ & _ & Hshape & Hj & Hz & Hin);
      try (subst d4; simpl; first [assumption|lia]).
    exists o. split; [exact Eo|]. split; [exact Hshape|].
    split.
    { apply Hfin; [left; exact Eo|].
      subst d4. simpl in Hj, Hz, Hin.
      destruct (longest_cases lo (par_delay par)) as [[Hle ->]|[Hle ->]].
      + pose proof (loopLength_mono e lo (par_delay par) Hs ltac:(lia) Hlo
                      Hle).
        specialize (Hin ltac:(right; lia)). lia.
      + pose proof (loopLength_mono e (par_delay par) lo Hs ltac:(lia)
                      ltac:(lra) Hle).
        destruct (Z.eq_dec (getNumSamples buffer) 0) as [E0|E0].
        * rewrite (Hz E0). lia.
        * specialize (Hin ltac:(left; lia)). lia. }
    split.
    { destruct (block_keeps_parameters simdWidth fuel d4 inPlace _ _ o
                  (or_introl Eo)) as (_ & _ & _ & _ & _ & Esr & _).
      subst d4. exact Esr. }
    split; [discriminate|]. intros _ _ Hlod.
    pose proof (loopLength_mono e lo (par_delay par) Hs ltac:(lia) Hlo Hlod)
      as Hmono.
    apply (scalar_block_cursor d4 inPlace _ buffer o
             ltac:(subst d4; simpl; first [reflexivity|exact Hp])
             ltac:(subst d4; simpl; lia) Hn Eo).
Qed.

Lemma host_hosted (simdWidth : Z) (fuel : nat) (calls : list hostCall) :
  forall (lo : Q) (e : SharcDelayLine),
    Forall simd_off calls ->
    hosted lo e ->
    Forall admissible calls ->
    exists d outs,
      host simdWidth fuel calls e = Ok (d, outs)
      /\ map (map length) outs = map (map length) (buffersOf calls).
Proof.
  induction calls as [|call calls IH]; intros lo e Hoff Hh Hadm.
  - exists e, []. split; reflexivity.
  - pose proof (Forall_inv Hoff) as Hsw.
    pose proof (Forall_inv_tail Hoff) as Hoff'.
    pose proof (Forall_inv Hadm) as Hcall.
    pose proof (Forall_inv_tail Hadm) as Hrest.
    destruct call as [sr|par buffer]; cbn [host].
    + destruct (prepareToPlay_hosted sr e Hcall) as (d & -> & Hd).
      destruct (IH 0%Q d Hoff' Hd Hrest) as (d' & outs & -> & Hshape).
      exists d', outs. split; [reflexivity|exact Hshape].
    + destruct (par_bypass par) eqn:Hby.
      * unfold processBlock. rewrite Hby.
        destruct (IH lo e Hoff' Hh Hrest) as (d' & outs & E & Hshape).
        cbn [engine arrays]. rewrite E.
        exists d', (buffer :: outs). split; [reflexivity|].
        cbn [buffersOf flat_map app map]. f_equal. exact Hshape.
      * destruct (processBlock_hosted simdWidth fuel lo par e buffer Hh Hcall
                    Hby) as (o & -> & Ho & Hh' & _).
        { intros Hon. simpl in Hsw. congruence. }
        destruct (IH _ (engine o) Hoff' Hh' Hrest)
          as (d' & outs & -> & Hshape).
        exists d', (arrays o :: outs). split; [reflexivity|].
        cbn [buffersOf flat_map app map]. f_equal; [exact Ho|exact Hshape].
Qed.

Lemma hosted_default : hosted 0 defaultDelayLine.
Proof.
  unfold hosted. simpl.
  split; [lra|]. split; [lra|]. split; [reflexivity|].
  split; [unfold Cxx.INT_MAX; lia|discriminate].
Qed.

(** With the SIMD switch off, no run of host calls on a newly
    constructed processor faults: whatever the order of the
    [prepareToPlay] calls (sample rate of at least 1 Hz whose five seconds
    fit an [int]) and of the [processBlock] calls (delay parameter inside
    its declared range, any feedback, wet and dry values, bypassed or not,
    stereo buffers of any length), every call returns and every buffer
    comes back with the lengths it had. *)
Theorem scalar_host_run_never_faults (simdWidth : Z) (fuel : nat)
  (calls : list hostCall) :
  Forall admissible calls -> Forall simd_off calls ->
  exists d outs,
    host simdWidth fuel calls defaultDelayLine = Ok (d, outs)
    /\ map (map length) outs = map (map length) (buffersOf calls).
Proof.
  intros Hadm Hoff.
  apply (host_hosted simdWidth fuel calls 0%Q defaultDelayLine).
  - exact Hoff.
  - exact hosted_default.
  - exact Hadm.
Qed.

Lemma scalar_host_run_never_faults_witness :
  exists d outs,
    host 4 0 run_scalar defaultDelayLine = Ok (d, outs)
    /\ map (map length) outs = map (map length) (buffersOf run_scalar).
Proof.
  apply (scalar_host_run_never_faults 4 0 run_scalar).
  - repeat constructor; try (vm_compute; intuition discriminate);
      eexists _, _; split; reflexivity.
  - repeat constructor.
Defined.

(** *** Runs with the SIMD switch on *)

Lemma prepareToPlay_fields (sampleRate : Q) (e d : SharcDelayLine) :
  prepareToPlay sampleRate e = Some d ->
  sRate d = sampleRate /\ delayIndex d = 0.
Proof.
  unfold prepareToPlay, prepare. intros H.
  destruct (Cxx.static_cast_int _) as [k|]; [|discriminate H].
  destruct (k <? 0); [discriminate H|].
  injection H as <-. split; reflexivity.
Qed.

Lemma longest_le (a b : Q) : (a <= b)%Q -> longest a b = b.
Proof.
  intros H. unfold longest. apply Qle_bool_iff in H. now rewrite H.
Qed.

Lemma inPlace_aligned (simdWidth : Z) : io_aligned simdWidth inPlace.
Proof. unfold io_aligned, inPlace. simpl. now rewrite Zmod_0_l. Qed.

Lemma mod_round_the_loop (w len idx n : Z) :
  0 < w -> 0 < len ->
  idx mod w = 0 -> n mod w = 0 -> len mod w = 0 ->
  ((idx + n) mod len) mod w = 0.
Proof.
  intros Hw Hlen Hi Hn Hl.
  rewrite (Z.mod_eq (idx + n) len) by lia.
  apply Z.mod_divide; [lia|].
  apply Z.mod_divide in Hi, Hn, Hl; try lia.
  apply Z.divide_sub_r; [now apply Z.divide_add_r|].
  now apply Z.divide_mul_l.
Qed.

Lemma host_aligned (simdWidth : Z) (fuel : nat) (calls : list hostCall) :
  0 < simdWidth ->
  forall (lo : Q) (e : SharcDelayLine),
    hosted lo e -> delayIndex e mod simdWidth = 0 ->
    Forall admissible calls ->
    simd_guarded simdWidth fuel (sRate e) lo calls ->
    exists d outs,
      host simdWidth fuel calls e = Ok (d, outs)
      /\ map (map length) outs = map (map length) (buffersOf calls).
Proof.
  intros HW.
  induction calls as [|call calls IH]; intros lo e Hh Hal Hadm Hg.
  - exists e, []. split; reflexivity.
  - pose proof (Forall_inv Hadm) as Hcall.
    pose proof (Forall_inv_tail Hadm) as Hrest.
    destruct call as [sr|par buffer]; cbn [host simd_guarded] in Hg |- *.
    + destruct (prepareToPlay_hosted sr e Hcall) as (d & E & Hd).
      rewrite E. destruct (prepareToPlay_fields sr e d E) as [Esr Eidx].
      destruct (IH 0%Q d Hd) as (d' & outs & -> & Hshape).
      { rewrite Eidx. apply Zmod_0_l. }
      { exact Hrest. }
      { rewrite Esr. exact Hg. }
      exists d', outs. split; [reflexivity|exact Hshape].
    + destruct (par_bypass par) eqn:Hby.
      * unfold processBlock. rewrite Hby.
        destruct (IH lo e Hh Hal Hrest Hg) as (d' & outs & E & Hshape).
        cbn [engine arrays]. rewrite E.
        exists d', (buffer :: outs). split; [reflexivity|].
        cbn [buffersOf flat_map app map]. f_equal. exact Hshape.
      * destruct Hg as (Hlod & Hn & Hlen & Hfuel & Hg).
        assert (Eloop : loopLength e (par_delay par) mod simdWidth = 0).
        { destruct Hh as (_ & _ & Hcap & _). unfold loopLength.
          rewrite Hcap. exact Hlen. }
        destruct (processBlock_hosted simdWidth fuel lo par e buffer Hh Hcall
                    Hby)
          as (o & -> & Ho & Hh' & Esr & Eun & Ecur).
        { intros Hon. split; [exact HW|]. split; [exact Hlod|].
          split; [|exact (Hfuel Hon)].
          right. split; [exact Hal|]. split; [exact Eloop|].
          apply inPlace_aligned. }
        rewrite (longest_le _ _ Hlod) in Hh'.
        destruct (IH _ (engine o) Hh') as (d' & outs & -> & Hshape).
        { destruct (prepared e) eqn:Hp.
          - rewrite (Ecur eq_refl HW Hlod).
            destruct Hh as (_ & _ & _ & Hm & _).
            pose proof (loopLength_range e (par_delay par) ltac:(lia)).
            apply mod_round_the_loop; auto; lia.
          - now rewrite (Eun eq_refl). }
        { exact Hrest. }
        { rewrite Esr. exact Hg. }
        exists d', (arrays o :: outs). split; [reflexivity|].
        cbn [buffersOf flat_map app map]. f_equal; [exact Ho|exact Hshape].
Qed.

(** With the SIMD switch in any position, a run of host calls on a newly
    constructed processor does not fault as long as every callback that
    is not bypassed comes with a delay no shorter than the delay of an
    earlier callback since the last [prepareToPlay], with a buffer whose
    length is a multiple of the vector width, and with a delay whose
    length in samples at the current sample rate is a multiple of the
    vector width: every call returns (the SIMD loop within as many
    iterations as the buffer has samples) and every buffer comes back
    with the lengths it had.  The conditions are needed.  [run_shrink]
    shortens the delay between two callbacks on the SIMD path, and its
    last callback reads past the end of its one-sample buffer.  [run_odd]
    never shortens the delay; its first callback, of three samples, leaves
    the cursor at 3, and its second, of four samples, loads a register
    from [bufferLeft + 3]. *)
Theorem host_run_never_faults :
  (forall (simdWidth : Z) (fuel : nat) (calls : list hostCall),
      0 < simdWidth ->
      Forall admissible calls ->
      simd_guarded simdWidth fuel (sRate defaultDelayLine) 0 calls ->
      exists d outs,
        host simdWidth fuel calls defaultDelayLine = Ok (d, outs)
        /\ map (map length) outs = map (map length) (buffersOf calls))
  /\ (Forall admissible run_shrink
      /\ forall fuel,
           host 4 (S (S (S fuel))) run_shrink defaultDelayLine = Undefined)
  /\ (Forall admissible run_odd
      /\ forall fuel,
           host 4 (S (S (S fuel))) run_odd defaultDelayLine = Undefined).
Proof.
  split.
  - intros simdWidth fuel calls HW Hadm Hg.
    apply (host_aligned simdWidth fuel calls HW 0%Q defaultDelayLine).
    + exact hosted_default.
    + simpl. apply Zmod_0_l.
    + exact Hadm.
    + exact Hg.
  - split; split.
    + repeat constructor; try (vm_compute; intuition discriminate);
        eexists _, _; split; reflexivity.
    + intros fuel. vm_compute. reflexivity.
    + repeat constructor; try (vm_compute; intuition discriminate);
        eexists _, _; split; reflexivity.
    + intros fuel. vm_compute. reflexivity.
Qed.

Lemma host_run_never_faults_witness :
  exists d outs,
    host 4 12 run_simd defaultDelayLine = Ok (d, outs)
    /\ map (map length) outs = map (map length) (buffersOf run_simd).
Proof.
  apply (proj1 host_run_never_faults 4 12%nat run_simd).
  - lia.
  - repeat constructor; try (vm_compute; intuition discriminate);
      eexists _, _; split; reflexivity.
  - vm_compute. intuition (try discriminate; try lia).
Defined.

(** ** The SIMD path entered with the cursor beyond the loop *)

Lemma quot_rem_nonpos (x w : Z) :
  x <= 0 -> 0 < w ->
  Z.quot x w <= 0 /\ Z.rem x w <= 0 /\ x <= Z.quot x w * w.
Proof.
  intros Hx Hw.
  pose proof (Z.quot_rem' x w) as Hqr.
  assert (Hr : Z.rem x w <= 0).
  { replace x with (- (- x)) by lia. rewrite Z.rem_opp_l by lia.
    pose proof (Z.rem_bound_pos (- x) w ltac:(lia) Hw). lia. }
  assert (Hq : Z.quot x w <= 0).
  { replace x with (- (- x)) by lia. rewrite Z.quot_opp_l by lia.
    pose proof (Z.quot_pos (- x) w ltac:(lia) Hw). lia. }
  split; [exact Hq|]. split; [exact Hr|]. lia.
Qed.

(** The first turn of the outer loop when the cursor is at or beyond the
    loop length: no sample is processed, the count of samples to go grows
    by the distance, and the cursor wraps. *)
Lemma simdWhile_stale (len : Z) (fb wet dry : Q) (simdWidth : Z)
  (fuel : nat) (p : io) (rem idx : Z) (s : machine) :
  0 < simdWidth -> len <= idx -> 1 <= rem ->
  simdWhile len fb wet dry simdWidth (S fuel) p rem idx s
  = simdWhile len fb wet dry simdWidth fuel p (rem + (idx - len)) 0
      (note (EvSegment (len - idx)) s).
Proof.
  intros HW Hidx Hrem. cbn [simdWhile].
  destruct (Z.gtb_spec rem 0) as [_|]; [|lia].
  assert (Hste : Juce.jmin_int rem (len - idx) = len - idx).
  { unfold Juce.jmin_int. destruct (Z.ltb_spec (len - idx) rem); lia. }
  cbv zeta. rewrite Hste.
  destruct (quot_rem_nonpos (len - idx) simdWidth ltac:(lia) HW)
    as (Hq & Hr & Hqw).
  replace (Z.to_nat (Z.quot (len - idx) simdWidth)) with 0%nat by lia.
  replace (Z.to_nat (Z.rem (len - idx) simdWidth)) with 0%nat by lia.
  unfold bind, noteSegment. cbn [simdLoop tailLoop ret fst snd].
  destruct (Z.geb_spec (idx + Z.quot (len - idx) simdWidth * simdWidth) len);
    [|lia].
  f_equal. lia.
Qed.

Lemma stale_cursor_block (simdWidth : Z) (fuel : nat) (e : SharcDelayLine)
  (p : io) (n : Z) (m : memory) :
  0 < simdWidth -> prepared e = true ->
  length (delayLineLeft e) = Z.to_nat (maxDelaySamples e) ->
  length (delayLineRight e) = Z.to_nat (maxDelaySamples e) ->
  1 <= delaySamples e <= maxDelaySamples e ->
  delaySamples e <= delayIndex e ->
  1 <= n ->
  n + (delayIndex e - delaySamples e) < simdWidth
  \/ (delaySamples e mod simdWidth = 0 /\ io_aligned simdWidth p) ->
  valid_io m p (n + (delayIndex e - delaySamples e)) ->
  (Z.to_nat (n + (delayIndex e - delaySamples e)) < fuel)%nat ->
  exists o rest,
    processBlockSIMD simdWidth fuel e p n m = Ok o
    /\ segmentsOf (events o) = (delaySamples e - delayIndex e) :: rest
    /\ Forall (fun k => 0 < k) rest
    /\ outputsOf ChLeft (events o)
       = map (ptr_add (outputLeft p))
           (zrange 0 (Z.to_nat (n + (delayIndex e - delaySamples e))))
    /\ outputsOf ChRight (events o)
       = map (ptr_add (outputRight p))
           (zrange 0 (Z.to_nat (n + (delayIndex e - delaySamples e))))
    /\ 0 <= delayIndex (engine o) < delaySamples e.
Proof.
  intros HW Hprep HlenL HlenR Hlen Hidx Hn Hal Hp Hfuel.
  assert (Hal0 : aligned_block simdWidth (delaySamples e) 0 p
                   (n + (delayIndex e - delaySamples e))).
  { destruct Hal as [Hshort|[Hl Hpa]]; [left; exact Hshort|right].
    split; [apply Zmod_0_l|]. split; assumption. }
  unfold processBlockSIMD. rewrite Hprep. simpl negb. cbv iota.
  destruct fuel as [|fuel]; [lia|].
  rewrite simdWhile_stale by assumption.
  set (s0 := note _ (enter e m)).
  assert (Hwf : wf (Z.to_nat (maxDelaySamples e)) (map length m) s0).
  { split; [exact HlenL|split; [exact HlenR|reflexivity]]. }
  destruct (okay_simdWhile (Z.to_nat (maxDelaySamples e)) (map length m)
              (delaySamples e) (feedback e) (wetMix e) (dryMix e) simdWidth
              ltac:(lia) HW fuel p (n + (delayIndex e - delaySamples e)) 0
              Hal0 ltac:(lia) ltac:(lia) Hp ltac:(lia) s0 Hwf)
    as (r & s' & evs & Erun & Etrace & _ & Hr & Hall & HoL & HoR).
  rewrite Erun. simpl.
  exists {| engine :=
              {| delayLineLeft := bufferLeft s';
                 delayLineRight := bufferRight s';
                 maxDelaySamples := maxDelaySamples e;
                 delaySamples := delaySamples e;
                 delayIndex := r;
                 feedback := feedback e; wetMix := wetMix e;
                 dryMix := dryMix e;
                 sRate := sRate e; prepared := prepared e |};
            arrays := audio s'; events := trace s' |}, (segmentsOf evs).
  split; [reflexivity|]. cbn [events engine delayIndex].
  rewrite Etrace. subst s0. cbn [note trace enter app].
  split; [reflexivity|].
  split; [eapply Forall_segmentsOf; exact Hall|].
  split; [exact HoL|]. split; [exact HoR|exact Hr].
Qed.

(** When [processBlockSIMD] is entered with the cursor at or beyond the
    loop length ([delaySamples <= delayIndex], as a shortened delay leaves
    it), on a prepared engine obtained by any sequence of calls, with a
    block of at least one sample: its first segment has
    [samplesToEdge = delaySamples - delayIndex <= 0], every later one is
    positive, and it stores through each output pointer at the offsets
    [0 .. numSamples + (delayIndex - delaySamples) - 1]: as many samples
    beyond the block as the cursor was beyond the loop.  It returns when
    the caller's arrays happen to have that many elements and no
    register access is misaligned: that many samples are fewer than a
    register holds, or the vector width divides the loop length and the
    offsets of the four pointers. *)
Theorem simd_block_overruns_by_the_stale_distance (simdWidth : Z)
  (fuel : nat) (e : SharcDelayLine) (p : io) (numSamples : Z) (m : memory) :
  0 < simdWidth -> reachable e -> prepared e = true ->
  1 <= delaySamples e <= maxDelaySamples e ->
  delaySamples e <= delayIndex e ->
  1 <= numSamples ->
  numSamples + (delayIndex e - delaySamples e) < simdWidth
  \/ (delaySamples e mod simdWidth = 0 /\ io_aligned simdWidth p) ->
  valid_io m p (numSamples + (delayIndex e - delaySamples e)) ->
  (Z.to_nat (numSamples + (delayIndex e - delaySamples e)) < fuel)%nat ->
  exists o rest,
    processBlockSIMD simdWidth fuel e p numSamples m = Ok o
    /\ segmentsOf (events o) = (delaySamples e - delayIndex e) :: rest
    /\ Forall (fun k => 0 < k) rest
    /\ outputsOf ChLeft (events o)
       = map (ptr_add (outputLeft p))
           (zrange 0
              (Z.to_nat (numSamples + (delayIndex e - delaySamples e))))
    /\ outputsOf ChRight (events o)
       = map (ptr_add (outputRight p))
           (zrange 0
              (Z.to_nat (numSamples + (delayIndex e - delaySamples e))))
    /\ 0 <= delayIndex (engine o) < delaySamples e.
Proof.
  intros HW Hr Hprep Hlen Hidx Hn Hal Hp Hfuel.
  destruct (reachable_well_sized e Hr Hprep) as [HL HR].
  now apply stale_cursor_block.
Qed.

Lemma simd_block_overruns_by_the_stale_distance_witness :
  exists o rest,
    processBlockSIMD 4 3 engine8_shrunk apart 1 silence4 = Ok o
    /\ segmentsOf (events o)
       = (delaySamples engine8_shrunk - delayIndex engine8_shrunk) :: rest
    /\ Forall (fun k => 0 < k) rest
    /\ outputsOf ChLeft (events o)
       = map (ptr_add (outputLeft apart))
           (zrange 0
              (Z.to_nat (1 + (delayIndex engine8_shrunk
                              - delaySamples engine8_shrunk))))
    /\ outputsOf ChRight (events o)
       = map (ptr_add (outputRight apart))
           (zrange 0
              (Z.to_nat (1 + (delayIndex engine8_shrunk
                              - delaySamples engine8_shrunk))))
    /\ 0 <= delayIndex (engine o) < delaySamples engine8_shrunk.
Proof.
  apply (simd_block_overruns_by_the_stale_distance 4 3 engine8_shrunk apart
           1 silence4).
  - lia.
  - exact reachable_engine8_shrunk.
  - reflexivity.
  - vm_compute. intuition discriminate.
  - vm_compute. discriminate.
  - lia.
  - left. vm_compute. reflexivity.
  - unfold valid_io, fits_io, fits. simpl.
    repeat split; try lia; eexists; (split; [reflexivity|]); simpl; lia.
  - simpl. lia.
Defined.

(** ** The SIMD path entered with the cursor off a register boundary *)

Lemma simdChunk_misaligned (fb wet dry : Q) (simdWidth : Z) (p : io)
  (offset : Z) (s : machine) :
  offset mod simdWidth <> 0 ->
  simdChunk fb wet dry simdWidth p offset s = Undefined.
Proof.
  intros H. unfold simdChunk, fromRawDelay, isSIMDAligned. cbv zeta.
  unfold bind at 1.
  destruct (Z.eqb_spec (offset mod simdWidth) 0) as [E|_];
    [contradiction|reflexivity].
Qed.

Lemma simdWhile_misaligned (len : Z) (fb wet dry : Q) (simdWidth : Z)
  (fuel : nat) (p : io) (rem idx : Z) (s : machine) :
  0 < simdWidth -> simdWidth <= rem -> simdWidth <= len - idx ->
  idx mod simdWidth <> 0 ->
  simdWhile len fb wet dry simdWidth (S fuel) p rem idx s = Undefined.
Proof.
  intros HW Hrem Hroom Hoff. cbn [simdWhile].
  destruct (Z.gtb_spec rem 0) as [_|]; [|lia].
  cbv zeta. set (ste := Juce.jmin_int rem (len - idx)).
  assert (Hste : simdWidth <= ste).
  { unfold ste, Juce.jmin_int. destruct (Z.ltb_spec (len - idx) rem); lia. }
  assert (Hq : 1 <= Z.quot ste simdWidth)
    by (apply Z.quot_le_lower_bound; lia).
  destruct (Z.to_nat (Z.quot ste simdWidth)) as [|q] eqn:Eq; [lia|].
  unfold bind at 1. unfold noteSegment.
  unfold bind at 1. cbn [simdLoop]. unfold bind at 1.
  rewrite simdChunk_misaligned; [reflexivity|].
  now rewrite Z.mul_0_l, Z.add_0_r.
Qed.

(** [processBlockSIMD] hands [bufferLeft + delayIndex] to
    [SIMD::fromRawArray] whenever its first segment holds a register:
    on a prepared engine whose cursor is not a multiple of the vector
    width, a block of at least [simdWidth] samples with at least
    [simdWidth] elements left before the end of the loop makes a
    misaligned register access as its first access, whatever the
    pointers, the arrays and the loop bound (the delay lines starting at
    an aligned address). *)
Theorem simd_block_faults_off_alignment (simdWidth : Z) (fuel : nat)
  (e : SharcDelayLine) (p : io) (numSamples : Z) (m : memory) :
  0 < simdWidth -> prepared e = true ->
  simdWidth <= numSamples ->
  simdWidth <= delaySamples e - delayIndex e ->
  delayIndex e mod simdWidth <> 0 ->
  processBlockSIMD simdWidth (S fuel) e p numSamples m = Undefined.
Proof.
  intros HW Hprep Hn Hroom Hoff.
  unfold processBlockSIMD. rewrite Hprep. simpl negb. cbv iota.
  now rewrite simdWhile_misaligned.
Qed.

Lemma simd_block_faults_off_alignment_witness :
  processBlockSIMD 4 (S 3) engine8_at3 apart 4 silence4 = Undefined.
Proof.
  apply (simd_block_faults_off_alignment 4 3%nat engine8_at3 apart 4
           silence4).
  - lia.
  - reflexivity.
  - lia.
  - vm_compute. discriminate.
  - vm_compute. discriminate.
Defined.

(** ** Predicates the recurrence keeps *)

Section Closed.

Variables (P : Q -> Prop) (fb wet dry : Q).
Hypothesis P_out : forall x d, P x -> P d -> P (x * dry + d * wet)%Q.
Hypothesis P_new :
  forall x d, P x -> P d -> P (Juce.jlimit (-1) 1 (x + fb * d))%Q.
Hypothesis P_lane :
  forall x d, P x -> P d ->
              P (Juce.lane_max (-1) (Juce.lane_min 1 (x + d * fb)))%Q.

Lemma yields_ret {A} (R : A -> Prop) (a : A) :
  R a -> yields (all_samples P) R (ret a).
Proof. intros Ha s b s' H E. inversion E; subst. auto. Qed.

Lemma yields_bind {A B} (R1 : A -> Prop) (R2 : B -> Prop) (c : M A)
  (k : A -> M B) :
  yields (all_samples P) R1 c ->
  (forall a, R1 a -> yields (all_samples P) R2 (k a)) ->
  yields (all_samples P) R2 (bind c k).
Proof.
  intros Hc Hk s b s' H E. unfold bind in E.
  destruct (c s) as [[a s1]| |] eqn:E1; try discriminate.
  destruct (Hc _ _ _ H E1) as [H1 Ha]. exact (Hk a Ha _ _ _ H1 E).
Qed.

Lemma yields_readDelay c i : yields (all_samples P) P (readDelay c i).
Proof.
  intros s x s' (HL & HR & HA) E. unfold readDelay in E.
  destruct (vec_get (line c s) i) as [y|] eqn:Hy; inversion E; subst.
  split; [split; [exact HL|split; [exact HR|exact HA]]|].
  unfold vec_get in Hy. destruct (i <? 0); [discriminate|].
  destruct c; simpl in Hy;
    [eapply Forall_lookup_1; [exact HL|exact Hy]
    |eapply Forall_lookup_1; [exact HR|exact Hy]].
Qed.

Lemma yields_writeDelay c i x :
  P x -> yields (all_samples P) (fun _ => True) (writeDelay c i x).
Proof.
  intros Hx s u s' (HL & HR & HA) E. unfold writeDelay, vec_set in E.
  destruct ((0 <=? i) && (i <? Z.of_nat (length (line c s)))); [|discriminate].
  destruct c; inversion E; subst; (split; [|exact I]);
    (split; [|split]); simpl; auto; now apply Forall_insert.
Qed.

Lemma yields_readAudio p : yields (all_samples P) P (readAudio p).
Proof.
  intros s x s' (HL & HR & HA) E. unfold readAudio in E.
  destruct (load (audio s) p) as [y|] eqn:Hy; inversion E; subst.
  split; [split; [exact HL|split; [exact HR|exact HA]]|].
  unfold load in Hy. destruct (ofs p <? 0); [discriminate|].
  destruct (audio s' !! blk p) as [b|] eqn:Hb; [|discriminate].
  eapply Forall_lookup_1; [|exact Hy].
  eapply Forall_lookup_1; [exact HA|exact Hb].
Qed.

Lemma yields_writeAudio c p x :
  P x -> yields (all_samples P) (fun _ => True) (writeAudio c p x).
Proof.
  intros Hx s u s' (HL & HR & HA) E. unfold writeAudio in E.
  destruct (store (audio s) p x) as [m'|] eqn:Hm; inversion E; subst.
  split; [|exact I]. split; [exact HL|split; [exact HR|]]. simpl.
  apply store_inv in Hm. destruct Hm as (_ & b & Hb & _ & ->).
  apply Forall_insert; [exact HA|].
  apply Forall_insert; [|exact Hx].
  eapply Forall_lookup_1; [exact HA|exact Hb].
Qed.

Lemma yields_noteSegment k :
  yields (all_samples P) (fun _ => True) (noteSegment k).
Proof. intros s u s' H E. inversion E; subst. split; [exact H|exact I]. Qed.

Lemma yields_outOfFuel {A} (R : A -> Prop) :
  yields (all_samples P) R (@outOfFuel A).
Proof. intros s a s' _ E. discriminate. Qed.

Lemma yields_undefined {A} (R : A -> Prop) :
  yields (all_samples P) R (@undefined A).
Proof. intros s a s' _ E. discriminate. Qed.

Lemma yields_mapM {A B} (R : B -> Prop) (f : A -> M B) (l : list A) :
  (forall a, yields (all_samples P) R (f a)) ->
  yields (all_samples P) (Forall R) (mapM f l).
Proof.
  intros Hf. induction l as [|a l IH]; simpl.
  - apply yields_ret. constructor.
  - eapply yields_bind; [apply Hf|]. intros b Hb.
    eapply yields_bind; [exact IH|]. intros bs Hbs.
    apply yields_ret. now constructor.
Qed.

Lemma yields_forM {A} (f : A -> M unit) (l : list A) :
  Forall (fun a => yields (all_samples P) (fun _ => True) (f a)) l ->
  yields (all_samples P) (fun _ => True) (forM f l).
Proof.
  induction 1 as [|a l Ha Hl IH]; simpl.
  - now apply yields_ret.
  - eapply yields_bind; [exact Ha|]. intros _ _. exact IH.
Qed.

Lemma yields_copyToRawDelay w c offset v :
  Forall P v ->
  yields (all_samples P) (fun _ => True) (copyToRawDelay w c offset v).
Proof.
  intros Hv. unfold copyToRawDelay.
  destruct (isSIMDAligned w offset); [|apply yields_undefined].
  apply yields_forM.
  generalize (lanes w) as ks. intros ks. revert ks.
  induction Hv as [|x v Hx Hv IH]; intros [|k ks]; simpl; constructor.
  - now apply yields_writeDelay.
  - apply IH.
Qed.

Lemma yields_copyToRawArray w c p v :
  Forall P v ->
  yields (all_samples P) (fun _ => True) (copyToRawArray w c p v).
Proof.
  intros Hv. unfold copyToRawArray.
  destruct (isSIMDAligned w (ofs p)); [|apply yields_undefined].
  apply yields_forM.
  generalize (lanes w) as ks. intros ks. revert ks.
  induction Hv as [|x v Hx Hv IH]; intros [|k ks]; simpl; constructor.
  - now apply yields_writeAudio.
  - apply IH.
Qed.

Lemma yields_fromRawDelay w c offset :
  yields (all_samples P) (Forall P) (fromRawDelay w c offset).
Proof.
  unfold fromRawDelay.
  destruct (isSIMDAligned w offset); [|apply yields_undefined].
  apply yields_mapM; intros ?; apply yields_readDelay.
Qed.

Lemma yields_fromRawArray w p :
  yields (all_samples P) (Forall P) (fromRawArray w p).
Proof.
  unfold fromRawArray.
  destruct (isSIMDAligned w (ofs p)); [|apply yields_undefined].
  apply yields_mapM; intros ?; apply yields_readAudio.
Qed.

(** The register stored through an output pointer. *)
Lemma mix_register (w : Z) (a b : list Q) :
  Forall P a -> Forall P b ->
  Forall P (vadd (vmul a (splat w dry)) (vmul b (splat w wet))).
Proof.
  unfold vadd, vmul, splat. generalize (Z.to_nat w) as n. intros n.
  revert a b. induction n as [|n IH]; intros a b Ha Hb.
  - destruct a; simpl; constructor.
  - destruct Ha as [|x a Hx Ha]; simpl; [constructor|].
    destruct Hb as [|d b Hd Hb]; simpl; [constructor|].
    constructor; [now apply P_out|now apply IH].
Qed.

(** The register stored into a delay line. *)
Lemma new_register (w : Z) (a b : list Q) :
  Forall P a -> Forall P b ->
  Forall P (vmax (splat w (-1))
              (vmin (splat w 1) (vadd a (vmul b (splat w fb))))).
Proof.
  unfold vmax, vmin, vadd, vmul, splat. generalize (Z.to_nat w) as n.
  intros n. revert a b. induction n as [|n IH]; intros a b Ha Hb.
  - simpl. constructor.
  - destruct Ha as [|x a Hx Ha]; simpl; [constructor|].
    destruct Hb as [|d b Hd Hb]; simpl; [constructor|].
    constructor; [now apply P_lane|now apply IH].
Qed.

Lemma yields_scalarSample p idx :
  yields (all_samples P) (fun _ => True) (scalarSample fb wet dry p idx).
Proof.
  unfold scalarSample.
  eapply yields_bind; [apply yields_readDelay|intros dl Hdl].
  eapply yields_bind; [apply yields_readDelay|intros dr Hdr].
  eapply yields_bind; [apply yields_readAudio|intros xl Hxl].
  eapply yields_bind; [apply yields_writeAudio; now apply P_out|intros _ _].
  eapply yields_bind; [apply yields_readAudio|intros xr Hxr].
  eapply yields_bind; [apply yields_writeAudio; now apply P_out|intros _ _].
  eapply yields_bind; [apply yields_readAudio|intros xl' Hxl'].
  eapply yields_bind; [apply yields_readAudio|intros xr' Hxr'].
  eapply yields_bind; [apply yields_writeDelay; now apply P_new|intros _ _].
  apply yields_writeDelay; now apply P_new.
Qed.

Lemma yields_scalarLoop len n p i idx :
  yields (all_samples P) (fun _ => True)
    (scalarLoop len fb wet dry n p i idx).
Proof.
  revert i idx. induction n as [|n IH]; intros i idx; simpl.
  - now apply yields_ret.
  - eapply yields_bind; [apply yields_scalarSample|intros _ _; apply IH].
Qed.

Lemma yields_simdChunk w p offset :
  yields (all_samples P) (fun _ => True) (simdChunk fb wet dry w p offset).
Proof.
  unfold simdChunk.
  eapply yields_bind; [apply yields_fromRawDelay|intros dl Hdl].
  eapply yields_bind; [apply yields_fromRawDelay|intros dr Hdr].
  eapply yields_bind; [apply yields_fromRawArray|intros xl Hxl].
  eapply yields_bind; [apply yields_fromRawArray|intros xr Hxr].
  eapply yields_bind;
    [apply yields_copyToRawArray; now apply mix_register|intros _ _].
  eapply yields_bind;
    [apply yields_copyToRawArray; now apply mix_register|intros _ _].
  eapply yields_bind;
    [apply yields_copyToRawDelay; now apply new_register|intros _ _].
  apply yields_copyToRawDelay; now apply new_register.
Qed.

Lemma yields_simdLoop w n p chunk idx :
  yields (all_samples P) (fun _ => True)
    (simdLoop fb wet dry w n p chunk idx).
Proof.
  revert p chunk. induction n as [|n IH]; intros p chunk; simpl.
  - now apply yields_ret.
  - eapply yields_bind; [apply yields_simdChunk|intros _ _; apply IH].
Qed.

Lemma yields_tailLoop n p idx :
  yields (all_samples P) (fun _ => True) (tailLoop fb wet dry n p idx).
Proof.
  revert p idx. induction n as [|n IH]; intros p idx; simpl.
  - now apply yields_ret.
  - eapply yields_bind; [apply yields_scalarSample|intros _ _; apply IH].
Qed.

Lemma yields_simdWhile len w fuel p rem idx :
  yields (all_samples P) (fun _ => True)
    (simdWhile len fb wet dry w fuel p rem idx).
Proof.
  revert p rem idx. induction fuel as [|fuel IH]; intros p rem idx; simpl;
    destruct (rem >? 0); try (now apply yields_ret);
    try apply yields_outOfFuel.
  eapply yields_bind; [apply yields_noteSegment|intros _ _].
  eapply yields_bind; [apply yields_simdLoop|intros p1 _].
  eapply yields_bind; [apply yields_tailLoop|intros pi _]. apply IH.
Qed.

End Closed.

(** A predicate closed under the mix and under the clipped recurrence,
    true of every sample before a block, is true of every sample after
    it. *)
Lemma block_keeps_all_samples (P : Q -> Prop) (simdWidth : Z) (fuel : nat)
  (e : SharcDelayLine) (p : io) (n : Z) (m : memory) (o : outcome) :
  (forall x d, P x -> P d -> P (x * dryMix e + d * wetMix e)%Q) ->
  (forall x d, P x -> P d -> P (Juce.jlimit (-1) 1 (x + feedback e * d))%Q) ->
  (forall x d, P x -> P d ->
     P (Juce.lane_max (-1) (Juce.lane_min 1 (x + d * feedback e)))%Q) ->
  Forall P (delayLineLeft e) -> Forall P (delayLineRight e) ->
  Forall (Forall P) m ->
  processBlockScalar e p n m = Ok o
  \/ processBlockSIMD simdWidth fuel e p n m = Ok o ->
  Forall P (delayLineLeft (engine o)) /\ Forall P (delayLineRight (engine o))
  /\ Forall (Forall P) (arrays o).
Proof.
  intros H1 H2 H3 HL HR HA [E|E];
    unfold processBlockScalar, processBlockSIMD in E;
    destruct (prepared e); simpl in E;
    try (inversion E; subst; simpl; tauto).
  - destruct (scalarLoop _ _ _ _ _ _ _ _ _) as [[idx s]| |] eqn:Ec;
      simpl in E; try discriminate.
    inversion E; subst; simpl.
    eapply (yields_scalarLoop P _ _ _ H1 H2) in Ec;
      [destruct Ec as [(A & B & C) _]; auto|].
    split; [exact HL|split; [exact HR|exact HA]].
  - destruct (simdWhile _ _ _ _ _ _ _ _ _ _) as [[idx s]| |] eqn:Ec;
      simpl in E; try discriminate.
    inversion E; subst; simpl.
    eapply (yields_simdWhile P _ _ _ H1 H2 H3) in Ec;
      [destruct Ec as [(A & B & C) _]; auto|].
    split; [exact HL|split; [exact HR|exact HA]].
Qed.

Lemma jlimit_silent (y : Q) : silent y -> silent (Juce.jlimit (-1) 1 y).
Proof.
  unfold silent. intros H. rewrite jlimit_id; [exact H| |]; lra.
Qed.

Lemma lane_clip_silent (y : Q) :
  silent y -> silent (Juce.lane_max (-1) (Juce.lane_min 1 y)).
Proof.
  unfold silent. intros H. rewrite lane_clip_jlimit. now apply jlimit_silent.
Qed.

(** Silence in, silence out.  When every element of both delay lines and
    of every caller array is zero, a call of either block processor that
    returns leaves every element of the delay lines and of the arrays at
    zero: whatever the feedback and the gains, the block length, the
    cursor, the vector width, in place or not. *)
Theorem silence_in_silence_out (simdWidth : Z) (fuel : nat)
  (e : SharcDelayLine) (p : io) (n : Z) (m : memory) (o : outcome) :
  Forall silent (delayLineLeft e) -> Forall silent (delayLineRight e) ->
  Forall (Forall silent) m ->
  processBlockScalar e p n m = Ok o
  \/ processBlockSIMD simdWidth fuel e p n m = Ok o ->
  Forall silent (delayLineLeft (engine o))
  /\ Forall silent (delayLineRight (engine o))
  /\ Forall (Forall silent) (arrays o).
Proof.
  intros HL HR HA Ho.
  apply (block_keeps_all_samples silent simdWidth fuel e p n m o);
    try assumption.
  - unfold silent. intros x d Hx Hd. rewrite Hx, Hd. ring.
  - intros x d Hx Hd. apply jlimit_silent. unfold silent in *.
    rewrite Hx, Hd. ring.
  - intros x d Hx Hd. apply lane_clip_silent. unfold silent in *.
    rewrite Hx, Hd. ring.
Qed.

Lemma silence_in_silence_out_witness :
  exists o,
    processBlockSIMD 2 4 engine8 inPlace 3 silence4 = Ok o
    /\ Forall silent (delayLineLeft (engine o))
    /\ Forall silent (delayLineRight (engine o))
    /\ Forall (Forall silent) (arrays o).
Proof.
  assert (H : exists o, processBlockSIMD 2 4 engine8 inPlace 3 silence4 = Ok o)
    by (eexists; vm_compute; reflexivity).
  destruct H as [o Ho]. exists o. split; [exact Ho|].
  apply (silence_in_silence_out 2 4 engine8 inPlace 3 silence4 o).
  - repeat (apply List.Forall_cons; [unfold silent; reflexivity|]).
    apply List.Forall_nil.
  - repeat (apply List.Forall_cons; [unfold silent; reflexivity|]).
    apply List.Forall_nil.
  - repeat (apply List.Forall_cons;
            [repeat (apply List.Forall_cons; [unfold silent; reflexivity|]);
             apply List.Forall_nil|]).
    apply List.Forall_nil.
  - right. exact Ho.
Defined.

Lemma mix_in_unit (wet dry x d : Q) :
  (0 <= wet)%Q -> (0 <= dry)%Q -> (wet + dry <= 1)%Q ->
  in_unit x -> in_unit d -> in_unit (x * dry + d * wet).
Proof.
  unfold in_unit. intros Hw Hd Hs [Hx1 Hx2] [Hd1 Hd2].
  assert (A1 : (0 <= (1 - x) * dry)%Q) by (apply Qmult_le_0_compat; lra).
  assert (A2 : (0 <= (x + 1) * dry)%Q) by (apply Qmult_le_0_compat; lra).
  assert (A3 : (0 <= (1 - d) * wet)%Q) by (apply Qmult_le_0_compat; lra).
  assert (A4 : (0 <= (d + 1) * wet)%Q) by (apply Qmult_le_0_compat; lra).
  assert (E1 : ((1 - x) * dry == dry - x * dry)%Q) by ring.
  assert (E2 : ((x + 1) * dry == x * dry + dry)%Q) by ring.
  assert (E3 : ((1 - d) * wet == wet - d * wet)%Q) by ring.
  assert (E4 : ((d + 1) * wet == d * wet + wet)%Q) by ring.
  rewrite E1 in A1. rewrite E2 in A2. rewrite E3 in A3. rewrite E4 in A4.
  split; lra.
Qed.

(** Full scale is kept when the gains allow it.  On an engine obtained
    by any sequence of calls whose wet and dry gains sum to at most 1,
    when every element of every caller array lies in [-1, 1], a call of
    either block processor that returns leaves every element of every
    caller array (the outputs among them) in [-1, 1]: in place or not. *)
Theorem full_scale_is_kept (simdWidth : Z) (fuel : nat)
  (e : SharcDelayLine) (p : io) (n : Z) (m : memory) (o : outcome) :
  reachable e -> (wetMix e + dryMix e <= 1)%Q ->
  Forall (Forall in_unit) m ->
  processBlockScalar e p n m = Ok o
  \/ processBlockSIMD simdWidth fuel e p n m = Ok o ->
  Forall (Forall in_unit) (arrays o).
Proof.
  intros Hr Hsum HA Ho.
  destruct (reachable_clipped e Hr) as [HL HR].
  destruct (reachable_gains e Hr) as (_ & (Hw & _) & (Hd & _)).
  apply (block_keeps_all_samples in_unit simdWidth fuel e p n m o);
    try assumption.
  - intros x d Hx Hxd. now apply mix_in_unit.
  - intros x d _ _. apply jlimit_in_unit.
  - intros x d _ _. apply lane_clip_in_unit.
Qed.

Lemma full_scale_is_kept_witness :
  exists o,
    processBlockScalar engine8_at3 inPlace 3 ones3 = Ok o
    /\ Forall (Forall in_unit) (arrays o).
Proof.
  assert (H : exists o, processBlockScalar engine8_at3 inPlace 3 ones3 = Ok o)
    by (eexists; vm_compute; reflexivity).
  destruct H as [o Ho]. exists o. split; [exact Ho|].
  apply (full_scale_is_kept 1 0 engine8_at3 inPlace 3 ones3 o).
  - exact reachable_engine8_at3.
  - vm_compute. discriminate.
  - repeat (apply List.Forall_cons;
            [repeat (apply List.Forall_cons;
                     [unfold in_unit; split; vm_compute; discriminate|]);
             apply List.Forall_nil|]).
    apply List.Forall_nil.
  - left. exact Ho.
Defined.

(** ** The scalar path in place *)

Lemma load_store_Some (m : memory) (p : ptr) (x y : Q) :
  load m p = Some x -> exists m', store m p y = Some m'.
Proof.
  unfold load, store. destruct (ofs p <? 0); [discriminate|].
  destruct (m !! blk p) as [b|]; [|discriminate]. intros H.
  apply lookup_lt_Some in H.
  destruct (Nat.ltb_spec (Z.to_nat (ofs p)) (length b)); [eauto|lia].
Qed.

Lemma load_store_other (m m' : memory) (p q : ptr) (x : Q) :
  store m p x = Some m' -> blk q <> blk p \/ ofs q <> ofs p ->
  load m' q = load m q.
Proof.
  intros H [Hq|Hq].
  - now apply (load_store_other_block _ _ _ _ _ H).
  - destruct (Nat.eq_dec (blk q) (blk p)) as [Hb|Hb].
    + now apply (load_store_other_ofs _ _ _ _ _ H).
    + now apply (load_store_other_block _ _ _ _ _ H).
Qed.

Section InPlace.

Variables (len : Z) (fb wet dry : Q).

(** One sample in place: the value read back for the recurrence is the
    output. *)
Lemma scalarSample_in_place (p : io) (idx : Z) (s : machine)
  (xl xr dl dr : Q) :
  in_place p ->
  load (audio s) (inputLeft p) = Some xl ->
  load (audio s) (inputRight p) = Some xr ->
  vec_get (bufferLeft s) idx = Some dl ->
  vec_get (bufferRight s) idx = Some dr ->
  0 <= idx < Z.of_nat (length (bufferLeft s)) ->
  0 <= idx < Z.of_nat (length (bufferRight s)) ->
  exists s' m1,
    scalarSample fb wet dry p idx s = Ok (tt, s')
    /\ store (audio s) (inputLeft p) (xl * dry + dl * wet)%Q = Some m1
    /\ store m1 (inputRight p) (xr * dry + dr * wet)%Q = Some (audio s')
    /\ bufferLeft s'
       = <[Z.to_nat idx :=
             Juce.jlimit (-1) 1 ((xl * dry + dl * wet) + fb * dl)%Q]>
           (bufferLeft s)
    /\ bufferRight s'
       = <[Z.to_nat idx :=
             Juce.jlimit (-1) 1 ((xr * dry + dr * wet) + fb * dr)%Q]>
           (bufferRight s).
Proof.
  intros (EL & ER & Hne) HxL HxR HdL HdR HiL HiR.
  destruct (load_store_Some _ _ _ (xl * dry + dl * wet)%Q HxL) as [m1 Hm1].
  assert (HxR1 : load m1 (inputRight p) = Some xr).
  { rewrite (load_store_other_block _ _ _ _ _ Hm1); [exact HxR|congruence]. }
  destruct (load_store_Some _ _ _ (xr * dry + dr * wet)%Q HxR1) as [m2 Hm2].
  assert (HxL2 : load m2 (inputLeft p) = Some (xl * dry + dl * wet)%Q).
  { rewrite (load_store_other_block _ _ _ _ _ Hm2) by congruence.
    apply (load_store_eq _ _ _ _ Hm1). }
  assert (HxR2 : load m2 (inputRight p) = Some (xr * dry + dr * wet)%Q)
    by apply (load_store_eq _ _ _ _ Hm2).
  unfold scalarSample, bind, readDelay, readAudio, writeAudio, writeDelay, note.
  rewrite EL, ER.
  cbn [line bufferLeft bufferRight audio trace]. rewrite HdL.
  cbn [line bufferLeft bufferRight audio trace]. rewrite HdR.
  cbn [line bufferLeft bufferRight audio trace]. rewrite HxL.
  cbn [line bufferLeft bufferRight audio trace]. rewrite Hm1.
  cbn [line bufferLeft bufferRight audio trace]. rewrite HxR1.
  cbn [line bufferLeft bufferRight audio trace]. rewrite Hm2.
  cbn [line bufferLeft bufferRight audio trace]. rewrite HxL2.
  cbn [line bufferLeft bufferRight audio trace]. rewrite HxR2.
  cbn [line bufferLeft bufferRight audio trace].
  rewrite (vec_set_Some _ _ _ HiL).
  cbn [line bufferLeft bufferRight audio trace].
  rewrite (vec_set_Some _ _ _ HiR).
  eexists _, m1. split; [reflexivity|]. cbn [bufferLeft bufferRight audio].
  auto.
Qed.

Lemma in_place_add (p : io) (i : Z) : in_place p -> in_place (io_add p i).
Proof.
  intros (EL & ER & Hne). unfold in_place, io_add. simpl.
  rewrite EL, ER. auto.
Qed.

(** What the loop of the scalar path leaves when run in place, from any
    machine and any position [i] in the caller's arrays. *)
Lemma scalarLoop_in_place (p : io) (L : Z) :
  in_place p -> len <= L ->
  forall (inL inR : list Q) (i idx : Z) (s : machine),
    length inL = length inR ->
    (forall (k : nat) x, inL !! k = Some x ->
       load (audio s) (ptr_add (inputLeft p) (i + Z.of_nat k)) = Some x) ->
    (forall (k : nat) x, inR !! k = Some x ->
       load (audio s) (ptr_add (inputRight p) (i + Z.of_nat k)) = Some x) ->
    Z.of_nat (length (bufferLeft s)) = L ->
    Z.of_nat (length (bufferRight s)) = L ->
    0 <= idx < L ->
    exists s' outsL outsR bL bR j,
      recurrenceInPlace len fb wet dry inL (bufferLeft s) idx
      = Some (outsL, bL, j)
      /\ recurrenceInPlace len fb wet dry inR (bufferRight s) idx
         = Some (outsR, bR, j)
      /\ scalarLoop len fb wet dry (length inL) p i idx s = Ok (j, s')
      /\ bufferLeft s' = bL /\ bufferRight s' = bR
      /\ length outsL = length inL /\ length outsR = length inL
      /\ map length (audio s') = map length (audio s)
      /\ (forall (k : nat) x, outsL !! k = Some x ->
            load (audio s') (ptr_add (inputLeft p) (i + Z.of_nat k)) = Some x)
      /\ (forall (k : nat) x, outsR !! k = Some x ->
            load (audio s') (ptr_add (inputRight p) (i + Z.of_nat k)) = Some x)
      /\ (forall q,
            ~ in_span (ptr_add (inputLeft p) i) (Z.of_nat (length inL)) q ->
            ~ in_span (ptr_add (inputRight p) i) (Z.of_nat (length inL)) q ->
            load (audio s') q = load (audio s) q)
      /\ (forall b, b <> blk (inputLeft p) -> b <> blk (inputRight p) ->
            audio s' !! b = audio s !! b).
Proof.
  intros Hip HlenL.
  pose proof Hip as (EL & ER & Hne).
  induction inL as [|x inL IH]; intros [|y inR] i idx s Hlen HinL HinR
    HbL HbR Hidx; try discriminate.
  - exists s, [], [], (bufferLeft s), (bufferRight s), idx. simpl.
    repeat split; auto; intros k v Hk; discriminate.
  - simpl in Hlen. injection Hlen as Hlen.
    pose proof (HinL 0%nat x eq_refl) as Hx.
    pose proof (HinR 0%nat y eq_refl) as Hy.
    rewrite Z.add_0_r in Hx, Hy.
    destruct (vec_get_Some (bufferLeft s) idx ltac:(lia)) as [dl Hdl].
    destruct (vec_get_Some (bufferRight s) idx ltac:(lia)) as [dr Hdr].
    destruct (scalarSample_in_place (io_add p i) idx s x y dl dr
                (in_place_add p i Hip) Hx Hy Hdl Hdr ltac:(lia) ltac:(lia))
      as (s1 & m1 & Erun & Hm1 & Hm2 & Hb1L & Hb1R).
    cbn [io_add inputLeft inputRight] in Hm1, Hm2.
    assert (Hshape : map length (audio s1) = map length (audio s)).
    { rewrite (store_shape _ _ _ _ Hm2). apply (store_shape _ _ _ _ Hm1). }
    assert (Hframe1 : forall q,
               blk q <> blk (inputLeft p) \/ ofs q <> ofs (inputLeft p) + i ->
               blk q <> blk (inputRight p) \/ ofs q <> ofs (inputRight p) + i ->
               load (audio s1) q = load (audio s) q).
    { intros q Hq1 Hq2.
      rewrite (load_store_other _ _ _ _ _ Hm2) by exact Hq2.
      apply (load_store_other _ _ _ _ _ Hm1). exact Hq1. }
    assert (HoutL0 : load (audio s1) (ptr_add (inputLeft p) i)
                     = Some (x * dry + dl * wet)%Q).
    { rewrite (load_store_other_block _ _ _ _ _ Hm2) by (simpl; congruence).
      apply (load_store_eq _ _ _ _ Hm1). }
    assert (HoutR0 : load (audio s1) (ptr_add (inputRight p) i)
                     = Some (y * dry + dr * wet)%Q)
      by apply (load_store_eq _ _ _ _ Hm2).
    destruct (IH inR (i + 1) (advance len idx) s1) as
      (s' & outsL & outsR & bL & bR & j & RL & RR & Eloop & EbL & EbR
       & HlL & HlR & Hsh & HoutL & HoutR & Hfr & Hother).
    { exact Hlen. }
    { intros k v Hk. rewrite Hframe1
        by (simpl; first [right; lia|left; congruence]).
      replace (i + 1 + Z.of_nat k) with (i + Z.of_nat (S k)) by lia.
      apply HinL. exact Hk. }
    { intros k v Hk. rewrite Hframe1
        by (simpl; first [right; lia|left; congruence]).
      replace (i + 1 + Z.of_nat k) with (i + Z.of_nat (S k)) by lia.
      apply HinR. exact Hk. }
    { rewrite Hb1L, length_insert. exact HbL. }
    { rewrite Hb1R, length_insert. exact HbR. }
    { apply advance_range; assumption. }
    exists s', ((x * dry + dl * wet)%Q :: outsL),
      ((y * dry + dr * wet)%Q :: outsR), bL, bR, j.
    split.
    { cbn [recurrenceInPlace]. cbv zeta.
      rewrite Hdl, (vec_set_Some (bufferLeft s) idx _ ltac:(lia)).
      rewrite <- Hb1L, RL. reflexivity. }
    split.
    { cbn [recurrenceInPlace]. cbv zeta.
      rewrite Hdr, (vec_set_Some (bufferRight s) idx _ ltac:(lia)).
      rewrite <- Hb1R, RR. reflexivity. }
    split.
    { cbn [length scalarLoop]. unfold bind. rewrite Erun. exact Eloop. }
    split; [exact EbL|]. split; [exact EbR|].
    split; [simpl; congruence|]. split; [simpl; congruence|].
    split; [congruence|].
    split.
    { intros [|k] v Hk.
      - simpl in Hk. injection Hk as <-. rewrite Z.add_0_r.
        rewrite Hfr; [exact HoutL0| |]; unfold in_span; simpl; [lia|].
        intros [Hb _]. congruence.
      - replace (i + Z.of_nat (S k)) with (i + 1 + Z.of_nat k) by lia.
        apply HoutL. exact Hk. }
    split.
    { intros [|k] v Hk.
      - simpl in Hk. injection Hk as <-. rewrite Z.add_0_r.
        rewrite Hfr; [exact HoutR0| |]; unfold in_span; simpl; [|lia].
        intros [Hb _]. congruence.
      - replace (i + Z.of_nat (S k)) with (i + 1 + Z.of_nat k) by lia.
        apply HoutR. exact Hk. }
    split.
    { intros q Hq1 Hq2. unfold in_span in Hq1, Hq2. simpl in Hq1, Hq2.
      rewrite Hfr.
      - apply Hframe1.
        + destruct (Nat.eq_dec (blk q) (blk (inputLeft p))); [right|left];
            [lia|assumption].
        + destruct (Nat.eq_dec (blk q) (blk (inputRight p))); [right|left];
            [lia|assumption].
      - unfold in_span. simpl. lia.
      - unfold in_span. simpl. lia. }
    { intros b Hb1 Hb2. rewrite Hother by assumption.
      rewrite (lookup_store_other _ _ _ _ _ Hm2) by exact Hb2.
      apply (lookup_store_other _ _ _ _ _ Hm1). exact Hb1. }
Qed.

End InPlace.

Lemma processBlockScalar_in_place (e : SharcDelayLine) (p : io)
  (m : memory) (inL inR : list Q) :
  prepared e = true ->
  in_place p ->
  loads m (inputLeft p) (length inL) = map Some inL ->
  loads m (inputRight p) (length inL) = map Some inR ->
  length (delayLineRight e) = length (delayLineLeft e) ->
  0 <= delayIndex e < Z.of_nat (length (delayLineLeft e)) ->
  delaySamples e <= Z.of_nat (length (delayLineLeft e)) ->
  exists o outsL outsR bL bR j,
    recurrenceInPlace (delaySamples e) (feedback e) (wetMix e) (dryMix e)
      inL (delayLineLeft e) (delayIndex e) = Some (outsL, bL, j)
    /\ recurrenceInPlace (delaySamples e) (feedback e) (wetMix e) (dryMix e)
         inR (delayLineRight e) (delayIndex e) = Some (outsR, bR, j)
    /\ processBlockScalar e p (Z.of_nat (length inL)) m = Ok o
    /\ delayLineLeft (engine o) = bL
    /\ delayLineRight (engine o) = bR
    /\ delayIndex (engine o) = j
    /\ loads (arrays o) (inputLeft p) (length inL) = map Some outsL
    /\ loads (arrays o) (inputRight p) (length inL) = map Some outsR
    /\ map length (arrays o) = map length m
    /\ (forall q,
          ~ in_span (inputLeft p) (Z.of_nat (length inL)) q ->
          ~ in_span (inputRight p) (Z.of_nat (length inL)) q ->
          load (arrays o) q = load m q).
Proof.
  intros Hprep Hip HinL HinR Hlen Hidx Hloop.
  apply loads_elim in HinL, HinR.
  destruct HinL as [_ HinL]. destruct HinR as [HlenR HinR].
  destruct (scalarLoop_in_place (delaySamples e) (feedback e) (wetMix e)
              (dryMix e) p (Z.of_nat (length (delayLineLeft e))) Hip Hloop
              inL inR 0 (delayIndex e) (enter e m))
    as (s' & outsL & outsR & bL & bR & j & RL & RR & Eloop & EbL & EbR
        & HlL & HlR & Hsh & HoutL & HoutR & Hfr & _);
    simpl; auto; try lia.
  exists {| engine :=
              {| delayLineLeft := bufferLeft s';
                 delayLineRight := bufferRight s';
                 maxDelaySamples := maxDelaySamples e;
                 delaySamples := delaySamples e;
                 delayIndex := j;
                 feedback := feedback e; wetMix := wetMix e;
                 dryMix := dryMix e;
                 sRate := sRate e; prepared := prepared e |};
            arrays := audio s'; events := trace s' |},
    outsL, outsR, bL, bR, j.
  split; [exact RL|]. split; [exact RR|].
  split.
  { unfold processBlockScalar.
    replace (negb (prepared e)) with false by now rewrite Hprep.
    rewrite Nat2Z.id, Eloop. reflexivity. }
  simpl. split; [exact EbL|]. split; [exact EbR|]. split; [reflexivity|].
  split; [apply loads_intro; [exact HlL|intros k x Hk; apply (HoutL k x Hk)]|].
  split; [apply loads_intro; [exact HlR|intros k x Hk; apply (HoutR k x Hk)]|].
  split; [exact Hsh|].
  intros q Hq1 Hq2. apply Hfr; rewrite ptr_add_0; assumption.
Qed.

(** In place, as [processBlock] calls it (each output pointer equal to
    the input pointer of its channel, the channels in different arrays),
    on a prepared engine whose cursor is inside the delay lines,
    [processBlockScalar] returns, and on each channel its outputs, its
    delay line and its cursor are those of [recurrenceInPlace]: the
    output is [x * dry + delayed * wet] and the element stored is
    [clamp (output + feedback * delayed, -1, 1)], the output standing
    where the input was read.  The outputs replace the inputs and no
    other element of the caller's arrays changes, nor their lengths. *)
Theorem scalar_in_place_recurrence (e : SharcDelayLine) (p : io)
  (m : memory) (inL inR : list Q) :
  prepared e = true ->
  in_place p ->
  loads m (inputLeft p) (length inL) = map Some inL ->
  loads m (inputRight p) (length inL) = map Some inR ->
  length (delayLineRight e) = length (delayLineLeft e) ->
  0 <= delayIndex e < Z.of_nat (length (delayLineLeft e)) ->
  delaySamples e <= Z.of_nat (length (delayLineLeft e)) ->
  exists o outsL outsR bL bR j,
    recurrenceInPlace (delaySamples e) (feedback e) (wetMix e) (dryMix e)
      inL (delayLineLeft e) (delayIndex e) = Some (outsL, bL, j)
    /\ recurrenceInPlace (delaySamples e) (feedback e) (wetMix e) (dryMix e)
         inR (delayLineRight e) (delayIndex e) = Some (outsR, bR, j)
    /\ processBlockScalar e p (Z.of_nat (length inL)) m = Ok o
    /\ delayLineLeft (engine o) = bL
    /\ delayLineRight (engine o) = bR
    /\ delayIndex (engine o) = j
    /\ loads (arrays o) (inputLeft p) (length inL) = map Some outsL
    /\ loads (arrays o) (inputRight p) (length inL) = map Some outsR
    /\ map length (arrays o) = map length m
    /\ (forall q,
          ~ in_span (inputLeft p) (Z.of_nat (length inL)) q ->
          ~ in_span (inputRight p) (Z.of_nat (length inL)) q ->
          load (arrays o) q = load m q).
Proof. exact (processBlockScalar_in_place e p m inL inR). Qed.

Lemma scalar_in_place_recurrence_witness :
  exists o outsL outsR bL bR j,
    recurrenceInPlace (delaySamples engine8) (feedback engine8)
      (wetMix engine8) (dryMix engine8) [1; 1; 1]%Q (delayLineLeft engine8)
      (delayIndex engine8) = Some (outsL, bL, j)
    /\ recurrenceInPlace (delaySamples engine8) (feedback engine8)
         (wetMix engine8) (dryMix engine8) [1; 1; 1]%Q
         (delayLineRight engine8) (delayIndex engine8) = Some (outsR, bR, j)
    /\ processBlockScalar engine8 inPlace (Z.of_nat (length [1; 1; 1]%Q))
         ones3 = Ok o
    /\ delayLineLeft (engine o) = bL
    /\ delayLineRight (engine o) = bR
    /\ delayIndex (engine o) = j
    /\ loads (arrays o) (inputLeft inPlace) (length [1; 1; 1]%Q)
       = map Some outsL
    /\ loads (arrays o) (inputRight inPlace) (length [1; 1; 1]%Q)
       = map Some outsR
    /\ map length (arrays o) = map length ones3
    /\ (forall q,
          ~ in_span (inputLeft inPlace) (Z.of_nat (length [1; 1; 1]%Q)) q ->
          ~ in_span (inputRight inPlace) (Z.of_nat (length [1; 1; 1]%Q)) q ->
          load (arrays o) q = load ones3 q).
Proof.
  apply (scalar_in_place_recurrence engine8 inPlace ones3 [1; 1; 1]%Q
           [1; 1; 1]%Q).
  - reflexivity.
  - unfold in_place. simpl. split; [reflexivity|]. split; [reflexivity|lia].
  - reflexivity.
  - reflexivity.
  - reflexivity.
  - vm_compute. intuition discriminate.
  - vm_compute. discriminate.
Defined.

(** ** The echoes of an impulse processed in place *)

Lemma jlimit_Qeq (lo hi u v : Q) :
  (u == v)%Q -> (Juce.jlimit lo hi u == Juce.jlimit lo hi v)%Q.
Proof.
  intros H. unfold Juce.jlimit.
  destruct (Juce.Qltb u lo) eqn:E1, (Juce.Qltb v lo) eqn:E2;
    try apply Qltb_true in E1; try apply Qltb_true in E2;
    try apply Qltb_false in E1; try apply Qltb_false in E2;
    try reflexivity; try lra.
  destruct (Juce.Qltb hi u) eqn:E3, (Juce.Qltb hi v) eqn:E4;
    try apply Qltb_true in E3; try apply Qltb_true in E4;
    try apply Qltb_false in E3; try apply Qltb_false in E4;
    try reflexivity; try lra.
Qed.

(** The loop run in place is the announced recurrence on the input
    scaled by the dry gain, with the feedback raised by the wet gain and
    a dry gain of 1, up to equality of rationals. *)
Lemma in_place_as_recurrence (len : Z) (fb wet dry : Q)
  (input input' : list Q) :
  Forall2 (fun x x' => (x * dry == x')%Q) input input' ->
  forall (buf buf' : list Q) (idx : Z) outs b j,
    Forall2 Qeq buf buf' ->
    recurrenceInPlace len fb wet dry input buf idx = Some (outs, b, j) ->
    exists outs' b',
      recurrence len (wet + fb) wet 1 input' buf' idx = Some (outs', b', j)
      /\ Forall2 Qeq outs outs' /\ Forall2 Qeq b b'.
Proof.
  induction 1 as [|x x' input input' Hx Hin IH];
    intros buf buf' idx outs b j Hbuf H.
  - simpl in H. injection H as <- <- <-.
    exists [], buf'. split; [reflexivity|]. split; [constructor|exact Hbuf].
  - cbn [recurrenceInPlace] in H. cbv zeta in H.
    destruct (vec_get buf idx) as [d|] eqn:Hd; [|discriminate].
    destruct (vec_set buf idx _) as [b1|] eqn:Hset; [|discriminate].
    destruct (recurrenceInPlace len fb wet dry input b1 (advance len idx))
      as [[[o2 b2] i2]|] eqn:Hrec; [|discriminate].
    injection H as <- <- <-.
    apply vec_set_inv in Hset. destruct Hset as [Hidx ->].
    assert (Hd' : exists d', vec_get buf' idx = Some d' /\ (d == d')%Q).
    { unfold vec_get in *. destruct (idx <? 0); [discriminate|].
      eapply Forall2_lookup_l; eauto. }
    destruct Hd' as (d' & Hd' & Hdd).
    pose proof (Forall2_length _ _ _ Hbuf) as Hlen.
    assert (Hbuf1 :
              Forall2 Qeq
                (<[Z.to_nat idx :=
                     Juce.jlimit (-1) 1 (x * dry + d * wet + fb * d)%Q]> buf)
                (<[Z.to_nat idx :=
                     Juce.jlimit (-1) 1 (x' + (wet + fb) * d')%Q]> buf')).
    { apply Forall2_insert; [exact Hbuf|].
      apply jlimit_Qeq. rewrite <- Hx, Hdd. ring. }
    destruct (IH _ _ _ _ _ _ Hbuf1 Hrec) as (outs' & b' & Hrec' & Ho & Hb).
    cbn [recurrence]. rewrite Hd'.
    rewrite (vec_set_Some buf' idx _ ltac:(lia)). rewrite Hrec'.
    eexists _, _. split; [reflexivity|]. split; [|exact Hb].
    constructor; [|exact Ho]. rewrite <- Hx, Hdd. ring.
Qed.

Lemma Forall2_Qeq_refl (l : list Q) : Forall2 Qeq l l.
Proof. induction l; constructor; [reflexivity|assumption]. Qed.

Lemma impulse_scaled (a dry : Q) (n : nat) :
  Forall2 (fun x x' => (x * dry == x')%Q) (impulse a n) (impulse (a * dry) n).
Proof.
  unfold impulse. constructor; [reflexivity|].
  induction n; simpl; constructor; [ring|assumption].
Qed.

(** From a reset engine (both delay lines zero, cursor 0) with a loop of
    [D >= 1] samples, called in place on an impulse of amplitude [a]
    followed by silence on the left channel, when [wet + feedback] lies in
    [0, 1] and [a * dry] in (0, 1] (so that nothing clips), the left
    output at sample [(k + 1) * D] is
    [a * dry * (wet + feedback) ^ k * wet]: from one echo to the next
    the level is multiplied by [wet + feedback], not by [feedback]. *)
Theorem in_place_echo_ratio (e : SharcDelayLine) (p : io)
  (m : memory) (a : Q) (inR : list Q) (k n : nat) :
  prepared e = true ->
  in_place p ->
  delayLineLeft e = repeat 0%Q (length (delayLineLeft e)) ->
  length (delayLineRight e) = length (delayLineLeft e) ->
  delayIndex e = 0 ->
  1 <= delaySamples e <= Z.of_nat (length (delayLineLeft e)) ->
  (0 <= wetMix e + feedback e)%Q -> (wetMix e + feedback e <= 1)%Q ->
  (0 < a * dryMix e)%Q -> (a * dryMix e <= 1)%Q ->
  let D := Z.to_nat (delaySamples e) in
  let N := S (S k * D + n) in
  loads m (inputLeft p) N = map Some (impulse a (S k * D + n)) ->
  loads m (inputRight p) N = map Some inR ->
  exists o y,
    processBlockScalar e p (Z.of_nat N) m = Ok o
    /\ load (arrays o) (ptr_add (inputLeft p) (Z.of_nat (S k * D))) = Some y
    /\ (y == a * dryMix e * qpow (wetMix e + feedback e) k * wetMix e)%Q.
Proof.
  intros Hprep Hip Hzero Hlen Hidx HD Hf0 Hf1 Ha0 Ha1 D N HinL HinR.
  assert (HN : N = length (impulse a (S k * D + n))).
  { unfold impulse. simpl. now rewrite repeat_length. }
  rewrite HN in HinL, HinR.
  destruct (processBlockScalar_in_place e p m _ inR Hprep Hip HinL HinR
              Hlen ltac:(lia) ltac:(lia))
    as (o & outsL & outsR & bL & bR & j & RL & _ & Erun & _ & _ & _
        & HloadL & _).
  destruct (in_place_as_recurrence _ _ _ _ _ _
              (impulse_scaled a (dryMix e) (S k * D + n))
              _ _ _ _ _ _ (Forall2_Qeq_refl (delayLineLeft e)) RL)
    as (outs' & b' & Hrec' & Houts & _).
  destruct (impulse_echo (delaySamples e) (length (delayLineLeft e))
              (wetMix e + feedback e) (wetMix e) 1 ltac:(lia) ltac:(lia)
              (conj Hf0 Hf1) (a * dryMix e)%Q (conj Ha0 Ha1) k n)
    as (outs & b & j' & y & Hrec & Hy & Hval).
  fold D in Hrec, Hy. rewrite Hzero, Hidx in Hrec'. rewrite Hrec in Hrec'.
  injection Hrec' as <- <- <-.
  destruct (Forall2_lookup_r _ _ _ _ _ Houts Hy) as (y0 & Hy0 & Hyy).
  exists o, y0. rewrite HN. split; [exact Erun|]. split.
  - apply loads_elim in HloadL. destruct HloadL as [_ HloadL].
    apply HloadL. exact Hy0.
  - rewrite Hyy. exact Hval.
Qed.

Lemma in_place_echo_ratio_witness :
  exists o y,
    processBlockScalar echo_half inPlace
      (Z.of_nat (S (S 1 * Z.to_nat (delaySamples echo_half) + 2)))
      [impulse7; silence7] = Ok o
    /\ load (arrays o)
         (ptr_add (inputLeft inPlace)
            (Z.of_nat (S 1 * Z.to_nat (delaySamples echo_half)))) = Some y
    /\ (y == 1 * dryMix echo_half
             * qpow (wetMix echo_half + feedback echo_half) 1
             * wetMix echo_half)%Q.
Proof.
  apply (in_place_echo_ratio echo_half inPlace [impulse7; silence7] 1
           silence7 1 2).
  - reflexivity.
  - unfold in_place. simpl. split; [reflexivity|]. split; [reflexivity|lia].
  - reflexivity.
  - reflexivity.
  - reflexivity.
  - vm_compute. intuition discriminate.
  - vm_compute. discriminate.
  - vm_compute. discriminate.
  - vm_compute. reflexivity.
  - vm_compute. discriminate.
  - reflexivity.
  - reflexivity.
Defined.

(** ** What a callback computes on the scalar path *)

Lemma loads_whole_block (m : memory) (b : nat) (l : list Q) :
  m !! b = Some l -> loads m (mkPtr b 0) (length l) = map Some l.
Proof.
  intros Hb. apply loads_intro; [reflexivity|]. intros k x Hk.
  unfold load, ptr_add. cbn [blk ofs]. rewrite Z.add_0_l.
  destruct (Z.ltb_spec (Z.of_nat k) 0); [lia|].
  now rewrite Hb, Nat2Z.id.
Qed.

Lemma block_from_loads (m : memory) (b : nat) (l0 l : list Q) :
  m !! b = Some l0 -> length l0 = length l ->
  loads m (mkPtr b 0) (length l) = map Some l -> l0 = l.
Proof.
  intros Hb Hlen H. apply loads_elim in H. destruct H as [_ H].
  apply list_eq. intros k.
  destruct (l !! k) as [x|] eqn:Hk.
  - specialize (H k x Hk). unfold load, ptr_add in H. cbn [blk ofs] in H.
    rewrite Z.add_0_l in H.
    destruct (Z.ltb_spec (Z.of_nat k) 0); [lia|].
    now rewrite Hb, Nat2Z.id in H.
  - apply lookup_ge_None in Hk. apply lookup_ge_None. lia.
Qed.

(** One callback on the scalar path. *)
Lemma scalar_callback (simdWidth : Z) (fuel : nat)
  (par : parameters) (e : SharcDelayLine) (inL inR : list Q) :
  par_bypass par = false -> par_simd par = false ->
  prepared e = true ->
  Cxx.INT_MIN <= Cxx.Qtrunc (par_delay par * sRate e) <= Cxx.INT_MAX ->
  length inR = length inL ->
  length (delayLineRight e) = length (delayLineLeft e) ->
  1 <= maxDelaySamples e <= Z.of_nat (length (delayLineLeft e)) ->
  0 <= delayIndex e < Z.of_nat (length (delayLineLeft e)) ->
  exists o outsL outsR bL bR j,
    recurrenceInPlace (loopLength e (par_delay par))
      (Juce.jlimit 0 (99 # 100) (par_feedback par))
      (Juce.jlimit 0 1 (par_wet par)) (Juce.jlimit 0 1 (par_dry par))
      inL (delayLineLeft e) (delayIndex e) = Some (outsL, bL, j)
    /\ recurrenceInPlace (loopLength e (par_delay par))
         (Juce.jlimit 0 (99 # 100) (par_feedback par))
         (Juce.jlimit 0 1 (par_wet par)) (Juce.jlimit 0 1 (par_dry par))
         inR (delayLineRight e) (delayIndex e) = Some (outsR, bR, j)
    /\ processBlock simdWidth fuel par e [inL; inR] = Ok o
    /\ arrays o = [outsL; outsR]
    /\ delayLineLeft (engine o) = bL
    /\ delayLineRight (engine o) = bR
    /\ delayIndex (engine o) = j
    /\ delaySamples (engine o) = loopLength e (par_delay par)
    /\ feedback (engine o) = Juce.jlimit 0 (99 # 100) (par_feedback par)
    /\ wetMix (engine o) = Juce.jlimit 0 1 (par_wet par)
    /\ dryMix (engine o) = Juce.jlimit 0 1 (par_dry par)
    /\ maxDelaySamples (engine o) = maxDelaySamples e
    /\ sRate (engine o) = sRate e
    /\ prepared (engine o) = true.
Proof.
  intros Hby Hsw Hprep Hconv HlenR Hlen Hmax Hidx.
  pose proof (loopLength_range e (par_delay par) ltac:(lia)) as Hloop.
  unfold processBlock. rewrite Hby, (setDelaySeconds_Some _ _ Hconv), Hsw.
  set (d4 := setDryMix _ _).
  assert (Hip : in_place inPlace).
  { unfold in_place. simpl. split; [reflexivity|]. split; [reflexivity|lia]. }
  assert (HinL : loads [inL; inR] (inputLeft inPlace) (length inL)
                 = map Some inL)
    by (apply (loads_whole_block [inL; inR] 0 inL); reflexivity).
  assert (HinR : loads [inL; inR] (inputRight inPlace) (length inL)
                 = map Some inR).
  { rewrite <- HlenR. apply (loads_whole_block [inL; inR] 1 inR).
    reflexivity. }
  destruct (processBlockScalar_in_place d4 inPlace [inL; inR] inL inR
              ltac:(subst d4; exact Hprep) Hip HinL HinR
              ltac:(subst d4; exact Hlen) ltac:(subst d4; exact Hidx)
              ltac:(subst d4; simpl; lia))
    as (o & outsL & outsR & bL & bR & j & RL & RR & Erun & EbL & EbR & Ej
        & HoL & HoR & Hshape & _).
  exists o, outsL, outsR, bL, bR, j.
  subst d4. cbn [setDryMix setWetMix setFeedback delaySamples feedback wetMix
                   dryMix delayLineLeft delayLineRight delayIndex] in RL, RR.
  split; [exact RL|]. split; [exact RR|].
  split.
  { unfold getNumSamples. simpl. exact Erun. }
  assert (HlL : length outsL = length inL).
  { apply (f_equal length) in HoL. unfold loads in HoL.
    rewrite !length_map, zrange_length in HoL. congruence. }
  assert (HlR : length outsR = length inL).
  { apply (f_equal length) in HoR. unfold loads in HoR.
    rewrite !length_map, zrange_length in HoR. congruence. }
  split.
  { destruct (arrays o) as [|a0 [|a1 [|a2 rest]]]; try discriminate.
    simpl in Hshape. injection Hshape as H0 H1.
    rewrite <- HlL in HoL. rewrite <- HlR in HoR.
    f_equal; [|f_equal].
    - apply (block_from_loads [a0; a1] 0 a0 outsL eq_refl); [lia|exact HoL].
    - apply (block_from_loads [a0; a1] 1 a1 outsR eq_refl); [lia|exact HoR]. }
  split; [exact EbL|]. split; [exact EbR|]. split; [exact Ej|].
  destruct (block_keeps_parameters 1 0 _ _ _ _ o (or_introl Erun))
    as (Em & Ed & Ef & Ew & Ey & Es & Ep).
  rewrite Em, Ed, Ef, Ew, Ey, Es, Ep. simpl.
  repeat split; try reflexivity; exact Hprep.
Qed.


(** A callback on the scalar path, on a prepared engine whose cursor is
    inside its delay lines: with the loop length [setDelaySeconds] gives
    and the three gains as their setters clamp them, each channel of the
    buffer comes back as the outputs of [recurrenceInPlace] on that
    channel, and the engine holds its delay lines and cursor. *)
Theorem scalar_callback_computes_in_place (simdWidth : Z) (fuel : nat)
  (par : parameters) (e : SharcDelayLine) (inL inR : list Q) :
  par_bypass par = false -> par_simd par = false ->
  prepared e = true ->
  Cxx.INT_MIN <= Cxx.Qtrunc (par_delay par * sRate e) <= Cxx.INT_MAX ->
  length inR = length inL ->
  length (delayLineRight e) = length (delayLineLeft e) ->
  1 <= maxDelaySamples e <= Z.of_nat (length (delayLineLeft e)) ->
  0 <= delayIndex e < Z.of_nat (length (delayLineLeft e)) ->
  exists o outsL outsR bL bR j,
    recurrenceInPlace (loopLength e (par_delay par))
      (Juce.jlimit 0 (99 # 100) (par_feedback par))
      (Juce.jlimit 0 1 (par_wet par)) (Juce.jlimit 0 1 (par_dry par))
      inL (delayLineLeft e) (delayIndex e) = Some (outsL, bL, j)
    /\ recurrenceInPlace (loopLength e (par_delay par))
         (Juce.jlimit 0 (99 # 100) (par_feedback par))
         (Juce.jlimit 0 1 (par_wet par)) (Juce.jlimit 0 1 (par_dry par))
         inR (delayLineRight e) (delayIndex e) = Some (outsR, bR, j)
    /\ processBlock simdWidth fuel par e [inL; inR] = Ok o
    /\ arrays o = [outsL; outsR]
    /\ delayLineLeft (engine o) = bL
    /\ delayLineRight (engine o) = bR
    /\ delayIndex (engine o) = j
    /\ delaySamples (engine o) = loopLength e (par_delay par).
Proof.
  intros Hby Hsw Hprep Hconv HlenR Hlen Hmax Hidx.
  destruct (scalar_callback simdWidth fuel par e inL inR Hby Hsw Hprep Hconv
              HlenR Hlen Hmax Hidx)
    as (o & outsL & outsR & bL & bR & j & H).
  exists o, outsL, outsR, bL, bR, j. tauto.
Qed.

Lemma scalar_callback_computes_in_place_witness :
  exists o outsL outsR bL bR j,
    recurrenceInPlace (loopLength plugin8 (par_delay par_scalar))
      (Juce.jlimit 0 (99 # 100) (par_feedback par_scalar))
      (Juce.jlimit 0 1 (par_wet par_scalar))
      (Juce.jlimit 0 1 (par_dry par_scalar))
      [1; 1; 1]%Q (delayLineLeft plugin8) (delayIndex plugin8)
    = Some (outsL, bL, j)
    /\ recurrenceInPlace (loopLength plugin8 (par_delay par_scalar))
         (Juce.jlimit 0 (99 # 100) (par_feedback par_scalar))
         (Juce.jlimit 0 1 (par_wet par_scalar))
         (Juce.jlimit 0 1 (par_dry par_scalar))
         [1; 1; 1]%Q (delayLineRight plugin8) (delayIndex plugin8)
       = Some (outsR, bR, j)
    /\ processBlock 4 0 par_scalar plugin8 [[1; 1; 1]%Q; [1; 1; 1]%Q] = Ok o
    /\ arrays o = [outsL; outsR]
    /\ delayLineLeft (engine o) = bL
    /\ delayLineRight (engine o) = bR
    /\ delayIndex (engine o) = j
    /\ delaySamples (engine o) = loopLength plugin8 (par_delay par_scalar).
Proof.
  apply (scalar_callback_computes_in_place 4 0 par_scalar plugin8
           [1; 1; 1]%Q [1; 1; 1]%Q).
  - reflexivity.
  - reflexivity.
  - reflexivity.
  - vm_compute. intuition discriminate.
  - reflexivity.
  - reflexivity.
  - vm_compute. intuition discriminate.
  - vm_compute. intuition discriminate.
Defined.

(** ** The declared parameter ranges and the clamps of the engine *)

Lemma within_layout_bounds (par : parameters) :
  within_layout par ->
  (1 # 1000 <= par_delay par /\ par_delay par <= 5)%Q
  /\ (0 <= par_feedback par /\ par_feedback par <= 99 # 100)%Q
  /\ (0 <= par_wet par /\ par_wet par <= 1)%Q
  /\ (0 <= par_dry par /\ par_dry par <= 1)%Q.
Proof. intros H. exact H. Qed.

Lemma jlimit_int_inside (lo hi v : Z) :
  lo <= v <= hi -> Juce.jlimit_int lo hi v = v.
Proof.
  intros H. unfold Juce.jlimit_int.
  destruct (Z.ltb_spec v lo); [lia|]. destruct (Z.ltb_spec hi v); lia.
Qed.

(** At a sample rate of 1 kHz or more whose five seconds fit an [int],
    no clamp of the engine is active on values inside the ranges
    [createParameterLayout] declares: after [prepareToPlay],
    [setDelaySeconds] stores the delay times the rate, truncated, which
    lies within 1 and the capacity, and the three gain setters store
    their argument. *)
Theorem declared_values_pass_the_clamps (sampleRate : Q)
  (e0 : SharcDelayLine) (par : parameters) :
  (1000 <= sampleRate)%Q ->
  Cxx.Qtrunc (sampleRate * 5) <= Cxx.INT_MAX ->
  within_layout par ->
  exists e d,
    prepareToPlay sampleRate e0 = Some e
    /\ setDelaySeconds (par_delay par) e = Some d
    /\ delaySamples d = Cxx.Qtrunc (par_delay par * sampleRate)
    /\ 1 <= delaySamples d <= maxDelaySamples e
    /\ feedback (setFeedback (par_feedback par) d) = par_feedback par
    /\ wetMix (setWetMix (par_wet par) d) = par_wet par
    /\ dryMix (setDryMix (par_dry par) d) = par_dry par.
Proof.
  intros Hsr Hfit Hlay.
  apply within_layout_bounds in Hlay.
  destruct Hlay as ((D1 & D2) & (F1 & F2) & (W1 & W2) & (Y1 & Y2)).
  assert (H5 : 5 <= Cxx.Qtrunc (sampleRate * 5)).
  { change 5 with (Cxx.Qtrunc 5) at 1. apply Qtrunc_mono; lra. }
  assert (Hlo : 1 <= Cxx.Qtrunc (par_delay par * sampleRate)).
  { change 1 with (Cxx.Qtrunc 1) at 1. apply Qtrunc_mono; [lra|].
    assert (A : ((1 # 1000) * sampleRate <= par_delay par * sampleRate)%Q)
      by (apply Qmult_le_compat_r; lra).
    lra. }
  assert (Hhi : Cxx.Qtrunc (par_delay par * sampleRate)
                <= Cxx.Qtrunc (sampleRate * 5)).
  { apply Qtrunc_mono; [apply Qmult_le_0_compat; lra|].
    rewrite (Qmult_comm sampleRate 5). apply Qmult_le_compat_r; lra. }
  unfold prepareToPlay, prepare.
  rewrite static_cast_int_Some by (unfold Cxx.INT_MIN; lia).
  destruct (Z.ltb_spec (Cxx.Qtrunc (sampleRate * 5)) 0); [lia|].
  eexists _, _. split; [reflexivity|].
  unfold setDelaySeconds. cbn [sRate maxDelaySamples reset].
  rewrite static_cast_int_Some by (unfold Cxx.INT_MIN; lia).
  split; [reflexivity|]. cbn [delaySamples].
  rewrite jlimit_int_inside by lia.
  split; [reflexivity|]. split; [lia|].
  simpl. split; [now apply jlimit_inside|].
  split; now apply jlimit_inside.
Qed.

Lemma declared_values_pass_the_clamps_witness :
  exists e d,
    prepareToPlay 44100 defaultDelayLine = Some e
    /\ setDelaySeconds (par_delay par_scalar) e = Some d
    /\ delaySamples d = Cxx.Qtrunc (par_delay par_scalar * 44100)
    /\ 1 <= delaySamples d <= maxDelaySamples e
    /\ feedback (setFeedback (par_feedback par_scalar) d)
       = par_feedback par_scalar
    /\ wetMix (setWetMix (par_wet par_scalar) d) = par_wet par_scalar
    /\ dryMix (setDryMix (par_dry par_scalar) d) = par_dry par_scalar.
Proof.
  apply (declared_values_pass_the_clamps 44100 defaultDelayLine par_scalar).
  - vm_compute. discriminate.
  - vm_compute. discriminate.
  - vm_compute. intuition discriminate.
Defined.

(** ** Consecutive callbacks on the scalar path *)

Lemma recurrenceInPlace_app len fb wet dry (xs ys buf : list Q) (idx : Z) :
  recurrenceInPlace len fb wet dry (xs ++ ys) buf idx
  = match recurrenceInPlace len fb wet dry xs buf idx with
    | Some (o1, b1, i1) =>
        match recurrenceInPlace len fb wet dry ys b1 i1 with
        | Some (o2, b2, i2) => Some (o1 ++ o2, b2, i2)
        | None => None
        end
    | None => None
    end.
Proof.
  revert buf idx. induction xs as [|x xs IH]; intros buf idx; simpl.
  - destruct (recurrenceInPlace len fb wet dry ys buf idx) as [[[o b] i]|];
      reflexivity.
  - destruct (vec_get buf idx) as [d|]; [|reflexivity].
    destruct (vec_set buf idx _) as [b'|]; [|reflexivity].
    rewrite IH.
    destruct (recurrenceInPlace len fb wet dry xs b' (advance len idx))
      as [[[o1 b1] i1]|]; [|reflexivity].
    destruct (recurrenceInPlace len fb wet dry ys b1 i1) as [[[o2 b2] i2]|];
      reflexivity.
Qed.

Lemma recurrenceInPlace_shape len fb wet dry (xs : list Q) :
  forall (buf : list Q) (idx : Z) outs b j,
    recurrenceInPlace len fb wet dry xs buf idx = Some (outs, b, j) ->
    0 <= idx < Z.of_nat (length buf) -> len <= Z.of_nat (length buf) ->
    length b = length buf /\ 0 <= j < Z.of_nat (length buf).
Proof.
  induction xs as [|x xs IH]; intros buf idx outs b j H Hidx Hlen.
  - simpl in H. injection H as <- <- <-. auto.
  - cbn [recurrenceInPlace] in H. cbv zeta in H.
    destruct (vec_get buf idx) as [d|]; [|discriminate].
    destruct (vec_set buf idx _) as [b1|] eqn:Hset; [|discriminate].
    destruct (recurrenceInPlace len fb wet dry xs b1 (advance len idx))
      as [[[o2 b2] i2]|] eqn:Hrec; [|discriminate].
    injection H as <- <- <-.
    apply vec_set_inv in Hset. destruct Hset as [_ ->].
    destruct (IH _ _ _ _ _ Hrec) as [H1 H2].
    + rewrite length_insert. apply advance_range; assumption.
    + now rewrite length_insert.
    + rewrite length_insert in H1, H2. auto.
Qed.

(** On the scalar path the size of the host's buffers does not matter:
    on a prepared engine whose cursor is inside its delay lines, with the
    same parameter values, one callback on a buffer returns, channel by
    channel, the samples that a callback on its first part followed by a
    callback on the rest returns, and leaves the same engine. *)
Theorem scalar_callbacks_compose (simdWidth : Z) (fuel : nat)
  (par : parameters) (e : SharcDelayLine) (inL1 inR1 inL2 inR2 : list Q) :
  par_bypass par = false -> par_simd par = false ->
  prepared e = true ->
  Cxx.INT_MIN <= Cxx.Qtrunc (par_delay par * sRate e) <= Cxx.INT_MAX ->
  length inR1 = length inL1 -> length inR2 = length inL2 ->
  length (delayLineRight e) = length (delayLineLeft e) ->
  1 <= maxDelaySamples e <= Z.of_nat (length (delayLineLeft e)) ->
  0 <= delayIndex e < Z.of_nat (length (delayLineLeft e)) ->
  exists o o1 o2 l1 r1 l2 r2,
    processBlock simdWidth fuel par e [inL1 ++ inL2; inR1 ++ inR2] = Ok o
    /\ processBlock simdWidth fuel par e [inL1; inR1] = Ok o1
    /\ processBlock simdWidth fuel par (engine o1) [inL2; inR2] = Ok o2
    /\ arrays o1 = [l1; r1] /\ arrays o2 = [l2; r2]
    /\ arrays o = [l1 ++ l2; r1 ++ r2]
    /\ engine o = engine o2.
Proof.
  intros Hby Hsw Hprep Hconv Hl1 Hl2 Hlen Hmax Hidx.
  pose proof (loopLength_range e (par_delay par) ltac:(lia)) as Hloop.
  destruct (scalar_callback simdWidth fuel par e (inL1 ++ inL2)
              (inR1 ++ inR2) Hby Hsw Hprep Hconv
              ltac:(rewrite !length_app; lia) Hlen Hmax Hidx)
    as (o & outsL & outsR & bL & bR & j & RL & RR & Eo & Ea & EbL & EbR & Ej
        & Ed & Ef & Ew & Ey & Em & Es & Ep).
  destruct (scalar_callback simdWidth fuel par e inL1 inR1 Hby Hsw Hprep
              Hconv Hl1 Hlen Hmax Hidx)
    as (o1 & outsL1 & outsR1 & bL1 & bR1 & j1 & RL1 & RR1 & Eo1 & Ea1
        & EbL1 & EbR1 & Ej1 & Ed1 & Ef1 & Ew1 & Ey1 & Em1 & Es1 & Ep1).
  destruct (recurrenceInPlace_shape _ _ _ _ _ _ _ _ _ _ RL1 Hidx ltac:(lia))
    as [HsL HjL].
  destruct (recurrenceInPlace_shape _ _ _ _ _ _ _ _ _ _ RR1
              ltac:(rewrite Hlen; exact Hidx) ltac:(rewrite Hlen; lia))
    as [HsR _].
  assert (Hloop1 : loopLength (engine o1) (par_delay par)
                   = loopLength e (par_delay par)).
  { unfold loopLength. now rewrite Em1, Es1. }
  destruct (scalar_callback simdWidth fuel par (engine o1) inL2 inR2 Hby Hsw
              Ep1 ltac:(rewrite Es1; exact Hconv) Hl2
              ltac:(rewrite EbL1, EbR1; congruence)
              ltac:(rewrite Em1, EbL1, HsL; exact Hmax)
              ltac:(rewrite Ej1, EbL1, HsL; exact HjL))
    as (o2 & outsL2 & outsR2 & bL2 & bR2 & j2 & RL2 & RR2 & Eo2 & Ea2
        & EbL2 & EbR2 & Ej2 & Ed2 & Ef2 & Ew2 & Ey2 & Em2 & Es2 & Ep2).
  rewrite Hloop1, EbL1, Ej1 in RL2. rewrite Hloop1, EbR1, Ej1 in RR2.
  rewrite recurrenceInPlace_app, RL1, RL2 in RL.
  rewrite recurrenceInPlace_app, RR1, RR2 in RR.
  injection RL as <- <- <-. injection RR as <- <-.
  exists o, o1, o2, outsL1, outsR1, outsL2, outsR2.
  split; [exact Eo|]. split; [exact Eo1|]. split; [exact Eo2|].
  split; [exact Ea1|]. split; [exact Ea2|]. split; [exact Ea|].
  rewrite Hloop1 in Ed2. rewrite Em1 in Em2. rewrite Es1 in Es2.
  destruct (engine o), (engine o2). simpl in *. congruence.
Qed.

Lemma scalar_callbacks_compose_witness :
  exists o o1 o2 l1 r1 l2 r2,
    processBlock 4 0 par_scalar plugin8
      [[1; 1]%Q ++ [1]%Q; [1; 1]%Q ++ [1]%Q] = Ok o
    /\ processBlock 4 0 par_scalar plugin8 [[1; 1]%Q; [1; 1]%Q] = Ok o1
    /\ processBlock 4 0 par_scalar (engine o1) [[1]%Q; [1]%Q] = Ok o2
    /\ arrays o1 = [l1; r1] /\ arrays o2 = [l2; r2]
    /\ arrays o = [l1 ++ l2; r1 ++ r2]
    /\ engine o = engine o2.
Proof.
  apply (scalar_callbacks_compose 4 0 par_scalar plugin8 [1; 1]%Q [1; 1]%Q
           [1]%Q [1]%Q).
  - reflexivity.
  - reflexivity.
  - reflexivity.
  - vm_compute. intuition discriminate.
  - reflexivity.
  - reflexivity.
  - reflexivity.
  - vm_compute. intuition discriminate.
  - vm_compute. intuition discriminate.
Defined.

(** ** Blocks that leave the delay lines *)

Lemma vec_get_beyond (v : list Q) (i : Z) :
  Z.of_nat (length v) <= i -> vec_get v i = None.
Proof.
  intros H. unfold vec_get. destruct (i <? 0); [reflexivity|].
  apply lookup_ge_None_2. lia.
Qed.

Lemma scalarSample_beyond (fb wet dry : Q) (p : io) (idx : Z) (s : machine) :
  Z.of_nat (length (bufferLeft s)) <= idx ->
  scalarSample fb wet dry p idx s = Undefined.
Proof.
  intros H. unfold scalarSample, bind, readDelay. simpl.
  now rewrite vec_get_beyond.
Qed.

(** When the loop is longer than the delay lines ([prepare] keeps
    [delaySamples]: 48000 on a new engine, or what an earlier sample rate
    left), the scalar path walks off their end: on a prepared engine
    obtained by any sequence of calls, with
    [maxDelaySamples < delaySamples] and a block longer than the distance
    from the cursor to the capacity, [processBlockScalar] reads
    [bufferLeft[maxDelaySamples]], one past the last element. *)
Theorem scalar_block_runs_off_the_delay_lines (e : SharcDelayLine) (p : io)
  (numSamples : Z) (m : memory) :
  reachable e -> prepared e = true ->
  0 <= delayIndex e <= maxDelaySamples e ->
  maxDelaySamples e < delaySamples e ->
  maxDelaySamples e - delayIndex e < numSamples ->
  valid_io m p numSamples ->
  processBlockScalar e p numSamples m = Undefined.
Proof.
  intros Hr Hprep Hidx Hlen Hn Hp.
  destruct (reachable_well_sized e Hr Hprep) as [HL HR].
  unfold processBlockScalar. rewrite Hprep. simpl negb. cbv iota.
  set (k := Z.to_nat (maxDelaySamples e - delayIndex e)).
  replace (Z.to_nat numSamples)
    with (k + S (Z.to_nat numSamples - k - 1))%nat by lia.
  rewrite scalarLoop_app. unfold bind.
  rewrite scalarLoop_linear by lia.
  assert (Hwf : wf (Z.to_nat (maxDelaySamples e)) (map length m) (enter e m)).
  { split; [exact HL|split; [exact HR|reflexivity]]. }
  destruct (okay_tailLoop (Z.to_nat (maxDelaySamples e)) (map length m)
              (Z.of_nat (Z.to_nat (maxDelaySamples e)))
              (feedback e) (wetMix e) (dryMix e) (Z.le_refl _)
              k (io_add p 0) (delayIndex e) ltac:(lia) ltac:(lia)
              ltac:(eapply fits_io_sub; [exact Hp|lia|lia])
              (enter e m) Hwf)
    as (r & s' & evs & Erun & _ & (HL' & _) & _).
  rewrite Erun. destruct r as [p' i'].
  destruct (Z.geb_spec (delayIndex e + Z.of_nat k) (delaySamples e)); [lia|].
  cbn [scalarLoop]. unfold bind.
  rewrite scalarSample_beyond by lia. reflexivity.
Qed.

Lemma reachable_engine8_fresh : reachable engine8_fresh.
Proof.
  apply (reach_prepare 8 1 defaultDelayLine); [constructor|].
  vm_compute. reflexivity.
Qed.

Lemma scalar_block_runs_off_the_delay_lines_witness :
  processBlockScalar engine8_fresh apart 9 silence9 = Undefined.
Proof.
  apply (scalar_block_runs_off_the_delay_lines engine8_fresh apart 9
           silence9).
  - exact reachable_engine8_fresh.
  - reflexivity.
  - vm_compute. intuition discriminate.
  - vm_compute. reflexivity.
  - vm_compute. reflexivity.
  - unfold valid_io, fits_io, fits. simpl.
    repeat split; try lia; eexists; (split; [reflexivity|]); simpl; lia.
Defined.

(** *** An engine without capacity *)

Lemma vec_get_nil (i : Z) : vec_get [] i = None.
Proof. unfold vec_get. now destruct (i <? 0). Qed.

Lemma scalarSample_nil (fb wet dry : Q) (p : io) (idx : Z) (s : machine) :
  bufferLeft s = [] -> scalarSample fb wet dry p idx s = Undefined.
Proof.
  intros H. unfold scalarSample, bind, readDelay. simpl.
  now rewrite H, vec_get_nil.
Qed.

Lemma simdChunk_nil (fb wet dry : Q) (simdWidth : Z) (p : io)
  (offset : Z) (s : machine) :
  0 < simdWidth -> bufferLeft s = [] ->
  simdChunk fb wet dry simdWidth p offset s = Undefined.
Proof.
  intros HW H. unfold simdChunk, fromRawDelay, lanes. cbv zeta.
  unfold bind at 1.
  destruct (isSIMDAligned simdWidth offset); [|reflexivity].
  destruct (Z.to_nat simdWidth) as [|w] eqn:Ew; [lia|].
  cbn [seq map mapM]. unfold bind at 1. unfold readDelay. simpl.
  now rewrite H, vec_get_nil.
Qed.

(** With empty delay lines the outer loop of the SIMD path never
    returns: it faults at its first access, or turns without end. *)
Lemma simdWhile_nil (len : Z) (fb wet dry : Q) (simdWidth : Z)
  (fuel : nat) :
  0 < simdWidth ->
  forall (p : io) (rem idx : Z) (s : machine) r,
    bufferLeft s = [] -> 1 <= rem ->
    simdWhile len fb wet dry simdWidth fuel p rem idx s <> Ok r.
Proof.
  intros HW. induction fuel as [|fuel IH]; intros p rem idx s r Hs Hrem;
    cbn [simdWhile]; destruct (Z.gtb_spec rem 0) as [_|]; try lia.
  { discriminate. }
  cbv zeta. set (ste := Juce.jmin_int rem (len - idx)).
  assert (Hle : ste <= rem).
  { unfold ste, Juce.jmin_int. destruct (Z.ltb_spec (len - idx) rem); lia. }
  pose proof (Z.quot_rem' ste simdWidth) as Hqr.
  unfold bind at 1. unfold noteSegment.
  destruct (Z_le_gt_dec ste 0) as [Hneg|Hpos].
  - destruct (quot_rem_nonpos ste simdWidth Hneg HW) as (Hq & Ht & _).
    replace (Z.to_nat (Z.quot ste simdWidth)) with 0%nat by lia.
    replace (Z.to_nat (Z.rem ste simdWidth)) with 0%nat by lia.
    unfold bind. cbn [simdLoop tailLoop ret fst snd].
    apply IH; [exact Hs|lia].
  - assert (Hq : 0 <= Z.quot ste simdWidth) by (apply Z.quot_pos; lia).
    assert (Ht : 0 <= Z.rem ste simdWidth)
      by (apply Z.rem_bound_pos; lia).
    destruct (Z.to_nat (Z.quot ste simdWidth)) as [|q] eqn:Eq.
    + unfold bind at 1. cbn [simdLoop ret].
      destruct (Z.to_nat (Z.rem ste simdWidth)) as [|t] eqn:Et; [nia|].
      unfold bind at 1. cbn [tailLoop]. unfold bind at 1.
      rewrite scalarSample_nil by exact Hs. discriminate.
    + unfold bind at 1. cbn [simdLoop]. unfold bind at 1.
      rewrite simdChunk_nil by (first [exact HW|exact Hs]). discriminate.
Qed.

(** [prepare] accepts a capacity of no sample at all: when
    [0 <= sRate * maxDelaySeconds < 1] it returns a prepared engine with
    empty delay lines.  On a prepared engine with empty delay lines,
    whatever [setDelaySeconds] made of the loop, no block of one sample
    or more can be processed: the scalar path reads [bufferLeft[idx]] of
    an empty vector, and the SIMD path does so too or never leaves its
    outer loop. *)
Theorem engine_without_capacity_processes_nothing :
  (forall (sr maxDelaySeconds : Q) (e0 : SharcDelayLine),
      (0 <= sr * maxDelaySeconds)%Q -> (sr * maxDelaySeconds < 1)%Q ->
      exists e,
        prepare sr maxDelaySeconds e0 = Some e
        /\ prepared e = true /\ maxDelaySamples e = 0
        /\ delayLineLeft e = [] /\ delayLineRight e = [])
  /\ (forall (e : SharcDelayLine) (p : io) (numSamples : Z) (m : memory),
        prepared e = true -> delayLineLeft e = [] -> 1 <= numSamples ->
        processBlockScalar e p numSamples m = Undefined
        /\ forall simdWidth fuel o,
             0 < simdWidth ->
             processBlockSIMD simdWidth fuel e p numSamples m <> Ok o).
Proof.
  split.
  - intros sr mds e0 H0 H1.
    assert (Ht : Cxx.Qtrunc (sr * mds) = 0).
    { rewrite Qtrunc_floor by exact H0.
      pose proof (Qfloor_le (sr * mds)) as A.
      pose proof (Qlt_floor (sr * mds)) as B.
      pose proof (Qfloor_resp_le 0 (sr * mds) H0) as C.
      change (Qfloor 0) with 0 in C.
      assert (D : (inject_Z (Qfloor (sr * mds)) < inject_Z 1)%Q).
      { eapply Qle_lt_trans; [exact A|exact H1]. }
      rewrite <- Zlt_Qlt in D. lia. }
    unfold prepare.
    rewrite static_cast_int_Some
      by (rewrite Ht; unfold Cxx.INT_MIN, Cxx.INT_MAX; lia).
    rewrite Ht. simpl. eexists. split; [reflexivity|]. simpl.
    unfold Cxx.fill, Cxx.resize. simpl. auto.
  - intros e p n m Hprep Hnil Hn. split.
    + unfold processBlockScalar. rewrite Hprep. simpl negb. cbv iota.
      destruct (Z.to_nat n) as [|k] eqn:Ek; [lia|].
      cbn [scalarLoop]. unfold bind.
      rewrite scalarSample_nil by exact Hnil. reflexivity.
    + intros simdWidth fuel o HW E.
      unfold processBlockSIMD in E. rewrite Hprep in E. simpl in E.
      destruct (simdWhile _ _ _ _ _ _ _ _ _ _) as [[idx s]| |] eqn:Ec;
        try discriminate.
      exact (simdWhile_nil _ _ _ _ _ _ HW _ _ _ (enter e m) _ Hnil Hn Ec).
Qed.

Lemma engine_without_capacity_processes_nothing_witness :
  (exists e,
      prepare 44100 (1 # 100000) defaultDelayLine = Some e
      /\ prepared e = true /\ maxDelaySamples e = 0
      /\ delayLineLeft e = [] /\ delayLineRight e = [])
  /\ (processBlockScalar engine_empty apart 1 ones3 = Undefined
      /\ forall simdWidth fuel o,
           0 < simdWidth ->
           processBlockSIMD simdWidth fuel engine_empty apart 1 ones3
           <> Ok o).
Proof.
  split.
  - apply (proj1 engine_without_capacity_processes_nothing 44100%Q
             (1 # 100000)%Q defaultDelayLine).
    + vm_compute. discriminate.
    + vm_compute. reflexivity.
  - apply (proj2 engine_without_capacity_processes_nothing engine_empty
             apart 1 ones3).
    + reflexivity.
    + reflexivity.
    + lia.
Defined.

(** ** Blocks without samples *)

(** A block of no sample, or of a negative count, is a no-op on both
    paths: on every engine (prepared or not, whatever its cursor, its
    loop and its capacity), for every pointers and arrays, every vector
    width and loop bound, the call returns the engine and the arrays
    unchanged and touches nothing. *)
Theorem block_without_samples_is_noop (simdWidth : Z) (fuel : nat)
  (e : SharcDelayLine) (p : io) (numSamples : Z) (m : memory) :
  numSamples <= 0 ->
  processBlockScalar e p numSamples m
  = Ok {| engine := e; arrays := m; events := [] |}
  /\ processBlockSIMD simdWidth fuel e p numSamples m
     = Ok {| engine := e; arrays := m; events := [] |}.
Proof.
  intros Hn. unfold processBlockScalar, processBlockSIMD.
  destruct (prepared e); simpl; [|split; reflexivity].
  replace (Z.to_nat numSamples) with 0%nat by lia.
  split.
  - simpl. now rewrite engine_eta.
  - destruct fuel; cbn [simdWhile];
      (destruct (Z.gtb_spec numSamples 0); [lia|]);
      simpl; now rewrite engine_eta.
Qed.

Lemma block_without_samples_is_noop_witness :
  processBlockScalar engine8_shrunk apart (-1) ones3
  = Ok {| engine := engine8_shrunk; arrays := ones3; events := [] |}
  /\ processBlockSIMD 4 0 engine8_shrunk apart (-1) ones3
     = Ok {| engine := engine8_shrunk; arrays := ones3; events := [] |}.
Proof.
  apply (block_without_samples_is_noop 4 0 engine8_shrunk apart (-1) ones3).
  lia.
Defined.

(** ** How loud a callback can get *)

Lemma mix_within (wet dry x d : Q) :
  (0 <= wet)%Q -> (0 <= dry)%Q -> in_unit x -> in_unit d ->
  within (dry + wet) (x * dry + d * wet).
Proof.
  unfold in_unit, within. intros Hw Hd [Hx1 Hx2] [Hd1 Hd2].
  assert (A1 : (0 <= (1 - x) * dry)%Q) by (apply Qmult_le_0_compat; lra).
  assert (A2 : (0 <= (x + 1) * dry)%Q) by (apply Qmult_le_0_compat; lra).
  assert (A3 : (0 <= (1 - d) * wet)%Q) by (apply Qmult_le_0_compat; lra).
  assert (A4 : (0 <= (d + 1) * wet)%Q) by (apply Qmult_le_0_compat; lra).
  assert (E1 : ((1 - x) * dry == dry - x * dry)%Q) by ring.
  assert (E2 : ((x + 1) * dry == x * dry + dry)%Q) by ring.
  assert (E3 : ((1 - d) * wet == wet - d * wet)%Q) by ring.
  assert (E4 : ((d + 1) * wet == d * wet + wet)%Q) by ring.
  rewrite E1 in A1. rewrite E2 in A2. rewrite E3 in A3. rewrite E4 in A4.
  split; lra.
Qed.

Lemma recurrenceInPlace_bound len fb wet dry (xs : list Q) :
  (0 <= wet)%Q -> (0 <= dry)%Q ->
  forall (buf : list Q) (idx : Z) outs b j,
    Forall in_unit xs -> Forall in_unit buf ->
    recurrenceInPlace len fb wet dry xs buf idx = Some (outs, b, j) ->
    Forall (within (dry + wet)) outs /\ Forall in_unit b.
Proof.
  intros Hw Hd. induction xs as [|x xs IH];
    intros buf idx outs b j Hxs Hbuf H.
  - simpl in H. injection H as <- <- <-. split; [constructor|exact Hbuf].
  - cbn [recurrenceInPlace] in H. cbv zeta in H.
    destruct (vec_get buf idx) as [d|] eqn:Hget; [|discriminate].
    destruct (vec_set buf idx _) as [b1|] eqn:Hset; [|discriminate].
    destruct (recurrenceInPlace len fb wet dry xs b1 (advance len idx))
      as [[[o2 b2] i2]|] eqn:Hrec; [|discriminate].
    injection H as <- <- <-.
    apply vec_set_inv in Hset. destruct Hset as [_ ->].
    assert (Hdu : in_unit d).
    { unfold vec_get in Hget. destruct (idx <? 0); [discriminate|].
      eapply Forall_lookup_1; [exact Hbuf|exact Hget]. }
    destruct (IH _ _ _ _ _ (Forall_inv_tail Hxs)
                (Forall_insert _ _ _ _ Hbuf (jlimit_in_unit _)) Hrec)
      as [Ho Hb].
    split; [|exact Hb]. constructor; [|exact Ho].
    apply mix_within; auto. exact (Forall_inv Hxs).
Qed.

(** There is no limiter on the output.  A callback on the scalar path,
    on a prepared engine whose cursor is inside its delay lines and whose
    delay lines hold values in [-1, 1], given a stereo buffer of samples
    in [-1, 1], returns samples within [-(dry + wet), dry + wet], with
    [dry] and [wet] as their setters clamp them, and leaves the delay
    lines in [-1, 1].  The bound is reached: at 8 Hz with a quarter of a
    second of delay and both gains at 1, three samples of 1 come back as
    1, 1, 2. *)
Theorem scalar_callback_output_bound :
  (forall (simdWidth : Z) (fuel : nat) (par : parameters)
          (e : SharcDelayLine) (inL inR : list Q),
      par_bypass par = false -> par_simd par = false ->
      prepared e = true ->
      Cxx.INT_MIN <= Cxx.Qtrunc (par_delay par * sRate e) <= Cxx.INT_MAX ->
      length inR = length inL ->
      length (delayLineRight e) = length (delayLineLeft e) ->
      1 <= maxDelaySamples e <= Z.of_nat (length (delayLineLeft e)) ->
      0 <= delayIndex e < Z.of_nat (length (delayLineLeft e)) ->
      clipped e -> Forall in_unit inL -> Forall in_unit inR ->
      exists o outsL outsR,
        processBlock simdWidth fuel par e [inL; inR] = Ok o
        /\ arrays o = [outsL; outsR]
        /\ Forall (within (Juce.jlimit 0 1 (par_dry par)
                           + Juce.jlimit 0 1 (par_wet par))) outsL
        /\ Forall (within (Juce.jlimit 0 1 (par_dry par)
                           + Juce.jlimit 0 1 (par_wet par))) outsR
        /\ clipped (engine o))
  /\ (exists o,
        processBlock 4 0 par_echo plugin8 [[1; 1; 1]%Q; [1; 1; 1]%Q] = Ok o
        /\ samples 0 (arrays o) = [1; 1; 2]%Q).
Proof.
  split.
  - intros simdWidth fuel par e inL inR Hby Hsw Hprep Hconv HlenR Hlen Hmax
      Hidx [HcL HcR] HinL HinR.
    destruct (scalar_callback simdWidth fuel par e inL inR Hby Hsw Hprep
                Hconv HlenR Hlen Hmax Hidx)
      as (o & outsL & outsR & bL & bR & j & RL & RR & Eo & Ea & EbL & EbR
          & _).
    pose proof (jlimit_range 0 1 (par_wet par) ltac:(lra)) as [Hw _].
    pose proof (jlimit_range 0 1 (par_dry par) ltac:(lra)) as [Hd _].
    destruct (recurrenceInPlace_bound _ _ _ _ _ Hw Hd _ _ _ _ _ HinL HcL RL)
      as [HoL HbL].
    destruct (recurrenceInPlace_bound _ _ _ _ _ Hw Hd _ _ _ _ _ HinR HcR RR)
      as [HoR HbR].
    exists o, outsL, outsR.
    split; [exact Eo|]. split; [exact Ea|]. split; [exact HoL|].
    split; [exact HoR|]. unfold clipped. rewrite EbL, EbR. auto.
  - eexists. split; [vm_compute; reflexivity|]. reflexivity.
Qed.

Lemma scalar_callback_output_bound_witness :
  exists o outsL outsR,
    processBlock 4 0 par_scalar plugin8 [[1; 1; 1]%Q; [1; 1; 1]%Q] = Ok o
    /\ arrays o = [outsL; outsR]
    /\ Forall (within (Juce.jlimit 0 1 (par_dry par_scalar)
                       + Juce.jlimit 0 1 (par_wet par_scalar))) outsL
    /\ Forall (within (Juce.jlimit 0 1 (par_dry par_scalar)
                       + Juce.jlimit 0 1 (par_wet par_scalar))) outsR
    /\ clipped (engine o).
Proof.
  apply (proj1 scalar_callback_output_bound 4 0%nat par_scalar plugin8
           [1; 1; 1]%Q [1; 1; 1]%Q).
  - reflexivity.
  - reflexivity.
  - reflexivity.
  - vm_compute. intuition discriminate.
  - reflexivity.
  - reflexivity.
  - vm_compute. intuition discriminate.
  - vm_compute. intuition discriminate.
  - split; apply (Forall_in_unit_zeros 40).
  - repeat (apply List.Forall_cons;
            [unfold in_unit; split; vm_compute; discriminate|]).
    apply List.Forall_nil.
  - repeat (apply List.Forall_cons;
            [unfold in_unit; split; vm_compute; discriminate|]).
    apply List.Forall_nil.
Defined.

(** ** Splitting a block of the SIMD path *)

Lemma valid_io_shrink (m : memory) (p : io) (n j : Z) :
  valid_io m p n -> 0 <= j <= n -> valid_io m p j.
Proof.
  intros H Hj. unfold valid_io in *. rewrite <- (io_add_0 p).
  eapply fits_io_sub; [exact H|lia|lia].
Qed.

(** A SIMD block that returns on arrays apart keeps the entry condition
    and the lengths of the arrays. *)
Lemma simd_block_keeps_entry (simdWidth : Z) (fuel : nat)
  (e : SharcDelayLine) (p : io) (n : Z) (m : memory) (o : outcome) :
  0 < simdWidth -> simd_entry e -> outputs_apart p ->
  0 <= n -> valid_io m p n ->
  processBlockSIMD simdWidth fuel e p n m = Ok o ->
  simd_entry (engine o) /\ map length (arrays o) = map length m.
Proof.
  intros HW He Hap Hn Hp Ho.
  pose proof (simd_block_cursor simdWidth fuel e p n m o HW
                (proj1 He) (proj1 (proj2 He)) Hn Ho) as Hcur.
  destruct (paths_agree simdWidth fuel e p n m o HW He Hap Hn Hp Ho)
    as (s & Es & _ & Hsa).
  destruct (block_keeps_parameters simdWidth fuel e p n m o (or_intror Ho))
    as (Emax & Elen & _ & _ & _ & _ & Epr).
  destruct He as (Hprep & Hidx & Hmax & HL & HR).
  destruct (scalar_block_total e p n m Hprep HL HR ltac:(lia) Hmax Hn Hp)
    as (s' & Es' & _ & _ & _ & Hshape & _).
  rewrite Es in Es'. injection Es' as <-.
  assert (Hws : well_sized e) by (intros _; auto).
  pose proof (block_keeps_size simdWidth fuel e p n m o Hws (or_intror Ho))
    as Hsz.
  split; [|rewrite <- Hsa; exact Hshape].
  unfold simd_entry. rewrite Emax, Elen, Epr.
  split; [exact Hprep|].
  split; [rewrite Hcur; apply Z.mod_pos_bound; lia|].
  split; [exact Hmax|].
  rewrite <- Emax. apply Hsz. congruence.
Qed.

(** Whenever the three calls return, the whole and the pieces agree. *)
Lemma simd_block_splits (simdWidth : Z) (fuel : nat) (e : SharcDelayLine)
  (p : io) (n1 n2 : Z) (m : memory) (o o1 o2 : outcome) :
  0 < simdWidth -> simd_entry e -> outputs_apart p ->
  0 <= n1 -> 0 <= n2 -> valid_io m p (n1 + n2) ->
  processBlockSIMD simdWidth fuel e p (n1 + n2) m = Ok o ->
  processBlockSIMD simdWidth fuel e p n1 m = Ok o1 ->
  processBlockSIMD simdWidth fuel (engine o1) (io_add p n1) n2 (arrays o1)
  = Ok o2 ->
  engine o = engine o2 /\ arrays o = arrays o2.
Proof.
  intros HW He Hap Hn1 Hn2 Hp Eo Eo1 Eo2.
  assert (Hp1 : valid_io m p n1)
    by (apply (valid_io_shrink m p (n1 + n2) n1 Hp); lia).
  destruct (paths_agree simdWidth fuel e p (n1 + n2) m o HW He Hap
              ltac:(lia) Hp Eo) as (s & Es & Hse & Hsa).
  destruct (paths_agree simdWidth fuel e p n1 m o1 HW He Hap Hn1 Hp1 Eo1)
    as (s1 & Es1 & Hse1 & Hsa1).
  destruct (simd_block_keeps_entry simdWidth fuel e p n1 m o1 HW He Hap Hn1
              Hp1 Eo1) as [He1 Hshape1].
  assert (Hp2 : valid_io (arrays o1) (io_add p n1) n2).
  { unfold valid_io. rewrite Hshape1.
    eapply fits_io_sub; [exact Hp|lia|lia]. }
  destruct (paths_agree simdWidth fuel (engine o1) (io_add p n1) n2
              (arrays o1) o2 HW He1 Hap Hn2 Hp2 Eo2)
    as (s2 & Es2 & Hse2 & Hsa2).
  rewrite (processBlockScalar_split e p n1 n2 m Hn1 Hn2) in Es.
  rewrite Es1 in Es. cbn [andThen] in Es.
  rewrite Hse1, Hsa1, Es2 in Es. injection Es as <-.
  simpl in Hse, Hsa. split; congruence.
Qed.

(** When the vector width divides the cursor, the loop length, the
    offsets of the pointers and the length of the first piece, the three
    calls return. *)
Lemma simd_block_pieces_return (simdWidth : Z) (fuel : nat)
  (e : SharcDelayLine) (p : io) (n1 n2 : Z) (m : memory) :
  0 < simdWidth -> simd_entry e -> outputs_apart p ->
  0 <= n1 -> 0 <= n2 -> valid_io m p (n1 + n2) ->
  delayIndex e mod simdWidth = 0 -> delaySamples e mod simdWidth = 0 ->
  io_aligned simdWidth p -> n1 mod simdWidth = 0 ->
  (Z.to_nat (n1 + n2) <= fuel)%nat ->
  exists o o1 o2,
    processBlockSIMD simdWidth fuel e p (n1 + n2) m = Ok o
    /\ processBlockSIMD simdWidth fuel e p n1 m = Ok o1
    /\ processBlockSIMD simdWidth fuel (engine o1) (io_add p n1) n2
         (arrays o1) = Ok o2.
Proof.
  intros HW He Hap Hn1 Hn2 Hp Ai Al Ap A1 Hfuel.
  assert (Hp1 : valid_io m p n1)
    by (apply (valid_io_shrink m p (n1 + n2) n1 Hp); lia).
  assert (Hal : forall n, aligned_block simdWidth (delaySamples e)
                            (delayIndex e) p n) by (intros n; right; auto).
  destruct (simd_block_total simdWidth fuel e p (n1 + n2) m HW He (Hal _)
              ltac:(lia) Hp Hfuel) as (o & Eo & _).
  destruct (simd_block_total simdWidth fuel e p n1 m HW He (Hal _) Hn1 Hp1
              ltac:(lia)) as (o1 & Eo1 & _).
  destruct (simd_block_keeps_entry simdWidth fuel e p n1 m o1 HW He Hap Hn1
              Hp1 Eo1) as [He1 Hshape1].
  destruct (block_keeps_parameters simdWidth fuel e p n1 m o1
              (or_intror Eo1)) as (_ & Elen & _).
  pose proof (simd_block_cursor simdWidth fuel e p n1 m o1 HW
                (proj1 He) (proj1 (proj2 He)) Hn1 Eo1) as Hcur.
  assert (Hp2 : valid_io (arrays o1) (io_add p n1) n2).
  { unfold valid_io. rewrite Hshape1.
    eapply fits_io_sub; [exact Hp|lia|lia]. }
  destruct (simd_block_total simdWidth fuel (engine o1) (io_add p n1) n2
              (arrays o1) HW He1) as (o2 & Eo2 & _); try assumption;
    try lia.
  { right. rewrite Elen, Hcur.
    split; [|split; [exact Al|now apply io_aligned_add]].
    destruct He as (_ & Hidx & _).
    apply mod_round_the_loop; auto; lia. }
  exists o, o1, o2. auto.
Qed.

(** A block of the SIMD path on output arrays apart from the input
    arrays, on a prepared engine obtained by any sequence of calls whose
    cursor is inside the loop.  Whenever the call on [n1 + n2] samples,
    the call on the first [n1] and the call on the next [n2] return, the
    whole leaves the engine and the arrays the pieces leave.  They all
    return when the vector width divides the cursor, the loop length, the
    offsets of the four pointers and [n1].  A split elsewhere can fault
    where the whole does not: with a vector width of 4, eight samples on
    [engine8] return, their first three too, and the five that follow
    load a register from [bufferLeft + 3].  In place the pieces differ
    from the whole: through [processBlock], twelve samples of ones at
    8 Hz come back as [1/2 (x8), 1 (x4)] from one buffer of twelve and as
    [1/2 (x8), 3/4 (x4)] from six buffers of two, where the scalar path
    gives [1/2 (x8), 3/4 (x4)] either way. *)
Theorem simd_block_splits_on_arrays_apart :
  (forall (simdWidth : Z) (fuel : nat) (e : SharcDelayLine) (p : io)
          (n1 n2 : Z) (m : memory),
      0 < simdWidth -> reachable e -> entry_condition e ->
      outputs_apart p ->
      0 <= n1 -> 0 <= n2 -> valid_io m p (n1 + n2) ->
      (forall o o1 o2,
          processBlockSIMD simdWidth fuel e p (n1 + n2) m = Ok o ->
          processBlockSIMD simdWidth fuel e p n1 m = Ok o1 ->
          processBlockSIMD simdWidth fuel (engine o1) (io_add p n1) n2
            (arrays o1) = Ok o2 ->
          engine o = engine o2 /\ arrays o = arrays o2)
      /\ (delayIndex e mod simdWidth = 0 ->
          delaySamples e mod simdWidth = 0 ->
          io_aligned simdWidth p -> n1 mod simdWidth = 0 ->
          (Z.to_nat (n1 + n2) <= fuel)%nat ->
          exists o o1 o2,
            processBlockSIMD simdWidth fuel e p (n1 + n2) m = Ok o
            /\ processBlockSIMD simdWidth fuel e p n1 m = Ok o1
            /\ processBlockSIMD simdWidth fuel (engine o1) (io_add p n1) n2
                 (arrays o1) = Ok o2
            /\ engine o = engine o2 /\ arrays o = arrays o2))
  /\ (exists o o1,
        processBlockSIMD 4 8 engine8 apart 8 ones8 = Ok o
        /\ processBlockSIMD 4 8 engine8 apart 3 ones8 = Ok o1
        /\ processBlockSIMD 4 8 (engine o1) (io_add apart 3) 5 (arrays o1)
           = Undefined)
  /\ (leftOf (host 4 12 (run_whole simd_default) defaultDelayLine)
      = repeat (1 # 2)%Q 8 ++ repeat 1%Q 4
      /\ leftOf (host 4 12 (run_pieces simd_default) defaultDelayLine)
         = repeat (1 # 2)%Q 8 ++ repeat (3 # 4)%Q 4
      /\ leftOf (host 4 12 (run_whole par_scalar) defaultDelayLine)
         = repeat (1 # 2)%Q 8 ++ repeat (3 # 4)%Q 4
      /\ leftOf (host 4 12 (run_pieces par_scalar) defaultDelayLine)
         = repeat (1 # 2)%Q 8 ++ repeat (3 # 4)%Q 4).
Proof.
  split; [|split].
  - intros simdWidth fuel e p n1 n2 m HW Hr He Hap Hn1 Hn2 Hp.
    pose proof (reachable_simd_entry e Hr He) as Hentry.
    split.
    + intros o o1 o2.
      now apply (simd_block_splits simdWidth fuel e p n1 n2 m o o1 o2).
    + intros Ai Al Ap A1 Hfuel.
      destruct (simd_block_pieces_return simdWidth fuel e p n1 n2 m HW
                  Hentry Hap Hn1 Hn2 Hp Ai Al Ap A1 Hfuel)
        as (o & o1 & o2 & Eo & Eo1 & Eo2).
      exists o, o1, o2.
      split; [exact Eo|]. split; [exact Eo1|]. split; [exact Eo2|].
      now apply (simd_block_splits simdWidth fuel e p n1 n2 m o o1 o2).
  - eexists _, _. split; [vm_compute; reflexivity|].
    split; [vm_compute; reflexivity|]. vm_compute. reflexivity.
  - repeat split; vm_compute; reflexivity.
Qed.

Lemma simd_block_splits_on_arrays_apart_witness :
  exists o o1 o2,
    processBlockSIMD 4 8 engine8 apart (4 + 4) ones8 = Ok o
    /\ processBlockSIMD 4 8 engine8 apart 4 ones8 = Ok o1
    /\ processBlockSIMD 4 8 (engine o1) (io_add apart 4) 4 (arrays o1)
       = Ok o2
    /\ engine o = engine o2 /\ arrays o = arrays o2.
Proof.
  apply (proj2 (proj1 simd_block_splits_on_arrays_apart 4 8%nat engine8
                  apart 4 4 ones8
                  ltac:(lia) reachable_engine8
                  ltac:(unfold entry_condition; vm_compute;
                        intuition discriminate)
                  ltac:(unfold outputs_apart; simpl; lia)
                  ltac:(lia) ltac:(lia)
                  ltac:(unfold valid_io, fits_io, fits; simpl;
                        repeat split; try lia;
                        eexists; (split; [reflexivity|]); simpl; lia))).
  - reflexivity.
  - reflexivity.
  - vm_compute. intuition reflexivity.
  - reflexivity.
  - simpl. lia.
Defined.
